(** * The shiritori quiz manager: registry, actions and the action driver

    A shallow embedding of the per-location action chain of the manager
    (registry, [closeSession], [endQuiz], the skip, save and input commands,
    [startSession], the action classes and [chainActions]) and the properties
    of its specification.

    Conventions of the embedding.
    - The process-wide [state.shiritoriManager] object and the mutable fields
      of the session and action objects form the [World]; every function
      threads it explicitly.  The two registries are plain objects: their
      own properties are a map from location ids, and a read [obj[key]] of a
      key that is no own property finds what [Object.prototype] provides
      under that name ([get]).  Where the program goes on with what it read
      from the registry of sessions ([isSessionInProgressAtLocation], the
      save and stop commands) the read is that of [get].  The driver runs at
      a location that [startSession] has registered, and the commands and
      [endQuiz] look into an action only for a method that no inherited
      value has: these reads are those of the own property.
    - Session and action objects are shared by reference in the program: the
      registry, the driver and the closures of an action all hold the same
      object.  An object is an immutable value carrying its identity ([sid],
      the [id] of an action); its mutable fields live in the world, keyed by
      that identity.
    - Collaborators (message sender, content provider, save manager, the
      session's game logic) are not part of the listing.  Their answers come
      from an environment [Env] of oracles indexed by the number of events
      recorded so far, so an answer may depend on the whole history.  Message
      delivery, content and persistence calls may fault, synchronously
      ([Raise]) or through a rejected promise ([Reject]); the completion of a
      session, [finalize], returns a promise that may be rejected; the
      accessors and in-memory operations of a session do not fault, and
      every call settles.
    - A promise is the outcome it settles to.  Where the program awaits a
      collaborator or a timer, the commands that the environment schedules
      there ([skipCommand], [processUserInput]) run before it resumes; the
      callback of a timer runs unless the promise it serves was settled
      before.  The stop commands are run on a world of their own call, not
      inside a chain; chains that overlap at one location are outside the
      embedding.
    - Every collaborator call, every log line and every step of the driver is
      recorded in the [trace] of the world, most recent event first.
    - Recursion through the chain is bounded by fuel; [Unsettled] is the chain
      that needs more of it. *)

From Stdlib Require Import ZArith.
From stdpp Require Import gmap strings list.

Open Scope Z_scope.

(** ** Constants of the module *)

Definition LOGGER_TITLE : string := "QUIZ".
Definition INITIAL_DELAY_IN_MS : Z := 5000.
Definition REVEAL_INTERVAL_IN_MS : Z := 8000.
Definition MAX_SAVES_PER_USER : nat := 5.
Definition MINIMUM_ANSWER_LIMIT_IN_MS : Z := 4000.
Definition END_STATUS_ERROR : Z := 1.

(** ** Data *)

Abbreviation LocationId := string.
Abbreviation UserId := string.

(** A non-empty string is truthy in JavaScript, the empty one is not. *)
Definition truthy (s : string) : bool :=
  match s with EmptyString => false | String _ _ => true end.

(** The properties that every plain object inherits from [Object.prototype]:
    methods, and the accessor [__proto__], whose value is the prototype. *)
Definition Object_prototype : list string :=
  [ "constructor"; "__defineGetter__"; "__defineSetter__"; "hasOwnProperty";
    "__lookupGetter__"; "__lookupSetter__"; "isPrototypeOf"; "propertyIsEnumerable";
    "toString"; "valueOf"; "__proto__"; "toLocaleString" ].

Definition inherited (key : string) : bool := bool_decide (key ∈ Object_prototype).

(** What a read [object[key]] of a plain object finds: the value of an own
    property, what the prototype provides (a function or the prototype
    itself: truthy, and none of the objects of this module), or
    [undefined]. *)
Inductive Property (A : Type) :=
| Own (a : A)
| Inherited
| Undefined.
Arguments Own {A} a.
Arguments Inherited {A}.
Arguments Undefined {A}.

Definition get {A} (object : gmap string A) (key : string) : Property A :=
  match object !! key with
  | Some a => Own a
  | None => if inherited key then Inherited else Undefined
  end.

(** The objects of this module are truthy, as are the inherited values. *)
Definition is_truthy {A} (p : Property A) : bool :=
  match p with Own _ | Inherited => true | Undefined => false end.

Inductive Error :=
| ReferenceError (identifier : string)
| TypeError (message : string)
| AssertionError (message : string)
| Fault (tag : string).

(** What a call of a collaborator does: return a value (or a promise
    fulfilled with it), return a rejected promise, or throw. *)
Inductive Reply (A : Type) :=
| Ok (a : A)
| Reject (e : Error)
| Raise (e : Error).
Arguments Ok {A} a.
Arguments Reject {A} e.
Arguments Raise {A} e.

(** What a function of the module does: [Fulfilled] is a returned value or a
    promise fulfilled with it, [Rejected] a rejected promise, [Thrown] a
    synchronous exception.  [Unsettled] is the model running out of fuel. *)
Inductive Outcome (A : Type) :=
| Fulfilled (a : A)
| Rejected (e : Error)
| Thrown (e : Error)
| Unsettled.
Arguments Fulfilled {A} a.
Arguments Rejected {A} e.
Arguments Thrown {A} e.
Arguments Unsettled {A}.

Record GameMode := {
  isReviewMode : bool;
  onlyOwnerOrAdminCanStop : bool;
}.

Record Card := {
  question : string;
  wasPreprocessed : bool;
  answerTimeLimitInMs : Z;
  numberOfReveals : nat;
  additionalAnswerWaitTimeInMs : Z;
  newQuestionDelayAfterAnsweredInMs : Z;
  newQuestionDelayAfterUnansweredInMs : Z;
}.

Definition markPreprocessed (c : Card) : Card :=
  {| question := question c;
     wasPreprocessed := true;
     answerTimeLimitInMs := answerTimeLimitInMs c;
     numberOfReveals := numberOfReveals c;
     additionalAnswerWaitTimeInMs := additionalAnswerWaitTimeInMs c;
     newQuestionDelayAfterAnsweredInMs := newQuestionDelayAfterAnsweredInMs c;
     newQuestionDelayAfterUnansweredInMs := newQuestionDelayAfterUnansweredInMs c |}.

(** The accessors of a session object; [sid] is the identity of the object. *)
Record Session := {
  sid : nat;
  getName : string;
  getLocationId : LocationId;
  getOwnerId : UserId;
  getGameMode : GameMode;
  getScoreLimit : Z;
}.

(** The action classes.  [id] is the identity of the object, the other
    arguments are those of the constructor. *)
Inductive Action :=
| EndQuizForErrorAction (id : nat) (session_ : Session)
| EndQuizScoreLimitReachedAction (id : nat) (session_ : Session)
| EndQuizNoQuestionsLeftAction (id : nat) (session_ : Session)
| EndQuizTooManyWrongAnswersAction (id : nat) (session_ : Session)
| ShowAnswersAction (id : nat) (session_ : Session)
| ShowWrongAnswerAction (id : nat) (session_ : Session) (skipped_ : bool)
| AskQuestionAction (id : nat) (session_ : Session)
| AskInitialQuestionAction (id : nat) (session_ : Session)
| StartAction (id : nat) (session_ : Session)
| WaitAction (id : nat) (session_ : Session) (waitInterval_ : Z) (nextAction_ : Action)
| SaveAction (id : nat) (session_ : Session) (savingUserId_ : UserId).

Definition getSession_ (a : Action) : Session :=
  match a with
  | EndQuizForErrorAction _ s | EndQuizScoreLimitReachedAction _ s
  | EndQuizNoQuestionsLeftAction _ s | EndQuizTooManyWrongAnswersAction _ s
  | ShowAnswersAction _ s | ShowWrongAnswerAction _ s _ | AskQuestionAction _ s
  | AskInitialQuestionAction _ s | StartAction _ s | WaitAction _ s _ _
  | SaveAction _ s _ => s
  end.

Definition action_id (a : Action) : nat :=
  match a with
  | EndQuizForErrorAction i _ | EndQuizScoreLimitReachedAction i _
  | EndQuizNoQuestionsLeftAction i _ | EndQuizTooManyWrongAnswersAction i _
  | ShowAnswersAction i _ | ShowWrongAnswerAction i _ _ | AskQuestionAction i _
  | AskInitialQuestionAction i _ | StartAction i _ | WaitAction i _ _ _
  | SaveAction i _ _ => i
  end.

(** The four End-Quiz variants. *)
Definition is_end_quiz (a : Action) : bool :=
  match a with
  | EndQuizForErrorAction _ _ | EndQuizScoreLimitReachedAction _ _
  | EndQuizNoQuestionsLeftAction _ _ | EndQuizTooManyWrongAnswersAction _ _ => true
  | _ => false
  end.

(** The state of the promise whose resolvers an action keeps in [fulfill_]
    (and [reject_]).  Settling a settled promise does nothing. *)
Inductive Promise :=
| Pending
| FulfilledWith (next : option Action)
| RejectedWith (e : Error).

(** The mutable fields of an action object; a field that was never assigned
    is [undefined]: [false], [None]. *)
Record Fields := {
  readyForAnswers_ : bool;
  shownQuestionId_ : option nat;
  fulfill_ : option Promise;
}.

Definition no_fields : Fields :=
  {| readyForAnswers_ := false; shownQuestionId_ := None; fulfill_ := None |}.

(** ** Events *)

Inductive Sender :=
| SenderOf (session : nat)        (* session.getMessageSender() *)
| AmbientSender.                   (* the free identifier messageSender *)

Inductive Notification :=
| notifyStarting (delayInMs : Z)
| notifyQuizEndedError
| notifyQuizEndedScoreLimitReached (scoreLimit : Z)
| notifyQuizEndedNoQuestionsLeft (gameMode : GameMode)
| notifyQuizEndedTooManyWrongAnswers (wrongAnswersCount : Z)
| notifySaving
| notifySaveFailedNoSpace (maxSaves : nat)
| notifySaveFailedIsReview
| notifySaveFailedNotOwner
| notifySaveSuccessful
| showQuestion (q : string) (prior : option nat)
| showWrongAnswer (card : Card) (skipped : bool)
| outputQuestionScorers (card : Card).

(** The commands that arrive while a chain is suspended: skips and answers.
    A stop command is not among them; [stopQuizCommand] and
    [stopAllQuizzesCommand] are run on the world of their own call. *)
Inductive Command :=
| CmdSkip (locationId : LocationId)
| CmdInput (locationId : LocationId) (userId userName input : string).

Inductive Event :=
| EvSend (sender : Sender) (n : Notification)
| EvLogFailure (message : string)
| EvLogSuccess (message : string)
| EvFinalize (session : nat) (gameOver : bool)
| EvClearTimers (session : nat)
| EvAddTimer (session : nat) (delayInMs : Z)
| EvGetNextCard (session : nat)
| EvSetCurrentCard (session : nat) (card : Card)
| EvMarkCurrentCardAnswered (session : nat)
| EvMarkCurrentCardUnanswered (session : nat)
| EvTryAcceptAnswer (session : nat) (userId userName input : string)
| EvCreateSaveData (session : nat)
| EvPreprocess (card : Card)
| EvCreateQuestion (card : Card)
| EvCreateTextQuestionWithHint (card : Card)
| EvGetRandomWord
| EvGetSaveMementos (userId : UserId)
| EvSave (userId : UserId)
| EvDo (locationId : LocationId) (action : Action)   (* the driver runs action.do() *)
| EvSkipped (locationId : LocationId) (result : bool)  (* skipCommand returned *)
| EvInput (locationId : LocationId) (result : Error + bool). (* processUserInput returned or threw *)

(** ** The world *)

Record World := {
  sessionForLocationId : gmap LocationId Session;
  currentActionForLocationId : gmap LocationId Action;
  saveRequestedByUserId : gmap nat UserId;   (* field of the session objects *)
  fields : gmap nat Fields;                  (* fields of the action objects *)
  nextId : nat;                              (* identity of the next object *)
  trace : list Event;
}.

Definition initial_world : World :=
  {| sessionForLocationId := ∅; currentActionForLocationId := ∅;
     saveRequestedByUserId := ∅; fields := ∅; nextId := 0; trace := [] |}.

Definition set_sessions (m : gmap LocationId Session) (w : World) : World :=
  {| sessionForLocationId := m;
     currentActionForLocationId := currentActionForLocationId w;
     saveRequestedByUserId := saveRequestedByUserId w;
     fields := fields w; nextId := nextId w; trace := trace w |}.

Definition set_currentActions (m : gmap LocationId Action) (w : World) : World :=
  {| sessionForLocationId := sessionForLocationId w;
     currentActionForLocationId := m;
     saveRequestedByUserId := saveRequestedByUserId w;
     fields := fields w; nextId := nextId w; trace := trace w |}.

Definition set_saveRequested (m : gmap nat UserId) (w : World) : World :=
  {| sessionForLocationId := sessionForLocationId w;
     currentActionForLocationId := currentActionForLocationId w;
     saveRequestedByUserId := m;
     fields := fields w; nextId := nextId w; trace := trace w |}.

Definition set_fields (m : gmap nat Fields) (w : World) : World :=
  {| sessionForLocationId := sessionForLocationId w;
     currentActionForLocationId := currentActionForLocationId w;
     saveRequestedByUserId := saveRequestedByUserId w;
     fields := m; nextId := nextId w; trace := trace w |}.

Definition set_nextId (n : nat) (w : World) : World :=
  {| sessionForLocationId := sessionForLocationId w;
     currentActionForLocationId := currentActionForLocationId w;
     saveRequestedByUserId := saveRequestedByUserId w;
     fields := fields w; nextId := n; trace := trace w |}.

Definition emit (e : Event) (w : World) : World :=
  {| sessionForLocationId := sessionForLocationId w;
     currentActionForLocationId := currentActionForLocationId w;
     saveRequestedByUserId := saveRequestedByUserId w;
     fields := fields w; nextId := nextId w; trace := e :: trace w |}.

(** The index at which the oracles are consulted. *)
Definition clock (w : World) : nat := length (trace w).

Definition logFailure (message : string) (w : World) : World :=
  emit (EvLogFailure message) w.
Definition logSuccess (message : string) (w : World) : World :=
  emit (EvLogSuccess message) w.

(** [new C(...)]: a fresh object identity. *)
Definition new (class : nat -> Action) (w : World) : Action * World :=
  (class (nextId w), set_nextId (S (nextId w)) w).

Definition fields_of (i : nat) (w : World) : Fields :=
  default no_fields (fields w !! i).

Definition set_readyForAnswers (i : nat) (w : World) : World :=
  let f := fields_of i w in
  set_fields (<[i := {| readyForAnswers_ := true;
                        shownQuestionId_ := shownQuestionId_ f;
                        fulfill_ := fulfill_ f |}]> (fields w)) w.

Definition set_shownQuestionId (i : nat) (m : option nat) (w : World) : World :=
  let f := fields_of i w in
  set_fields (<[i := {| readyForAnswers_ := readyForAnswers_ f;
                        shownQuestionId_ := m;
                        fulfill_ := fulfill_ f |}]> (fields w)) w.

Definition set_promise (i : nat) (p : Promise) (w : World) : World :=
  let f := fields_of i w in
  set_fields (<[i := {| readyForAnswers_ := readyForAnswers_ f;
                        shownQuestionId_ := shownQuestionId_ f;
                        fulfill_ := Some p |}]> (fields w)) w.

(** [new Promise((fulfill, reject) => { this.fulfill_ = fulfill; ... })] *)
Definition new_promise (i : nat) (w : World) : World := set_promise i Pending w.

(** Calling the resolvers kept by action [i]: only a pending promise changes. *)
Definition settle (i : nat) (p : Promise) (w : World) : World :=
  match fulfill_ (fields_of i w) with
  | Some Pending => set_promise i p w
  | _ => w
  end.

(** ** The environment *)

Record Env := {
  (* whether the free identifier [messageSender], which the listing declares
     nowhere, is bound where the module is loaded *)
  ambient_messageSender : bool;
  toLowerCase : string -> string;             (* String.prototype.toLowerCase *)
  (* message sender: every notify*, showQuestion, showWrongAnswer, ... *)
  delivery : nat -> Reply nat;
  (* content provider *)
  getRandomWord : nat -> option Error;        (* Some e: throws e *)
  preprocess : nat -> Reply (option Card);    (* None: the sentinel false *)
  createQuestion : nat -> Reply string;
  createTextQuestionWithHint : nat -> Reply (option string);
  (* save manager *)
  getSaveMementos : nat -> Reply (list nat);
  save : nat -> Reply unit;
  (* session.finalize(gameOver): Some e when its promise is rejected with e *)
  finalize : nat -> option Error;
  (* game logic of the session *)
  getNextCard : nat -> option Card;
  getCurrentCard : nat -> Card;
  tryAcceptAnswer : nat -> bool;
  checkTooManyWrongAnswers : nat -> bool;
  checkForWin : nat -> bool;
  getUnansweredQuestionsInARow : nat -> Z;
  (* commands that arrive while the chain is suspended on a collaborator *)
  commands : nat -> list Command;
  (* while a question is open: commands and firings of the reveal timer that
     happen before the answer deadline; [None] is a firing of the reveal timer *)
  beforeDeadline : nat -> list (option Command);
}.

(** ** Methods of the actions that commands reach *)

Section Manager.

Variable env : Env.

(** [stop()], of the actions that have one: [if (this.fulfill_) this.fulfill_()]. *)
Definition has_stop (a : Action) : bool :=
  match a with
  | ShowAnswersAction _ _ | AskQuestionAction _ _ | WaitAction _ _ _ _ => true
  | _ => false
  end.

Definition Action_stop (a : Action) (w : World) : World :=
  if has_stop a then settle (action_id a) (FulfilledWith None) w else w.

(** [AskQuestionAction.skip()].  The session cannot fault, so the handler of
    the [try] is not reached. *)
Definition AskQuestionAction_skip (i : nat) (session : Session) (w : World) : World :=
  match fulfill_ (fields_of i w) with
  | Some _ =>
      let w := emit (EvMarkCurrentCardUnanswered (sid session)) w in
      let '(next, w) := new (fun j => ShowWrongAnswerAction j session true) w in
      settle i (FulfilledWith (Some next)) w
  | None => w
  end.

(** [session.tryAcceptAnswer(userId, userName, input)] *)
Definition session_tryAcceptAnswer (session : Session) (userId userName input : string)
    (w : World) : bool * World :=
  (tryAcceptAnswer env (clock w),
   emit (EvTryAcceptAnswer (sid session) userId userName input) w).

(** [AskQuestionAction.tryAcceptUserInput].  Calling [this.fulfill_] while it
    is still undefined throws a TypeError. *)
Definition AskQuestionAction_tryAcceptUserInput (i : nat) (session : Session)
    (userId userName input : string) (w : World) : (Error + bool) * World :=
  if negb (readyForAnswers_ (fields_of i w)) then (inr false, w)
  else
    let '(accepted, w) := session_tryAcceptAnswer session userId userName input w in
    if accepted then
      let '(next, w) := new (fun j => ShowAnswersAction j session) w in
      match fulfill_ (fields_of i w) with
      | Some _ => (inr accepted, settle i (FulfilledWith (Some next)) w)
      | None => (inl (TypeError "this.fulfill_ is not a function"), w)
      end
    else (inr accepted, w).

(** [ShowAnswersAction.tryAcceptUserInput] *)
Definition ShowAnswersAction_tryAcceptUserInput (session : Session)
    (userId userName input : string) (w : World) : (Error + bool) * World :=
  let '(accepted, w) := session_tryAcceptAnswer session userId userName input w in
  (inr accepted, w).

(** The capabilities of an action: the methods that its class defines. *)
Definition has_skip (a : Action) : bool :=
  match a with AskQuestionAction _ _ => true | _ => false end.

Definition has_tryAcceptUserInput (a : Action) : bool :=
  match a with AskQuestionAction _ _ | ShowAnswersAction _ _ => true | _ => false end.

Definition Action_skip (a : Action) (w : World) : World :=
  match a with
  | AskQuestionAction i session => AskQuestionAction_skip i session w
  | _ => w
  end.

Definition Action_tryAcceptUserInput (a : Action) (userId userName input : string)
    (w : World) : (Error + bool) * World :=
  match a with
  | AskQuestionAction i session =>
      AskQuestionAction_tryAcceptUserInput i session userId userName input w
  | ShowAnswersAction _ session =>
      ShowAnswersAction_tryAcceptUserInput session userId userName input w
  | _ => (inr false, w)
  end.

(** ** Commands *)

Definition skipCommand_ (locationId : LocationId) (w : World) : bool * World :=
  match currentActionForLocationId w !! locationId with
  | Some action =>
      if has_skip action then (true, Action_skip action w) else (false, w)
  | None => (false, w)
  end.

Definition processUserInput_ (locationId : LocationId) (userId userName input : string)
    (w : World) : (Error + bool) * World :=
  let input := toLowerCase env input in
  match currentActionForLocationId w !! locationId with
  | None => (inr false, w)
  | Some currentAction =>
      if has_tryAcceptUserInput currentAction
      then Action_tryAcceptUserInput currentAction userId userName input w
      else (inr false, w)
  end.

(** The commands as a caller sees them; what each returned is recorded. *)
Definition skipCommand (locationId : LocationId) (w : World) : bool * World :=
  let '(r, w) := skipCommand_ locationId w in (r, emit (EvSkipped locationId r) w).

Definition processUserInput (locationId : LocationId) (userId userName input : string)
    (w : World) : (Error + bool) * World :=
  let '(r, w) := processUserInput_ locationId userId userName input w in
  (r, emit (EvInput locationId r) w).

Definition run_command (w : World) (c : Command) : World :=
  match c with
  | CmdSkip l => snd (skipCommand l w)
  | CmdInput l u n i => snd (processUserInput l u n i w)
  end.

(** The chain is suspended on a collaborator: the commands that arrive
    meanwhile run before it resumes. *)
Definition suspend (w : World) : World :=
  fold_left run_command (commands env (clock w)) w.

(** ** Collaborator calls *)

(** A call of the message sender whose result the caller does not await. *)
Definition post (sender : Sender) (n : Notification) (w : World) : Reply nat * World :=
  (delivery env (clock w), emit (EvSend sender n) w).

(** A call of the message sender; [Promise.resolve] of its result is awaited
    by the caller unless the call threw. *)
Definition send (sender : Sender) (n : Notification) (w : World) : Reply nat * World :=
  match post sender n w with
  | (Raise e, w) => (Raise e, w)
  | (r, w) => (r, suspend w)
  end.

Definition call {A} (oracle : nat -> Reply A) (e : Event) (w : World) : Reply A * World :=
  let r := oracle (clock w) in
  let w := emit e w in
  match r with
  | Raise e => (Raise e, w)
  | _ => (r, suspend w)
  end.

Definition session_clearTimers (session : Session) (w : World) : World :=
  emit (EvClearTimers (sid session)) w.

Definition session_addTimer (session : Session) (delayInMs : Z) (w : World) : World :=
  emit (EvAddTimer (sid session) delayInMs) w.

(** [Promise.resolve(session.finalize(gameOver))]: the completion of the
    session, whose promise the caller awaits. *)
Definition session_finalize (session : Session) (gameOver : bool) (w : World)
    : Outcome unit * World :=
  let r := finalize env (clock w) in
  let w := suspend (emit (EvFinalize (sid session) gameOver) w) in
  match r with
  | None => (Fulfilled tt, w)
  | Some err => (Rejected err, w)
  end.

(** What a promise callback makes of its body: an exception that the body
    throws rejects the promise of the callback. *)
Definition in_callback {A} (r : Outcome A * World) : Outcome A * World :=
  match r with
  | (Thrown err, w) => (Rejected err, w)
  | r => r
  end.

(** Modelled from the spec: [Util.retryPromise(factory, n)], the retry helper,
    is not part of the listing.  It is the bounded-attempt wrapper of the
    specification: the factory is called until one attempt is fulfilled, at
    most [n] times, and the last rejection is passed on.  It does not
    intercept an exception of the factory: thrown by the first attempt, which
    runs in the caller, it propagates; thrown by a later one, which runs in a
    promise callback, it rejects the result. *)
Fixpoint retry_from {A} (attempts : nat) (first : bool) (factory : World -> Reply A * World)
    (w : World) : Outcome A * World :=
  match attempts with
  | O => (Rejected (Fault "retryPromise: no attempt"), w)
  | S more =>
      match factory w with
      | (Ok a, w) => (Fulfilled a, w)
      | (Reject e, w) =>
          match more with
          | O => (Rejected e, w)
          | S _ => retry_from more false factory w
          end
      | (Raise e, w) => if first then (Thrown e, w) else (Rejected e, w)
      end
  end.

Definition retryPromise {A} (factory : World -> Reply A * World) (attempts : nat)
    (w : World) : Outcome A * World :=
  retry_from attempts true factory w.

(** ** Stopping *)

Definition closeSession (session : option Session) (gameOver : bool) (w : World)
    : Outcome unit * World :=
  match session with
  | None => (Fulfilled tt, w)
  | Some s =>
      let locationId := getLocationId s in
      let w := set_sessions (delete locationId (sessionForLocationId w)) w in
      let w := set_currentActions (delete locationId (currentActionForLocationId w)) w in
      session_finalize s gameOver w
  end.

Definition END_QUIZ_FAILURE : string :=
  "Error ending quiz. Continuing and closing session.".

Definition endQuiz (gameOver : bool) (session : option Session) (notifier : Sender)
    (notifyDelegate : Notification) (w : World) : Outcome unit * World :=
  match session with
  | None => (Fulfilled tt, w)
  | Some s =>
      let locationId := getLocationId s in
      let w :=
        match currentActionForLocationId w !! locationId with
        | Some current =>
            let w := Action_stop current w in
            set_currentActions (delete locationId (currentActionForLocationId w)) w
        | None => w
        end in
      match retryPromise (send notifier notifyDelegate) 3 w with
      | (Fulfilled _, w) => in_callback (closeSession session true w)
      | (Rejected err, w) =>
          in_callback (closeSession session true (logFailure END_QUIZ_FAILURE w))
      | (Thrown err, w) => closeSession session true (logFailure END_QUIZ_FAILURE w)
      | (Unsettled, w) => (Unsettled, w)
      end
  end.

(** ** The actions *)

Definition ENDING_FOR_ERROR_FAILURE : string :=
  "Error ending quiz gracefully for error. Attempting to close session.".

(** The handler shared by the [.catch] and the [catch] of
    [EndQuizForErrorAction.do]: close the session, then rethrow. *)
Definition closeAndRethrow (session : Session) (err : Error) (w : World)
    : Outcome (option Action) * World :=
  let w := logFailure ENDING_FOR_ERROR_FAILURE w in
  match closeSession (Some session) true w with
  | (Fulfilled _, w) => (Rejected err, logSuccess "Session closed successfully." w)
  | (Rejected e, w) => (Rejected e, w)
  | (Thrown e, w) => (Thrown e, w)
  | (Unsettled, w) => (Unsettled, w)
  end.

(** The body of the [try] of [EndQuizForErrorAction.do], up to the promise of
    [endQuiz].  [session.getClientDelegate()] is an accessor; reading the
    identifier [messageSender] throws a ReferenceError unless the identifier
    is bound outside the listing. *)
Definition EndQuizForErrorAction_try (session : Session) (w : World)
    : Outcome unit * World :=
  let w := logFailure "Stopping for error" w in
  if ambient_messageSender env then
    endQuiz true (Some session) AmbientSender notifyQuizEndedError w
  else (Thrown (ReferenceError "messageSender"), w).

(** [EndQuizForErrorAction.do]: a rejection of the promise of [endQuiz]
    reaches the handler of [.catch], an exception that of [catch]. *)
Definition EndQuizForErrorAction_do (session : Session) (w : World)
    : Outcome (option Action) * World :=
  match EndQuizForErrorAction_try session w with
  | (Fulfilled _, w) => (Fulfilled None, w)
  | (Rejected err, w) => in_callback (closeAndRethrow session err w)
  | (Thrown err, w) => closeAndRethrow session err w
  | (Unsettled, w) => (Unsettled, w)
  end.

(** The result of an End-Quiz action whose [do] is [return endQuiz(...)]. *)
Definition returning_endQuiz (r : Outcome unit * World) : Outcome (option Action) * World :=
  match r with
  | (Fulfilled _, w) => (Fulfilled None, w)
  | (Rejected e, w) => (Rejected e, w)
  | (Thrown e, w) => (Thrown e, w)
  | (Unsettled, w) => (Unsettled, w)
  end.

Definition EndQuizScoreLimitReachedAction_do (session : Session) (w : World)
    : Outcome (option Action) * World :=
  let scoreLimit := getScoreLimit session in
  returning_endQuiz (endQuiz true (Some session) (SenderOf (sid session))
                       (notifyQuizEndedScoreLimitReached scoreLimit) w).

Definition EndQuizNoQuestionsLeftAction_do (session : Session) (w : World)
    : Outcome (option Action) * World :=
  returning_endQuiz (endQuiz true (Some session) (SenderOf (sid session))
                       (notifyQuizEndedNoQuestionsLeft (getGameMode session)) w).

Definition EndQuizTooManyWrongAnswersAction_do (session : Session) (w : World)
    : Outcome (option Action) * World :=
  let wrongAnswersCount := getUnansweredQuestionsInARow env (clock w) in
  returning_endQuiz (endQuiz true (Some session) (SenderOf (sid session))
                       (notifyQuizEndedTooManyWrongAnswers wrongAnswersCount) w).

(** The promise of action [i], as the caller of [do] sees it. *)
Definition settlement (i : nat) (w : World) : Outcome (option Action) * World :=
  match fulfill_ (fields_of i w) with
  | Some (FulfilledWith next) => (Fulfilled next, w)
  | Some (RejectedWith e) => (Rejected e, w)
  | _ => (Unsettled, w)
  end.

(** [new WaitAction(session, delay, new AskQuestionAction(session))] *)
Definition new_wait_then_ask (session : Session) (delay : Z) (w : World) : Action * World :=
  let '(ask, w) := new (fun j => AskQuestionAction j session) w in
  new (fun j => WaitAction j session delay ask) w.

(** The callback of the timer of [ShowAnswersAction.do].  The scoreboard is
    sent and not awaited; the log line of its rejection is recorded where it
    is sent. *)
Definition showAnswersTimerFires (i : nat) (session : Session) (currentCard : Card)
    (w : World) : World :=
  let w := emit (EvMarkCurrentCardAnswered (sid session)) w in
  match post (SenderOf (sid session)) (outputQuestionScorers currentCard) w with
  | (Raise err, w) => settle i (RejectedWith err) w
  | (r, w) =>
      let w := match r with
               | Reject _ => logFailure "Failed to output the scoredboard." w
               | _ => w
               end in
      if checkForWin env (clock w) then
        let '(next, w) := new (fun j => EndQuizScoreLimitReachedAction j session) w in
        settle i (FulfilledWith (Some next)) w
      else
        let '(next, w) :=
          new_wait_then_ask session (newQuestionDelayAfterAnsweredInMs currentCard) w in
        settle i (FulfilledWith (Some next)) w
  end.

(** [ShowAnswersAction.do]: the timer fires after the wait, unless the promise
    was settled meanwhile and the driver has cleared the timers. *)
Definition ShowAnswersAction_do (i : nat) (session : Session) (w : World)
    : Outcome (option Action) * World :=
  let currentCard := getCurrentCard env (clock w) in
  let w := new_promise i w in
  let w := session_addTimer session (additionalAnswerWaitTimeInMs currentCard) w in
  let w := suspend w in
  let w := match fulfill_ (fields_of i w) with
           | Some Pending => showAnswersTimerFires i session currentCard w
           | _ => w
           end in
  settlement i w.

Definition ShowWrongAnswerAction_do (session : Session) (skipped : bool) (w : World)
    : Outcome (option Action) * World :=
  let currentCard := getCurrentCard env (clock w) in
  match send (SenderOf (sid session)) (showWrongAnswer currentCard skipped) w with
  | (Raise err, w) => (Thrown err, w)
  | (r, w) =>
      let w := match r with
               | Reject _ =>
                   logFailure ("Failed to show timeout message for " +:+ question currentCard) w
               | _ => w
               end in
      if checkTooManyWrongAnswers env (clock w) then
        let '(next, w) := new (fun j => EndQuizTooManyWrongAnswersAction j session) w in
        (Fulfilled (Some next), w)
      else
        let '(next, w) :=
          new_wait_then_ask session (newQuestionDelayAfterUnansweredInMs currentCard) w in
        (Fulfilled (Some next), w)
  end.

(** [AskInitialQuestionAction.do]: fetches a word and returns nothing. *)
Definition AskInitialQuestionAction_do (session : Session) (w : World)
    : Outcome (option Action) * World :=
  let word := getRandomWord env (clock w) in
  let w := emit EvGetRandomWord w in
  match word with
  | Some err => (Thrown err, w)
  | None => (Fulfilled None, w)
  end.

Definition StartAction_do (session : Session) (w : World)
    : Outcome (option Action) * World :=
  match send (SenderOf (sid session)) (notifyStarting INITIAL_DELAY_IN_MS) w with
  | (Raise err, w) => (Thrown err, w)
  | (r, w) =>
      let w := match r with
               | Reject _ => logFailure "Error showing starting message" w
               | _ => w
               end in
      let '(askQuestionAction, w) := new (fun j => AskInitialQuestionAction j session) w in
      let '(wait, w) :=
        new (fun j => WaitAction j session INITIAL_DELAY_IN_MS askQuestionAction) w in
      (Fulfilled (Some wait), w)
  end.

Definition WaitAction_do (i : nat) (session : Session) (waitInterval : Z)
    (nextAction : Action) (w : World) : Outcome (option Action) * World :=
  let w := new_promise i w in
  let w := session_addTimer session waitInterval w in
  let w := suspend w in
  (* the timer fires; its callback does nothing to a settled promise *)
  let w := settle i (FulfilledWith (Some nextAction)) w in
  settlement i w.

Definition SaveAction_do (session : Session) (savingUserId : UserId) (w : World)
    : Outcome (option Action) * World :=
  let failed w :=
    let w := logFailure "Error saving" w in
    let '(next, w) := new (fun j => EndQuizForErrorAction j session) w in
    (Fulfilled (Some next), w) in
  match closeSession (Some session) false w with
  | (Fulfilled _, w) =>
      let w := emit (EvCreateSaveData (sid session)) w in
      match call (save env) (EvSave savingUserId) w with
      | (Ok _, w) =>
          match send (SenderOf (sid session)) notifySaveSuccessful w with
          | (Ok _, w) => (Fulfilled None, w)
          | (Reject _, w) => (Fulfilled None, logFailure "Error sending quiz save message" w)
          | (Raise _, w) => failed w
          end
      | (_, w) => failed w
      end
  | (Rejected e, w) => failed w
  | (Thrown e, w) => (Thrown e, w)
  | (Unsettled, w) => (Unsettled, w)
  end.

(** *** AskQuestionAction *)

(** [scheduleReveal_(numberOfReveals)]: arms the reveal timer unless no
    reveal is left. *)
Definition scheduleReveal_ (session : Session) (numberOfReveals : nat) (w : World) : World :=
  match numberOfReveals with
  | O => w
  | S _ => session_addTimer session REVEAL_INTERVAL_IN_MS w
  end.

(** The callback of the reveal timer armed by [scheduleReveal_(S more)]. *)
Definition revealTimerFires (i : nat) (session : Session) (more : nat) (w : World) : World :=
  let currentCard := getCurrentCard env (clock w) in
  match call (createTextQuestionWithHint env) (EvCreateTextQuestionWithHint currentCard) w with
  | (Raise err, w) => settle i (RejectedWith err) w
  | (Reject err, w) => settle i (RejectedWith err) w
  | (Ok None, w) => scheduleReveal_ session more w
  | (Ok (Some q), w) =>
      match send (SenderOf (sid session)) (showQuestion q (shownQuestionId_ (fields_of i w))) w with
      | (Raise err, w) => settle i (RejectedWith err) w
      | (Reject _, w) => scheduleReveal_ session more (logFailure "Failed to update reveal." w)
      | (Ok _, w) => scheduleReveal_ session more w
      end
  end.

(** What happens while the question is open, until the promise of the action
    is settled: commands, and firings of the reveal timer while reveals
    remain. *)
Fixpoint questionOpen (happenings : list (option Command)) (reveals : nat)
    (i : nat) (session : Session) (w : World) : World :=
  match happenings with
  | [] => w
  | h :: rest =>
      match fulfill_ (fields_of i w) with
      | Some Pending =>
          match h, reveals with
          | Some c, _ => questionOpen rest reveals i session (run_command w c)
          | None, O => questionOpen rest O i session w
          | None, S more => questionOpen rest more i session (revealTimerFires i session more w)
          end
      | _ => w
      end
  end.

(** The callback of the answer timer. *)
Definition answerTimerFires (i : nat) (session : Session) (w : World) : World :=
  let w := emit (EvMarkCurrentCardUnanswered (sid session)) w in
  let '(next, w) := new (fun j => ShowWrongAnswerAction j session false) w in
  settle i (FulfilledWith (Some next)) w.

(** The last callback of [AskQuestionAction.do]: the question was shown (or
    showing it failed and was logged); open it for answers. *)
Definition AskQuestionAction_open (i : nat) (session : Session) (card : Card)
    (shownQuestionId : option nat) (w : World) : Outcome (option Action) * World :=
  let w := set_shownQuestionId i shownQuestionId w in
  let w := new_promise i w in
  let w := session_addTimer session (answerTimeLimitInMs card) w in
  let w := scheduleReveal_ session (numberOfReveals card) w in
  let w := questionOpen (beforeDeadline env (clock w)) (numberOfReveals card) i session w in
  let w := match fulfill_ (fields_of i w) with
           | Some Pending => answerTimerFires i session w
           | _ => w
           end in
  settlement i w.

(** The callback of [preprocessPromise] for a usable card. *)
Definition AskQuestionAction_ask (i : nat) (session : Session) (card : Card) (w : World)
    : Outcome (option Action) * World :=
  let card := markPreprocessed card in
  let w := emit (EvSetCurrentCard (sid session) card) w in
  let w := set_readyForAnswers i w in
  match call (createQuestion env) (EvCreateQuestion card) w with
  | (Raise err, w) => (Rejected err, w)
  | (Reject err, w) => (Rejected err, w)
  | (Ok q, w) =>
      match retryPromise (send (SenderOf (sid session)) (showQuestion q None)) 3 w with
      | (Fulfilled shownQuestionId, w) => AskQuestionAction_open i session card (Some shownQuestionId) w
      | (Rejected err, w) =>
          AskQuestionAction_open i session card None (logFailure "Error showing question" w)
      | (Thrown err, w) => (Rejected err, w)
      | (Unsettled, w) => (Unsettled, w)
      end
  end.

(** [AskQuestionAction.do]; the fuel bounds the cards found not usable. *)
Fixpoint AskQuestionAction_do (fuel : nat) (i : nat) (session : Session) (w : World)
    : Outcome (option Action) * World :=
  match fuel with
  | O => (Unsettled, w)
  | S fuel =>
      let nextCard := getNextCard env (clock w) in
      let w := emit (EvGetNextCard (sid session)) w in
      match nextCard with
      | None =>
          let '(next, w) := new (fun j => EndQuizNoQuestionsLeftAction j session) w in
          (Fulfilled (Some next), w)
      | Some nextCard =>
          let '(preprocessed, w) :=
            if wasPreprocessed nextCard then (Ok (Some nextCard), w)
            else call (preprocess env) (EvPreprocess nextCard) w in
          match preprocessed with
          | Raise err => (Thrown err, w)
          | Reject err => (Rejected err, w)
          | Ok None =>
              match AskQuestionAction_do fuel i session w with
              | (Thrown err, w) => (Rejected err, w)
              | r => r
              end
          | Ok (Some card) => AskQuestionAction_ask i session card w
          end
      end
  end.

(** ** The driver *)

Definition Action_do (fuel : nat) (a : Action) (w : World) : Outcome (option Action) * World :=
  match a with
  | EndQuizForErrorAction _ s => EndQuizForErrorAction_do s w
  | EndQuizScoreLimitReachedAction _ s => EndQuizScoreLimitReachedAction_do s w
  | EndQuizNoQuestionsLeftAction _ s => EndQuizNoQuestionsLeftAction_do s w
  | EndQuizTooManyWrongAnswersAction _ s => EndQuizTooManyWrongAnswersAction_do s w
  | ShowAnswersAction i s => ShowAnswersAction_do i s w
  | ShowWrongAnswerAction _ s skipped => ShowWrongAnswerAction_do s skipped w
  | AskQuestionAction i s => AskQuestionAction_do fuel i s w
  | AskInitialQuestionAction _ s => AskInitialQuestionAction_do s w
  | StartAction _ s => StartAction_do s w
  | WaitAction i s waitInterval nextAction => WaitAction_do i s waitInterval nextAction w
  | SaveAction _ s savingUserId => SaveAction_do s savingUserId w
  end.

(** The value a chain resolves to: [undefined] or a status. *)
Definition reported (status : Z) (r : Outcome (option Z) * World) : Outcome (option Z) * World :=
  match r with
  | (Fulfilled _, w) => (Fulfilled (Some status), w)
  | (Thrown e, w) => (Rejected e, w)
  | r => r
  end.

(** [chainActions(locationId, action)]; the fuel bounds the length of the
    chain.  [action] is [None] for [undefined]. *)
Fixpoint chainActions (fuel : nat) (locationId : LocationId) (action : option Action)
    (w : World) : Outcome (option Z) * World :=
  match fuel with
  | O => (Unsettled, w)
  | S fuel =>
      match action, sessionForLocationId w !! locationId with
      | Some a, Some session =>
          let w := set_currentActions (<[locationId := a]> (currentActionForLocationId w)) w in
          let w := emit (EvDo locationId a) w in
          (* .catch(err => ...) *)
          let recover w :=
            let w := logFailure "Error" w in
            let '(ending, w) := new (fun j => EndQuizForErrorAction j session) w in
            reported END_STATUS_ERROR (chainActions fuel locationId (Some ending) w) in
          match Action_do fuel a w with
          | (Fulfilled result, w) =>
              let w := session_clearTimers session w in
              match chainActions fuel locationId result w with
              | (Rejected err, w) => recover w
              | (Thrown err, w) => recover w
              | r => r
              end
          | (Rejected err, w) => recover w
          | (Thrown err, w) =>
              (* catch (err) *)
              let w := logFailure "Error in chainActions. Closing the session." w in
              match endQuiz true (Some session) (SenderOf (sid session)) notifyQuizEndedError w with
              | (Fulfilled _, w) => (Fulfilled (Some END_STATUS_ERROR), w)
              | (Rejected e, w) => (Rejected e, w)
              | (Thrown e, w) => (Thrown e, w)
              | (Unsettled, w) => (Unsettled, w)
              end
          | (Unsettled, w) => (Unsettled, w)
          end
      | _, _ => (Fulfilled None, w)
      end
  end.

(** ** Registration and the exported manager *)

(** [!!state.shiritoriManager.sessionForLocationId[locationId]] *)
Definition isSessionInProgressAtLocation (locationId : LocationId) (w : World) : bool :=
  is_truthy (get (sessionForLocationId w) locationId).

(** [assert(condition, message)] *)
Definition assert (condition : bool) (message : string) : option Error :=
  if condition then None else Some (AssertionError message).

Definition setSessionForLocationId (session : Session) (locationId : LocationId) (w : World)
    : Error + World :=
  match assert (negb (isSessionInProgressAtLocation locationId w))
               "Already have a session for that loction ID" with
  | Some err => inl err
  | None => inr (set_sessions (<[locationId := session]> (sessionForLocationId w)) w)
  end.

Definition verifySessionNotInProgress (locationId : LocationId) (w : World) : option Error :=
  assert (negb (isSessionInProgressAtLocation locationId w))
         "Already a session in progress there.".

Definition startSession (fuel : nat) (session : Session) (locationId : LocationId) (w : World)
    : Outcome (option Z) * World :=
  match verifySessionNotInProgress locationId w with
  | Some err => (Thrown err, w)
  | None =>
      match setSessionForLocationId session locationId w with
      | inl err => (Thrown err, w)
      | inr w =>
          let '(start, w) := new (fun j => StartAction j session) w in
          chainActions fuel locationId (Some start) w
      end
  end.

(** ** Saving *)

(** What [saveQuizCommand] resolves to. *)
Inductive SaveAnswer :=
| AnswerFalse                  (* Promise.resolve(false) *)
| AnswerUndefined              (* the callback returned nothing *)
| AnswerOf (reply : nat).      (* what the notification returned *)

Definition notified (r : Reply nat * World) (inCallback : bool) : Outcome SaveAnswer * World :=
  match r with
  | (Ok n, w) => (Fulfilled (AnswerOf n), w)
  | (Reject e, w) => (Rejected e, w)
  | (Raise e, w) => (if inCallback then Rejected e else Thrown e, w)
  end.

(** [if (session.saveRequestedByUserId)] *)
Definition savePending (session : Session) (w : World) : bool :=
  match saveRequestedByUserId w !! sid session with
  | Some userId => truthy userId
  | None => false
  end.

(** [saveQuizCommand] up to the call of [saveManager.getSaveMementos]: the
    result when the command ends there, or the session and the reply of the
    save manager, whose callback has not run yet. *)
Definition saveQuizCommand_issue (locationId : LocationId) (savingUserId : UserId) (w : World)
    : (Outcome SaveAnswer + Session * Reply (list nat)) * World :=
  match get (sessionForLocationId w) locationId with
  | Undefined => (inl (Fulfilled AnswerFalse), w)
  | Inherited => (inl (Thrown (TypeError "session.getGameMode is not a function")), w)
  | Own session =>
      if isReviewMode (getGameMode session) then
        let '(r, w) := notified (send (SenderOf (sid session)) notifySaveFailedIsReview w) false in
        (inl r, w)
      else
        let ownerId := getOwnerId session in
        if negb (String.eqb savingUserId ownerId) then
          let '(r, w) := notified (send (SenderOf (sid session)) notifySaveFailedNotOwner w) false in
          (inl r, w)
        else
          let '(r, w) := call (getSaveMementos env) (EvGetSaveMementos savingUserId) w in
          (inr (session, r), w)
  end.

(** The callback [mementos => ...] of [saveQuizCommand]. *)
Definition saveQuizCommand_then (session : Session) (savingUserId : UserId)
    (mementos : list nat) (w : World) : Outcome SaveAnswer * World :=
  let hasSpace := (length mementos <? MAX_SAVES_PER_USER)%nat in
  if savePending session w then (Fulfilled AnswerUndefined, w)
  else if hasSpace then
    let w := set_saveRequested (<[sid session := savingUserId]> (saveRequestedByUserId w)) w in
    notified (send (SenderOf (sid session)) notifySaving w) true
  else
    notified (send (SenderOf (sid session)) (notifySaveFailedNoSpace MAX_SAVES_PER_USER) w) true.

(** The promise of [getSaveMementos] settles. *)
Definition saveQuizCommand_resume (session : Session) (savingUserId : UserId)
    (r : Reply (list nat)) (w : World) : Outcome SaveAnswer * World :=
  match r with
  | Raise e => (Thrown e, w)
  | Reject e => (Rejected e, w)
  | Ok mementos => saveQuizCommand_then session savingUserId mementos w
  end.

Definition saveQuizCommand (locationId : LocationId) (savingUserId : UserId) (w : World)
    : Outcome SaveAnswer * World :=
  match saveQuizCommand_issue locationId savingUserId w with
  | (inl r, w) => (r, w)
  | (inr (session, r), w) => saveQuizCommand_resume session savingUserId r w
  end.

End Manager.

(** * The vocabulary of the properties *)

(** ** What the functions keep: registry, save requests, and the past *)

Definition is_do (e : Event) : bool :=
  match e with EvDo _ _ => true | _ => false end.

Definition is_send (e : Event) : bool :=
  match e with EvSend _ _ => true | _ => false end.

Definition is_finalize (e : Event) : bool :=
  match e with EvFinalize _ _ => true | _ => false end.

(** The events a command leaves in the trace. *)
Definition is_command_event (e : Event) : bool :=
  match e with
  | EvSkipped _ _ | EvInput _ _ | EvTryAcceptAnswer _ _ _ _
  | EvMarkCurrentCardUnanswered _ => true
  | _ => false
  end.

(** Any event but a step of the driver: what an action may record. *)
Definition is_action_event (e : Event) : bool := negb (is_do e).

(** [w'] extends the trace of [w] by events that satisfy [p]. *)
Definition extends (p : Event -> bool) (w w' : World) : Prop :=
  ∃ new, trace w' = new ++ trace w ∧ forallb p new = true.

(** [w'] has the registry and the save requests of [w], and extends its
    trace by events that satisfy [p]. *)
Definition preserves (p : Event -> bool) (w w' : World) : Prop :=
  sessionForLocationId w' = sessionForLocationId w ∧
  currentActionForLocationId w' = currentActionForLocationId w ∧
  saveRequestedByUserId w' = saveRequestedByUserId w ∧
  extends p w w'.

(** The number of calls of the message sender among the events [l], and so
    far in a world. *)
Definition count_sends (l : list Event) : nat := length (filter (λ e, is_send e = true) l).
Definition sends (w : World) : nat := count_sends (trace w).

(** [closeSession(session, gameOver)] took effect between [w] and [w']: both
    entries of the location of the session are gone and the session was
    finalized. *)
Definition closes (session : Session) (gameOver : bool) (w w' : World) : Prop :=
  sessionForLocationId w' = delete (getLocationId session) (sessionForLocationId w) ∧
  currentActionForLocationId w' = delete (getLocationId session) (currentActionForLocationId w) ∧
  saveRequestedByUserId w' = saveRequestedByUserId w ∧
  ∃ new, trace w' = new ++ trace w ∧ forallb is_action_event new = true ∧
         EvFinalize (sid session) gameOver ∈ new.

(** How the promise of the completion of a session settles, on what
    [finalize] answered. *)
Definition completion (answer : option Error) : Outcome unit :=
  match answer with
  | None => Fulfilled tt
  | Some err => Rejected err
  end.

(** Between [w] and [w'] the session was last finalized with [gameOver],
    nothing but commands came after that, and [o] is how the promise of that
    completion settled. *)
Definition completes (env : Env) (session : Session) (gameOver : bool) (w w' : World)
    (o : Outcome unit) : Prop :=
  ∃ cmds before,
    trace w' = cmds ++ EvFinalize (sid session) gameOver :: before ++ trace w ∧
    forallb is_command_event cmds = true ∧
    o = completion (finalize env (length (before ++ trace w))).

(** Whether [do] of an action closes its session, and with which [gameOver]. *)
Definition closing (a : Action) : option bool :=
  match a with
  | EndQuizForErrorAction _ _ | EndQuizScoreLimitReachedAction _ _
  | EndQuizNoQuestionsLeftAction _ _ | EndQuizTooManyWrongAnswersAction _ _ => Some true
  | SaveAction _ _ _ => Some false
  | _ => None
  end.

(** What any action may do to the registry: at a location, either the
    session stays and the current action stays or goes, or both are gone. *)
Definition advances (w w' : World) : Prop :=
  (∀ l, (sessionForLocationId w' !! l = sessionForLocationId w !! l ∧
         (currentActionForLocationId w' !! l = currentActionForLocationId w !! l ∨
          currentActionForLocationId w' !! l = None)) ∨
        (sessionForLocationId w' !! l = None ∧ currentActionForLocationId w' !! l = None)) ∧
  extends is_action_event w w'.

(** ** The cleanup between two actions *)

(** What the driver did just before it ran [action], when [action] is not the
    first of the chain: it cleared the timers of the session, after the
    action before returned; or it logged a fault and [action] is the error
    ending it created itself. *)
Definition cleanup_before (session : nat) (before : Event) (action : Action) : bool :=
  match before with
  | EvClearTimers s => Nat.eqb s session
  | EvLogFailure message =>
      String.eqb message "Error" &&
      match action with EndQuizForErrorAction _ _ => true | _ => false end
  | _ => false
  end.

(** Every step of the driver among the events [new] (most recent first) that
    has an event before it comes right after the cleanup. *)
Fixpoint timers_cleared (session : nat) (new : list Event) : bool :=
  match new with
  | [] => true
  | e :: past =>
      match e, past with
      | EvDo _ action, before :: _ => cleanup_before session before action
      | _, _ => true
      end && timers_cleared session past
  end.

(** [.then(() => END_STATUS_ERROR)] on the promise [o] of [endQuiz], in the
    [catch] block of the driver. *)
Definition then_status (o : Outcome unit) : Outcome (option Z) :=
  match o with
  | Fulfilled _ => Fulfilled (Some END_STATUS_ERROR)
  | Rejected e => Rejected e
  | Thrown e => Thrown e
  | Unsettled => Unsettled
  end.

(** The sender and the notification that the [do] of an End-Quiz action
    passes to [endQuiz].  The error ending reads them from the identifier
    [messageSender]: it has none where the identifier is unbound. *)
Definition end_quiz_notification (env : Env) (a : Action) (w : World)
    : option (Sender * Notification) :=
  match a with
  | EndQuizForErrorAction _ _ =>
      if ambient_messageSender env then Some (AmbientSender, notifyQuizEndedError) else None
  | EndQuizScoreLimitReachedAction _ s =>
      Some (SenderOf (sid s), notifyQuizEndedScoreLimitReached (getScoreLimit s))
  | EndQuizNoQuestionsLeftAction _ s =>
      Some (SenderOf (sid s), notifyQuizEndedNoQuestionsLeft (getGameMode s))
  | EndQuizTooManyWrongAnswersAction _ s =>
      Some (SenderOf (sid s),
            notifyQuizEndedTooManyWrongAnswers (getUnansweredQuestionsInARow env (clock w)))
  | _ => None
  end.

(** The most recent of the events [l] is not the question of a command to a
    session: no [processUserInput] is half-way. *)
Definition no_question_pending (l : list Event) : bool :=
  match l with
  | EvTryAcceptAnswer _ _ _ _ :: _ => false
  | _ => true
  end.

(** Among the events [l], most recent first, every answer at the location
    was refused without a session being asked: [processUserInput] returned
    false, and what it recorded does not follow the question to a session. *)
Fixpoint refused_unasked (locationId : LocationId) (l : list Event) : bool :=
  match l with
  | [] => true
  | e :: older =>
      match e with
      | EvInput l' result =>
          negb (String.eqb l' locationId) ||
          match result with
          | inr false => no_question_pending older
          | _ => false
          end
      | _ => true
      end && refused_unasked locationId older
  end.

(** The question [AskQuestionAction i session] is the current action of the
    location and has not marked itself ready for answers. *)
Definition not_ready_at (locationId : LocationId) (i : nat) (session : Session)
    (w : World) : Prop :=
  currentActionForLocationId w !! locationId = Some (AskQuestionAction i session) ∧
  readyForAnswers_ (fields_of i w) = false.

(** The events [l] hold no answer at the location that reached a session,
    and no command is half-way at their end. *)
Definition quiet_at (locationId : LocationId) (l : list Event) : Prop :=
  refused_unasked locationId l = true ∧ no_question_pending l = true.

(** [w'] is reached from [w] and the question is not ready in it: the events
    between them, put before events that are quiet, leave them quiet. *)
Definition unready_until (locationId : LocationId) (i : nat) (session : Session)
    (w w' : World) : Prop :=
  not_ready_at locationId i session w' ∧
  ∃ new, trace w' = new ++ trace w ∧
         ∀ l, quiet_at locationId l → quiet_at locationId (new ++ l).

(** The location holds the session [s] or none. *)
Definition holds_at_most (locationId : LocationId) (s : Session) (w : World) : Prop :=
  sessionForLocationId w !! locationId = Some s ∨ sessionForLocationId w !! locationId = None.

(** The events of a chain begin with the step of the driver on [action]. *)
Definition begins_with (locationId : LocationId) (action : option Action) (new : list Event) : Prop :=
  new = [] ∨ ∃ a older, action = Some a ∧ new = older ++ [EvDo locationId a].

(** The world in which the driver has made [a] the current action of the
    location and is about to call its [do]. *)
Definition started (locationId : LocationId) (a : Action) (w : World) : World :=
  emit (EvDo locationId a)
    (set_currentActions (<[locationId := a]> (currentActionForLocationId w)) w).

(** The handler of [.catch] in [chainActions], for the session [s] that the
    driver found at the location. *)
Definition recovery (env : Env) (fuel : nat) (locationId : LocationId) (s : Session)
    (w : World) : Outcome (option Z) * World :=
  let w := logFailure "Error" w in
  let '(ending, w) := new (λ j, EndQuizForErrorAction j s) w in
  reported END_STATUS_ERROR (chainActions env fuel locationId (Some ending) w).

Definition is_fault {A} (o : Outcome A) : bool :=
  match o with Rejected _ | Thrown _ => true | _ => false end.

(** Whether the driver ran an error ending among the events [l]. *)
Definition ran_error_ending (l : list Event) : bool :=
  existsb (λ e, match e with EvDo _ (EndQuizForErrorAction _ _) => true | _ => false end) l.

(** ** Sample data *)

Definition sampleCard : Card :=
  {| question := "ringo"; wasPreprocessed := false; answerTimeLimitInMs := 16000;
     numberOfReveals := 2; additionalAnswerWaitTimeInMs := 2000;
     newQuestionDelayAfterAnsweredInMs := 500;
     newQuestionDelayAfterUnansweredInMs := 700 |}.

Definition sampleSession : Session :=
  {| sid := 1; getName := "shiritori"; getLocationId := "channel"; getOwnerId := "ann";
     getGameMode := {| isReviewMode := false; onlyOwnerOrAdminCanStop := false |};
     getScoreLimit := 10 |}.

(** Every collaborator answers, nothing arrives from outside, and the
    identifier [messageSender] is bound to [ambient]. *)
Definition calm (ambient : bool) : Env :=
  {| ambient_messageSender := ambient;
     toLowerCase := λ s, s;
     delivery := λ _, Ok 7%nat;
     getRandomWord := λ _, None;
     preprocess := λ _, Ok (Some sampleCard);
     createQuestion := λ _, Ok "ri___";
     createTextQuestionWithHint := λ _, Ok (Some "rin__");
     getSaveMementos := λ _, Ok [];
     save := λ _, Ok tt;
     finalize := λ _, None;
     getNextCard := λ _, Some sampleCard;
     getCurrentCard := λ _, sampleCard;
     tryAcceptAnswer := λ _, false;
     checkTooManyWrongAnswers := λ _, false;
     checkForWin := λ _, false;
     getUnansweredQuestionsInARow := λ _, 0;
     commands := λ _, [];
     beforeDeadline := λ _, [] |}.

(** [calm] with another message sender. *)
Definition with_delivery (d : nat → Reply nat) (env : Env) : Env :=
  {| ambient_messageSender := ambient_messageSender env;
     toLowerCase := toLowerCase env;
     delivery := d;
     getRandomWord := getRandomWord env;
     preprocess := preprocess env;
     createQuestion := createQuestion env;
     createTextQuestionWithHint := createTextQuestionWithHint env;
     getSaveMementos := getSaveMementos env;
     save := save env;
     finalize := finalize env;
     getNextCard := getNextCard env;
     getCurrentCard := getCurrentCard env;
     tryAcceptAnswer := tryAcceptAnswer env;
     checkTooManyWrongAnswers := checkTooManyWrongAnswers env;
     checkForWin := checkForWin env;
     getUnansweredQuestionsInARow := getUnansweredQuestionsInARow env;
     commands := commands env;
     beforeDeadline := beforeDeadline env |}.

(** [calm] with another completion of the sessions. *)
Definition with_finalize (f : nat → option Error) (env : Env) : Env :=
  {| ambient_messageSender := ambient_messageSender env;
     toLowerCase := toLowerCase env;
     delivery := delivery env;
     getRandomWord := getRandomWord env;
     preprocess := preprocess env;
     createQuestion := createQuestion env;
     createTextQuestionWithHint := createTextQuestionWithHint env;
     getSaveMementos := getSaveMementos env;
     save := save env;
     finalize := f;
     getNextCard := getNextCard env;
     getCurrentCard := getCurrentCard env;
     tryAcceptAnswer := tryAcceptAnswer env;
     checkTooManyWrongAnswers := checkTooManyWrongAnswers env;
     checkForWin := checkForWin env;
     getUnansweredQuestionsInARow := getUnansweredQuestionsInARow env;
     commands := commands env;
     beforeDeadline := beforeDeadline env |}.

(** [calm] with commands arriving from outside. *)
Definition with_commands (c : nat → list Command) (env : Env) : Env :=
  {| ambient_messageSender := ambient_messageSender env;
     toLowerCase := toLowerCase env;
     delivery := delivery env;
     getRandomWord := getRandomWord env;
     preprocess := preprocess env;
     createQuestion := createQuestion env;
     createTextQuestionWithHint := createTextQuestionWithHint env;
     getSaveMementos := getSaveMementos env;
     save := save env;
     finalize := finalize env;
     getNextCard := getNextCard env;
     getCurrentCard := getCurrentCard env;
     tryAcceptAnswer := tryAcceptAnswer env;
     checkTooManyWrongAnswers := checkTooManyWrongAnswers env;
     checkForWin := checkForWin env;
     getUnansweredQuestionsInARow := getUnansweredQuestionsInARow env;
     commands := c;
     beforeDeadline := beforeDeadline env |}.

(** A world where [sampleSession] is registered at its location, and one
    object, of identity 0, exists. *)
Definition registered : World :=
  set_nextId 1 (set_sessions {[ "channel" := sampleSession ]} initial_world).

(** The message sender rejects every delivery. *)
Definition offline (ambient : bool) : Env :=
  with_delivery (λ _, Reject (Fault "offline")) (calm ambient).

(** The message sender throws on every call. *)
Definition broken (ambient : bool) : Env :=
  with_delivery (λ _, Raise (Fault "socket")) (calm ambient).

(** Every collaborator answers, but the completion of a session is
    rejected. *)
Definition unreliable (ambient : bool) : Env :=
  with_finalize (λ _, Some (Fault "storage")) (calm ambient).

(** A world where [sampleSession], whose own location is ["channel"], is
    registered at ["lobby"]. *)
Definition away : World :=
  set_nextId 1 (set_sessions {[ "lobby" := sampleSession ]} initial_world).

(** A skip arrives while the first card is being preprocessed (the third
    event of the chain is the call of [preprocess]). *)
Definition skip_early : Env :=
  with_commands (λ t, if Nat.eqb t 3 then [CmdSkip "channel"] else []) (calm false).

(** An answer arrives while the first card is being preprocessed. *)
Definition input_early : Env :=
  with_commands
    (λ t, if Nat.eqb t 3 then [CmdInput "channel" "bob" "Bob" "Ringo"] else [])
    (calm false).

(** Whether the driver ran an End-Quiz action among the events [l]. *)
Definition ran_end_quiz (l : list Event) : bool :=
  existsb (λ e, match e with EvDo _ a => is_end_quiz a | _ => false end) l.

(** ** Saving *)

(** The events recorded between [w] and a later world [w'], most recent
    first, and the calls of the message sender among them. *)
Definition news (w w' : World) : list Event :=
  take (length (trace w') - length (trace w)) (trace w').

Definition sent (w w' : World) : list Event :=
  filter (λ e, is_send e = true) (news w w').

(** What a call that the caller awaits leaves in the world: the event of
    the call, then those of the commands that arrived meanwhile. *)
Definition awaited (e : Event) (w w' : World) : Prop :=
  sessionForLocationId w' = sessionForLocationId w ∧
  saveRequestedByUserId w' = saveRequestedByUserId w ∧
  ∃ cmds, trace w' = cmds ++ e :: trace w ∧ forallb is_command_event cmds = true.

(** [calm] with another save manager. *)
Definition with_mementos (m : nat → Reply (list nat)) (env : Env) : Env :=
  {| ambient_messageSender := ambient_messageSender env;
     toLowerCase := toLowerCase env;
     delivery := delivery env;
     getRandomWord := getRandomWord env;
     preprocess := preprocess env;
     createQuestion := createQuestion env;
     createTextQuestionWithHint := createTextQuestionWithHint env;
     getSaveMementos := m;
     save := save env;
     finalize := finalize env;
     getNextCard := getNextCard env;
     getCurrentCard := getCurrentCard env;
     tryAcceptAnswer := tryAcceptAnswer env;
     checkTooManyWrongAnswers := checkTooManyWrongAnswers env;
     checkForWin := checkForWin env;
     getUnansweredQuestionsInARow := getUnansweredQuestionsInARow env;
     commands := commands env;
     beforeDeadline := beforeDeadline env |}.

(** The requester has no saved game at first, and five from the second
    event on. *)
Definition fills_up : Env :=
  with_mementos (λ t, if Nat.eqb t 0 then Ok [] else Ok [1; 2; 3; 4; 5]%nat) (calm false).

(** Two [saveQuizCommand] of the same requester at the same location, the
    second issued before the save manager has answered the first: both reach
    the save manager, then both callbacks run.  [None] when one of them ends
    before. *)
Definition saveTwice (env : Env) (locationId : LocationId) (savingUserId : UserId)
    (w : World) : option ((Outcome SaveAnswer * World) * (Outcome SaveAnswer * World)) :=
  match saveQuizCommand_issue env locationId savingUserId w with
  | (inr (session1, Ok mementos1), w) =>
      match saveQuizCommand_issue env locationId savingUserId w with
      | (inr (session2, Ok mementos2), w) =>
          let first := saveQuizCommand_then env session1 savingUserId mementos1 w in
          let second := saveQuizCommand_then env session2 savingUserId mementos2 (snd first) in
          Some (first, second)
      | _ => None
      end
  | _ => None
  end.

(** ** Identities *)

(** Every current action was created: its identity is below the next one. *)
Definition ids_below (w : World) : Prop :=
  ∀ l a, currentActionForLocationId w !! l = Some a → (action_id a < nextId w)%nat.

(** No current action that commands can reach has the identity [i]. *)
Definition out_of_reach (i : nat) (w : World) : Prop :=
  ∀ l j s, currentActionForLocationId w !! l = Some (AskQuestionAction j s) → j ≠ i.

(** * The stop commands, and more vocabulary *)

(** ** The stop commands

    [stopQuizCommand] and [stopAllQuizzesCommand] as a caller runs them on a
    world.  The chain that a stop wakes is not run with them: its promise is
    fulfilled with [undefined], so it clears the timers and ends on
    [chainActions(locationId, undefined)]. *)

(** The notifications of the message sender that only the stop commands use. *)
Inductive StopNotification :=
| notifyStoppingAllQuizzes
| notifyStopFailedUserNotAuthorized
| notifyQuizEndedUserCanceled (cancelingUserId : UserId).

(** What [stopQuizCommand] returns or resolves to. *)
Inductive StopAnswer :=
| StopUndefined                 (* no session: the function returns nothing *)
| StopRefused (reply : nat)     (* what notifyStopFailedUserNotAuthorized returned *)
| StopEnded.                    (* the promise of endQuiz *)

Section Stopping.

Variable env : Env.

(** The name under which a notification of the stop commands is recorded
    among the events. *)
Variable recorded : StopNotification → Notification.

Definition stopQuizCommand (locationId : LocationId) (cancelingUserId : UserId)
    (cancelingUserIsAdmin : bool) (w : World) : Outcome StopAnswer * World :=
  match get (sessionForLocationId w) locationId with
  | Own session =>
      let messageSender := SenderOf (sid session) in
      let gameMode := getGameMode session in
      if onlyOwnerOrAdminCanStop gameMode && negb cancelingUserIsAdmin
         && negb (String.eqb (getOwnerId session) cancelingUserId)
      then
        match send env messageSender (recorded notifyStopFailedUserNotAuthorized) w with
        | (Ok reply, w) => (Fulfilled (StopRefused reply), w)
        | (Reject e, w) => (Rejected e, w)
        | (Raise e, w) => (Thrown e, w)
        end
      else
        match endQuiz env true (Some session) messageSender
                (recorded (notifyQuizEndedUserCanceled cancelingUserId)) w with
        | (Fulfilled _, w) => (Fulfilled StopEnded, w)
        | (Rejected e, w) => (Rejected e, w)
        | (Thrown e, w) => (Thrown e, w)
        | (Unsettled, w) => (Unsettled, w)
        end
  | Inherited => (Thrown (TypeError "session.getMessageSender is not a function"), w)
  | Undefined => (Fulfilled StopUndefined, w)
  end.

(** [ShiritoriManager.stop] *)
Definition stop (locationId : LocationId) (cancelingUserId : UserId)
    (cancelingUserIsAdmin : bool) (w : World) : Outcome StopAnswer * World :=
  stopQuizCommand locationId cancelingUserId cancelingUserIsAdmin w.

(** The loop of [stopAllQuizzesCommand] reads the session of every key
    before the first callback runs. *)
Fixpoint sessionsAt (allLocationIds : list LocationId) (w : World)
    : Error + list (LocationId * Session) :=
  match allLocationIds with
  | [] => inr []
  | locationId :: rest =>
      match get (sessionForLocationId w) locationId with
      | Undefined => inl (TypeError "session is undefined")
      | Inherited => inl (TypeError "session.getMessageSender is not a function")
      | Own session =>
          match sessionsAt rest w with
          | inl err => inl err
          | inr sessions => inr ((locationId, session) :: sessions)
          end
      end
  end.

(** The chain of promises that the loop builds: one [.then(...).catch(...)]
    for every key. *)
Fixpoint stopAll (sessions : list (LocationId * Session)) (w : World)
    : Outcome unit * World :=
  match sessions with
  | [] => (Fulfilled tt, w)
  | (locationId, session) :: rest =>
      let messageSender := SenderOf (sid session) in
      let failed w :=
        logFailure ("Failed to send quiz stop message to location ID " +:+ locationId) w in
      match endQuiz env true (Some session) messageSender
              (recorded notifyStoppingAllQuizzes) w with
      | (Fulfilled _, w) => stopAll rest w
      | (Rejected err, w) => stopAll rest (failed w)
      | (Thrown err, w) => stopAll rest (failed w)
      | (Unsettled, w) => (Unsettled, w)
      end
  end.

(** [stopAllQuizzesCommand()].  [allLocationIds] is
    [Object.keys(state.shiritoriManager.sessionForLocationId)]: the registry
    lists its keys in the order of their insertion, which the map of the
    world does not keep. *)
Definition stopAllQuizzesCommand (allLocationIds : list LocationId) (w : World)
    : Outcome unit * World :=
  match sessionsAt allLocationIds w with
  | inl err => (Thrown err, w)
  | inr sessions => stopAll sessions w
  end.

End Stopping.

(** [keys] is what [Object.keys] may return for the registry [m]: every key
    once. *)
Definition Object_keys (m : gmap LocationId Session) (keys : list LocationId) : Prop :=
  NoDup keys ∧ ∀ l, l ∈ keys ↔ is_Some (m !! l).

(** Every session is registered at its own location. *)
Definition at_home (w : World) : Prop :=
  ∀ l s, sessionForLocationId w !! l = Some s → getLocationId s = l.

(** A labelling for the examples: each stop notification recorded as a
    message that carries its name. *)
Definition sampleRecorded (n : StopNotification) : Notification :=
  match n with
  | notifyStoppingAllQuizzes => showQuestion "notifyStoppingAllQuizzes" None
  | notifyStopFailedUserNotAuthorized => showQuestion "notifyStopFailedUserNotAuthorized" None
  | notifyQuizEndedUserCanceled u => showQuestion ("notifyQuizEndedUserCanceled " +:+ u) None
  end.

(** ** The successors of an action *)

(** [follows a next]: [next] is an action that [a.do()] may name, by the
    class of [a]; the session stays the same. *)
Inductive follows : Action → Action → Prop :=
| follows_start i s j k :
    follows (StartAction i s)
            (WaitAction j s INITIAL_DELAY_IN_MS (AskInitialQuestionAction k s))
| follows_wait i s interval next :
    follows (WaitAction i s interval next) next
| follows_ask_answered i s j :
    follows (AskQuestionAction i s) (ShowAnswersAction j s)
| follows_ask_unanswered i s j skipped :
    follows (AskQuestionAction i s) (ShowWrongAnswerAction j s skipped)
| follows_ask_none_left i s j :
    follows (AskQuestionAction i s) (EndQuizNoQuestionsLeftAction j s)
| follows_answers_won i s j :
    follows (ShowAnswersAction i s) (EndQuizScoreLimitReachedAction j s)
| follows_answers_next i s j interval k :
    follows (ShowAnswersAction i s) (WaitAction j s interval (AskQuestionAction k s))
| follows_wrong_too_many i s skipped j :
    follows (ShowWrongAnswerAction i s skipped) (EndQuizTooManyWrongAnswersAction j s)
| follows_wrong_next i s skipped j interval k :
    follows (ShowWrongAnswerAction i s skipped)
            (WaitAction j s interval (AskQuestionAction k s))
| follows_save_failed i s u j :
    follows (SaveAction i s u) (EndQuizForErrorAction j s).

(** Identities are not shared: a current action that commands can reach and
    that has the identity of [a] is [a]. *)
Definition alone (a : Action) (w : World) : Prop :=
  ∀ l j s, currentActionForLocationId w !! l = Some (AskQuestionAction j s) →
           j = action_id a → AskQuestionAction j s = a.

(** The promise of [a] is pending, rejected, or fulfilled with a successor
    of [a]. *)
Definition promise_follows (a : Action) (w : World) : Prop :=
  match fulfill_ (fields_of (action_id a) w) with
  | Some (FulfilledWith (Some next)) => follows a next
  | Some (FulfilledWith None) => False
  | _ => True
  end.

(** ** Hints *)

Definition is_hint (e : Event) : bool :=
  match e with EvCreateTextQuestionWithHint _ => true | _ => false end.

(** The number of hints asked of the content provider among the events. *)
Definition count_hints (l : list Event) : nat := length (filter (λ e, is_hint e = true) l).

(** ** Quiet environments *)

(** Nothing arrives from outside: no command while the chain is suspended,
    and only firings of the reveal timer while a question is open. *)
Definition quiet (env : Env) : Prop :=
  (∀ t, commands env t = []) ∧ (∀ t, Forall (λ h, h = None) (beforeDeadline env t)).

(** ** What commands do to a promise *)

(** Between [w] and [w'] the current actions stayed, identities were only
    added, and the promise of the action [i] stayed as it was or, pending in
    [w], was fulfilled by a command: with the action, created meanwhile, that
    follows a skip or an accepted answer of an [AskQuestionAction] of
    identity [i] that is a current action. *)
Definition reached (i : nat) (w w' : World) : Prop :=
  currentActionForLocationId w' = currentActionForLocationId w ∧
  (nextId w ≤ nextId w')%nat ∧
  (fulfill_ (fields_of i w') = fulfill_ (fields_of i w) ∨
   fulfill_ (fields_of i w) = Some Pending ∧
   ∃ l s k, currentActionForLocationId w !! l = Some (AskQuestionAction i s) ∧
            (nextId w ≤ k < nextId w')%nat ∧
            (fulfill_ (fields_of i w')
               = Some (FulfilledWith (Some (ShowWrongAnswerAction k s true))) ∨
             fulfill_ (fields_of i w')
               = Some (FulfilledWith (Some (ShowAnswersAction k s))))).

(** ** More sample data *)

Definition otherSession : Session :=
  {| sid := 2; getName := "kanji"; getLocationId := "lobby"; getOwnerId := "bob";
     getGameMode := {| isReviewMode := false; onlyOwnerOrAdminCanStop := true |};
     getScoreLimit := 5 |}.

(** Two quizzes in progress, each registered at its own location. *)
Definition two_quizzes : World :=
  set_nextId 3
    (set_sessions (<["lobby" := otherSession]> {[ "channel" := sampleSession ]}) initial_world).

(** A question of [sampleSession] that is open: the action is the current
    action of the location and waits on its promise. *)
Definition question_open : World :=
  new_promise 0 (started "channel" (AskQuestionAction 0 sampleSession) registered).

(** The classes of actions whose [do] ends with no next action: the End-Quiz
    variants, the initial question and the save. *)
Definition names_no_successor (a : Action) : bool :=
  match a with
  | AskInitialQuestionAction _ _ | SaveAction _ _ _ => true
  | _ => is_end_quiz a
  end.

(** ** A chain past its start *)

(** The action is past the start of the chain: neither the start nor the
    initial question, nor a wait for one of them. *)
Fixpoint past_the_start (a : Action) : bool :=
  match a with
  | StartAction _ _ | AskInitialQuestionAction _ _ => false
  | WaitAction _ _ _ next => past_the_start next
  | _ => true
  end.

(** The action, and the action that it waits for, are of the session [s]. *)
Fixpoint of_session (s : Session) (a : Action) : Prop :=
  match a with
  | WaitAction _ s' _ next => s' = s ∧ of_session s next
  | _ => getSession_ a = s
  end.

(** [calm] with another supply of cards. *)
Definition with_cards (c : nat → option Card) (env : Env) : Env :=
  {| ambient_messageSender := ambient_messageSender env;
     toLowerCase := toLowerCase env;
     delivery := delivery env;
     getRandomWord := getRandomWord env;
     preprocess := preprocess env;
     createQuestion := createQuestion env;
     createTextQuestionWithHint := createTextQuestionWithHint env;
     getSaveMementos := getSaveMementos env;
     save := save env;
     finalize := finalize env;
     getNextCard := c;
     getCurrentCard := getCurrentCard env;
     tryAcceptAnswer := tryAcceptAnswer env;
     checkTooManyWrongAnswers := checkTooManyWrongAnswers env;
     checkForWin := checkForWin env;
     getUnansweredQuestionsInARow := getUnansweredQuestionsInARow env;
     commands := commands env;
     beforeDeadline := beforeDeadline env |}.

(** The deck has one card. *)
Definition one_card : Env :=
  with_cards (λ t, if Nat.eqb t 1 then Some sampleCard else None) (calm false).

Definition no_hint (e : Event) : bool := negb (is_hint e).

(** [calm] with other happenings while a question is open. *)
Definition with_happenings (h : nat → list (option Command)) (env : Env) : Env :=
  {| ambient_messageSender := ambient_messageSender env;
     toLowerCase := toLowerCase env;
     delivery := delivery env;
     getRandomWord := getRandomWord env;
     preprocess := preprocess env;
     createQuestion := createQuestion env;
     createTextQuestionWithHint := createTextQuestionWithHint env;
     getSaveMementos := getSaveMementos env;
     save := save env;
     finalize := finalize env;
     getNextCard := getNextCard env;
     getCurrentCard := getCurrentCard env;
     tryAcceptAnswer := tryAcceptAnswer env;
     checkTooManyWrongAnswers := checkTooManyWrongAnswers env;
     checkForWin := checkForWin env;
     getUnansweredQuestionsInARow := getUnansweredQuestionsInARow env;
     commands := commands env;
     beforeDeadline := h |}.

(** [calm] with another verdict of the session on the answers. *)
Definition with_verdict (v : nat → bool) (env : Env) : Env :=
  {| ambient_messageSender := ambient_messageSender env;
     toLowerCase := toLowerCase env;
     delivery := delivery env;
     getRandomWord := getRandomWord env;
     preprocess := preprocess env;
     createQuestion := createQuestion env;
     createTextQuestionWithHint := createTextQuestionWithHint env;
     getSaveMementos := getSaveMementos env;
     save := save env;
     finalize := finalize env;
     getNextCard := getNextCard env;
     getCurrentCard := getCurrentCard env;
     tryAcceptAnswer := v;
     checkTooManyWrongAnswers := checkTooManyWrongAnswers env;
     checkForWin := checkForWin env;
     getUnansweredQuestionsInARow := getUnansweredQuestionsInARow env;
     commands := commands env;
     beforeDeadline := beforeDeadline env |}.

(** The question is delivered; then the reveal timer fires before the
    deadline and the message sender throws on the hint (every call after
    the sixth event throws). *)
Definition reveal_breaks : Env :=
  with_happenings (λ _, [None])
    (with_delivery (λ t, if (t <? 6)%nat then Ok 7%nat else Raise (Fault "socket"))
       (calm false)).

(** Bob answers every open question at once, and the session accepts. *)
Definition bob_answers : Env :=
  with_verdict (λ _, true)
    (with_happenings (λ _, [Some (CmdInput "channel" "bob" "Bob" "ringo")]) (calm false)).

(** Both hints of every question are shown before its deadline, and nobody
    reacts. *)
Definition two_reveals : Env := with_happenings (λ _, [None; None]) (calm false).

(** The world in which a question of [sampleSession] is about to be opened:
    the action is current and ready for answers. *)
Definition question_ready : World :=
  set_readyForAnswers 0 (started "channel" (AskQuestionAction 0 sampleSession) registered).

(** The actions whose [do] asks nothing of the content provider or the save
    manager: a start, a wait, the answers and the wrong answer. *)
Definition asks_only_the_sender (a : Action) : bool :=
  match a with
  | StartAction _ _ | WaitAction _ _ _ _ | ShowAnswersAction _ _
  | ShowWrongAnswerAction _ _ _ => true
  | _ => false
  end.

(** [calm] with another save manager for [save]. *)
Definition with_save (s : nat → Reply unit) (env : Env) : Env :=
  {| ambient_messageSender := ambient_messageSender env;
     toLowerCase := toLowerCase env;
     delivery := delivery env;
     getRandomWord := getRandomWord env;
     preprocess := preprocess env;
     createQuestion := createQuestion env;
     createTextQuestionWithHint := createTextQuestionWithHint env;
     getSaveMementos := getSaveMementos env;
     save := s;
     finalize := finalize env;
     getNextCard := getNextCard env;
     getCurrentCard := getCurrentCard env;
     tryAcceptAnswer := tryAcceptAnswer env;
     checkTooManyWrongAnswers := checkTooManyWrongAnswers env;
     checkForWin := checkForWin env;
     getUnansweredQuestionsInARow := getUnansweredQuestionsInARow env;
     commands := commands env;
     beforeDeadline := beforeDeadline env |}.

(** The save manager rejects every save. *)
Definition disk_full : Env := with_save (λ _, Reject (Fault "disk full")) (calm false).

(** An answer that the session accepts arrives while the first question is
    being created (the fifth event of the chain is the call of
    [createQuestion]). *)
Definition answer_too_early : Env :=
  with_verdict (λ _, true)
    (with_commands
       (λ t, if Nat.eqb t 5 then [CmdInput "channel" "bob" "Bob" "Ringo"] else [])
       (calm false)).

(** ** Identities along a chain *)

(** The identities of an action and of the actions it holds. *)
Fixpoint ids (a : Action) : list nat :=
  match a with
  | WaitAction i _ _ next => i :: ids next
  | _ => [action_id a]
  end.

(** The action, and the actions it holds, were created at or after [base]. *)
Definition numbered (base : nat) (a : Action) : Prop :=
  ∀ k, k ∈ ids a → (base ≤ k)%nat.

(** An action that the promise of the action [i] is fulfilled with was
    created at or after [base]. *)
Definition promise_numbered (base i : nat) (w : World) : Prop :=
  match fulfill_ (fields_of i w) with
  | Some (FulfilledWith (Some next)) => numbered base next
  | _ => True
  end.

(** What a [do] leaves: the identities did not go back, and an action it is
    fulfilled with was created at or after [base]. *)
Definition leaves (base : nat) (r : Outcome (option Action) * World) : Prop :=
  (base ≤ nextId (snd r))%nat ∧ ∀ n, fst r = Fulfilled (Some n) → numbered base n.

(** The questions that are current at the other locations were created
    before [base], and the next identity is not below [base]. *)
Definition apart (base : nat) (l : LocationId) (w : World) : Prop :=
  (base ≤ nextId w)%nat ∧
  ∀ l' j s, l' ≠ l →
            currentActionForLocationId w !! l' = Some (AskQuestionAction j s) → (j < base)%nat.

(** The other locations have in [w'] the session and the current action
    they have in [w]. *)
Definition untouched (l : LocationId) (w w' : World) : Prop :=
  ∀ l', l' ≠ l →
        sessionForLocationId w' !! l' = sessionForLocationId w !! l' ∧
        currentActionForLocationId w' !! l' = currentActionForLocationId w !! l'.

(** Two quizzes in progress; the question of the quiz in the lobby, the
    object of identity 0, is open. *)
Definition two_questions : World :=
  new_promise 0
    (set_currentActions {[ "lobby" := AskQuestionAction 0 otherSession ]} two_quizzes).

(** [one_card], and a skip arrives in the lobby while the card is being
    preprocessed. *)
Definition skip_next_door : Env :=
  with_commands (λ t, if Nat.eqb t 3 then [CmdSkip "lobby"] else []) one_card.

(** * The help command: commands looked up by their aliases

    The functions of [core/commands/help.js] that find a command.  A string
    is the list of its code units, whatever they are; a command is any object
    with an array [aliases] of strings. *)

Module Help.

Section Lookup.

Context {CodeUnit : Type} `{EqDecision CodeUnit}.

Definition JsString : Type := list CodeUnit.

Context {Command : Type} (aliases : Command → list JsString).

(** The empty string is falsy, every other string is truthy. *)
Definition truthy (s : JsString) : bool :=
  match s with [] => false | _ :: _ => true end.

(** [Array.prototype.indexOf]: the first index of an element that is
    strictly equal to [element], or -1. *)
Fixpoint Array_indexOf_from (index : Z) (array : list JsString) (element : JsString) : Z :=
  match array with
  | [] => -1
  | x :: rest =>
      if decide (x = element) then index else Array_indexOf_from (index + 1) rest element
  end.

Definition Array_indexOf (array : list JsString) (element : JsString) : Z :=
  Array_indexOf_from 0 array element.

(** [String.prototype.indexOf]: the first position at which [searchString]
    occurs in [s], or -1.  The empty string occurs at position 0. *)
Fixpoint String_indexOf_from (position : Z) (s searchString : JsString) : Z :=
  if bool_decide (searchString `prefix_of` s) then position
  else
    match s with
    | [] => -1
    | _ :: rest => String_indexOf_from (position + 1) rest searchString
    end.

Definition String_indexOf (s searchString : JsString) : Z :=
  String_indexOf_from 0 s searchString.

(** The loop of [indexOfAliasInList] over the aliases that are left. *)
Fixpoint indexOfAliasInList_ (remaining : list JsString) (list : list JsString) : Z :=
  match remaining with
  | [] => -1
  | alias :: rest =>
      let index := Array_indexOf list alias in
      if negb (index =? -1) then index else indexOfAliasInList_ rest list
  end.

Definition indexOfAliasInList (command : Command) (list : list JsString) : Z :=
  indexOfAliasInList_ (aliases command) list.

Definition compareCommandOrder (commandA commandB : Command) (orderList : list JsString) : Z :=
  indexOfAliasInList commandA orderList - indexOfAliasInList commandB orderList.

(** [commands.find(command => command.aliases.indexOf(alias) !== -1)] *)
Definition findCommandWithAlias (commands : list Command) (alias : JsString)
    : option Command :=
  find (λ command, negb (Array_indexOf (aliases command) alias =? -1)) commands.

(** The body of the inner loop of [findCloseMatchCommandForAlias]; the state
    is the pair of [currentCandidate] and [currentCandidateAlias], [None]
    while both are undefined. *)
Definition considerAlias (alias : JsString) (command : Command)
    (current : option (Command * JsString)) (candidateAlias : JsString)
    : option (Command * JsString) :=
  if negb (String_indexOf candidateAlias alias =? -1) then
    match current with
    | None => Some (command, candidateAlias)
    | Some (currentCandidate, currentCandidateAlias) =>
        if negb (truthy currentCandidateAlias)
           || (length candidateAlias <? length currentCandidateAlias)%nat
        then Some (command, candidateAlias)
        else current
    end
  else current.

Definition considerCommand (alias : JsString) (current : option (Command * JsString))
    (command : Command) : option (Command * JsString) :=
  fold_left (considerAlias alias command) (aliases command) current.

Definition findCloseMatchCommandForAlias (commands : list Command) (alias : JsString)
    : option Command :=
  fst <$> fold_left (considerCommand alias) commands None.

(** [t] occurs in [s]. *)
Definition occurs_in (t s : JsString) : Prop := ∃ before after, s = before ++ t ++ after.

(** The aliases of the commands, each with its command, in the order in
    which the two loops of [findCloseMatchCommandForAlias] meet them. *)
Definition candidates (commands : list Command) : list (Command * JsString) :=
  flat_map (λ command, map (pair command) (aliases command)) commands.

(** [current] is the first of the shortest aliases among [seen] in which
    [alias] occurs, with its command, if there is one. *)
Definition shortest_match (alias : JsString) (seen : list (Command * JsString))
    (current : option (Command * JsString)) : Prop :=
  match current with
  | None => ∀ p, p ∈ seen → ¬ occurs_in alias p.2
  | Some (c, a) =>
      occurs_in alias a ∧
      ∃ before after,
        seen = before ++ (c, a) :: after ∧
        (∀ p, p ∈ before → occurs_in alias p.2 → (length a < length p.2)%nat) ∧
        (∀ p, p ∈ after → occurs_in alias p.2 → (length a ≤ length p.2)%nat)
  end.

(** The alias kept so far, if there is one, holds [alias] and more. *)
Definition longer_match (alias : JsString) (current : option (Command * JsString)) : Prop :=
  match current with
  | None => True
  | Some (_, a) => occurs_in alias a ∧ a ≠ alias
  end.

End Lookup.

End Help.

(** Sample commands, each given by its aliases, in the code units of ASCII. *)
Definition code_units (s : string) : list Ascii.ascii := String.list_ascii_of_string s.

Definition sampleCommands : list (list (list Ascii.ascii)) :=
  [ [code_units "k!random"; code_units "k!r"];
    [code_units "k!kanji"; code_units "k!k"];
    [code_units "k!strokeorder"; code_units "k!so"] ].

(** * The random-word command

    [getRandomWordRecusive] of [commands/random.js].  The word source, the
    dictionary search, the navigation and the channel are collaborators:
    their answers come from an environment of oracles indexed by the number
    of events recorded so far, and every call is recorded, most recent event
    first.  A lookup returns a promise or throws; the logger does not
    throw. *)

Module Random.

Definition NUMBER_OF_RETRIES : nat := 5.

Inductive Event :=
| EvLogFailure (message : string)
| EvCreateMessage                        (* msg.channel.createMessage(not responding) *)
| EvGetRandomWord (suffix : string)
| EvJishoWordSearch (word : string)
| EvCreateNavigation
| EvRegister.

Record Env := {
  toLowerCase : string → string;
  getRandomWord : nat → string + Error;            (* the word, or what it throws *)
  jishoWordSearch : nat → Reply bool;               (* data.hasResults *)
  createNavigationForJishoResults : nat → option Error;   (* Some e: throws e *)
  register : nat → option Error;                    (* Some e: throws e *)
  createMessage : nat → Reply unit;
}.

Section Command.

Variable env : Env.

(** [retriesRemaining] is a natural number in every call: [action] passes
    [NUMBER_OF_RETRIES], and each call passes one less on. *)
Fixpoint getRandomWordRecusive (suffix : string) (retriesRemaining : nat)
    (events : list Event) : Outcome unit * list Event :=
  match retriesRemaining with
  | O =>
      let events := EvLogFailure "Failed to get a random word 5 times" :: events in
      match createMessage env (length events) with
      | Ok _ => (Fulfilled tt, EvCreateMessage :: events)
      | Reject e => (Rejected e, EvCreateMessage :: events)
      | Raise e => (Thrown e, EvCreateMessage :: events)
      end
  | S remaining =>
      match getRandomWord env (length events) with
      | inr e => (Thrown e, EvGetRandomWord suffix :: events)
      | inl word =>
          let events := EvGetRandomWord suffix :: events in
          (* .catch(err => ...): what the callback throws rejects the promise *)
          let failed events :=
            let events := EvLogFailure ("Failed to find " +:+ word) :: events in
            match getRandomWordRecusive suffix remaining events with
            | (Thrown e, events) => (Rejected e, events)
            | r => r
            end in
          match jishoWordSearch env (length events) with
          | Raise e => (Thrown e, EvJishoWordSearch word :: events)
          | Reject e => failed (EvJishoWordSearch word :: events)
          | Ok hasResults =>
              let events := EvJishoWordSearch word :: events in
              if negb hasResults then
                match getRandomWordRecusive suffix remaining events with
                | (Fulfilled v, events) => (Fulfilled v, events)
                | (Rejected e, events) => failed events
                | (Thrown e, events) => failed events
                | (Unsettled, events) => (Unsettled, events)
                end
              else
                match createNavigationForJishoResults env (length events) with
                | Some e => failed (EvCreateNavigation :: events)
                | None =>
                    let events := EvCreateNavigation :: events in
                    match register env (length events) with
                    | Some e => failed (EvRegister :: events)
                    | None => (Fulfilled tt, EvRegister :: events)
                    end
                end
          end
      end
  end.

(** [action(bot, msg, suffix)] of the command. *)
Definition action (suffix : string) (events : list Event) : Outcome unit * list Event :=
  let suffix := toLowerCase env suffix in
  getRandomWordRecusive suffix NUMBER_OF_RETRIES events.

End Command.

Definition is_search (e : Event) : bool :=
  match e with EvJishoWordSearch _ => true | _ => false end.

Definition is_message (e : Event) : bool :=
  match e with EvCreateMessage => true | _ => false end.

Definition is_register (e : Event) : bool :=
  match e with EvRegister => true | _ => false end.

(** The number of events among [l] that satisfy [p]. *)
Definition count (p : Event → bool) (l : list Event) : nat :=
  length (filter (λ e, p e = true) l).

(** The collaborators behave: the word source and the search do not throw,
    the navigation is created and registered, and the message is sent. *)
Definition behaves (env : Env) : Prop :=
  (∀ t e, getRandomWord env t ≠ inr e) ∧
  (∀ t e, jishoWordSearch env t ≠ Raise e) ∧
  (∀ t, createNavigationForJishoResults env t = None) ∧
  (∀ t, register env t = None) ∧
  (∀ t, createMessage env t = Ok tt).

(** Jisho has results for no word, and the channel rejects every message. *)
Definition nothing_works : Env :=
  {| toLowerCase := λ s, s;
     getRandomWord := λ _, inl "neko";
     jishoWordSearch := λ _, Ok false;
     createNavigationForJishoResults := λ _, None;
     register := λ _, None;
     createMessage := λ _, Reject (Fault "missing permissions") |}.

(** Jisho has results for the third word that is looked up. *)
Definition third_time_lucky : Env :=
  {| toLowerCase := λ s, s;
     getRandomWord := λ _, inl "neko";
     jishoWordSearch := λ t, if Nat.eqb t 5 then Ok true else Ok false;
     createNavigationForJishoResults := λ _, None;
     register := λ _, None;
     createMessage := λ _, Ok tt |}.

End Random.
(** * Properties *)

(** ** Extending a world *)

Lemma extends_refl p w : extends p w w.
Proof. by exists []. Qed.

Lemma extends_trans p w1 w2 w3 : extends p w1 w2 → extends p w2 w3 → extends p w1 w3.
Proof.
  intros (n1 & H1 & F1) (n2 & H2 & F2). exists (n2 ++ n1). split.
  - by rewrite H2, H1, app_assoc.
  - rewrite forallb_app, F1, F2. done.
Qed.

Lemma extends_weaken (p q : Event -> bool) w w' :
  (∀ e, p e = true → q e = true) → extends p w w' → extends q w w'.
Proof.
  intros Hpq (new & H & F). exists new. split; [done|].
  apply forallb_forall. intros e He. apply Hpq.
  by eapply forallb_forall in F.
Qed.

Lemma extends_emit p e w w' : p e = true → extends p w w' → extends p w (emit e w').
Proof.
  intros He (new & H & F). exists (e :: new). simpl. rewrite H, He, F. done.
Qed.

Lemma preserves_refl p w : preserves p w w.
Proof. repeat split. apply extends_refl. Qed.

Lemma preserves_trans p w1 w2 w3 :
  preserves p w1 w2 → preserves p w2 w3 → preserves p w1 w3.
Proof.
  intros (A1 & B1 & C1 & D1) (A2 & B2 & C2 & D2).
  repeat split; try congruence. by eapply extends_trans.
Qed.

Lemma preserves_weaken (p q : Event -> bool) w w' :
  (∀ e, p e = true → q e = true) → preserves p w w' → preserves q w w'.
Proof. intros Hpq (A & B & C & D). repeat split; try done. by eapply extends_weaken. Qed.

Lemma preserves_emit p e w w' : p e = true → preserves p w w' → preserves p w (emit e w').
Proof. intros He (A & B & C & D). repeat split; try done. by apply extends_emit. Qed.

Lemma preserves_set_fields p m w w' : preserves p w w' → preserves p w (set_fields m w').
Proof. intros (A & B & C & D). by repeat split. Qed.

Lemma preserves_set_nextId p n w w' : preserves p w w' → preserves p w (set_nextId n w').
Proof. intros (A & B & C & D). by repeat split. Qed.

Lemma preserves_settle p i pr w w' : preserves p w w' → preserves p w (settle i pr w').
Proof.
  intros H. unfold settle.
  destruct (fulfill_ (fields_of i w')) as [[]|]; first [done | by apply preserves_set_fields].
Qed.

Lemma preserves_new p class w w' a w'' :
  new class w' = (a, w'') → preserves p w w' → preserves p w w''.
Proof. intros [= <- <-] H. by apply preserves_set_nextId. Qed.

(** Goals [preserves p w (f (g (... w)))] over the updates of the world. *)
Ltac keeps :=
  repeat first
    [ apply preserves_refl
    | apply preserves_emit; [done|]
    | apply preserves_settle
    | apply preserves_set_nextId
    | apply preserves_set_fields ].

Section Facts.

Context (env : Env).

Lemma preserves_run_command w c : preserves is_command_event w (run_command env w c).
Proof.
  destruct c as [l | l u n i]; simpl.
  - unfold skipCommand, skipCommand_.
    destruct (currentActionForLocationId w !! l) as [[]|]; simpl; try by keeps.
    unfold AskQuestionAction_skip.
    destruct (fulfill_ (fields_of id w)); simpl; by keeps.
  - unfold processUserInput, processUserInput_.
    destruct (currentActionForLocationId w !! l) as [[]|]; simpl; try by keeps.
    unfold AskQuestionAction_tryAcceptUserInput.
    destruct (readyForAnswers_ (fields_of id w)); simpl; [|by keeps].
    destruct (tryAcceptAnswer env (clock w)); simpl; [|by keeps].
    match goal with |- context [fulfill_ ?f] => destruct (fulfill_ f) end; simpl; by keeps.
Qed.

Lemma preserves_commands cs w : preserves is_command_event w (fold_left (run_command env) cs w).
Proof.
  revert w. induction cs as [|c cs IH]; intros w; simpl; [apply preserves_refl|].
  eapply preserves_trans; [apply preserves_run_command | apply IH].
Qed.

Lemma preserves_suspend w : preserves is_command_event w (suspend env w).
Proof. apply preserves_commands. Qed.

Lemma command_event_is_action_event e :
  is_command_event e = true → is_action_event e = true.
Proof. by destruct e. Qed.

Lemma suspend_keeps w : preserves is_action_event w (suspend env w).
Proof. eapply preserves_weaken; [apply command_event_is_action_event | apply preserves_suspend]. Qed.

Lemma post_keeps sender n w r w' :
  post env sender n w = (r, w') → preserves is_action_event w w'.
Proof. intros [= <- <-]. by keeps. Qed.

Lemma send_keeps sender n w r w' :
  send env sender n w = (r, w') → preserves is_action_event w w'.
Proof.
  unfold send, post. intros H.
  destruct (delivery env (clock w)); injection H as <- <-; try by keeps.
  all: eapply preserves_trans; [|apply suspend_keeps]; by keeps.
Qed.

Lemma call_keeps {A} (oracle : nat → Reply A) e w r w' :
  call env oracle e w = (r, w') → is_do e = false → preserves is_action_event w w'.
Proof.
  unfold call. intros H He.
  assert (is_action_event e = true) by (unfold is_action_event; by rewrite He).
  destruct (oracle (clock w)); injection H as <- <-; try by keeps.
  all: eapply preserves_trans; [|apply suspend_keeps]; by keeps.
Qed.

Lemma retry_keeps {A} (factory : World → Reply A * World) attempts first w o w' :
  (∀ w r w', factory w = (r, w') → preserves is_action_event w w') →
  retry_from attempts first factory w = (o, w') → preserves is_action_event w w'.
Proof.
  intros Hf. revert first w. induction attempts as [|more IH]; intros first w; simpl.
  - intros [= <- <-]. apply preserves_refl.
  - destruct (factory w) as [r w1] eqn:E. apply Hf in E.
    destruct r; [by intros [= <- <-] | | destruct first; by intros [= <- <-]].
    destruct more; [by intros [= <- <-]|].
    intros H. apply IH in H. by eapply preserves_trans.
Qed.

Lemma finalize_keeps session gameOver w :
  preserves is_action_event w (snd (session_finalize env session gameOver w)).
Proof.
  unfold session_finalize. destruct (finalize env (clock w)); simpl.
  all: eapply preserves_trans; [|apply suspend_keeps]; by keeps.
Qed.

(** What [finalize] answers decides how the promise of the completion
    settles. *)
Lemma finalize_settles session gameOver w :
  fst (session_finalize env session gameOver w)
    = match finalize env (clock w) with
      | None => Fulfilled tt
      | Some err => Rejected err
      end.
Proof. unfold session_finalize. by destruct (finalize env (clock w)). Qed.

Lemma finalize_world session gameOver w :
  snd (session_finalize env session gameOver w)
    = suspend env (emit (EvFinalize (sid session) gameOver) w).
Proof. unfold session_finalize. by destruct (finalize env (clock w)). Qed.

Lemma finalize_trace session gameOver w :
  ∃ cmds, trace (snd (session_finalize env session gameOver w))
            = cmds ++ EvFinalize (sid session) gameOver :: trace w ∧
          forallb is_command_event cmds = true.
Proof.
  unfold session_finalize.
  destruct (preserves_suspend (emit (EvFinalize (sid session) gameOver) w))
    as (_ & _ & _ & cmds & T & F).
  exists cmds. by destruct (finalize env (clock w)).
Qed.

End Facts.

Lemma scheduleReveal_keeps session n w :
  preserves is_action_event w (scheduleReveal_ session n w).
Proof. destruct n; simpl; by keeps. Qed.

(** Goals [preserves is_action_event w w'] where [w'] was reached from [w]
    through calls recorded as equations in the context. *)
Ltac frame :=
  unfold logFailure, logSuccess, session_addTimer, session_clearTimers,
    new_promise, set_promise, set_readyForAnswers, set_shownQuestionId in *;
  repeat first
    [ apply preserves_refl
    | apply preserves_emit; [done|]
    | apply preserves_settle
    | apply preserves_set_nextId
    | apply preserves_set_fields
    | match goal with
      | |- preserves _ _ (suspend _ ?x) =>
          apply (preserves_trans _ _ x); [| apply suspend_keeps]
      | |- preserves _ _ (snd (session_finalize _ _ _ ?x)) =>
          apply (preserves_trans _ _ x); [| apply finalize_keeps]
      | |- preserves _ _ (scheduleReveal_ _ _ ?x) =>
          apply (preserves_trans _ _ x); [| apply scheduleReveal_keeps]
      | H : post _ _ _ ?x = (_, ?y) |- preserves _ _ ?y =>
          apply (preserves_trans _ _ x); [| exact (post_keeps _ _ _ _ _ _ H)]
      | H : send _ _ _ ?x = (_, ?y) |- preserves _ _ ?y =>
          apply (preserves_trans _ _ x); [| exact (send_keeps _ _ _ _ _ _ H)]
      | H : call _ _ _ ?x = (_, ?y) |- preserves _ _ ?y =>
          apply (preserves_trans _ _ x); [| exact (call_keeps _ _ _ _ _ _ H eq_refl)]
      | H : preserves _ ?x ?y |- preserves _ _ ?y =>
          apply (preserves_trans _ _ x); [| exact H]
      end ].

Section Actions.

Context (env : Env).

Lemma StartAction_do_keeps session w o w' :
  StartAction_do env session w = (o, w') → preserves is_action_event w w'.
Proof.
  unfold StartAction_do, new.
  destruct (send _ _ _ w) as [r w1] eqn:E.
  destruct r; simpl; intros [= <- <-]; by frame.
Qed.

Lemma AskInitialQuestionAction_do_keeps session w o w' :
  AskInitialQuestionAction_do env session w = (o, w') → preserves is_action_event w w'.
Proof.
  unfold AskInitialQuestionAction_do.
  destruct (getRandomWord env (clock w)); intros [= <- <-]; by frame.
Qed.

Lemma settlement_keeps i w o w' : settlement i w = (o, w') → w' = w.
Proof. unfold settlement. by destruct (fulfill_ (fields_of i w)) as [[]|]; intros [= <- <-]. Qed.

Lemma WaitAction_do_keeps i session waitInterval nextAction w o w' :
  WaitAction_do env i session waitInterval nextAction w = (o, w') →
  preserves is_action_event w w'.
Proof.
  unfold WaitAction_do. intros H. apply settlement_keeps in H as ->. by frame.
Qed.

Lemma ShowWrongAnswerAction_do_keeps session skipped w o w' :
  ShowWrongAnswerAction_do env session skipped w = (o, w') → preserves is_action_event w w'.
Proof.
  unfold ShowWrongAnswerAction_do, new_wait_then_ask, new.
  destruct (send _ _ _ w) as [r w1] eqn:E.
  destruct r; simpl;
    try destruct (checkTooManyWrongAnswers env _); simpl; intros [= <- <-]; by frame.
Qed.

Lemma ShowAnswersAction_do_keeps i session w o w' :
  ShowAnswersAction_do env i session w = (o, w') → preserves is_action_event w w'.
Proof.
  unfold ShowAnswersAction_do.
  intros H. apply settlement_keeps in H as ->.
  match goal with |- context [fulfill_ ?f] => destruct (fulfill_ f) as [[]|] end;
    try by frame.
  unfold showAnswersTimerFires, new_wait_then_ask, new.
  destruct (post _ _ _ _) as [r w1] eqn:E.
  destruct r; simpl; try destruct (checkForWin env _); simpl; by frame.
Qed.

Lemma run_command_keeps w c : preserves is_action_event w (run_command env w c).
Proof.
  eapply preserves_weaken; [apply command_event_is_action_event | apply preserves_run_command].
Qed.

Lemma revealTimerFires_keeps i session more w :
  preserves is_action_event w (revealTimerFires env i session more w).
Proof.
  unfold revealTimerFires.
  destruct (call _ _ _ w) as [r w1] eqn:E.
  destruct r as [[q|]| |]; try by frame.
  destruct (send _ _ _ w1) as [r2 w2] eqn:E2.
  destruct r2; by frame.
Qed.

Lemma questionOpen_keeps happenings reveals i session w :
  preserves is_action_event w (questionOpen env happenings reveals i session w).
Proof.
  revert reveals w. induction happenings as [|h rest IH]; intros reveals w; simpl;
    [apply preserves_refl|].
  destruct (fulfill_ (fields_of i w)) as [[]|]; try apply preserves_refl.
  destruct h as [c|]; [|destruct reveals].
  - eapply preserves_trans; [apply run_command_keeps | apply IH].
  - apply IH.
  - eapply preserves_trans; [apply revealTimerFires_keeps | apply IH].
Qed.

Lemma answerTimerFires_keeps i session w :
  preserves is_action_event w (answerTimerFires i session w).
Proof. unfold answerTimerFires, new. simpl. by frame. Qed.

Lemma AskQuestionAction_open_keeps i session card shown w o w' :
  AskQuestionAction_open env i session card shown w = (o, w') →
  preserves is_action_event w w'.
Proof.
  unfold AskQuestionAction_open. intros H. apply settlement_keeps in H as ->.
  match goal with |- context [questionOpen env ?h ?r i session ?x] =>
    pose proof (questionOpen_keeps h r i session x) as Hq;
    set (w2 := questionOpen env h r i session x) in *;
    assert (preserves is_action_event w x) as Hx by frame
  end.
  assert (preserves is_action_event w w2) by (by eapply preserves_trans).
  destruct (fulfill_ (fields_of i w2)) as [[]|]; try done.
  eapply preserves_trans; [eassumption | apply answerTimerFires_keeps].
Qed.

Lemma AskQuestionAction_ask_keeps i session card w o w' :
  AskQuestionAction_ask env i session card w = (o, w') →
  preserves is_action_event w w'.
Proof.
  unfold AskQuestionAction_ask, retryPromise.
  destruct (call _ _ _ _) as [r w1] eqn:E.
  assert (preserves is_action_event w w1) by frame.
  destruct r; try (intros [= <- <-]; done).
  destruct (retry_from _ _ _ w1) as [o2 w2] eqn:E2.
  apply retry_keeps in E2; [|intros; by eapply send_keeps].
  assert (preserves is_action_event w w2) by (by eapply preserves_trans).
  destruct o2; try (intros [= <- <-]; done).
  - intros H1. apply AskQuestionAction_open_keeps in H1. by eapply preserves_trans.
  - intros H1. apply AskQuestionAction_open_keeps in H1.
    eapply preserves_trans; [|exact H1]. by frame.
Qed.

Lemma AskQuestionAction_do_keeps fuel i session w o w' :
  AskQuestionAction_do env fuel i session w = (o, w') →
  preserves is_action_event w w'.
Proof.
  revert w o w'. induction fuel as [|fuel IH]; intros w o w'; simpl.
  - intros [= <- <-]. apply preserves_refl.
  - destruct (getNextCard env (clock w)) as [nextCard|]; [|intros [= <- <-]; by frame].
    destruct (wasPreprocessed nextCard).
    + intros H. apply AskQuestionAction_ask_keeps in H.
      eapply preserves_trans; [|exact H]. by frame.
    + destruct (call _ _ _ _) as [r w1] eqn:E.
      assert (preserves is_action_event w w1) by frame.
      destruct r as [[card|]| |]; try (intros [= <- <-]; done).
      * intros H1. apply AskQuestionAction_ask_keeps in H1. by eapply preserves_trans.
      * destruct (AskQuestionAction_do env fuel i session w1) as [o1 w2] eqn:E1.
        apply IH in E1. intros H1.
        assert (w' = w2) as -> by (destruct o1; by injection H1).
        by eapply preserves_trans.
Qed.

End Actions.

(** ** Closing a session *)

Lemma count_sends_app l1 l2 : count_sends (l1 ++ l2) = (count_sends l1 + count_sends l2)%nat.
Proof. unfold count_sends. by rewrite filter_app, length_app. Qed.

Lemma count_sends_commands l : forallb is_command_event l = true → count_sends l = 0%nat.
Proof.
  induction l as [|e l IH]; [done|]. simpl. intros [He Hl]%andb_true_iff.
  unfold count_sends in *. rewrite filter_cons. destruct e; try done; simpl; by apply IH.
Qed.

Lemma sends_emit e w : sends (emit e w) = ((if is_send e then 1 else 0) + sends w)%nat.
Proof. unfold sends, count_sends. simpl. rewrite filter_cons. by destruct e. Qed.

Lemma closes_after s g w w1 w2 :
  preserves is_action_event w w1 → closes s g w1 w2 → closes s g w w2.
Proof.
  intros (A & B & C & n1 & T1 & F1) (A' & B' & C' & n2 & T2 & F2 & I2).
  repeat split; try congruence.
  exists (n2 ++ n1). rewrite T2, T1, app_assoc, forallb_app, F1, F2.
  repeat split; try done. apply elem_of_app. by left.
Qed.

Lemma closes_then s g w w1 w2 :
  closes s g w w1 → preserves is_action_event w1 w2 → closes s g w w2.
Proof.
  intros (A & B & C & n1 & T1 & F1 & I1) (A' & B' & C' & n2 & T2 & F2).
  repeat split; try congruence.
  exists (n2 ++ n1). rewrite T2, T1, app_assoc, forallb_app, F1, F2.
  repeat split; try done. apply elem_of_app. by right.
Qed.

(** Equations between lists that differ by the bracketing of [++]. *)
Ltac by_assoc := repeat (simpl; rewrite <- ?app_assoc); done.

Lemma news_app w w' new : trace w' = new ++ trace w → news w w' = new.
Proof.
  intros T. unfold news. rewrite T, length_app.
  replace (length new + length (trace w) - length (trace w))%nat with (length new) by lia.
  by rewrite take_app_length.
Qed.

Lemma filter_send_commands l :
  forallb is_command_event l = true → filter (λ e, is_send e = true) l = [].
Proof.
  induction l as [|e l IH]; [done|]. simpl. intros [He Hl]%andb_true_iff.
  rewrite filter_cons. destruct e; try done; simpl; by apply IH.
Qed.

Lemma sent_app w w' new :
  trace w' = new ++ trace w → sent w w' = filter (λ e, is_send e = true) new.
Proof. intros T. unfold sent. by rewrite (news_app _ _ _ T). Qed.

Lemma sent_trans w w1 w2 n1 n2 :
  trace w1 = n1 ++ trace w → trace w2 = n2 ++ trace w1 →
  sent w w2 = sent w1 w2 ++ sent w w1.
Proof.
  intros T1 T2. rewrite (sent_app w w1 n1 T1), (sent_app w1 w2 n2 T2).
  rewrite (sent_app w w2 (n2 ++ n1)) by (rewrite T2, T1; apply app_assoc).
  apply filter_app.
Qed.

Section Closing.

Context (env : Env).

Lemma sends_suspend w : sends (suspend env w) = sends w.
Proof.
  destruct (preserves_suspend env w) as (_ & _ & _ & new & T & F).
  unfold sends. rewrite T, count_sends_app, count_sends_commands; done.
Qed.

Lemma sends_send sender n w r w' :
  send env sender n w = (r, w') → sends w' = S (sends w).
Proof.
  unfold send, post. intros H.
  destruct (delivery env (clock w)); injection H as <- <-;
    rewrite ?sends_suspend, sends_emit; done.
Qed.

Lemma retry_from_step {A} attempts first (factory : World → Reply A * World) w :
  retry_from (S attempts) first factory w =
    match factory w with
    | (Ok a, w) => (Fulfilled a, w)
    | (Reject e, w) =>
        match attempts with
        | O => (Rejected e, w)
        | S _ => retry_from attempts false factory w
        end
    | (Raise e, w) => if first then (Thrown e, w) else (Rejected e, w)
    end.
Proof. done. Qed.

Lemma retry_settles {A} attempts first (factory : World → Reply A * World) w w' :
  retry_from attempts first factory w ≠ (Unsettled, w').
Proof.
  revert first w. induction attempts as [|more IH]; intros first w; [done|].
  rewrite retry_from_step. destruct (factory w) as [[] w1]; try done.
  - destruct more; [done | apply IH].
  - by destruct first.
Qed.

(** The retry helper calls the factory at least once and at most [attempts]
    times. *)
Lemma sends_retry sender n attempts first w o w' :
  retry_from (S attempts) first (send env sender n) w = (o, w') →
  (sends w < sends w' ≤ sends w + S attempts)%nat.
Proof.
  revert first w. induction attempts as [|more IH]; intros first w;
    rewrite retry_from_step;
    destruct (send env sender n w) as [r w1] eqn:E; apply sends_send in E.
  - destruct r; [| |destruct first]; intros [= <- <-]; lia.
  - destruct r; [intros [= <- <-]; lia| |destruct first; intros [= <- <-]; lia].
    intros H. apply IH in H. lia.
Qed.

Lemma send_awaited sender n w r w' :
  send env sender n w = (r, w') → awaited (EvSend sender n) w w'.
Proof.
  unfold send, post. intros H.
  destruct (delivery env (clock w)); injection H as <- <-.
  3: { repeat split. by exists []. }
  all: destruct (preserves_suspend env (emit (EvSend sender n) w)) as (A & _ & C & cmds & T & F);
    repeat split; try done; by exists cmds.
Qed.

Lemma call_awaited {A} (oracle : nat → Reply A) e w r w' :
  call env oracle e w = (r, w') → r = oracle (clock w) ∧ awaited e w w'.
Proof.
  unfold call. intros H.
  destruct (oracle (clock w)); injection H as <- <-; (split; [done|]).
  3: { repeat split. by exists []. }
  all: destruct (preserves_suspend env (emit e w)) as (A' & _ & C & cmds & T & F);
    repeat split; try done; by exists cmds.
Qed.

Lemma awaited_sent sender n w w' :
  awaited (EvSend sender n) w w' → sent w w' = [EvSend sender n].
Proof.
  intros (_ & _ & cmds & T & F). unfold sent.
  rewrite (news_app _ _ (cmds ++ [EvSend sender n])) by (rewrite T; by_assoc).
  by rewrite filter_app, filter_send_commands.
Qed.

(** The retry helper makes at least one attempt and at most [attempts], all
    of the same notification. *)
Lemma retry_sent sender n attempts first w o w' :
  retry_from (S attempts) first (send env sender n) w = (o, w') →
  ∃ new k, trace w' = new ++ trace w ∧ (1 ≤ k ≤ S attempts)%nat ∧
           filter (λ e, is_send e = true) new = replicate k (EvSend sender n).
Proof.
  revert first w. induction attempts as [|more IH]; intros first w;
    rewrite retry_from_step;
    destruct (send env sender n w) as [r w1] eqn:E;
    apply send_awaited in E as (_ & _ & cmds & T & F);
    assert (filter (λ e, is_send e = true) (cmds ++ [EvSend sender n]) = [EvSend sender n])
      as Hone by (by rewrite filter_app, filter_send_commands).
  - assert (o = o → w1 = w' →
            ∃ new k, trace w' = new ++ trace w ∧ (1 ≤ k ≤ 1)%nat ∧
                     filter (λ e, is_send e = true) new = replicate k (EvSend sender n)) as Hend.
    { intros _ <-. exists (cmds ++ [EvSend sender n]), 1%nat. rewrite T, <- app_assoc.
      split; [done|]. split; [lia | done]. }
    destruct r; [| |destruct first]; intros [= <- <-]; by apply Hend.
  - assert (w1 = w' →
            ∃ new k, trace w' = new ++ trace w ∧ (1 ≤ k ≤ S (S more))%nat ∧
                     filter (λ e, is_send e = true) new = replicate k (EvSend sender n)) as Hend.
    { intros <-. exists (cmds ++ [EvSend sender n]), 1%nat. rewrite T, <- app_assoc.
      split; [done|]. split; [lia | done]. }
    destruct r; [intros [= <- <-]; by apply Hend| |destruct first; intros [= <- <-]; by apply Hend].
    intros H. apply IH in H as (new & k & T' & Hk & Hf).
    exists (new ++ cmds ++ [EvSend sender n]), (S k). rewrite T', T, <- !app_assoc.
    split; [done|]. split; [lia|]. rewrite filter_app, Hf, Hone.
    change [EvSend sender n] with (replicate 1 (EvSend sender n)).
    rewrite <- replicate_add. f_equal. lia.
Qed.

Lemma completion_settles answer :
  completion answer = Fulfilled tt ∨ ∃ err, completion answer = Rejected err.
Proof. destruct answer; [right; by eexists | by left]. Qed.

Lemma completes_settles s g w w' o :
  completes env s g w w' o → o = Fulfilled tt ∨ ∃ err, o = Rejected err.
Proof. intros (cmds & before & _ & _ & ->). apply completion_settles. Qed.

Lemma completes_after s g w w1 w2 o :
  extends is_action_event w w1 → completes env s g w1 w2 o → completes env s g w w2 o.
Proof.
  intros (n1 & T1 & _) (cmds & before & T2 & F & ->).
  exists cmds, (before ++ n1). rewrite T2, T1, <- !app_assoc. done.
Qed.

Lemma closeSession_spec s gameOver w o w' :
  closeSession env (Some s) gameOver w = (o, w') →
  o = completion (finalize env (clock w)) ∧ closes s gameOver w w' ∧ sends w' = sends w ∧
  completes env s gameOver w w' o.
Proof.
  unfold closeSession. cbv zeta.
  set (w0 := set_currentActions _ _).
  assert (trace w0 = trace w) as T0 by done.
  pose proof (finalize_settles env s gameOver w0) as Ho.
  pose proof (finalize_keeps env s gameOver w0) as (A & B & C & _).
  destruct (finalize_trace env s gameOver w0) as (cmds & T & F).
  destruct (session_finalize env s gameOver w0) as [o1 w1]. simpl in *.
  intros [= <- <-]. unfold clock in *. rewrite ?T0 in *.
  split; [done|]. split; [|split].
  - repeat split; try done.
    exists (cmds ++ [EvFinalize (sid s) gameOver]). rewrite T, <- app_assoc.
    repeat split; try done.
    + rewrite forallb_app. simpl. rewrite andb_true_r.
      apply forallb_forall. intros e He. apply command_event_is_action_event.
      by eapply forallb_forall in F.
    + apply elem_of_app. right. by apply list_elem_of_singleton.
  - unfold sends. rewrite T, count_sends_app, (count_sends_commands _ F). done.
  - by exists cmds, [].
Qed.

Lemma closeSession_settles session gameOver w :
  match fst (closeSession env session gameOver w) with
  | Fulfilled _ | Rejected _ => True
  | Thrown _ | Unsettled => False
  end.
Proof.
  destruct session as [s|]; [|done].
  destruct (closeSession env (Some s) gameOver w) as [o w'] eqn:E.
  apply closeSession_spec in E as (-> & _). simpl. by destruct (finalize env (clock w)).
Qed.

Lemma in_callback_settled {A} (r : Outcome A * World) :
  match fst r with Thrown _ => False | _ => True end → in_callback r = r.
Proof. by destruct r as [[] ?]. Qed.

Lemma closeSession_in_callback session gameOver w :
  in_callback (closeSession env session gameOver w) = closeSession env session gameOver w.
Proof.
  apply in_callback_settled.
  pose proof (closeSession_settles session gameOver w) as H.
  by destruct (fst (closeSession env session gameOver w)).
Qed.

Lemma endQuiz_spec gameOver s notifier n w o w' :
  endQuiz env gameOver (Some s) notifier n w = (o, w') →
  closes s true w w' ∧ (sends w < sends w' ≤ sends w + 3)%nat ∧
  completes env s true w w' o.
Proof.
  unfold endQuiz, retryPromise.
  set (w0 := match currentActionForLocationId w !! getLocationId s with
             | Some current =>
                 set_currentActions
                   (delete (getLocationId s) (currentActionForLocationId (Action_stop current w)))
                   (Action_stop current w)
             | None => w
             end).
  assert (sessionForLocationId w0 = sessionForLocationId w ∧
          delete (getLocationId s) (currentActionForLocationId w0)
            = delete (getLocationId s) (currentActionForLocationId w) ∧
          saveRequestedByUserId w0 = saveRequestedByUserId w ∧
          trace w0 = trace w) as (A0 & B0 & C0 & T0).
  { subst w0. destruct (currentActionForLocationId w !! getLocationId s) as [current|]; [|done].
    unfold Action_stop, settle.
    destruct (has_stop current); [destruct (fulfill_ _) as [[]|]|]; simpl;
      by rewrite delete_delete_eq. }
  destruct (retry_from 3 true (send env notifier n) w0) as [o1 w1] eqn:E.
  pose proof E as E0.
  pose proof (sends_retry _ _ _ _ _ _ _ E) as Hs.
  apply retry_keeps in E; [|intros; by eapply send_keeps].
  assert (sends w0 = sends w) as Hs0 by (unfold sends; by rewrite T0).
  assert (∀ w2 w3, preserves is_action_event w1 w2 → sends w2 = sends w1 →
            closeSession env (Some s) true w2 = (o, w3) →
            closes s true w w3 ∧ (sends w < sends w3 ≤ sends w + 3)%nat ∧
            completes env s true w w3 o)
    as Hclose.
  { intros w2 w3 K Hs2 H. apply closeSession_spec in H as (_ & Hc & Hs3 & Hcompletes).
    assert (preserves is_action_event w0 w2) as K0 by (by eapply preserves_trans).
    split; [|split; [lia|]].
    - assert (closes s true w0 w3) as (A & B & C & new & T & F & I)
        by (eapply closes_after; [|exact Hc]; done).
      repeat split; try congruence. exists new. by rewrite T, T0.
    - destruct K0 as (_ & _ & _ & n0 & Tn & Fn).
      destruct Hcompletes as (cmds & before & T & F & ->).
      exists cmds, (before ++ n0). rewrite T, Tn, T0, <- !app_assoc. done. }
  destruct o1; rewrite ?closeSession_in_callback.
  - apply Hclose; [apply preserves_refl | done].
  - apply Hclose; [by frame | unfold logFailure; by rewrite sends_emit].
  - apply Hclose; [by frame | unfold logFailure; by rewrite sends_emit].
  - by apply retry_settles in E0.
Qed.

Lemma endQuiz_settles gameOver session notifier n w :
  match fst (endQuiz env gameOver session notifier n w) with
  | Fulfilled _ | Rejected _ => True
  | Thrown _ | Unsettled => False
  end.
Proof.
  destruct session as [s|]; [|done].
  destruct (endQuiz env gameOver (Some s) notifier n w) as [o w'] eqn:E.
  apply endQuiz_spec in E as (_ & _ & [-> | [e ->]]%completes_settles); done.
Qed.

(** The handler of [EndQuizForErrorAction.do] closes the session once more
    and raises the fault that reached it, unless that completion is
    rejected: then its rejection is raised. *)
Lemma closeAndRethrow_spec s err w o w' :
  closeAndRethrow env s err w = (o, w') →
  closes s true w w' ∧ sends w' = sends w ∧
  match finalize env (S (clock w)) with
  | None =>
      o = Rejected err ∧
      ∃ past, trace w' = EvLogSuccess "Session closed successfully." :: past
  | Some e => o = Rejected e
  end.
Proof.
  unfold closeAndRethrow.
  destruct (closeSession env (Some s) true (logFailure ENDING_FOR_ERROR_FAILURE w))
    as [o1 w1] eqn:E.
  apply closeSession_spec in E as (-> & Hc & Hs & _).
  change (clock (logFailure ENDING_FOR_ERROR_FAILURE w)) with (S (clock w)).
  unfold logFailure in Hs. rewrite sends_emit in Hs.
  destruct (finalize env (S (clock w))); simpl; intros [= <- <-].
  - split; [|done]. eapply closes_after; [|exact Hc]. by frame.
  - split; [|split].
    + eapply closes_then; [eapply closes_after; [|exact Hc]|]; by frame.
    + unfold logSuccess. by rewrite sends_emit.
    + split; [done | by eexists].
Qed.

Lemma closeAndRethrow_rejects s err w :
  ∃ e, fst (closeAndRethrow env s err w) = Rejected e.
Proof.
  destruct (closeAndRethrow env s err w) as [o w'] eqn:E.
  apply closeAndRethrow_spec in E as (_ & _ & H).
  destruct (finalize env (S (clock w))); [|destruct H]; by eexists.
Qed.

Lemma EndQuizForErrorAction_try_spec s w o w' :
  EndQuizForErrorAction_try env s w = (o, w') →
  if ambient_messageSender env
  then closes s true w w' ∧ (sends w < sends w' ≤ sends w + 3)%nat ∧
       completes env s true w w' o
  else o = Thrown (ReferenceError "messageSender") ∧ w' = logFailure "Stopping for error" w.
Proof.
  unfold EndQuizForErrorAction_try. destruct (ambient_messageSender env).
  - intros E. apply endQuiz_spec in E as (Hc & Hs & Ho).
    unfold logFailure in Hs. rewrite sends_emit in Hs. simpl in Hs.
    split; [eapply closes_after; [|exact Hc]; by frame|]. split; [lia|].
    eapply completes_after; [|exact Ho]. by exists [EvLogFailure "Stopping for error"].
  - by intros [= <- <-].
Qed.

(** [EndQuizForErrorAction.do] closes the session on all of its paths, and
    it is fulfilled or its promise is rejected. *)
Lemma EndQuizForErrorAction_do_spec s w o w' :
  EndQuizForErrorAction_do env s w = (o, w') →
  closes s true w w' ∧ (sends w' ≤ sends w + 3)%nat ∧
  (o = Fulfilled None ∨ ∃ e, o = Rejected e) ∧
  (ambient_messageSender env = true → (sends w < sends w')%nat) ∧
  (ambient_messageSender env = false → sends w' = sends w ∧ ∃ e, o = Rejected e).
Proof.
  unfold EndQuizForErrorAction_do.
  destruct (EndQuizForErrorAction_try env s w) as [o1 w1] eqn:E.
  apply EndQuizForErrorAction_try_spec in E.
  destruct (ambient_messageSender env).
  - destruct E as (Hc & Hs & Ho).
    destruct (completes_settles _ _ _ _ _ Ho) as [-> | [e ->]].
    + intros [= <- <-]. split; [done|]. split; [lia|]. split; [by left|].
      split; [intros _; lia | done].
    + destruct (closeAndRethrow_rejects s e w1) as [e' He'].
      rewrite in_callback_settled by (by rewrite He').
      destruct (closeAndRethrow env s e w1) as [o2 w2] eqn:E2. simpl in He'. subst o2.
      apply closeAndRethrow_spec in E2 as ((A & B & C & n2 & T2 & F2 & _) & Hs2 & _).
      intros [= <- <-].
      destruct Hc as (A1 & B1 & C1 & n1 & T1 & F1 & I1).
      split; [|split; [lia|]; split; [right; by eexists|]; split; [intros _; lia | done]].
      repeat split.
      * rewrite A, A1. by rewrite delete_delete_eq.
      * rewrite B, B1. by rewrite delete_delete_eq.
      * congruence.
      * exists (n2 ++ n1). rewrite T2, T1, app_assoc, forallb_app, F1, F2.
        repeat split; try done. apply elem_of_app. by right.
  - destruct E as [-> ->].
    destruct (closeAndRethrow_rejects s (ReferenceError "messageSender")
                (logFailure "Stopping for error" w)) as [e' He'].
    destruct (closeAndRethrow env s _ _) as [o2 w2] eqn:E2. simpl in He'. subst o2.
    apply closeAndRethrow_spec in E2 as (Hc & Hs2 & _).
    intros [= <- <-]. unfold logFailure in Hs2. rewrite sends_emit in Hs2. simpl in Hs2.
    split; [eapply closes_after; [|exact Hc]; by frame|].
    split; [lia|]. split; [right; by eexists|]. split; [done|].
    intros _. split; [done | by eexists].
Qed.

Lemma returning_endQuiz_spec gameOver s notifier n w o w' :
  returning_endQuiz (endQuiz env gameOver (Some s) notifier n w) = (o, w') →
  closes s true w w' ∧ (sends w < sends w' ≤ sends w + 3)%nat ∧
  (o = Fulfilled None ∨ ∃ e, o = Rejected e) ∧
  ∃ o1, completes env s true w w' o1 ∧
        o = match o1 with
            | Fulfilled _ => Fulfilled None
            | Rejected e => Rejected e
            | Thrown e => Thrown e
            | Unsettled => Unsettled
            end.
Proof.
  destruct (endQuiz _ _ _ _ _ _) as [o1 w1] eqn:E.
  apply endQuiz_spec in E as (Hc & Hs & Ho).
  destruct (completes_settles _ _ _ _ _ Ho) as [-> | [e ->]]; simpl; intros [= <- <-].
  - split; [done|]. split; [lia|]. split; [by left|]. eexists. split; [exact Ho | done].
  - split; [done|]. split; [lia|]. split; [right; by eexists|].
    eexists. split; [exact Ho | done].
Qed.

Lemma SaveAction_do_spec s savingUserId w o w' :
  SaveAction_do env s savingUserId w = (o, w') →
  (∃ next, o = Fulfilled next) ∧ closes s false w w'.
Proof.
  unfold SaveAction_do, new.
  destruct (closeSession env (Some s) false w) as [o1 w1] eqn:E.
  apply closeSession_spec in E as (-> & Hc & Hs & _).
  destruct (finalize env (clock w)); simpl.
  { intros [= <- <-]. split; [by eexists|]. eapply closes_then; [exact Hc|]. by frame. }
  destruct (call _ _ _ _) as [r w2] eqn:E2.
  destruct r; simpl.
  - destruct (send _ _ _ w2) as [r3 w3] eqn:E3.
    destruct r3; simpl; intros [= <- <-]; (split; [by eexists|]);
      (eapply closes_then; [exact Hc|]); by frame.
  - intros [= <- <-]. split; [by eexists|]. eapply closes_then; [exact Hc|]. by frame.
  - intros [= <- <-]. split; [by eexists|]. eapply closes_then; [exact Hc|]. by frame.
Qed.

End Closing.

(** ** What an action does to the registry *)

Lemma preserves_advances w w' : preserves is_action_event w w' → advances w w'.
Proof. intros (A & B & C & D). split; [|done]. intros l. left. rewrite A, B. auto. Qed.

Lemma closes_advances s g w w' : closes s g w w' → advances w w'.
Proof.
  intros (A & B & C & new & T & F & I). split; [|by exists new].
  intros l. rewrite A, B. destruct (decide (getLocationId s = l)) as [<-|Hne].
  - right. by rewrite !lookup_delete_eq.
  - left. rewrite !lookup_delete_ne by done. auto.
Qed.

Lemma advances_refl w : advances w w.
Proof. apply preserves_advances, preserves_refl. Qed.

Lemma advances_trans w1 w2 w3 : advances w1 w2 → advances w2 w3 → advances w1 w3.
Proof.
  intros (R1 & E1) (R2 & E2). split; [|by eapply extends_trans].
  intros l. destruct (R2 l) as [(S2 & C2)|(S2 & C2)]; [|by right].
  destruct (R1 l) as [(S1 & C1)|(S1 & C1)].
  - left. split; [congruence|]. destruct C2 as [C2|C2]; [|by right].
    rewrite C2. done.
  - right. split; [congruence|]. destruct C2 as [C2|C2]; congruence.
Qed.

Section Effects.

Context (env : Env).

Lemma Action_do_effect fuel a w o w' :
  Action_do env fuel a w = (o, w') →
  match closing a with
  | Some gameOver => closes (getSession_ a) gameOver w w'
  | None => preserves is_action_event w w'
  end.
Proof.
  destruct a; simpl; intros H.
  - by apply EndQuizForErrorAction_do_spec in H as [? _].
  - by apply returning_endQuiz_spec in H as (? & _).
  - by apply returning_endQuiz_spec in H as (? & _).
  - by apply returning_endQuiz_spec in H as (? & _).
  - by eapply ShowAnswersAction_do_keeps.
  - by eapply ShowWrongAnswerAction_do_keeps.
  - by eapply AskQuestionAction_do_keeps.
  - by eapply AskInitialQuestionAction_do_keeps.
  - by eapply StartAction_do_keeps.
  - by eapply WaitAction_do_keeps.
  - by apply SaveAction_do_spec in H as [_ ?].
Qed.

Lemma Action_do_advances fuel a w o w' :
  Action_do env fuel a w = (o, w') → advances w w'.
Proof.
  intros H. apply Action_do_effect in H. destruct (closing a).
  - by eapply closes_advances.
  - by apply preserves_advances.
Qed.

(** The outcome and the notification attempts of the End-Quiz actions. *)
Lemma end_quiz_do_spec fuel a w o w' :
  is_end_quiz a = true →
  Action_do env fuel a w = (o, w') →
  closes (getSession_ a) true w w' ∧ (sends w' ≤ sends w + 3)%nat ∧
  (o = Fulfilled None ∨ ∃ e, o = Rejected e).
Proof.
  destruct a; try done; simpl; intros _ H.
  - by apply EndQuizForErrorAction_do_spec in H as (? & ? & ? & _).
  - apply returning_endQuiz_spec in H as (? & ? & ? & _). split; [done|]. split; [lia | done].
  - apply returning_endQuiz_spec in H as (? & ? & ? & _). split; [done|]. split; [lia | done].
  - apply returning_endQuiz_spec in H as (? & ? & ? & _). split; [done|]. split; [lia | done].
Qed.

End Effects.

(** ** The End-Quiz variants *)

Section Notified.

Context (env : Env).

Lemma sent_none w w' new :
  trace w' = new ++ trace w → sends w' = sends w → sent w w' = [].
Proof.
  intros T Hs. rewrite (sent_app _ _ _ T).
  unfold sends in Hs. rewrite T, count_sends_app in Hs. unfold count_sends in Hs at 1.
  apply nil_length_inv. lia.
Qed.

Lemma closes_trace s g w w' : closes s g w w' → ∃ new, trace w' = new ++ trace w.
Proof. intros (_ & _ & _ & new & T & _). by exists new. Qed.

(** [endQuiz] asks the message sender for its notification, at least once and
    at most three times, and for nothing else. *)
Lemma endQuiz_sent gameOver s sender n w o w' :
  endQuiz env gameOver (Some s) sender n w = (o, w') →
  ∃ k, (1 ≤ k ≤ 3)%nat ∧ sent w w' = replicate k (EvSend sender n).
Proof.
  unfold endQuiz, retryPromise.
  set (w0 := match currentActionForLocationId w !! getLocationId s with
             | Some current =>
                 set_currentActions
                   (delete (getLocationId s) (currentActionForLocationId (Action_stop current w)))
                   (Action_stop current w)
             | None => w
             end).
  assert (trace w0 = trace w) as T0.
  { subst w0. destruct (currentActionForLocationId w !! getLocationId s) as [current|]; [|done].
    unfold Action_stop, settle.
    by destruct (has_stop current); [destruct (fulfill_ _) as [[]|]|]. }
  destruct (retry_from 3 true (send env sender n) w0) as [o1 w1] eqn:E.
  pose proof E as E0. apply retry_sent in E as (new1 & k & T1 & Hk & F1).
  intros H. exists k. split; [done|]. revert H.
  assert (∀ wx extra, trace wx = extra ++ trace w1 →
            filter (λ e, is_send e = true) extra = [] →
            closeSession env (Some s) true wx = (o, w') →
            sent w w' = replicate k (EvSend sender n)) as Hclose.
  { intros wx extra Tx Fx Hcl.
    apply closeSession_spec in Hcl as (_ & Hc & Hs & _).
    destruct (closes_trace _ _ _ _ Hc) as [new3 T3].
    assert (trace wx = (extra ++ new1) ++ trace w) as Tx'
      by (rewrite Tx, T1, T0; by_assoc).
    rewrite (sent_trans w wx w' _ _ Tx' T3), (sent_none wx w' new3 T3 Hs).
    rewrite (sent_app w wx _ Tx'). by rewrite filter_app, Fx, F1. }
  destruct o1; rewrite ?closeSession_in_callback.
  - by apply (Hclose w1 []).
  - by apply (Hclose (logFailure END_QUIZ_FAILURE w1) [EvLogFailure END_QUIZ_FAILURE]).
  - by apply (Hclose (logFailure END_QUIZ_FAILURE w1) [EvLogFailure END_QUIZ_FAILURE]).
  - by apply retry_settles in E0.
Qed.

Lemma returning_endQuiz_world r : snd (returning_endQuiz r) = snd r.
Proof. by destruct r as [[] ?]. Qed.

Lemma closeAndRethrow_sent s err w : sent w (snd (closeAndRethrow env s err w)) = [].
Proof.
  destruct (closeAndRethrow env s err w) as [o w'] eqn:E.
  apply closeAndRethrow_spec in E as (Hc & Hs & _).
  destruct (closes_trace _ _ _ _ Hc) as [new T]. by apply (sent_none _ _ new).
Qed.

Lemma in_callback_world {A} (r : Outcome A * World) : snd (in_callback r) = snd r.
Proof. by destruct r as [[] ?]. Qed.

(** What an End-Quiz action asks of the message sender. *)
Lemma end_quiz_sent fuel a w :
  is_end_quiz a = true →
  match end_quiz_notification env a w with
  | Some (sender, n) =>
      ∃ k, (1 ≤ k ≤ 3)%nat ∧ sent w (snd (Action_do env fuel a w)) = replicate k (EvSend sender n)
  | None => sent w (snd (Action_do env fuel a w)) = []
  end.
Proof.
  destruct a as [i s|i s|i s|i s| | | | | | |]; try done; intros _;
    cbn [Action_do end_quiz_notification].
  - unfold EndQuizForErrorAction_do, EndQuizForErrorAction_try.
    set (w0 := logFailure "Stopping for error" w).
    assert (trace w0 = [EvLogFailure "Stopping for error"] ++ trace w) as T0 by done.
    destruct (ambient_messageSender env).
    + destruct (endQuiz env true (Some s) AmbientSender notifyQuizEndedError w0)
        as [o1 w1] eqn:E.
      pose proof (endQuiz_sent _ _ _ _ _ _ _ E) as (k & Hk & Hsent).
      apply endQuiz_spec in E as (Hc & _).
      destruct (closes_trace _ _ _ _ Hc) as [new1 T1].
      exists k. split; [done|].
      assert (sent w w1 = replicate k (EvSend AmbientSender notifyQuizEndedError)) as Hw1.
      { rewrite (sent_trans w w0 w1 _ _ T0 T1), Hsent.
        rewrite (sent_app w w0 _ T0). simpl. by rewrite app_nil_r. }
      assert (∀ err, sent w (snd (closeAndRethrow env s err w1))
                     = replicate k (EvSend AmbientSender notifyQuizEndedError)) as Hw2.
      { intros err. destruct (closeAndRethrow env s err w1) as [o2 w2] eqn:E2.
        pose proof (closeAndRethrow_sent s err w1) as H2. rewrite E2 in H2. simpl in H2.
        apply closeAndRethrow_spec in E2 as (Hc2 & _).
        destruct (closes_trace _ _ _ _ Hc2) as [new2 T2]. simpl.
        rewrite (sent_trans w w1 w2 (new1 ++ [EvLogFailure "Stopping for error"]) new2);
          [by rewrite H2, Hw1 | by rewrite T1, T0, <- app_assoc | done]. }
      destruct o1; rewrite ?in_callback_world; done.
    + pose proof (closeAndRethrow_sent s (ReferenceError "messageSender") w0) as H2.
      destruct (closeAndRethrow env s _ w0) as [o2 w2] eqn:E2.
      apply closeAndRethrow_spec in E2 as (Hc2 & _).
      destruct (closes_trace _ _ _ _ Hc2) as [new2 T2]. simpl in H2. simpl snd.
      rewrite (sent_trans w w0 w2 _ _ T0 T2), H2. by rewrite (sent_app w w0 _ T0).
  - unfold EndQuizScoreLimitReachedAction_do. rewrite returning_endQuiz_world.
    destruct (endQuiz env true (Some s) _ _ w) as [o1 w1] eqn:E. by eapply endQuiz_sent.
  - unfold EndQuizNoQuestionsLeftAction_do. rewrite returning_endQuiz_world.
    destruct (endQuiz env true (Some s) _ _ w) as [o1 w1] eqn:E. by eapply endQuiz_sent.
  - unfold EndQuizTooManyWrongAnswersAction_do. rewrite returning_endQuiz_world.
    destruct (endQuiz env true (Some s) _ _ w) as [o1 w1] eqn:E. by eapply endQuiz_sent.
Qed.

End Notified.

(** C7, as the code has it.  Whatever the deliveries do (succeed, be
    rejected on every attempt, throw), an End-Quiz action finalizes the
    session with game over and clears both registry entries of its location,
    and it settles.  An action that has a notification asks the message
    sender for it at least once and at most three times, and for nothing
    else; so do the three variants that read the sender from the session.
    The error ending reads it from the identifier [messageSender]: where that
    is unbound it has no notification, and the message sender is not
    called. *)
Theorem end_quiz_closes_the_session env fuel a w :
  is_end_quiz a = true →
  let session := getSession_ a in
  let r := Action_do env fuel a w in
  sessionForLocationId (snd r) !! getLocationId session = None ∧
  currentActionForLocationId (snd r) !! getLocationId session = None ∧
  EvFinalize (sid session) true ∈ news w (snd r) ∧
  (fst r = Fulfilled None ∨ ∃ e, fst r = Rejected e) ∧
  match end_quiz_notification env a w with
  | Some (sender, n) =>
      ∃ k, (1 ≤ k ≤ 3)%nat ∧ sent w (snd r) = replicate k (EvSend sender n)
  | None => sent w (snd r) = []
  end.
Proof.
  intros Ha session r. subst r.
  pose proof (end_quiz_sent env fuel a w Ha) as Hsent.
  destruct (Action_do env fuel a w) as [o w'] eqn:E.
  apply end_quiz_do_spec in E as ((A & B & C & new & T & F & I) & Hs & Ho); [|done].
  simpl in *. split; [rewrite A; apply lookup_delete_eq|].
  split; [rewrite B; apply lookup_delete_eq|].
  split; [by rewrite (news_app _ _ _ T)|]. by split.
Qed.

Lemma end_quiz_closes_the_session_witness :
  let a := EndQuizTooManyWrongAnswersAction 0 sampleSession in
  let r := Action_do (offline false) 0 a registered in
  is_end_quiz a = true ∧
  sessionForLocationId (snd r) !! "channel" = None ∧
  currentActionForLocationId (snd r) !! "channel" = None ∧
  EvFinalize 1 true ∈ news registered (snd r) ∧
  (fst r = Fulfilled None ∨ ∃ e, fst r = Rejected e) ∧
  match end_quiz_notification (offline false) a registered with
  | Some (sender, n) =>
      ∃ k, (1 ≤ k ≤ 3)%nat ∧ sent registered (snd r) = replicate k (EvSend sender n)
  | None => sent registered (snd r) = []
  end.
Proof.
  split; [reflexivity|].
  apply (end_quiz_closes_the_session (offline false) 0
           (EndQuizTooManyWrongAnswersAction 0 sampleSession) registered).
  reflexivity.
Defined.

(** The error ending where nothing binds [messageSender], with a message
    sender that would deliver: the action fails on the identifier before it
    has asked for the notification, closes the session and rejects.  The
    ending for too many wrong answers beside it, which reads the sender from
    the session. *)
Example error_ending_attempts_no_notification :
  let r := Action_do (calm false) 0 (EndQuizForErrorAction 0 sampleSession) registered in
  let r' := Action_do (calm false) 0 (EndQuizTooManyWrongAnswersAction 0 sampleSession)
              registered in
  (fst r = Rejected (ReferenceError "messageSender") ∧
   sent registered (snd r) = [] ∧
   rev (trace (snd r))
   = [ EvLogFailure "Stopping for error";
       EvLogFailure "Error ending quiz gracefully for error. Attempting to close session.";
       EvFinalize 1 true;
       EvLogSuccess "Session closed successfully." ]) ∧
  (fst r' = Fulfilled None ∧
   rev (trace (snd r'))
   = [ EvSend (SenderOf 1) (notifyQuizEndedTooManyWrongAnswers 0);
       EvFinalize 1 true ]).
Proof. by vm_compute. Qed.

(** ** The cleanup between two actions *)

Lemma timers_cleared_actions session l :
  forallb is_action_event l = true → timers_cleared session l = true.
Proof.
  induction l as [|e l IH]; [done|]. simpl. intros [He Hl]%andb_true_iff.
  rewrite (IH Hl), andb_true_r. by destruct e.
Qed.

(** Joining two stretches of events: only a step of the driver at the end of
    the later one looks at the earlier one. *)
Lemma timers_cleared_app session later earlier :
  timers_cleared session later = true →
  timers_cleared session earlier = true →
  (∀ older l a before past,
     later = older ++ [EvDo l a] → earlier = before :: past →
     cleanup_before session before a = true) →
  timers_cleared session (later ++ earlier) = true.
Proof.
  induction later as [|e later IH]; [done|].
  intros Hl He Hb. simpl in Hl. apply andb_true_iff in Hl as [Hh Ht].
  simpl. apply andb_true_iff. split.
  - destruct later as [|e' later]; simpl.
    + destruct e; try done. destruct earlier as [|before past]; [done|].
      by eapply (Hb [] _ _ before past).
    + done.
  - apply IH; try done. intros older l a before past -> ->.
    by eapply (Hb (e :: older)).
Qed.

Lemma timers_cleared_spec session new newer l a before older :
  timers_cleared session new = true →
  new = newer ++ EvDo l a :: before :: older →
  cleanup_before session before a = true.
Proof.
  intros H ->. induction newer as [|e newer IH]; simpl in H.
  - by apply andb_true_iff in H as [H _].
  - apply andb_true_iff in H as [_ H]. by apply IH.
Qed.

Lemma cleanup_before_inv session before a :
  cleanup_before session before a = true →
  before = EvClearTimers session ∨
  (before = EvLogFailure "Error" ∧ ∃ i s, a = EndQuizForErrorAction i s).
Proof.
  destruct before; try done; simpl.
  - intros [Hm Ha]%andb_true_iff. right. apply String.eqb_eq in Hm as ->.
    destruct a; try done. eauto.
  - intros H%Nat.eqb_eq. left. by subst.
Qed.

Lemma holds_at_most_advances l s w w' :
  holds_at_most l s w → advances w w' → holds_at_most l s w'.
Proof.
  unfold holds_at_most. intros H [R _]. destruct (R l) as [[-> _]|[-> _]]; auto.
Qed.


Section Chain.

Context (env : Env).

(** The events of a chain, whatever the fuel: they begin with the step on the
    first action, and every later step comes right after the cleanup. *)
Lemma chainActions_trace fuel locationId action s w o w' :
  holds_at_most locationId s w →
  chainActions env fuel locationId action w = (o, w') →
  holds_at_most locationId s w' ∧
  ∃ new, trace w' = new ++ trace w ∧
         timers_cleared (sid s) new = true ∧
         begins_with locationId action new.
Proof.
  revert action w o w'. induction fuel as [|fuel IH]; intros action w o w' Hw;
    cbn [chainActions].
  { intros [= <- <-]. split; [done|]. exists []. repeat split; try done. by left. }
  destruct action as [a|]; [|intros [= <- <-]; split; [done|]; exists []; repeat split; try done; by left].
  destruct (sessionForLocationId w !! locationId) as [session|] eqn:Hs;
    [|intros [= <- <-]; split; [done|]; exists []; repeat split; try done; by left].
  assert (session = s) as -> by (destruct Hw; congruence).
  set (w1 := emit (EvDo locationId a)
               (set_currentActions (<[locationId := a]> (currentActionForLocationId w)) w)).
  assert (holds_at_most locationId s w1) as Hw1 by (left; exact Hs).
  (* the handler of [.catch] *)
  assert (∀ wx o w', holds_at_most locationId s wx →
            (let w := logFailure "Error" wx in
             let '(ending, w) := new (λ j, EndQuizForErrorAction j s) w in
             reported END_STATUS_ERROR (chainActions env fuel locationId (Some ending) w))
              = (o, w') →
            holds_at_most locationId s w' ∧
            ∃ new, trace w' = new ++ trace wx ∧ timers_cleared (sid s) new = true ∧
                   ∃ older, new = older ++ [EvLogFailure "Error"]) as Hrecover.
  { intros wx o0 w0 Hx. unfold new. simpl.
    destruct (chainActions env fuel locationId _ _) as [o3 w3] eqn:E3.
    apply IH in E3 as (H3 & new3 & T3 & C3 & B3); [|exact Hx].
    intros Hr. assert (w0 = w3) as -> by (destruct o3; by injection Hr).
    split; [done|]. exists (new3 ++ [EvLogFailure "Error"]).
    split; [rewrite T3; by_assoc|]. split; [|by eexists].
    apply timers_cleared_app; [done | done |].
    intros older l a' before past -> [= <- <-].
    destruct B3 as [B3|(a3 & older3 & [= <-] & B3)].
    - by destruct older.
    - apply app_inj_tail in B3 as [_ B3]. injection B3 as -> ->. done. }
  destruct (Action_do env fuel a w1) as [o2 w2] eqn:E2.
  pose proof (Action_do_advances _ _ _ _ _ _ E2) as Ha.
  pose proof (holds_at_most_advances _ _ _ _ Hw1 Ha) as Hw2.
  destruct Ha as [_ (new2 & T2 & F2)].
  assert (trace w2 = (new2 ++ [EvDo locationId a]) ++ trace w) as T2'
    by (rewrite T2; subst w1; by_assoc).
  assert (timers_cleared (sid s) (new2 ++ [EvDo locationId a]) = true) as C2.
  { apply timers_cleared_app; [by apply timers_cleared_actions | done |].
    intros older l a' before past ->. rewrite forallb_app in F2.
    apply andb_true_iff in F2 as [_ F2]. done. }
  destruct o2 as [result|err|err|].
  - (* the action returned [result] *)
    destruct (chainActions env fuel locationId result (session_clearTimers s w2))
      as [o3 w3] eqn:E3.
    assert (holds_at_most locationId s (session_clearTimers s w2)) as Hw2' by done.
    apply IH in E3 as (H3 & new3 & T3 & C3 & B3); [|exact Hw2'].
    assert (trace w3 = (new3 ++ EvClearTimers (sid s) :: new2 ++ [EvDo locationId a]) ++ trace w)
      as T3' by (rewrite T3; simpl; rewrite T2'; by_assoc).
    assert (timers_cleared (sid s) (new3 ++ EvClearTimers (sid s) :: new2 ++ [EvDo locationId a])
            = true) as C3'.
    { apply timers_cleared_app; [done | first [done | by simpl; rewrite C2] |].
      intros older l a' before past _ [= <- _]. simpl. apply Nat.eqb_refl. }
    assert (∀ o w', (o3, w3) = (o, w') →
              holds_at_most locationId s w' ∧
              ∃ new, trace w' = new ++ trace w ∧ timers_cleared (sid s) new = true ∧
                     begins_with locationId (Some a) new) as Hdone.
    { intros ? ? [= <- <-]. split; [done|]. eexists. split; [exact T3'|]. split; [done|].
      right. exists a, (new3 ++ EvClearTimers (sid s) :: new2). split; [done|].
      by_assoc. }
    assert (∀ o w', (let w := logFailure "Error" w3 in
             let '(ending, w) := new (λ j, EndQuizForErrorAction j s) w in
             reported END_STATUS_ERROR (chainActions env fuel locationId (Some ending) w))
              = (o, w') →
              holds_at_most locationId s w' ∧
              ∃ new, trace w' = new ++ trace w ∧ timers_cleared (sid s) new = true ∧
                     begins_with locationId (Some a) new) as Hfail.
    { intros o0 w0 Hr. apply Hrecover in Hr as (H4 & new4 & T4 & C4 & older4 & B4); [|done].
      split; [done|]. exists (new4 ++ new3 ++ EvClearTimers (sid s) :: new2 ++ [EvDo locationId a]).
      split; [rewrite T4, T3'; by_assoc|]. split.
      - apply timers_cleared_app; [done | done |]. intros older l a' before past ->.
        apply app_inj_tail in B4 as [_ [=]].
      - right. exists a, (new4 ++ new3 ++ EvClearTimers (sid s) :: new2). split; [done|].
        by_assoc. }
    destruct o3; [apply Hdone | apply Hfail | apply Hfail | apply Hdone].
  - (* the promise of the action was rejected *)
    intros Hr. apply Hrecover in Hr as (H4 & new4 & T4 & C4 & older4 & B4); [|done].
    split; [done|]. exists (new4 ++ new2 ++ [EvDo locationId a]).
    split; [rewrite T4, T2'; by_assoc|]. split.
    + apply timers_cleared_app; [done | done |]. intros older l a' before past ->.
      apply app_inj_tail in B4 as [_ [=]].
    + right. exists a, (new4 ++ new2). split; [done|]. by_assoc.
  - (* [do] threw *)
    destruct (endQuiz env true (Some s) (SenderOf (sid s)) notifyQuizEndedError
                (logFailure "Error in chainActions. Closing the session." w2))
      as [o3 w3] eqn:E3.
    apply endQuiz_spec in E3 as (Hc & _).
    intros H. assert (w' = w3) as -> by (destruct o3; by injection H). clear H.
    apply closes_advances in Hc.
    split; [by eapply holds_at_most_advances; [|exact Hc]|].
    destruct Hc as [_ (new3 & T3 & F3)].
    exists (new3 ++ EvLogFailure "Error in chainActions. Closing the session."
              :: new2 ++ [EvDo locationId a]).
    split; [rewrite T3; simpl; rewrite T2'; by_assoc|]. split.
    + apply timers_cleared_app;
        [by apply timers_cleared_actions | first [done | by simpl; rewrite C2] |].
      intros older l a' before past ->. rewrite forallb_app in F3.
      apply andb_true_iff in F3 as [_ F3]. done.
    + right. exists a, (new3 ++ EvLogFailure "Error in chainActions. Closing the session." :: new2).
      split; [done|]. by_assoc.
  - intros [= <- <-]. split; [done|]. exists (new2 ++ [EvDo locationId a]).
    split; [done|]. split; [done|]. right. by exists a, new2.
Qed.

End Chain.

(** Within the chain of a location, every step of the driver after the
    first comes right after [clearTimers] of the session, but for the error
    ending that the driver creates itself when it has logged a fault. *)
Lemma chain_steps_follow_the_cleanup env fuel locationId action w session :
  sessionForLocationId w !! locationId = Some session →
  ∃ new,
    trace (snd (chainActions env fuel locationId action w)) = new ++ trace w ∧
    ∀ newer l a before older,
      new = newer ++ EvDo l a :: before :: older →
      before = EvClearTimers (sid session) ∨
      (before = EvLogFailure "Error" ∧ ∃ i s, a = EndQuizForErrorAction i s).
Proof.
  intros Hs. destruct (chainActions env fuel locationId action w) as [o w'] eqn:E.
  apply (chainActions_trace _ _ _ _ session) in E as (_ & new & T & C & _); [|by left].
  exists new. split; [done|]. intros newer l a before older Hnew.
  by eapply cleanup_before_inv, timers_cleared_spec.
Qed.

(** The events of the chain that [startSession] runs when every collaborator
    answers, oldest first: three actions, each followed by the cleanup. *)
Example calm_chain_events :
  rev (trace (snd (startSession (calm false) 9 sampleSession "channel" initial_world)))
  = [ EvDo "channel" (StartAction 0 sampleSession);
      EvSend (SenderOf 1) (notifyStarting 5000);
      EvClearTimers 1;
      EvDo "channel"
        (WaitAction 2 sampleSession 5000 (AskInitialQuestionAction 1 sampleSession));
      EvAddTimer 1 5000;
      EvClearTimers 1;
      EvDo "channel" (AskInitialQuestionAction 1 sampleSession);
      EvGetRandomWord;
      EvClearTimers 1 ].
Proof. vm_compute. reflexivity. Qed.

(** ** Starting a session *)

Section Start.

Context (env : Env).

(** A chain that runs an action extends the world in which the driver has
    made it the current action. *)
Lemma chainActions_started fuel locationId a s w o w' :
  sessionForLocationId w !! locationId = Some s →
  chainActions env (S fuel) locationId (Some a) w = (o, w') →
  ∃ new, trace w' = new ++ trace (started locationId a w).
Proof.
  intros Hs. cbn [chainActions]. rewrite Hs. fold (started locationId a w).
  assert (holds_at_most locationId s (started locationId a w)) as Hw1 by (left; exact Hs).
  destruct (Action_do env fuel a (started locationId a w)) as [o2 w2] eqn:E2.
  pose proof (Action_do_advances _ _ _ _ _ _ E2) as Ha.
  pose proof (holds_at_most_advances _ _ _ _ Hw1 Ha) as Hw2.
  destruct Ha as [_ (new2 & T2 & _)].
  assert (∀ wx o w', holds_at_most locationId s wx →
            (∃ newx, trace wx = newx ++ trace (started locationId a w)) →
            (let w := logFailure "Error" wx in
             let '(ending, w) := new (λ j, EndQuizForErrorAction j s) w in
             reported END_STATUS_ERROR (chainActions env fuel locationId (Some ending) w))
              = (o, w') →
            ∃ new, trace w' = new ++ trace (started locationId a w)) as Hrecover.
  { intros wx o0 w0 Hx [newx Tx]. unfold new. simpl.
    destruct (chainActions env fuel locationId _ _) as [o3 w3] eqn:E3.
    apply (chainActions_trace _ _ _ _ s) in E3 as (_ & new3 & T3 & _); [|exact Hx].
    intros Hr. assert (w0 = w3) as -> by (destruct o3; by injection Hr).
    exists (new3 ++ EvLogFailure "Error" :: newx). rewrite T3. simpl. rewrite Tx. by_assoc. }
  destruct o2 as [result|err|err|].
  - destruct (chainActions env fuel locationId result (session_clearTimers s w2))
      as [o3 w3] eqn:E3.
    apply (chainActions_trace _ _ _ _ s) in E3 as (H3 & new3 & T3 & _); [|exact Hw2].
    assert (∃ newx, trace w3 = newx ++ trace (started locationId a w)) as Hx.
    { exists (new3 ++ EvClearTimers (sid s) :: new2). rewrite T3. simpl. rewrite T2. by_assoc. }
    destruct o3; try (intros [= <- <-]; exact Hx); by apply Hrecover.
  - apply Hrecover; [done | by exists new2].
  - destruct (endQuiz _ _ _ _ _ _) as [o3 w3] eqn:E3.
    apply endQuiz_spec in E3 as ((_ & _ & _ & new3 & T3 & _) & _).
    intros H. assert (w' = w3) as -> by (destruct o3; by injection H). clear H.
    exists (new3 ++ EvLogFailure "Error in chainActions. Closing the session." :: new2).
    rewrite T3. simpl. rewrite T2. by_assoc.
  - intros [= <- <-]. by exists new2.
Qed.

End Start.

(** ** One step of the driver *)

Lemma chainActions_unregistered env fuel locationId action w :
  sessionForLocationId w !! locationId = None →
  chainActions env (S fuel) locationId action w = (Fulfilled None, w).
Proof. intros H. cbn [chainActions]. rewrite H. by destruct action. Qed.

(** C8, as the code has it: one step of the driver.  The driver has made
    [a] the current action and has called its [do]; until [do] settles, no
    other step is taken.  When [do] is fulfilled, the next event is the
    cleanup of the timers of the session, and when the result is an action
    that the driver goes on with (the session is still registered), its step
    follows the cleanup directly; otherwise nothing follows.  When [do]
    faults there is no cleanup: the next event is the log of the fault, and
    after a rejected promise the step on the error ending of the driver
    follows it directly.  The chain of the next action is a chain of the same
    driver: the same holds of each of its steps. *)
Theorem timers_cleared_before_next_action env fuel locationId session a w :
  sessionForLocationId w !! locationId = Some session →
  let step := Action_do env fuel a (started locationId a w) in
  let w1 := snd step in
  let r := chainActions env (S fuel) locationId (Some a) w in
  ∃ during later,
    trace w1 = during ++ EvDo locationId a :: trace w ∧
    forallb is_action_event during = true ∧
    match fst step with
    | Fulfilled result =>
        trace (snd r) = later ++ EvClearTimers (sid session) :: trace w1 ∧
        match result, fuel, sessionForLocationId w1 !! locationId with
        | Some next, S _, Some _ => ∃ later', later = later' ++ [EvDo locationId next]
        | _, _, _ => later = []
        end
    | Rejected _ =>
        trace (snd r) = later ++ EvLogFailure "Error" :: trace w1 ∧
        match fuel, sessionForLocationId w1 !! locationId with
        | S _, Some _ =>
            ∃ later' i, later = later' ++ [EvDo locationId (EndQuizForErrorAction i session)]
        | _, _ => later = []
        end
    | Thrown _ =>
        trace (snd r)
          = later ++ EvLogFailure "Error in chainActions. Closing the session." :: trace w1
    | Unsettled => snd r = w1
    end.
Proof.
  intros Hs step w1 r. subst r w1 step. cbn [chainActions]. rewrite Hs.
  fold (started locationId a w).
  destruct (Action_do env fuel a (started locationId a w)) as [o1 w1] eqn:D.
  pose proof (Action_do_advances _ _ _ _ _ _ D) as Ha.
  assert (holds_at_most locationId session w1) as Hw1
    by (apply (holds_at_most_advances _ _ (started locationId a w)); [by left | done]).
  destruct Ha as [_ (during & T1 & F1)].
  exists during. set (w2 := session_clearTimers session w1).
  assert (trace w2 = EvClearTimers (sid session) :: trace w1) as T2 by done.
  assert (∀ wx o w', holds_at_most locationId session wx →
            (let w := logFailure "Error" wx in
             let '(ending, w) := new (λ j, EndQuizForErrorAction j session) w in
             reported END_STATUS_ERROR (chainActions env fuel locationId (Some ending) w))
              = (o, w') →
            ∃ later,
              trace w' = later ++ EvLogFailure "Error" :: trace wx ∧
              match fuel, sessionForLocationId wx !! locationId with
              | S _, Some _ =>
                  ∃ later' i,
                    later = later' ++ [EvDo locationId (EndQuizForErrorAction i session)]
              | _, _ => later = []
              end) as Hrecover.
  { intros wx o0 w0 Hx. unfold new. simpl.
    destruct (chainActions env fuel locationId _ _) as [o3 w3] eqn:E3.
    intros Hr. assert (w0 = w3) as -> by (destruct o3; by injection Hr). clear Hr.
    destruct fuel as [|fuel']; [exists []; by injection E3 as _ <-|].
    destruct (sessionForLocationId wx !! locationId) as [s1|] eqn:Hs1.
    - apply (chainActions_started _ _ _ _ s1) in E3 as [older T]; [|done].
      exists (older ++ [EvDo locationId (EndQuizForErrorAction (nextId wx) session)]).
      split; [rewrite T; simpl; by_assoc | by eexists _, _].
    - rewrite chainActions_unregistered in E3 by done. exists []. by injection E3 as _ <-. }
  destruct o1 as [result|err|err|]; cbn [fst snd].
  4:{ by exists []. }
  3:{ destruct (endQuiz _ _ _ _ _ _) as [o3 w3] eqn:E3.
      apply endQuiz_spec in E3 as ((_ & _ & _ & new3 & T3 & _) & _).
      exists new3. split; [done|]. split; [done|].
      assert (∀ x : Outcome (option Z) * World, snd x = w3 →
                trace (snd x)
                = new3 ++ EvLogFailure "Error in chainActions. Closing the session."
                    :: trace w1) as Hx by (by intros x ->).
      by destruct o3; apply Hx. }
  2:{ destruct (Hrecover w1 _ _ Hw1 (surjective_pairing _)) as (later & ? & ?).
      by exists later. }
  destruct (chainActions env fuel locationId result w2) as [o3 w3] eqn:E3.
  pose proof (chainActions_trace env fuel locationId result session w2 o3 w3 Hw1 E3)
    as (Hw3 & _).
  assert (∃ new3, trace w3 = new3 ++ trace w2 ∧
            match result, fuel, sessionForLocationId w1 !! locationId with
            | Some next, S _, Some _ => ∃ older, new3 = older ++ [EvDo locationId next]
            | _, _, _ => new3 = [] ∧ is_fault o3 = false
            end) as (new3 & T3 & Hnew3).
  { destruct result as [next|].
    2:{ exists []. destruct fuel; [|cbn [chainActions] in E3];
          by injection E3 as <- <-. }
    destruct fuel as [|fuel']; [exists []; by injection E3 as <- <-|].
    destruct (sessionForLocationId w1 !! locationId) as [s1|] eqn:Hs1.
    - apply (chainActions_started _ _ _ _ s1) in E3 as [older T]; [|done].
      exists (older ++ [EvDo locationId next]). split; [|by eexists].
      rewrite T. simpl. by_assoc.
    - rewrite chainActions_unregistered in E3 by done. exists []. by injection E3 as <- <-. }
  assert (∀ w', (∃ more, trace w' = more ++ trace w3) →
            ¬ (new3 = [] ∧ is_fault o3 = false) ∨ w' = w3 →
            ∃ later,
              trace w1 = during ++ EvDo locationId a :: trace w ∧
              forallb is_action_event during = true ∧
              trace w' = later ++ EvClearTimers (sid session) :: trace w1 ∧
              match result, fuel, sessionForLocationId w1 !! locationId with
              | Some next, S _, Some _ => ∃ later', later = later' ++ [EvDo locationId next]
              | _, _, _ => later = []
              end) as Hgoal.
  { intros w' [more Tm] Hcase. exists (more ++ new3).
    split; [done|]. split; [done|].
    split; [rewrite Tm, T3, T2; by_assoc|].
    destruct result as [next|]; [destruct fuel as [|fuel'];
      [|destruct (sessionForLocationId w1 !! locationId)]|].
    2:{ destruct Hnew3 as [older ->]. exists (more ++ older). by_assoc. }
    all: destruct Hcase as [Hcase | ->]; [by destruct Hcase|];
      destruct Hnew3 as [-> _]; rewrite app_nil_r;
      apply (f_equal length) in Tm; rewrite length_app in Tm;
      destruct more; [done | simpl in Tm; lia]. }
  assert (∀ w', w' = w3 → ∃ more, trace w' = more ++ trace w3) as Hsame
    by (intros ? ->; by exists []).
  destruct o3 as [x|e|e|]; simpl; apply Hgoal.
  - by apply Hsame.
  - by right.
  - destruct (Hrecover w3 _ _ Hw3 (surjective_pairing _)) as (later & Tl & _).
    exists (later ++ [EvLogFailure "Error"]). rewrite <- app_assoc. exact Tl.
  - left. by intros [_ ?].
  - destruct (Hrecover w3 _ _ Hw3 (surjective_pairing _)) as (later & Tl & _).
    exists (later ++ [EvLogFailure "Error"]). rewrite <- app_assoc. exact Tl.
  - left. by intros [_ ?].
  - by apply Hsame.
  - by right.
Qed.

Lemma timers_cleared_before_next_action_witness :
  let a := StartAction 0 sampleSession in
  let next := WaitAction 2 sampleSession 5000 (AskInitialQuestionAction 1 sampleSession) in
  let w1 := snd (Action_do (calm false) 1 a (started "channel" a registered)) in
  let r := chainActions (calm false) 2 "channel" (Some a) registered in
  sessionForLocationId registered !! "channel" = Some sampleSession ∧
  ∃ during later,
    trace w1 = during ++ EvDo "channel" a :: trace registered ∧
    forallb is_action_event during = true ∧
    trace (snd r) = later ++ EvClearTimers 1 :: trace w1 ∧
    ∃ later', later = later' ++ [EvDo "channel" next].
Proof.
  split; [reflexivity|].
  exact (timers_cleared_before_next_action (calm false) 1 "channel" sampleSession
           (StartAction 0 sampleSession) registered eq_refl).
Defined.

(** C8 as stated fails after a fault.  The question is open and its answer
    timer is armed when the reveal timer fires and the message sender throws
    on the hint: the action rejects, and the driver logs the fault and starts
    its error ending.  No timer is cleared before that step, nor later in the
    chain. *)
Lemma error_ending_starts_before_the_cleanup :
  let a := AskQuestionAction 0 sampleSession in
  let r := chainActions reveal_breaks 3 "channel" (Some a) registered in
  fst (Action_do reveal_breaks 2 a (started "channel" a registered))
    = Rejected (Fault "socket") ∧
  rev (trace (snd r))
  = [ EvDo "channel" a;
      EvGetNextCard 1;
      EvPreprocess sampleCard;
      EvSetCurrentCard 1 (markPreprocessed sampleCard);
      EvCreateQuestion (markPreprocessed sampleCard);
      EvSend (SenderOf 1) (showQuestion "ri___" None);
      EvAddTimer 1 16000;
      EvAddTimer 1 8000;
      EvCreateTextQuestionWithHint sampleCard;
      EvSend (SenderOf 1) (showQuestion "rin__" (Some 7%nat));
      EvLogFailure "Error";
      EvDo "channel" (EndQuizForErrorAction 1 sampleSession);
      EvLogFailure "Stopping for error";
      EvLogFailure "Error ending quiz gracefully for error. Attempting to close session.";
      EvFinalize 1 true;
      EvLogSuccess "Session closed successfully.";
      EvLogFailure "Error" ] ∧
  EvClearTimers 1 ∉ trace (snd r).
Proof.
  vm_compute. split; [done|]. split; [done|].
  intros H. repeat (apply elem_of_cons in H as [H|H]; [discriminate H|]).
  by apply elem_of_nil in H.
Qed.

(** ** Reading the registry *)

Lemma get_own {A} (object : gmap string A) key a : object !! key = Some a → get object key = Own a.
Proof. unfold get. by intros ->. Qed.

Lemma get_Own {A} (object : gmap string A) key a : get object key = Own a → object !! key = Some a.
Proof. unfold get. destruct (object !! key); [congruence | by destruct (inherited key)]. Qed.

Lemma get_Undefined {A} (object : gmap string A) key :
  get object key = Undefined ↔ object !! key = None ∧ inherited key = false.
Proof.
  unfold get. destruct (object !! key); [|destruct (inherited key)]; split; try done.
  all: by intros [? ?].
Qed.

Lemma get_Inherited {A} (object : gmap string A) key :
  get object key = Inherited ↔ object !! key = None ∧ inherited key = true.
Proof.
  unfold get. destruct (object !! key); [|destruct (inherited key)]; split; try done.
  all: by intros [? ?].
Qed.

Lemma not_in_progress locationId w :
  isSessionInProgressAtLocation locationId w = false ↔
  sessionForLocationId w !! locationId = None ∧ inherited locationId = false.
Proof.
  unfold isSessionInProgressAtLocation. rewrite <- get_Undefined.
  destruct (get (sessionForLocationId w) locationId); split; done.
Qed.

(** C6. [startSession] goes by what it reads in the registry.  Where the
    read is truthy, the session of the location or what every object
    inherits under that name, it fails the assertion (of
    [verifySessionNotInProgress], and [setSessionForLocationId] has its own)
    and leaves the world as it was: no second entry.  Where the read is
    [undefined] the session is registered and the chain is that of a new
    [StartAction]: the first step of the driver is on it. *)
Theorem startSession_checks_the_location env fuel session locationId w :
  match get (sessionForLocationId w) locationId with
  | Own _ | Inherited =>
      startSession env fuel session locationId w
        = (Thrown (AssertionError "Already a session in progress there."), w) ∧
      setSessionForLocationId session locationId w
        = inl (AssertionError "Already have a session for that loction ID")
  | Undefined =>
      let start := StartAction (nextId w) session in
      ∃ w1 new,
        setSessionForLocationId session locationId w = inr w1 ∧
        sessionForLocationId w1 = <[locationId := session]> (sessionForLocationId w) ∧
        startSession env (S fuel) session locationId w
          = chainActions env (S fuel) locationId (Some start) (set_nextId (S (nextId w)) w1) ∧
        trace (snd (startSession env (S fuel) session locationId w))
          = new ++ EvDo locationId start :: trace w
  end.
Proof.
  unfold startSession, verifySessionNotInProgress, setSessionForLocationId,
    isSessionInProgressAtLocation, assert.
  destruct (get (sessionForLocationId w) locationId) as [existing| |] eqn:Hs; try done.
  simpl negb. cbv iota.
  exists (set_sessions (<[locationId := session]> (sessionForLocationId w)) w).
  unfold new. cbv beta iota zeta.
  destruct (chainActions env (S fuel) locationId _ _) as [o w'] eqn:E.
  apply (chainActions_started _ _ _ _ session) in E as [new T];
    [|simpl; apply lookup_insert_eq].
  exists new. split; [done|]. split; [done|]. split; [done|]. exact T.
Qed.

(** No session is registered, and [startSession] for the location
    ["constructor"] fails the assertion: the registry inherits a property of
    that name. *)
Example startSession_at_an_inherited_key :
  sessionForLocationId initial_world = ∅ ∧
  ∀ env fuel,
    startSession env fuel sampleSession "constructor" initial_world
      = (Thrown (AssertionError "Already a session in progress there."), initial_world).
Proof. split; [done|]. intros env fuel. done. Qed.

(** ** Faults *)

Lemma ran_error_ending_actions l :
  forallb is_action_event l = true → ran_error_ending l = false.
Proof.
  unfold ran_error_ending. induction l as [|e l IH]; [done|]. simpl.
  intros [He Hl]%andb_true_iff. rewrite (IH Hl), orb_false_r. by destruct e.
Qed.

Lemma closes_lookup s g w w' :
  closes s g w w' →
  sessionForLocationId w' !! getLocationId s = None ∧
  currentActionForLocationId w' !! getLocationId s = None.
Proof. intros (A & B & _). rewrite A, B. split; apply lookup_delete_eq. Qed.

Section Faults.

Context (env : Env).

(** The retry helper calls the factory: the notification is attempted. *)
Lemma retry_send_attempts sender n attempts first w o w' :
  retry_from (S attempts) first (send env sender n) w = (o, w') →
  ∃ new, trace w' = new ++ trace w ∧ EvSend sender n ∈ new.
Proof.
  rewrite retry_from_step. destruct (send env sender n w) as [r w1] eqn:E.
  assert (∃ new, trace w1 = new ++ trace w ∧ EvSend sender n ∈ new) as (new1 & T1 & I1).
  { unfold send, post in E.
    destruct (delivery env (clock w)); injection E as <- <-.
    3: { exists [EvSend sender n]. split; [done | by apply list_elem_of_singleton]. }
    all: destruct (preserves_suspend env (emit (EvSend sender n) w)) as (_ & _ & _ & new & T & _);
      exists (new ++ [EvSend sender n]); rewrite T; split; [by_assoc|];
      apply elem_of_app; right; by apply list_elem_of_singleton. }
  assert (∀ w2, preserves is_action_event w1 w2 →
            ∃ new, trace w2 = new ++ trace w ∧ EvSend sender n ∈ new) as Hlater.
  { intros w2 (_ & _ & _ & new2 & T2 & _). exists (new2 ++ new1). rewrite T2, T1.
    split; [by_assoc|]. apply elem_of_app. by right. }
  destruct r.
  - intros [= <- <-]. eauto.
  - destruct attempts; [intros [= <- <-]; eauto|].
    intros H. apply retry_keeps in H; [|intros; by eapply send_keeps]. by apply Hlater.
  - destruct first; intros [= <- <-]; eauto.
Qed.

Lemma endQuiz_notifies gameOver s notifier n w o w' :
  endQuiz env gameOver (Some s) notifier n w = (o, w') →
  ∃ new, trace w' = new ++ trace w ∧ EvSend notifier n ∈ new.
Proof.
  unfold endQuiz, retryPromise.
  set (w0 := match currentActionForLocationId w !! getLocationId s with
             | Some current =>
                 set_currentActions
                   (delete (getLocationId s) (currentActionForLocationId (Action_stop current w)))
                   (Action_stop current w)
             | None => w
             end).
  assert (trace w0 = trace w) as T0.
  { subst w0. destruct (currentActionForLocationId w !! getLocationId s) as [current|]; [|done].
    unfold Action_stop, settle.
    by destruct (has_stop current); [destruct (fulfill_ _) as [[]|]|]. }
  destruct (retry_from 3 true (send env notifier n) w0) as [o1 w1] eqn:E.
  pose proof E as E0. apply retry_send_attempts in E as (new1 & T1 & I1).
  assert (∀ w2 w3 extra, trace w2 = extra ++ trace w1 →
            closeSession env (Some s) true w2 = (o, w3) →
            ∃ new, trace w3 = new ++ trace w ∧ EvSend notifier n ∈ new) as Hclose.
  { intros w2 w3 extra T2 H. apply closeSession_spec in H as (_ & (_ & _ & _ & new3 & T3 & _) & _).
    exists (new3 ++ extra ++ new1). rewrite T3, T2, T1, T0. split; [by_assoc|].
    apply elem_of_app. right. apply elem_of_app. by right. }
  destruct o1; rewrite ?closeSession_in_callback.
  - by apply (Hclose _ _ []).
  - by apply (Hclose _ _ [EvLogFailure END_QUIZ_FAILURE]).
  - by apply (Hclose _ _ [EvLogFailure END_QUIZ_FAILURE]).
  - by apply retry_settles in E0.
Qed.

(** One step of the driver on a registered location. *)
Lemma chainActions_step fuel locationId a s w :
  sessionForLocationId w !! locationId = Some s →
  chainActions env (S fuel) locationId (Some a) w =
    match Action_do env fuel a (started locationId a w) with
    | (Fulfilled result, w) =>
        match chainActions env fuel locationId result (session_clearTimers s w) with
        | (Rejected err, w) => recovery env fuel locationId s w
        | (Thrown err, w) => recovery env fuel locationId s w
        | r => r
        end
    | (Rejected err, w) => recovery env fuel locationId s w
    | (Thrown err, w) =>
        match endQuiz env true (Some s) (SenderOf (sid s)) notifyQuizEndedError
                (logFailure "Error in chainActions. Closing the session." w) with
        | (Fulfilled _, w) => (Fulfilled (Some END_STATUS_ERROR), w)
        | (Rejected e, w) => (Rejected e, w)
        | (Thrown e, w) => (Thrown e, w)
        | (Unsettled, w) => (Unsettled, w)
        end
    | (Unsettled, w) => (Unsettled, w)
    end.
Proof. intros Hs. cbn [chainActions]. rewrite Hs. reflexivity. Qed.

(** The chain of an error ending on a registered session: it closes the
    session and is fulfilled, whether the ending is fulfilled or rejects. *)
Lemma error_ending_chain fuel i s w o w' :
  sessionForLocationId w !! getLocationId s = Some s →
  chainActions env (S (S fuel)) (getLocationId s) (Some (EndQuizForErrorAction i s)) w = (o, w') →
  (∃ status, o = Fulfilled status) ∧
  sessionForLocationId w' !! getLocationId s = None ∧
  currentActionForLocationId w' !! getLocationId s = None ∧
  ∃ new, trace w' = new ++ EvDo (getLocationId s) (EndQuizForErrorAction i s) :: trace w ∧
         EvFinalize (sid s) true ∈ new.
Proof.
  intros Hs. rewrite (chainActions_step _ _ _ s) by done. cbn [Action_do].
  destruct (EndQuizForErrorAction_do env s _) as [o2 w2] eqn:E2.
  apply EndQuizForErrorAction_do_spec in E2 as (Hc & _ & Ho & _).
  pose proof (closes_lookup _ _ _ _ Hc) as [Hs2 Ha2].
  destruct Hc as (_ & _ & _ & new2 & T2 & _ & I2).
  destruct Ho as [-> | [e ->]].
  - rewrite chainActions_unregistered by done. intros [= <- <-].
    split; [by eexists|]. split; [done|]. split; [done|].
    exists (EvClearTimers (sid s) :: new2). simpl. rewrite T2. split; [done|].
    by apply elem_of_cons; right.
  - unfold recovery, new. cbv zeta. rewrite chainActions_unregistered by done.
    simpl. intros [= <- <-].
    split; [by eexists|]. split; [done|]. split; [done|].
    exists (EvLogFailure "Error" :: new2). simpl. rewrite T2. split; [done|].
    by apply elem_of_cons; right.
Qed.

Lemma Action_do_fault_closing fuel a w o w' :
  Action_do env fuel a w = (o, w') → is_fault o = true → closing a ≠ Some false.
Proof.
  destruct a; try done. simpl. intros H Ho _.
  apply SaveAction_do_spec in H as [[next ->] _]. done.
Qed.

(** The error ending of a session that is registered under another location
    than its own, where the notifier is unbound: closing the session removes
    nothing at the location of the chain, and the driver recurses into the
    next error ending. *)
Lemma error_endings_away_from_home fuel i s locationId w :
  ambient_messageSender env = false →
  getLocationId s ≠ locationId →
  sessionForLocationId w !! locationId = Some s →
  let r := chainActions env fuel locationId (Some (EndQuizForErrorAction i s)) w in
  fst r = Unsettled ∧ sessionForLocationId (snd r) !! locationId = Some s.
Proof.
  intros Hunbound Hl. revert i w.
  induction fuel as [|fuel IH]; intros i w Hs; [done|].
  cbv zeta. rewrite (chainActions_step _ _ _ s) by done. cbn [Action_do].
  destruct (EndQuizForErrorAction_do env s _) as [o2 w2] eqn:E2.
  apply EndQuizForErrorAction_do_spec in E2 as ((A2 & _) & _ & _ & _ & Ho).
  destruct (Ho Hunbound) as (_ & e & ->).
  unfold recovery, new. cbv zeta.
  match goal with
  | |- context [chainActions env fuel locationId (Some (EndQuizForErrorAction ?j s)) ?x] =>
      destruct (IH j x) as [Ho3 Hs3];
        [simpl; rewrite A2, lookup_delete_ne by done; exact Hs|];
      destruct (chainActions env fuel locationId (Some (EndQuizForErrorAction j s)) x)
        as [o3 w3]
  end.
  simpl in Ho3, Hs3. by subst o3.
Qed.

End Faults.

(** C2, as the code has it, for an action of the session that is registered
    at its own location.  When [do] faults, the session is finalized with
    game over and both registry entries of the location are removed.  The two
    kinds of fault take different paths.  After a rejected promise the driver
    logs the fault and recurses into an error ending, which runs when the
    session is still registered, and the chain is fulfilled with
    [END_STATUS_ERROR], also when the error ending rejects.  After an
    exception thrown by [do] the driver logs the fault and ends the quiz
    itself, with the error notification of [endQuiz]: it runs no error
    ending, and its chain settles as the completion of the session does,
    fulfilled with [END_STATUS_ERROR] or rejected with the fault of
    [finalize]. *)
Theorem driver_ends_the_quiz_on_a_fault env fuel a w :
  let session := getSession_ a in
  let locationId := getLocationId session in
  let w1 := started locationId a w in
  let fault := fst (Action_do env (S (S fuel)) a w1) in
  let r := chainActions env (S (S (S fuel))) locationId (Some a) w in
  sessionForLocationId w !! locationId = Some session →
  is_fault fault = true →
  ∃ new,
    trace (snd r) = new ++ trace w1 ∧
    sessionForLocationId (snd r) !! locationId = None ∧
    currentActionForLocationId (snd r) !! locationId = None ∧
    EvFinalize (sid session) true ∈ new ∧
    match fault with
    | Thrown _ =>
        EvLogFailure "Error in chainActions. Closing the session." ∈ new ∧
        EvSend (SenderOf (sid session)) notifyQuizEndedError ∈ new ∧
        ran_error_ending new = false ∧
        ∃ o, completes env session true w1 (snd r) o ∧ fst r = then_status o
    | _ =>
        fst r = Fulfilled (Some END_STATUS_ERROR) ∧
        EvLogFailure "Error" ∈ new ∧
        (closing a = None →
         ∃ i, EvDo locationId (EndQuizForErrorAction i session) ∈ new)
    end.
Proof.
  intros session locationId w1 fault r Hs Hfault. subst fault r.
  rewrite (chainActions_step _ _ _ _ session) by done.
  fold locationId. fold w1.
  destruct (Action_do env (S (S fuel)) a w1) as [o2 w2] eqn:E2.
  simpl in Hfault.
  pose proof (Action_do_effect _ _ _ _ _ _ E2) as Heff.
  pose proof (Action_do_fault_closing _ _ _ _ _ _ E2 Hfault) as Hsave.
  destruct o2 as [|err|err|]; try done; cbn [fst].
  - (* rejected *)
    unfold recovery, new. cbv zeta.
    destruct (closing a) as [[]|] eqn:Hc; [|done|].
    + (* the action was an End-Quiz action: the session is closed already *)
      pose proof (closes_lookup _ _ _ _ Heff) as [Hs2 Ha2]. fold session locationId in Hs2, Ha2.
      destruct Heff as (_ & _ & _ & new2 & T2 & _ & I2).
      rewrite chainActions_unregistered by done. simpl.
      exists (EvLogFailure "Error" :: new2). rewrite T2.
      split; [done|]. split; [done|]. split; [done|].
      split; [by apply elem_of_cons; right|]. split; [done|].
      split; [by apply elem_of_cons; left | done].
    + (* the session is still registered: the error ending runs *)
      destruct Heff as (A2 & _ & _ & new2 & T2 & _).
      destruct (chainActions env (S (S fuel)) locationId _ _) as [o3 w3] eqn:E3.
      apply error_ending_chain in E3 as ([status ->] & Hs3 & Ha3 & new3 & T3 & I3);
        [|simpl; by rewrite A2].
      simpl in *.
      exists (new3 ++ EvDo locationId (EndQuizForErrorAction (nextId w2) session)
                :: EvLogFailure "Error" :: new2).
      rewrite T3, T2. split; [by_assoc|]. split; [done|]. split; [done|].
      split; [by apply elem_of_app; left|]. split; [done|]. split.
      * apply elem_of_app. right. apply elem_of_cons. right. by apply elem_of_cons; left.
      * intros _. exists (nextId w2). apply elem_of_app. right. by apply elem_of_cons; left.
  - (* thrown *)
    assert (∃ new2, trace w2 = new2 ++ trace w1 ∧ forallb is_action_event new2 = true)
      as (new2 & T2 & F2).
    { destruct (closing a); [destruct Heff as (_ & _ & _ & n & ? & ? & _)
                            |destruct Heff as (_ & _ & _ & n & ? & ?)]; by exists n. }
    destruct (endQuiz _ _ _ _ _ _) as [o3 w3] eqn:E3.
    pose proof (endQuiz_notifies _ _ _ _ _ _ _ _ E3) as (new3' & T3' & I3').
    apply endQuiz_spec in E3 as (Hc3 & _ & Hcomp).
    pose proof (closes_lookup _ _ _ _ Hc3) as [Hs3 Ha3].
    destruct Hc3 as (_ & _ & _ & new3 & T3 & F3 & I3).
    assert (new3' = new3) as -> by (rewrite T3 in T3'; by apply app_inv_tail in T3').
    apply (completes_after _ _ _ w1) in Hcomp;
      [|exists (EvLogFailure "Error in chainActions. Closing the session." :: new2);
        simpl; by rewrite T2, F2].
    assert (∀ x : Outcome (option Z) * World,
              fst x = then_status o3 → snd x = w3 →
              ∃ new,
                trace (snd x) = new ++ trace w1 ∧
                sessionForLocationId (snd x) !! locationId = None ∧
                currentActionForLocationId (snd x) !! locationId = None ∧
                EvFinalize (sid session) true ∈ new ∧
                EvLogFailure "Error in chainActions. Closing the session." ∈ new ∧
                EvSend (SenderOf (sid session)) notifyQuizEndedError ∈ new ∧
                ran_error_ending new = false ∧
                ∃ o, completes env session true w1 (snd x) o ∧ fst x = then_status o) as Hx.
    { intros x Ho ->. simpl in *.
      exists (new3 ++ EvLogFailure "Error in chainActions. Closing the session." :: new2).
      rewrite T3, T2. split; [by_assoc|]. split; [done|]. split; [done|].
      split; [by apply elem_of_app; left|]. split; [|split; [|split]].
      - apply elem_of_app. right. by apply elem_of_cons; left.
      - by apply elem_of_app; left.
      - apply ran_error_ending_actions. rewrite forallb_app, F3. simpl. by rewrite F2.
      - by exists o3. }
    by destruct o3; apply Hx.
Qed.

Lemma driver_ends_the_quiz_on_a_fault_witness :
  let a := ShowAnswersAction 0 sampleSession in
  let w1 := started "channel" a registered in
  let r := chainActions (broken false) 3 "channel" (Some a) registered in
  sessionForLocationId registered !! "channel" = Some sampleSession ∧
  is_fault (fst (Action_do (broken false) 2 a w1)) = true ∧
  ∃ new,
    trace (snd r) = new ++ trace w1 ∧
    sessionForLocationId (snd r) !! "channel" = None ∧
    currentActionForLocationId (snd r) !! "channel" = None ∧
    EvFinalize 1 true ∈ new ∧
    match fst (Action_do (broken false) 2 a w1) with
    | Thrown _ =>
        EvLogFailure "Error in chainActions. Closing the session." ∈ new ∧
        EvSend (SenderOf 1) notifyQuizEndedError ∈ new ∧
        ran_error_ending new = false ∧
        ∃ o, completes (broken false) sampleSession true w1 (snd r) o ∧
             fst r = then_status o
    | _ =>
        fst r = Fulfilled (Some END_STATUS_ERROR) ∧
        EvLogFailure "Error" ∈ new ∧
        (closing a = None →
         ∃ i, EvDo "channel" (EndQuizForErrorAction i sampleSession) ∈ new)
    end.
Proof.
  split; [reflexivity|]. split; [reflexivity|].
  apply (driver_ends_the_quiz_on_a_fault (broken false) 0
           (ShowAnswersAction 0 sampleSession) registered); reflexivity.
Defined.

(** C2 as stated fails in three ways.  A fault thrown by [do] (the message
    sender throws when [StartAction] notifies) makes the driver end the quiz
    itself: it runs no error ending.  When the completion of the session is
    rejected on that path, the chain is rejected with that fault and reports
    no status.  And where the session is registered under another location
    than its own, a rejected [do] starts error endings that close nothing at
    the location of the chain: the session stays registered and no chain,
    however long, settles. *)
Lemma thrown_fault_runs_no_error_ending :
  let a := StartAction 0 sampleSession in
  let r := chainActions (broken false) 3 "channel" (Some a) registered in
  let r' := chainActions (with_delivery (λ _, Raise (Fault "socket")) (unreliable false))
              3 "channel" (Some a) registered in
  (fst (Action_do (broken false) 2 a (started "channel" a registered))
     = Thrown (Fault "socket") ∧
   fst r = Fulfilled (Some END_STATUS_ERROR) ∧
   ran_error_ending (trace (snd r)) = false ∧
   rev (trace (snd r))
   = [ EvDo "channel" a;
       EvSend (SenderOf 1) (notifyStarting 5000);
       EvLogFailure "Error in chainActions. Closing the session.";
       EvSend (SenderOf 1) notifyQuizEndedError;
       EvLogFailure "Error ending quiz. Continuing and closing session.";
       EvFinalize 1 true ]) ∧
  (fst r' = Rejected (Fault "storage") ∧ trace (snd r') = trace (snd r)) ∧
  (getLocationId sampleSession = "channel" ∧
   sessionForLocationId away !! "lobby" = Some sampleSession ∧
   fst (Action_do (broken false) 2 (ShowAnswersAction 0 sampleSession)
          (started "lobby" (ShowAnswersAction 0 sampleSession) away))
     = Rejected (Fault "socket") ∧
   ∀ fuel,
     let r := chainActions (broken false) fuel "lobby"
                (Some (ShowAnswersAction 0 sampleSession)) away in
     fst r = Unsettled ∧ sessionForLocationId (snd r) !! "lobby" = Some sampleSession).
Proof.
  cbv zeta. split; [vm_compute; repeat split|]. split; [vm_compute; repeat split|].
  split; [done|]. split; [done|]. split; [by vm_compute|].
  intros [|fuel]; [done|].
  rewrite (chainActions_step _ _ _ _ sampleSession) by done. cbn [Action_do].
  destruct (ShowAnswersAction_do _ _ _ _) as [o2 w2] eqn:E2.
  vm_compute in E2. injection E2 as <- <-.
  unfold recovery, new. cbv zeta.
  match goal with
  | |- context [chainActions ?e fuel "lobby" (Some (EndQuizForErrorAction ?j ?s)) ?x] =>
      destruct (error_endings_away_from_home e fuel j s "lobby" x) as [Ho3 Hs3];
        [done | done | done |];
      destruct (chainActions e fuel "lobby" (Some (EndQuizForErrorAction j s)) x) as [o3 w3]
  end.
  simpl in Ho3, Hs3. by subst o3.
Qed.

(** The path of a rejected promise, for comparison: the scoreboard cannot be
    sent, [ShowAnswersAction] rejects, and the driver runs an error ending;
    with the notifier unbound that ending closes the session and rejects, and
    the nested driver logs once more. *)
Example rejected_fault_runs_an_error_ending :
  let a := ShowAnswersAction 0 sampleSession in
  let r := chainActions (broken false) 3 "channel" (Some a) registered in
  fst r = Fulfilled (Some END_STATUS_ERROR) ∧
  rev (trace (snd r))
  = [ EvDo "channel" a;
      EvAddTimer 1 2000;
      EvMarkCurrentCardAnswered 1;
      EvSend (SenderOf 1) (outputQuestionScorers sampleCard);
      EvLogFailure "Error";
      EvDo "channel" (EndQuizForErrorAction 1 sampleSession);
      EvLogFailure "Stopping for error";
      EvLogFailure "Error ending quiz gracefully for error. Attempting to close session.";
      EvFinalize 1 true;
      EvLogSuccess "Session closed successfully.";
      EvLogFailure "Error" ].
Proof. vm_compute. repeat split. Qed.

(** ** The error ending *)

(** C4, as the code has it.  [EndQuizForErrorAction.do] always closes the
    session: finalized with game over, both registry entries gone.  A fault
    of an end-of-quiz notification does not reach the handlers of the
    action: it stays inside [endQuiz], whose promise settles as the
    completion of the session does, whatever the deliveries do.  When the
    attempt of the action is fulfilled, so is the action.  A fault that does
    reach the handlers makes them close the session once more; it is raised
    again when that completion is fulfilled, and replaced by the fault of
    [finalize] when it is rejected.  In every case the handler of the driver
    that recursed into the action reports [END_STATUS_ERROR]. *)
Theorem error_ending_closes_the_session env fuel session w :
  let locationId := getLocationId session in
  let attempt := EndQuizForErrorAction_try env session w in
  let r := EndQuizForErrorAction_do env session w in
  sessionForLocationId w !! locationId = Some session →
  (∃ new, trace (snd r) = new ++ trace w ∧ EvFinalize (sid session) true ∈ new) ∧
  sessionForLocationId (snd r) !! locationId = None ∧
  currentActionForLocationId (snd r) !! locationId = None ∧
  (∀ notifier n w0,
     let q := endQuiz env true (Some session) notifier n w0 in
     completes env session true w0 (snd q) (fst q)) ∧
  match fst attempt with
  | Fulfilled _ => r = (Fulfilled None, snd attempt)
  | Rejected err | Thrown err =>
      match finalize env (S (clock (snd attempt))) with
      | None =>
          fst r = Rejected err ∧
          ∃ past, trace (snd r) = EvLogSuccess "Session closed successfully." :: past
      | Some e => fst r = Rejected e
      end
  | Unsettled => False
  end ∧
  fst (recovery env (S (S fuel)) locationId session w) = Fulfilled (Some END_STATUS_ERROR).
Proof.
  intros locationId attempt r Hs. subst r attempt.
  destruct (EndQuizForErrorAction_do env session w) as [o w'] eqn:E.
  pose proof (EndQuizForErrorAction_do_spec _ _ _ _ _ E) as (Hc & _).
  pose proof (closes_lookup _ _ _ _ Hc) as [Hs' Ha'].
  destruct Hc as (_ & _ & _ & events & T & _ & I). cbn [fst snd].
  split; [by exists events|]. split; [done|]. split; [done|].
  split; [|split].
  - intros notifier n w0. cbv zeta.
    destruct (endQuiz env true (Some session) notifier n w0) as [o1 w1] eqn:E1.
    by apply endQuiz_spec in E1 as (_ & _ & ?).
  - unfold EndQuizForErrorAction_do in E.
    pose proof (endQuiz_settles env true (Some session) AmbientSender notifyQuizEndedError
                  (logFailure "Stopping for error" w)) as Hsettles.
    assert (match fst (EndQuizForErrorAction_try env session w) with
            | Unsettled => False | _ => True end) as Hattempt.
    { unfold EndQuizForErrorAction_try.
      destruct (ambient_messageSender env); [|done].
      by destruct (fst (endQuiz _ _ _ _ _ _)). }
    destruct (EndQuizForErrorAction_try env session w) as [[?|err|err|] w1]; simpl in *.
    + by injection E as <- <-.
    + rewrite in_callback_settled in E
        by (destruct (closeAndRethrow_rejects env session err w1) as [e ->]; done).
      apply closeAndRethrow_spec in E as (_ & _ & Ho).
      by destruct (finalize env (S (clock w1))).
    + apply closeAndRethrow_spec in E as (_ & _ & Ho).
      by destruct (finalize env (S (clock w1))).
    + done.
  - unfold recovery, new. cbv zeta.
    destruct (chainActions env (S (S fuel)) locationId _ _) as [o3 w3] eqn:E3.
    by apply error_ending_chain in E3 as ([status ->] & _).
Qed.

Lemma error_ending_closes_the_session_witness :
  let env := calm false in
  let attempt := EndQuizForErrorAction_try env sampleSession registered in
  let r := EndQuizForErrorAction_do env sampleSession registered in
  sessionForLocationId registered !! "channel" = Some sampleSession ∧
  (∃ new, trace (snd r) = new ++ trace registered ∧ EvFinalize 1 true ∈ new) ∧
  sessionForLocationId (snd r) !! "channel" = None ∧
  currentActionForLocationId (snd r) !! "channel" = None ∧
  (∀ notifier n w0,
     let q := endQuiz env true (Some sampleSession) notifier n w0 in
     completes env sampleSession true w0 (snd q) (fst q)) ∧
  match fst attempt with
  | Fulfilled _ => r = (Fulfilled None, snd attempt)
  | Rejected err | Thrown err =>
      match finalize env (S (clock (snd attempt))) with
      | None =>
          fst r = Rejected err ∧
          ∃ past, trace (snd r) = EvLogSuccess "Session closed successfully." :: past
      | Some e => fst r = Rejected e
      end
  | Unsettled => False
  end ∧
  fst (recovery env 2 "channel" sampleSession registered) = Fulfilled (Some END_STATUS_ERROR).
Proof.
  split; [reflexivity|].
  apply (error_ending_closes_the_session (calm false) 0 sampleSession registered).
  reflexivity.
Defined.

(** C4 as stated fails in two ways.  Run as it is listed, where nothing
    binds [messageSender], the action fails before it enters [endQuiz], and
    its handler closes the session; when that completion is rejected, the
    action rejects with the fault of [finalize], and the original fault is
    not raised again.  And a fault of the notification itself does not reach
    the handlers of an action: with every delivery rejected, [endQuiz] logs
    the fault, closes the session and is fulfilled. *)
Lemma notification_fault_is_not_raised_again :
  let r := EndQuizForErrorAction_do (unreliable false) sampleSession registered in
  let r' := endQuiz (offline false) true (Some sampleSession) AmbientSender
              notifyQuizEndedError registered in
  (fst (EndQuizForErrorAction_try (unreliable false) sampleSession registered)
     = Thrown (ReferenceError "messageSender") ∧
   fst r = Rejected (Fault "storage") ∧
   rev (trace (snd r))
   = [ EvLogFailure "Stopping for error";
       EvLogFailure "Error ending quiz gracefully for error. Attempting to close session.";
       EvFinalize 1 true ]) ∧
  (fst r' = Fulfilled tt ∧
   rev (trace (snd r'))
   = [ EvSend AmbientSender notifyQuizEndedError;
       EvSend AmbientSender notifyQuizEndedError;
       EvSend AmbientSender notifyQuizEndedError;
       EvLogFailure "Error ending quiz. Continuing and closing session.";
       EvFinalize 1 true ]).
Proof. vm_compute. repeat split. Qed.

(** The action where [messageSender] is bound: the deliveries are rejected,
    or the message sender throws; the action is fulfilled, and no fault
    reaches the driver. *)
Example bound_notifier_absorbs_the_fault :
  let r := EndQuizForErrorAction_do (offline true) sampleSession registered in
  let r' := EndQuizForErrorAction_do (broken true) sampleSession registered in
  (fst r = Fulfilled None ∧
   rev (trace (snd r))
   = [ EvLogFailure "Stopping for error";
       EvSend AmbientSender notifyQuizEndedError;
       EvSend AmbientSender notifyQuizEndedError;
       EvSend AmbientSender notifyQuizEndedError;
       EvLogFailure "Error ending quiz. Continuing and closing session.";
       EvFinalize 1 true ]) ∧
  (fst r' = Fulfilled None ∧
   rev (trace (snd r'))
   = [ EvLogFailure "Stopping for error";
       EvSend AmbientSender notifyQuizEndedError;
       EvLogFailure "Error ending quiz. Continuing and closing session.";
       EvFinalize 1 true ]).
Proof. vm_compute. repeat split. Qed.

(** ** Skipping *)

(** C9, as the code has it.  [skipCommand] returns whether the current action
    of the location has the skip capability.  On an [AskQuestionAction] the
    skip takes effect once the question is open, that is once the action
    keeps the resolvers of its promise: while the promise is pending it is
    fulfilled with [ShowWrongAnswerAction(session, true)] and the card is
    marked unanswered, whatever the answer time of the card; when the
    promise is settled already the card is marked and the transition stays
    as it was.  Before the question is open the command returns true and
    does nothing. *)
Theorem skip_command locationId w :
  let r := skipCommand locationId w in
  match currentActionForLocationId w !! locationId with
  | Some (AskQuestionAction i session) =>
      has_skip (AskQuestionAction i session) = true ∧
      fst r = true ∧
      match fulfill_ (fields_of i w) with
      | Some p =>
          trace (snd r)
            = EvSkipped locationId true :: EvMarkCurrentCardUnanswered (sid session) :: trace w ∧
          fulfill_ (fields_of i (snd r))
            = Some match p with
                   | Pending =>
                       FulfilledWith (Some (ShowWrongAnswerAction (nextId w) session true))
                   | settled => settled
                   end
      | None => snd r = emit (EvSkipped locationId true) w
      end
  | Some other => has_skip other = false ∧ r = (false, emit (EvSkipped locationId false) w)
  | None => r = (false, emit (EvSkipped locationId false) w)
  end.
Proof.
  unfold skipCommand, skipCommand_.
  destruct (currentActionForLocationId w !! locationId) as [[]|]; try done.
  simpl. split; [done|]. split; [done|].
  unfold AskQuestionAction_skip, new. simpl.
  destruct (fulfill_ (fields_of id w)) as [p|] eqn:Hp; [|done].
  unfold settle.
  change (fields_of id (set_nextId (S (nextId w))
            (emit (EvMarkCurrentCardUnanswered (sid session_)) w)))
    with (fields_of id w).
  rewrite Hp. destruct p; (split; [done|]); try exact Hp.
  unfold fields_of. simpl. by rewrite lookup_insert_eq.
Qed.

(** C9 as stated fails: the skip arrives while the card of the question is
    being preprocessed.  The command returns true; nothing is marked, and the
    action later yields [ShowWrongAnswerAction(session, false)], when the
    answer timer fires. *)
Lemma early_skip_is_lost :
  let a := AskQuestionAction 0 sampleSession in
  let r := Action_do skip_early 1 a (started "channel" a registered) in
  fst r = Fulfilled (Some (ShowWrongAnswerAction 1 sampleSession false)) ∧
  rev (trace (snd r))
  = [ EvDo "channel" a;
      EvGetNextCard 1;
      EvPreprocess sampleCard;
      EvSkipped "channel" true;
      EvSetCurrentCard 1 (markPreprocessed sampleCard);
      EvCreateQuestion (markPreprocessed sampleCard);
      EvSend (SenderOf 1) (showQuestion "ri___" None);
      EvAddTimer 1 16000;
      EvAddTimer 1 8000;
      EvMarkCurrentCardUnanswered 1 ].
Proof. vm_compute. repeat split. Qed.

(** ** Answers *)

Lemma ready_settle i j p w :
  readyForAnswers_ (fields_of i (settle j p w)) = readyForAnswers_ (fields_of i w).
Proof.
  unfold settle. destruct (fulfill_ (fields_of j w)) as [[]|]; try done.
  unfold set_promise, fields_of. simpl.
  destruct (decide (j = i)) as [->|Hne]; [by rewrite lookup_insert_eq|].
  by rewrite lookup_insert_ne.
Qed.

Lemma settle_trace i p w : trace (settle i p w) = trace w.
Proof. unfold settle. by destruct (fulfill_ (fields_of i w)) as [[]|]. Qed.

Section Early.

Context (env : Env) (locationId : LocationId) (i : nat) (session : Session).

Local Abbreviation not_ready := (not_ready_at locationId i session).
Local Abbreviation quiet := (quiet_at locationId).
Local Abbreviation early := (unready_until locationId i session).

Lemma early_refl w : not_ready w → early w w.
Proof. intros H. split; [done|]. by exists []. Qed.

Lemma early_trans w1 w2 w3 : early w1 w2 → early w2 w3 → early w1 w3.
Proof.
  intros (_ & n1 & T1 & Q1) (H3 & n2 & T2 & Q2). split; [done|].
  exists (n2 ++ n1). split; [rewrite T2, T1; by_assoc|].
  intros l Hl. rewrite <- app_assoc. by apply Q2, Q1.
Qed.

Lemma early_emit e w :
  not_ready w →
  match e with EvInput _ _ | EvTryAcceptAnswer _ _ _ _ => False | _ => True end →
  early w (emit e w).
Proof.
  intros H He. split; [done|]. exists [e]. split; [done|].
  intros l [Hl _]. unfold quiet_at. by destruct e.
Qed.

Lemma early_run_command w c : not_ready w → early w (run_command env w c).
Proof.
  intros [Hc Hr].
  assert (not_ready (run_command env w c)) as Hnot.
  { split; [by destruct (preserves_run_command env w c) as (_ & -> & _)|].
    destruct c as [l | l u n input]; simpl.
    - unfold skipCommand, skipCommand_.
      destruct (currentActionForLocationId w !! l) as [[]|]; simpl; try done.
      unfold AskQuestionAction_skip. destruct (fulfill_ (fields_of id w)); [|done].
      unfold new. cbv beta iota zeta.
      change (fields_of i (emit ?e ?x)) with (fields_of i x). by rewrite ready_settle.
    - unfold processUserInput, processUserInput_.
      destruct (currentActionForLocationId w !! l) as [[]|]; simpl; try done.
      unfold AskQuestionAction_tryAcceptUserInput.
      destruct (readyForAnswers_ (fields_of id w)); [|done]. simpl.
      destruct (tryAcceptAnswer env (clock w)); [|done]. unfold new. simpl.
      match goal with |- context [fulfill_ ?f] => destruct (fulfill_ f) end; simpl;
        [|done].
      change (fields_of i (emit ?e ?x)) with (fields_of i x). by rewrite ready_settle. }
  split; [done|].
  destruct c as [l | l u n input]; simpl.
  - unfold skipCommand, skipCommand_.
    destruct (currentActionForLocationId w !! l) as [b|]; simpl;
      [|exists [EvSkipped l false]; split; [done|]; by intros ? [? ?]].
    destruct (has_skip b) eqn:Hb; simpl;
      [|exists [EvSkipped l false]; split; [done|]; by intros ? [? ?]].
    destruct b; try done. simpl. unfold AskQuestionAction_skip.
    destruct (fulfill_ (fields_of id w));
      [|exists [EvSkipped l true]; split; [done|]; by intros ? [? ?]].
    unfold new. cbv beta iota zeta.
    eexists [EvSkipped l true; EvMarkCurrentCardUnanswered _].
    split; [simpl; by rewrite settle_trace|]. by intros ? [? ?].
  - unfold processUserInput, processUserInput_.
    destruct (decide (l = locationId)) as [->|Hne].
    + rewrite Hc. simpl. unfold AskQuestionAction_tryAcceptUserInput. rewrite Hr. simpl.
      exists [EvInput locationId (inr false)]. split; [done|].
      intros older [H1 H2]. unfold quiet_at. simpl.
      by rewrite String.eqb_refl, H1, H2.
    + apply String.eqb_neq in Hne.
      assert (∀ result events older,
                quiet older → (∀ older, quiet older → refused_unasked locationId
                                                         (events ++ older) = true) →
                quiet (EvInput l result :: events ++ older)) as Hother.
      { intros result events older Hq He. unfold quiet_at. simpl. rewrite Hne. simpl.
        by rewrite He. }
      destruct (currentActionForLocationId w !! l) as [b|]; simpl;
        [|exists [EvInput l (inr false)]; split; [done|];
          intros older Hq; apply (Hother _ []); [done | by intros ? [? ?]]].
      destruct (has_tryAcceptUserInput b) eqn:Hb; simpl;
        [|exists [EvInput l (inr false)]; split; [done|];
          intros older Hq; apply (Hother _ []); [done | by intros ? [? ?]]].
      destruct b; try done; simpl.
      * unfold ShowAnswersAction_tryAcceptUserInput. simpl.
        eexists [EvInput l _; EvTryAcceptAnswer _ _ _ _]. split; [done|].
        intros older Hq. apply (Hother _ [_]); [done|]. by intros ? [? ?].
      * unfold AskQuestionAction_tryAcceptUserInput.
        destruct (readyForAnswers_ (fields_of id w)); simpl;
          [|exists [EvInput l (inr false)]; split; [done|];
            intros older Hq; apply (Hother _ []); [done | by intros ? [? ?]]].
        destruct (tryAcceptAnswer env (clock w)); unfold new; simpl.
        -- match goal with |- context [fulfill_ ?f] => destruct (fulfill_ f) end; simpl.
           ++ eexists [EvInput l _; EvTryAcceptAnswer _ _ _ _].
              split; [simpl; by rewrite settle_trace|].
              intros older Hq. apply (Hother _ [_]); [done|]. by intros ? [? ?].
           ++ eexists [EvInput l _; EvTryAcceptAnswer _ _ _ _]. split; [done|].
              intros older Hq. apply (Hother _ [_]); [done|]. by intros ? [? ?].
        -- eexists [EvInput l _; EvTryAcceptAnswer _ _ _ _]. split; [done|].
           intros older Hq. apply (Hother _ [_]); [done|]. by intros ? [? ?].
Qed.

Lemma early_commands cs w : not_ready w → early w (fold_left (run_command env) cs w).
Proof.
  revert w. induction cs as [|c cs IH]; intros w H; simpl; [by apply early_refl|].
  pose proof (early_run_command w c H) as H1.
  eapply early_trans; [exact H1|]. apply IH. by destruct H1.
Qed.

Lemma early_call {A} (oracle : nat → Reply A) e w r w' :
  not_ready w →
  match e with EvInput _ _ | EvTryAcceptAnswer _ _ _ _ => False | _ => True end →
  call env oracle e w = (r, w') → early w w'.
Proof.
  intros H He. unfold call.
  pose proof (early_emit e w H He) as H1.
  assert (early w (suspend env (emit e w))) as H2.
  { eapply early_trans; [exact H1|]. apply early_commands. by destruct H1. }
  destruct (oracle (clock w)); by intros [= <- <-].
Qed.

Lemma AskQuestionAction_ask_sets_current card w :
  ∃ later, trace (snd (AskQuestionAction_ask env i session card w))
           = later ++ EvSetCurrentCard (sid session) (markPreprocessed card) :: trace w.
Proof.
  destruct (AskQuestionAction_ask env i session card w) as [o w'] eqn:E.
  unfold AskQuestionAction_ask, retryPromise in E.
  set (w0 := set_readyForAnswers i (emit _ w)) in E.
  assert (∀ wx, preserves is_action_event w0 wx →
                ∃ later, trace wx
                         = later ++ EvSetCurrentCard (sid session) (markPreprocessed card)
                             :: trace w) as Hx.
  { intros wx (_ & _ & _ & n & T & _). exists n. by rewrite T. }
  simpl. apply Hx. clear Hx.
  destruct (call _ _ _ w0) as [r w1] eqn:C.
  assert (preserves is_action_event w0 w1) as H1 by (by eapply call_keeps).
  destruct r; try (by injection E as _ <-).
  destruct (retry_from _ _ _ w1) as [o2 w2] eqn:R.
  apply retry_keeps in R; [|intros; by eapply send_keeps].
  assert (preserves is_action_event w0 w2) as H2 by (by eapply preserves_trans).
  destruct o2; try (by injection E as _ <-).
  - apply AskQuestionAction_open_keeps in E. by eapply preserves_trans.
  - apply AskQuestionAction_open_keeps in E.
    eapply preserves_trans; [|exact E]. eapply preserves_trans; [exact H2|].
    apply preserves_emit; [done | apply preserves_refl].
Qed.

Lemma AskQuestionAction_do_early fuel w :
  not_ready w →
  ∃ events,
    (∀ l, quiet l → refused_unasked locationId (events ++ l) = true) ∧
    (trace (snd (AskQuestionAction_do env fuel i session w)) = events ++ trace w ∨
     ∃ card later,
       trace (snd (AskQuestionAction_do env fuel i session w))
         = later ++ EvSetCurrentCard (sid session) card :: events ++ trace w).
Proof.
  assert (∀ w wx, early w wx →
            ∃ events, (∀ l, quiet l → refused_unasked locationId (events ++ l) = true) ∧
                      trace wx = events ++ trace w) as Hends.
  { intros w0 wx (_ & n & T & Q). exists n. split; [|done].
    intros l Hl. by destruct (Q l Hl). }
  assert (∀ w wx card, early w wx →
            ∃ events,
              (∀ l, quiet l → refused_unasked locationId (events ++ l) = true) ∧
              ∃ card' later,
                trace (snd (AskQuestionAction_ask env i session card wx))
                  = later ++ EvSetCurrentCard (sid session) card' :: events ++ trace w)
    as Hasks.
  { intros w0 wx card Hearly. destruct (Hends w0 wx Hearly) as (events & He & T).
    destruct (AskQuestionAction_ask_sets_current card wx) as [later Tl].
    exists events. split; [done|]. exists (markPreprocessed card), later. by rewrite Tl, T. }
  revert w. induction fuel as [|fuel IH]; intros w H.
  { exists []. split; [by intros l [? _] | by left]. }
  cbn [AskQuestionAction_do].
  pose proof (early_emit (EvGetNextCard (sid session)) w H I) as H0.
  set (w0 := emit (EvGetNextCard (sid session)) w) in *.
  destruct (getNextCard env (clock w)) as [nextCard|].
  2:{ unfold new. simpl. destruct (Hends w w0 H0) as (events & ? & ?).
      exists events. split; [done | by left]. }
  destruct (wasPreprocessed nextCard).
  { destruct (Hasks w w0 nextCard H0) as (events & ? & ?). exists events.
    split; [done | by right]. }
  destruct (call env _ _ w0) as [r w1] eqn:C.
  apply early_call in C; [|by destruct H0|done].
  pose proof (early_trans _ _ _ H0 C) as H1.
  destruct r as [[card|]|e|e].
  - destruct (Hasks w w1 card H1) as (events & ? & ?). exists events.
    split; [done | by right].
  - destruct (IH w1 (proj1 H1)) as (events & He & Ht).
    destruct H1 as (_ & n1 & T1 & Q1).
    assert (snd (match AskQuestionAction_do env fuel i session w1 with
                 | (Thrown err, w) => (Rejected err, w)
                 | r => r
                 end) = snd (AskQuestionAction_do env fuel i session w1)) as ->
      by (by destruct (AskQuestionAction_do env fuel i session w1) as [[] ?]).
    exists (events ++ n1). split.
    + intros l Hl. rewrite <- app_assoc. by apply He, Q1.
    + destruct Ht as [-> | (card & later & ->)]; [left | right; exists card, later];
        rewrite T1; by_assoc.
  - destruct (Hends w w1 H1) as (events & ? & ?). exists events. split; [done | by left].
  - destruct (Hends w w1 H1) as (events & ? & ?). exists events. split; [done | by left].
Qed.

End Early.

(** C10, as the code has it.  An [AskQuestionAction] that is the current
    action of a location and has not marked itself ready for answers has the
    input capability, and [processUserInput] at the location returns false
    and does nothing else: the session is not asked and no field of the
    action changes.  So it is for every answer that arrives at the location
    while [do] runs, until the card has been preprocessed and is made the
    current card: each such command returns false, and no session was asked
    on its behalf. *)
Theorem input_before_ready_is_refused env fuel locationId i session w :
  let a := AskQuestionAction i session in
  let r := Action_do env fuel a w in
  currentActionForLocationId w !! locationId = Some a →
  readyForAnswers_ (fields_of i w) = false →
  has_tryAcceptUserInput a = true ∧
  (∀ userId userName input,
     processUserInput env locationId userId userName input w
       = (inr false, emit (EvInput locationId (inr false)) w)) ∧
  ∃ early,
    refused_unasked locationId early = true ∧
    (trace (snd r) = early ++ trace w ∨
     ∃ card later,
       trace (snd r) = later ++ EvSetCurrentCard (sid session) card :: early ++ trace w).
Proof.
  intros a r Hc Hr. subst a r. split; [done|]. split.
  - intros userId userName input.
    unfold processUserInput, processUserInput_. rewrite Hc. simpl.
    unfold AskQuestionAction_tryAcceptUserInput. by rewrite Hr.
  - cbn [Action_do].
    destruct (AskQuestionAction_do_early env locationId i session fuel w (conj Hc Hr))
      as (events & He & Ht).
    exists events. split; [|done].
    specialize (He [] (conj eq_refl eq_refl)). by rewrite app_nil_r in He.
Qed.

Lemma input_before_ready_is_refused_witness :
  let a := AskQuestionAction 0 sampleSession in
  let w := started "channel" a registered in
  let r := Action_do input_early 1 a w in
  currentActionForLocationId w !! "channel" = Some a ∧
  readyForAnswers_ (fields_of 0 w) = false ∧
  has_tryAcceptUserInput a = true ∧
  (∀ userId userName input,
     processUserInput input_early "channel" userId userName input w
       = (inr false, emit (EvInput "channel" (inr false)) w)) ∧
  ∃ early,
    refused_unasked "channel" early = true ∧
    (trace (snd r) = early ++ trace w ∨
     ∃ card later,
       trace (snd r) = later ++ EvSetCurrentCard 1 card :: early ++ trace w).
Proof.
  split; [reflexivity|]. split; [reflexivity|].
  apply (input_before_ready_is_refused input_early 1 "channel" 0 sampleSession
           (started "channel" (AskQuestionAction 0 sampleSession) registered));
    reflexivity.
Defined.

(** C10 as stated fails between the moment the action marks itself ready and
    the moment the question is prepared.  The answer arrives while the
    question is being created (the fifth event of the chain is the call of
    [createQuestion]): the flag is set, the session is asked and accepts, and
    [processUserInput] does not return false but throws, since the action has
    no promise yet. *)
Lemma early_answer_reaches_the_session :
  let a := AskQuestionAction 0 sampleSession in
  let r := Action_do answer_too_early 1 a (started "channel" a registered) in
  commands answer_too_early 5 = [CmdInput "channel" "bob" "Bob" "Ringo"] ∧
  rev (trace (snd r))
  = [ EvDo "channel" a;
      EvGetNextCard 1;
      EvPreprocess sampleCard;
      EvSetCurrentCard 1 (markPreprocessed sampleCard);
      EvCreateQuestion (markPreprocessed sampleCard);
      EvTryAcceptAnswer 1 "bob" "Bob" "Ringo";
      EvInput "channel" (inl (TypeError "this.fulfill_ is not a function"));
      EvSend (SenderOf 1) (showQuestion "ri___" None);
      EvAddTimer 1 16000;
      EvAddTimer 1 8000;
      EvMarkCurrentCardUnanswered 1 ].
Proof. vm_compute. split; reflexivity. Qed.

(** ** The chain that [startSession] runs *)

(** C3, on the code.  [AskInitialQuestionAction.do] never yields an action:
    it returns nothing, or the word source throws.  When every collaborator
    answers it returns [undefined]. *)
Theorem initial_question_yields_no_action env session w :
  (∀ next, fst (AskInitialQuestionAction_do env session w) ≠ Fulfilled (Some next)) ∧
  Action_do (calm false) 0 (AskInitialQuestionAction 0 sampleSession) registered
    = (Fulfilled None, emit EvGetRandomWord registered).
Proof.
  split; [|done]. intros next. unfold AskInitialQuestionAction_do.
  by destruct (getRandomWord env (clock w)).
Qed.

(** C1, on the code.  Every collaborator answers and nothing arrives from
    outside: the chain of [startSession] is over after three actions with
    the value [undefined]; the driver has run no End-Quiz action, the session
    was not finalized, and the location keeps its session and the
    [AskInitialQuestionAction] as its current action.  A second
    [startSession] at the location then fails the assertion. *)
Theorem started_chain_stalls :
  let r := startSession (calm false) 9 sampleSession "channel" initial_world in
  fst r = Fulfilled None ∧
  sessionForLocationId (snd r) !! "channel" = Some sampleSession ∧
  currentActionForLocationId (snd r) !! "channel"
    = Some (AskInitialQuestionAction 1 sampleSession) ∧
  ran_end_quiz (trace (snd r)) = false ∧
  existsb is_finalize (trace (snd r)) = false ∧
  fst (startSession (calm false) 9 sampleSession "channel" (snd r))
    = Thrown (AssertionError "Already a session in progress there.").
Proof. vm_compute. repeat split. Qed.

(** ** Saving *)

Section Saving.

Context (env : Env).

Lemma notified_world r inCallback o w' :
  notified r inCallback = (o, w') → w' = snd r.
Proof. destruct r as [[] ?]; simpl; by intros [= <- <-]. Qed.

Lemma saveQuizCommand_issue_spec locationId savingUserId w :
  match get (sessionForLocationId w) locationId with
  | Undefined =>
      saveQuizCommand_issue env locationId savingUserId w = (inl (Fulfilled AnswerFalse), w)
  | Inherited => ∃ e, saveQuizCommand_issue env locationId savingUserId w = (inl (Thrown e), w)
  | Own session =>
      if isReviewMode (getGameMode session) then
        ∃ o w', saveQuizCommand_issue env locationId savingUserId w = (inl o, w') ∧
                awaited (EvSend (SenderOf (sid session)) notifySaveFailedIsReview) w w'
      else if negb (String.eqb savingUserId (getOwnerId session)) then
        ∃ o w', saveQuizCommand_issue env locationId savingUserId w = (inl o, w') ∧
                awaited (EvSend (SenderOf (sid session)) notifySaveFailedNotOwner) w w'
      else
        ∃ w', saveQuizCommand_issue env locationId savingUserId w
                = (inr (session, getSaveMementos env (clock w)), w') ∧
              awaited (EvGetSaveMementos savingUserId) w w'
  end.
Proof.
  unfold saveQuizCommand_issue.
  destruct (get (sessionForLocationId w) locationId) as [session| |]; [|by eexists|done].
  destruct (isReviewMode (getGameMode session)).
  { destruct (send env _ _ w) as [r w1] eqn:E. pose proof (send_awaited _ _ _ _ _ _ E).
    destruct (notified (r, w1) false) as [o w2] eqn:N.
    pose proof (notified_world _ _ _ _ N) as ->. by exists o, w1. }
  destruct (negb (String.eqb savingUserId (getOwnerId session))).
  { destruct (send env _ _ w) as [r w1] eqn:E. pose proof (send_awaited _ _ _ _ _ _ E).
    destruct (notified (r, w1) false) as [o w2] eqn:N.
    pose proof (notified_world _ _ _ _ N) as ->. by exists o, w1. }
  destruct (call env _ _ w) as [r w1] eqn:E. apply call_awaited in E as [-> ?].
  by exists w1.
Qed.

Lemma saveQuizCommand_then_spec session savingUserId mementos w :
  let r := saveQuizCommand_then env session savingUserId mementos w in
  if savePending session w then r = (Fulfilled AnswerUndefined, w)
  else if (length mementos <? MAX_SAVES_PER_USER)%nat then
    saveRequestedByUserId (snd r) = <[sid session := savingUserId]> (saveRequestedByUserId w) ∧
    sessionForLocationId (snd r) = sessionForLocationId w ∧
    ∃ cmds, trace (snd r) = cmds ++ EvSend (SenderOf (sid session)) notifySaving :: trace w ∧
            forallb is_command_event cmds = true
  else
    awaited (EvSend (SenderOf (sid session)) (notifySaveFailedNoSpace MAX_SAVES_PER_USER))
      w (snd r).
Proof.
  unfold saveQuizCommand_then. destruct (savePending session w); [done|].
  destruct (length mementos <? MAX_SAVES_PER_USER)%nat.
  - destruct (send env _ _ _) as [r w1] eqn:E. apply send_awaited in E as (A & B & C).
    destruct (notified (r, w1) true) as [o w2] eqn:N.
    pose proof (notified_world _ _ _ _ N) as ->. simpl. by rewrite A, B.
  - destruct (send env _ _ _) as [r w1] eqn:E. apply send_awaited in E.
    destruct (notified (r, w1) true) as [o w2] eqn:N.
    by pose proof (notified_world _ _ _ _ N) as ->.
Qed.

End Saving.

Lemma sent_fetch_then_send userId sender n cmds1 cmds2 w w' :
  trace w' = cmds2 ++ EvSend sender n :: cmds1 ++ EvGetSaveMementos userId :: trace w →
  forallb is_command_event cmds1 = true → forallb is_command_event cmds2 = true →
  sent w w' = [EvSend sender n] ∧ EvGetSaveMementos userId ∈ news w w'.
Proof.
  intros T F1 F2.
  assert (news w w' = cmds2 ++ EvSend sender n :: cmds1 ++ [EvGetSaveMementos userId]) as N
    by (apply news_app; rewrite T; by_assoc).
  unfold sent. rewrite N. split.
  - rewrite filter_app, filter_cons, filter_app, !filter_send_commands by done. done.
  - apply elem_of_app. right. apply elem_of_cons. right. apply elem_of_app. right.
    by apply list_elem_of_singleton.
Qed.

Lemma sent_fetch userId cmds w w' :
  trace w' = cmds ++ EvGetSaveMementos userId :: trace w →
  forallb is_command_event cmds = true →
  sent w w' = [] ∧ EvGetSaveMementos userId ∈ news w w'.
Proof.
  intros T F.
  assert (news w w' = cmds ++ [EvGetSaveMementos userId]) as N
    by (apply news_app; rewrite T; by_assoc).
  unfold sent. rewrite N. split.
  - by rewrite filter_app, filter_send_commands.
  - apply elem_of_app. right. by apply list_elem_of_singleton.
Qed.

Lemma savePending_awaited e session w w' :
  awaited e w w' → savePending session w' = savePending session w.
Proof. intros (_ & B & _). unfold savePending. by rewrite B. Qed.

(** C5, as the code has it, wherever the read of the registry finds a
    session or nothing.  [saveQuizCommand] never changes the registry.
    Without a session it resolves to false and does nothing.  For a review
    session, and for a requester who is not the owner, it sends the
    rejection and changes no save request.  Otherwise it asks the save
    manager for the mementos of the requester, and when they arrive: if a
    save is pending for the session it does nothing, whatever the number of
    mementos; else with fewer than 5 mementos it records the requester as the
    pending owner and acknowledges; else it notifies that there is no space.
    Issued twice before the save manager answers, with a non-empty requester
    id, no save pending and space at the first answer, the first callback
    records the owner and acknowledges and the second does nothing. *)
Theorem save_command env locationId savingUserId w :
  let r := saveQuizCommand env locationId savingUserId w in
  sessionForLocationId (snd r) = sessionForLocationId w ∧
  match get (sessionForLocationId w) locationId with
  | Undefined => r = (Fulfilled AnswerFalse, w)
  | Inherited => True
  | Own session =>
      let unchanged := saveRequestedByUserId (snd r) = saveRequestedByUserId w in
      let sender := SenderOf (sid session) in
      if isReviewMode (getGameMode session) then
        unchanged ∧ sent w (snd r) = [EvSend sender notifySaveFailedIsReview]
      else if negb (String.eqb savingUserId (getOwnerId session)) then
        unchanged ∧ sent w (snd r) = [EvSend sender notifySaveFailedNotOwner]
      else
        EvGetSaveMementos savingUserId ∈ news w (snd r) ∧
        match getSaveMementos env (clock w) with
        | Ok mementos =>
            if savePending session w then
              unchanged ∧ sent w (snd r) = [] ∧ fst r = Fulfilled AnswerUndefined
            else if (length mementos <? MAX_SAVES_PER_USER)%nat then
              saveRequestedByUserId (snd r)
                = <[sid session := savingUserId]> (saveRequestedByUserId w) ∧
              sent w (snd r) = [EvSend sender notifySaving]
            else
              unchanged ∧
              sent w (snd r) = [EvSend sender (notifySaveFailedNoSpace MAX_SAVES_PER_USER)]
        | Reject e => unchanged ∧ sent w (snd r) = [] ∧ fst r = Rejected e
        | Raise e => unchanged ∧ sent w (snd r) = [] ∧ fst r = Thrown e
        end ∧
        match saveTwice env locationId savingUserId w, getSaveMementos env (clock w) with
        | Some (first, second), Ok mementos =>
            if negb (savePending session w) && (length mementos <? MAX_SAVES_PER_USER)%nat
            then
              truthy savingUserId = true →
              saveRequestedByUserId (snd first)
                = <[sid session := savingUserId]> (saveRequestedByUserId w) ∧
              second = (Fulfilled AnswerUndefined, snd first)
            else True
        | _, _ => True
        end
  end.
Proof.
  intros r. subst r. unfold saveQuizCommand, saveTwice.
  pose proof (saveQuizCommand_issue_spec env locationId savingUserId w) as Hi.
  destruct (get (sessionForLocationId w) locationId) as [session| |] eqn:Hs;
    [|by destruct Hi as [e ->]|by rewrite Hi].
  cbv zeta. destruct (isReviewMode (getGameMode session)) eqn:Hrev.
  { destruct Hi as (o & w' & -> & Ha). simpl.
    pose proof (awaited_sent _ _ _ _ Ha). destruct Ha as (? & ? & _). auto. }
  destruct (negb (String.eqb savingUserId (getOwnerId session))) eqn:Hown.
  { destruct Hi as (o & w' & -> & Ha). simpl.
    pose proof (awaited_sent _ _ _ _ Ha). destruct Ha as (? & ? & _). auto. }
  destruct Hi as (w1 & -> & Ha1).
  pose proof (savePending_awaited _ session _ _ Ha1) as Hp1.
  destruct Ha1 as (A1 & B1 & cmds1 & T1 & F1).
  destruct (getSaveMementos env (clock w)) as [mementos|e|e]; simpl.
  2,3: destruct (sent_fetch _ _ _ _ T1 F1); auto 7.
  pose proof (saveQuizCommand_then_spec env session savingUserId mementos w1) as Ht.
  cbv zeta in Ht. rewrite Hp1 in Ht.
  assert (get (sessionForLocationId w1) locationId = Own session) as Hs1 by (by rewrite A1).
  split; [|split; [|split]].
  - destruct (savePending session w); [by rewrite Ht|].
    destruct (length mementos <? MAX_SAVES_PER_USER)%nat.
    + destruct Ht as (_ & -> & _). done.
    + destruct Ht as (-> & _). done.
  - destruct (savePending session w).
    + rewrite Ht. simpl. by destruct (sent_fetch _ _ _ _ T1 F1).
    + destruct (length mementos <? MAX_SAVES_PER_USER)%nat.
      * destruct Ht as (_ & _ & cmds2 & T2 & F2). rewrite T1 in T2.
        by destruct (sent_fetch_then_send _ _ _ _ _ _ _ T2 F1 F2).
      * destruct Ht as (_ & _ & cmds2 & T2 & F2). rewrite T1 in T2.
        by destruct (sent_fetch_then_send _ _ _ _ _ _ _ T2 F1 F2).
  - destruct (savePending session w).
    + rewrite Ht. simpl. destruct (sent_fetch _ _ _ _ T1 F1). auto.
    + destruct (length mementos <? MAX_SAVES_PER_USER)%nat.
      * destruct Ht as (-> & _ & cmds2 & T2 & F2). rewrite T1 in T2. rewrite B1.
        by destruct (sent_fetch_then_send _ _ _ _ _ _ _ T2 F1 F2).
      * destruct Ht as (_ & -> & cmds2 & T2 & F2). rewrite T1 in T2.
        by destruct (sent_fetch_then_send _ _ _ _ _ _ _ T2 F1 F2).
  - clear Ht.
    pose proof (saveQuizCommand_issue_spec env locationId savingUserId w1) as Hi2.
    rewrite Hs1, Hrev, Hown in Hi2. destruct Hi2 as (w2 & -> & Ha2).
    destruct (getSaveMementos env (clock w1)) as [mementos2|e|e]; [|done|done].
    pose proof (savePending_awaited _ session _ _ Ha2) as Hp2. rewrite Hp1 in Hp2.
    destruct Ha2 as (_ & B2 & _).
    pose proof (saveQuizCommand_then_spec env session savingUserId mementos w2) as Ht.
    cbv zeta in Ht. rewrite Hp2 in Ht.
    destruct (savePending session w); [done|].
    destruct (length mementos <? MAX_SAVES_PER_USER)%nat; [|done].
    simpl. intros Hid. destruct Ht as (Hset & _). split; [by rewrite Hset, B2, B1|].
    pose proof (saveQuizCommand_then_spec env session savingUserId mementos2
                  (snd (saveQuizCommand_then env session savingUserId mementos w2))) as Ht2.
    cbv zeta in Ht2.
    assert (savePending session (snd (saveQuizCommand_then env session savingUserId mementos w2))
            = true) as Hp3 by (unfold savePending; by rewrite Hset, lookup_insert_eq).
    by rewrite Hp3 in Ht2.
Qed.

(** Issued twice before the save manager answers: one acknowledgement. *)
Example save_twice_acknowledges_once :
  match saveTwice (calm false) "channel" "ann" registered with
  | Some (first, second) =>
      fst first = Fulfilled (AnswerOf 7) ∧
      fst second = Fulfilled AnswerUndefined ∧
      saveRequestedByUserId (snd second) !! 1%nat = Some "ann" ∧
      rev (trace (snd second))
      = [ EvGetSaveMementos "ann"; EvGetSaveMementos "ann";
          EvSend (SenderOf 1) notifySaving ]
  | None => False
  end.
Proof. vm_compute. repeat split. Qed.

(** C5 as stated fails where a pending save meets a full storage.  The first
    command finds no memento and records the request; when the second one
    asks, the requester has 5 saved games: the command does nothing, and no
    no-space notification is sent. *)
Lemma pending_save_hides_full_storage :
  let first := saveQuizCommand fills_up "channel" "ann" registered in
  let second := saveQuizCommand fills_up "channel" "ann" (snd first) in
  getSaveMementos fills_up (clock (snd first)) = Ok [1; 2; 3; 4; 5]%nat ∧
  fst second = Fulfilled AnswerUndefined ∧
  rev (trace (snd second))
  = [ EvGetSaveMementos "ann";
      EvSend (SenderOf 1) notifySaving;
      EvGetSaveMementos "ann" ].
Proof. vm_compute. repeat split. Qed.

(** ** A skip while the question is open *)

Lemma fulfill_set_promise i p w : fulfill_ (fields_of i (set_promise i p w)) = Some p.
Proof. unfold fields_of, set_promise. simpl. by rewrite lookup_insert_eq. Qed.

Lemma fields_of_scheduleReveal_ i session n w :
  fields_of i (scheduleReveal_ session n w) = fields_of i w.
Proof. by destruct n. Qed.

Lemma currentAction_scheduleReveal_ session n w :
  currentActionForLocationId (scheduleReveal_ session n w) = currentActionForLocationId w.
Proof. by destruct n. Qed.

Lemma nextId_scheduleReveal_ session n w : nextId (scheduleReveal_ session n w) = nextId w.
Proof. by destruct n. Qed.

(** A skip in a chain.  The question of an [AskQuestionAction] that is the
    current action of its location has just been opened, and the first thing
    to happen is a skip at the location: the action yields
    [ShowWrongAnswerAction(session, true)], whatever the card, its answer time
    and its reveals. *)
Lemma skip_of_open_question env i session card shown locationId w :
  currentActionForLocationId w !! locationId = Some (AskQuestionAction i session) →
  (∀ t, head (beforeDeadline env t) = Some (Some (CmdSkip locationId))) →
  fst (AskQuestionAction_open env i session card shown w)
    = Fulfilled (Some (ShowWrongAnswerAction (nextId w) session true)).
Proof.
  intros Hc Hskip. unfold AskQuestionAction_open.
  set (w1 := scheduleReveal_ session (numberOfReveals card)
               (session_addTimer session (answerTimeLimitInMs card)
                  (new_promise i (set_shownQuestionId i shown w)))).
  assert (fulfill_ (fields_of i w1) = Some Pending) as Hp.
  { subst w1. rewrite fields_of_scheduleReveal_. apply fulfill_set_promise. }
  assert (currentActionForLocationId w1 !! locationId = Some (AskQuestionAction i session))
    as Hc1 by (subst w1; by rewrite currentAction_scheduleReveal_).
  assert (nextId w1 = nextId w) as Hn by (subst w1; by rewrite nextId_scheduleReveal_).
  specialize (Hskip (clock w1)).
  destruct (beforeDeadline env (clock w1)) as [|h rest]; [done|].
  injection Hskip as ->. cbn [questionOpen]. rewrite Hp.
  set (w2 := run_command env w1 (CmdSkip locationId)).
  assert (fulfill_ (fields_of i w2)
          = Some (FulfilledWith (Some (ShowWrongAnswerAction (nextId w) session true)))) as Hp2.
  { subst w2. simpl. unfold skipCommand, skipCommand_. rewrite Hc1. simpl.
    unfold AskQuestionAction_skip. rewrite Hp. unfold new. simpl.
    unfold settle.
    change (fields_of i (set_nextId (S (nextId w1))
              (emit (EvMarkCurrentCardUnanswered (sid session)) w1)))
      with (fields_of i w1).
    rewrite Hp, Hn.
    change (fields_of i (emit ?e ?x)) with (fields_of i x).
    apply fulfill_set_promise. }
  assert (questionOpen env rest (numberOfReveals card) i session w2 = w2) as ->.
  { destruct rest; simpl; [done|]. by rewrite Hp2. }
  rewrite Hp2. unfold settlement. by rewrite Hp2.
Qed.

(** ** The chain of [startSession], in every environment *)

Lemma fields_of_settle_ne j i p w : j ≠ i → fields_of i (settle j p w) = fields_of i w.
Proof.
  intros Hne. unfold settle. destruct (fulfill_ (fields_of j w)) as [[]|]; try done.
  unfold fields_of, set_promise. simpl. by rewrite lookup_insert_ne.
Qed.

Lemma nextId_settle j p w : nextId (settle j p w) = nextId w.
Proof. unfold settle. by destruct (fulfill_ (fields_of j w)) as [[]|]. Qed.

Lemma ran_end_quiz_app l1 l2 : ran_end_quiz (l1 ++ l2) = ran_end_quiz l1 || ran_end_quiz l2.
Proof. apply existsb_app. Qed.

Lemma ran_end_quiz_actions l : forallb is_action_event l = true → ran_end_quiz l = false.
Proof.
  unfold ran_end_quiz. induction l as [|e l IH]; [done|]. simpl.
  intros [He Hl]%andb_true_iff. rewrite (IH Hl), orb_false_r. by destruct e.
Qed.

Section Stall.

Context (env : Env).

Lemma run_command_out_of_reach i w c :
  out_of_reach i w →
  fields_of i (run_command env w c) = fields_of i w ∧
  (nextId w ≤ nextId (run_command env w c))%nat.
Proof.
  intros Hi. destruct c as [l | l u n input]; simpl.
  - unfold skipCommand, skipCommand_.
    destruct (currentActionForLocationId w !! l) as [a|] eqn:Hc; [|done].
    destruct a; simpl; try done. apply Hi in Hc.
    unfold AskQuestionAction_skip. destruct (fulfill_ (fields_of id w)); [|done].
    unfold new. simpl.
    change (fields_of i (emit ?e ?x)) with (fields_of i x).
    rewrite fields_of_settle_ne, nextId_settle by done. simpl. split; [done | lia].
  - unfold processUserInput, processUserInput_.
    destruct (currentActionForLocationId w !! l) as [a|] eqn:Hc; [|done].
    destruct a; simpl; try done. apply Hi in Hc.
    unfold AskQuestionAction_tryAcceptUserInput.
    destruct (readyForAnswers_ (fields_of id w)); [|done]. simpl.
    destruct (tryAcceptAnswer env (clock w)); [|done]. unfold new. simpl.
    match goal with |- context [fulfill_ ?f] => destruct (fulfill_ f) end; simpl.
    + change (fields_of i (emit ?e ?x)) with (fields_of i x).
      rewrite fields_of_settle_ne, nextId_settle by done. simpl. split; [done | lia].
    + split; [done | lia].
Qed.

Lemma commands_out_of_reach i cs w :
  out_of_reach i w →
  fields_of i (fold_left (run_command env) cs w) = fields_of i w ∧
  (nextId w ≤ nextId (fold_left (run_command env) cs w))%nat.
Proof.
  revert w. induction cs as [|c cs IH]; intros w Hi; simpl; [done|].
  destruct (run_command_out_of_reach i w c Hi) as [Hf Hn].
  destruct (IH (run_command env w c)) as [Hf' Hn'].
  - intros l j s. destruct (preserves_run_command env w c) as (_ & -> & _). apply Hi.
  - split; [congruence | lia].
Qed.

Lemma suspend_out_of_reach i w :
  out_of_reach i w →
  fields_of i (suspend env w) = fields_of i w ∧ (nextId w ≤ nextId (suspend env w))%nat.
Proof. apply commands_out_of_reach. Qed.

(** A wait that commands cannot reach is fulfilled with its next action. *)
Lemma WaitAction_do_fulfils i session waitInterval nextAction w :
  out_of_reach i w →
  fst (WaitAction_do env i session waitInterval nextAction w) = Fulfilled (Some nextAction).
Proof.
  intros Hi. unfold WaitAction_do.
  set (w1 := session_addTimer session waitInterval (new_promise i w)).
  assert (fulfill_ (fields_of i w1) = Some Pending) as Hp by apply fulfill_set_promise.
  destruct (suspend_out_of_reach i w1 Hi) as [Hf _].
  unfold settle. rewrite Hf, Hp. unfold settlement. by rewrite fulfill_set_promise.
Qed.

Lemma run_command_nextId w c : (nextId w ≤ nextId (run_command env w c))%nat.
Proof.
  destruct c as [l | l u n input]; simpl.
  - unfold skipCommand, skipCommand_.
    destruct (currentActionForLocationId w !! l) as [[]|]; simpl; try done.
    unfold AskQuestionAction_skip. destruct (fulfill_ (fields_of id w)); [|done].
    unfold new. simpl. rewrite nextId_settle. simpl. lia.
  - unfold processUserInput, processUserInput_.
    destruct (currentActionForLocationId w !! l) as [[]|]; simpl; try done.
    unfold AskQuestionAction_tryAcceptUserInput.
    destruct (readyForAnswers_ (fields_of id w)); [|done]. simpl.
    destruct (tryAcceptAnswer env (clock w)); [|done]. unfold new. simpl.
    match goal with |- context [fulfill_ ?f] => destruct (fulfill_ f) end; simpl;
      rewrite ?nextId_settle; simpl; lia.
Qed.

Lemma suspend_nextId w : (nextId w ≤ nextId (suspend env w))%nat.
Proof.
  unfold suspend. generalize (commands env (clock w)). intros cs. revert w.
  induction cs as [|c cs IH]; intros w; simpl; [done|].
  pose proof (run_command_nextId w c). pose proof (IH (run_command env w c)). lia.
Qed.

Lemma send_nextId sender n w r w' :
  send env sender n w = (r, w') → (nextId w ≤ nextId w')%nat.
Proof.
  unfold send, post. intros H.
  destruct (delivery env (clock w)); injection H as <- <-; try done.
  all: apply (suspend_nextId (emit (EvSend sender n) w)).
Qed.

(** The chain of [startSession] in every environment where the first
    notification does not throw and the word source answers, whatever arrives
    from outside and whatever the fuel beyond four steps: it ends after
    [AskInitialQuestionAction] with the value [undefined], and the location
    keeps its session and that action. *)
Lemma started_chain_always_stalls fuel session locationId w :
  isSessionInProgressAtLocation locationId w = false →
  ids_below w →
  (∀ t e, delivery env t ≠ Raise e) →
  (∀ t, getRandomWord env t = None) →
  let r := startSession env (4 + fuel) session locationId w in
  fst r = Fulfilled None ∧
  sessionForLocationId (snd r) !! locationId = Some session ∧
  (∃ i, currentActionForLocationId (snd r) !! locationId
          = Some (AskInitialQuestionAction i session)) ∧
  ran_end_quiz (news w (snd r)) = false.
Proof.
  intros Hfree Hids Hdelivery Hword r. subst r.
  unfold startSession, verifySessionNotInProgress, setSessionForLocationId, assert.
  rewrite Hfree. simpl negb. cbv iota.
  unfold new. cbv beta iota zeta.
  change (nextId (set_sessions (<[locationId := session]> (sessionForLocationId w)) w))
    with (nextId w).
  set (w0 := set_nextId (S (nextId w))
               (set_sessions (<[locationId := session]> (sessionForLocationId w)) w)).
  set (start := StartAction (nextId w) session).
  assert (sessionForLocationId w0 !! locationId = Some session) as Hs0
    by (subst w0; simpl; apply lookup_insert_eq).
  (* Start *)
  change (4 + fuel)%nat with (S (3 + fuel)).
  rewrite (chainActions_step env (3 + fuel) locationId start session w0 Hs0).
  cbn [Action_do start].
  destruct (StartAction_do env session (started locationId start w0)) as [o1 w1] eqn:E1.
  pose proof (StartAction_do_keeps _ _ _ _ _ E1) as (A1 & B1 & _ & new1 & T1 & F1).
  unfold StartAction_do, new in E1.
  destruct (send env _ _ _) as [r1 w1'] eqn:S1.
  pose proof (send_nextId _ _ _ _ _ S1) as N1.
  assert (∃ iA iW, (nextId w < iW)%nat ∧
            o1 = Fulfilled (Some (WaitAction iW session INITIAL_DELAY_IN_MS
                                    (AskInitialQuestionAction iA session))))
    as (iA & iW & HiW & ->).
  { unfold post in S1. simpl in N1.
    destruct r1 as [m|e|e]; simpl in E1; injection E1 as <- <-.
    - exists (nextId w1'), (S (nextId w1')). split; [lia | done].
    - exists (nextId w1'), (S (nextId w1')). split; [lia | done].
    - exfalso. unfold send, post in S1.
      destruct (delivery env (clock (started locationId start w0))) eqn:D;
        try (by injection S1). by apply Hdelivery in D. }
  clear E1 S1 N1 w1' r1.
  set (wait := WaitAction iW session INITIAL_DELAY_IN_MS (AskInitialQuestionAction iA session)).
  (* Wait *)
  change (3 + fuel)%nat with (S (2 + fuel)).
  assert (sessionForLocationId (session_clearTimers session w1) !! locationId = Some session)
    as Hs1 by (simpl; by rewrite A1).
  rewrite (chainActions_step env (2 + fuel) locationId wait session _ Hs1).
  cbn [Action_do wait].
  destruct (WaitAction_do env iW session INITIAL_DELAY_IN_MS (AskInitialQuestionAction iA session)
              (started locationId wait (session_clearTimers session w1))) as [o2 w2] eqn:E2.
  pose proof (WaitAction_do_keeps _ _ _ _ _ _ _ _ E2) as (A2 & B2 & _ & new2 & T2 & F2).
  assert (o2 = Fulfilled (Some (AskInitialQuestionAction iA session))) as ->.
  { change o2 with (fst (o2, w2)). rewrite <- E2. apply WaitAction_do_fulfils.
    intros l j s Hl. simpl in Hl. rewrite B1 in Hl. simpl in Hl.
    destruct (decide (l = locationId)) as [->|Hne].
    - by rewrite lookup_insert_eq in Hl.
    - rewrite !lookup_insert_ne in Hl by done. apply Hids in Hl. simpl in Hl. lia. }
  clear E2.
  (* AskInitialQuestion *)
  change (2 + fuel)%nat with (S (1 + fuel)).
  assert (sessionForLocationId (session_clearTimers session w2) !! locationId = Some session)
    as Hs2 by (simpl; rewrite A2; simpl; by rewrite A1).
  rewrite (chainActions_step env (1 + fuel) locationId _ session _ Hs2).
  cbn [Action_do].
  unfold AskInitialQuestionAction_do. rewrite Hword.
  change (1 + fuel)%nat with (S fuel). cbn [chainActions]. simpl.
  split; [done|]. split; [|split].
  - by rewrite A2; simpl; rewrite A1.
  - exists iA. apply lookup_insert_eq.
  - erewrite news_app.
    2:{ simpl. rewrite T2. simpl. rewrite T1. simpl.
        instantiate (1 := EvClearTimers (sid session) :: EvGetRandomWord
                           :: EvDo locationId (AskInitialQuestionAction iA session)
                           :: EvClearTimers (sid session)
                           :: new2 ++ EvDo locationId wait :: EvClearTimers (sid session)
                           :: new1 ++ [EvDo locationId start]).
        by_assoc. }
    simpl. rewrite ran_end_quiz_app. simpl. rewrite ran_end_quiz_app. simpl.
    by rewrite !ran_end_quiz_actions.
Qed.

End Stall.

(** ** The faults of a chain *)

Lemma completes_rejected env s g w w' e :
  completes env s g w w' (Rejected e) → ∃ t, finalize env t = Some e.
Proof.
  intros (cmds & before & _ & _ & Ho). exists (length (before ++ trace w)).
  destruct (finalize env _) as [e'|]; simpl in Ho; [by injection Ho as -> | done].
Qed.

(** Whatever the actions and the other collaborators do, the driver does not
    throw, and the promise of a chain is rejected only with a fault of
    [finalize]: every other failure is reported through the status. *)
Lemma chainActions_faults env fuel locationId action w :
  match fst (chainActions env fuel locationId action w) with
  | Fulfilled _ | Unsettled => True
  | Rejected e => ∃ t, finalize env t = Some e
  | Thrown _ => False
  end.
Proof.
  revert action w. induction fuel as [|fuel IH]; intros action w; [done|].
  destruct action as [a|]; [|cbn [chainActions]; by destruct (sessionForLocationId w !! locationId)].
  destruct (sessionForLocationId w !! locationId) as [s|] eqn:Hs;
    [|by rewrite chainActions_unregistered].
  rewrite (chainActions_step env fuel locationId a s w Hs).
  assert (∀ wx, match fst (recovery env fuel locationId s wx) with
                | Fulfilled _ | Unsettled => True
                | Rejected e => ∃ t, finalize env t = Some e
                | Thrown _ => False
                end) as Hrecover.
  { intros wx. unfold recovery, new. cbv zeta.
    match goal with |- context [chainActions env fuel locationId ?a' ?w'] =>
      specialize (IH a' w'); destruct (chainActions env fuel locationId a' w') as [[] ?]
    end; done. }
  destruct (Action_do env fuel a (started locationId a w)) as [[result| | |] w1]; try done.
  - specialize (IH result (session_clearTimers s w1)).
    destruct (chainActions env fuel locationId result (session_clearTimers s w1)) as [[] w2];
      try done; apply Hrecover.
  - apply Hrecover.
  - destruct (endQuiz _ _ _ _ _ _) as [o w2] eqn:E.
    apply endQuiz_spec in E as (_ & _ & Hc).
    destruct (completes_settles _ _ _ _ _ _ Hc) as [-> | [e2 ->]]; [done|].
    by apply completes_rejected in Hc.
Qed.

(** ** Between ready and open *)

(** Once an [AskQuestionAction] is ready for answers and before its question
    is open, an answer reaches the session; when the session accepts it, the
    action has no resolver to call: [processUserInput] throws the TypeError of
    calling [undefined], to the caller of the command and not to the chain. *)
Lemma accepted_input_before_open env locationId i session userId userName input w :
  currentActionForLocationId w !! locationId = Some (AskQuestionAction i session) →
  readyForAnswers_ (fields_of i w) = true →
  fulfill_ (fields_of i w) = None →
  tryAcceptAnswer env (clock w) = true →
  fst (processUserInput env locationId userId userName input w)
    = inl (TypeError "this.fulfill_ is not a function").
Proof.
  intros Hc Hr Hf Ha. unfold processUserInput, processUserInput_. rewrite Hc. simpl.
  unfold AskQuestionAction_tryAcceptUserInput, session_tryAcceptAnswer, new.
  rewrite Hr, Ha. simpl.
  change (fields_of i (set_nextId ?n (emit ?e w))) with (fields_of i w).
  by rewrite Hf.
Qed.

(** * More properties of the manager *)

(** ** The registry *)

(** X1.  Registering a session at a free location and closing it again is a
    round trip.  A location is in progress when the read of the registry is
    truthy, which it always is at a name that every object inherits.
    [setSessionForLocationId] fails its assertion at a location in progress;
    at any other it succeeds, and afterwards that location is in progress and
    every other location answers as before.  [closeSession] removes the entry
    of the location that the session names itself: when that is the location
    of the registration the registry of sessions is as before it, and
    otherwise the location stays in progress. *)
Theorem registration_round_trip env session locationId gameOver w :
  (inherited locationId = true → isSessionInProgressAtLocation locationId w = true) ∧
  if isSessionInProgressAtLocation locationId w then
    setSessionForLocationId session locationId w
      = inl (AssertionError "Already have a session for that loction ID")
  else
    ∃ w1,
      setSessionForLocationId session locationId w = inr w1 ∧
      isSessionInProgressAtLocation locationId w1 = true ∧
      (∀ l, l ≠ locationId →
            isSessionInProgressAtLocation l w1 = isSessionInProgressAtLocation l w) ∧
      let w2 := snd (closeSession env (Some session) gameOver w1) in
      if String.eqb (getLocationId session) locationId
      then sessionForLocationId w2 = sessionForLocationId w ∧
           isSessionInProgressAtLocation locationId w2 = false
      else isSessionInProgressAtLocation locationId w2 = true.
Proof.
  split.
  { intros Hi. unfold isSessionInProgressAtLocation, get. rewrite Hi.
    by destruct (sessionForLocationId w !! locationId). }
  unfold setSessionForLocationId, assert.
  destruct (isSessionInProgressAtLocation locationId w) eqn:Hfree; [done|].
  simpl negb. cbv iota. eexists. split; [done|].
  split; [|split].
  - unfold isSessionInProgressAtLocation, get. simpl. by rewrite lookup_insert_eq.
  - intros l Hl. unfold isSessionInProgressAtLocation, get. simpl.
    by rewrite lookup_insert_ne.
  - cbv zeta.
    destruct (closeSession env (Some session) gameOver _) as [o w2] eqn:E.
    apply closeSession_spec in E as (_ & (Hs & _) & _). simpl in Hs. simpl snd.
    destruct (String.eqb (getLocationId session) locationId) eqn:Q.
    + apply String.eqb_eq in Q. rewrite Q in Hs.
      apply not_in_progress in Hfree as Hnone. destruct Hnone as [Hnone _].
      rewrite delete_insert_eq, delete_id in Hs by done. split; [done|].
      unfold isSessionInProgressAtLocation. rewrite Hs. exact Hfree.
    + apply String.eqb_neq in Q.
      unfold isSessionInProgressAtLocation, get. rewrite Hs.
      by rewrite lookup_delete_ne, lookup_insert_eq.
Qed.

(** A session registered at its own location and closed again; and the
    location ["toString"], where nothing can be registered. *)
Example registration_round_trip_example :
  (∃ w1,
     setSessionForLocationId sampleSession "channel" initial_world = inr w1 ∧
     isSessionInProgressAtLocation "channel" w1 = true ∧
     sessionForLocationId (snd (closeSession (calm false) (Some sampleSession) true w1))
       = sessionForLocationId initial_world) ∧
  isSessionInProgressAtLocation "toString" initial_world = true ∧
  setSessionForLocationId sampleSession "toString" initial_world
    = inl (AssertionError "Already have a session for that loction ID").
Proof. split; [eexists; split; [reflexivity|]; by vm_compute | done]. Qed.

(** ** The stop commands *)

Lemma no_finalize_in_commands l :
  forallb is_command_event l = true → existsb is_finalize l = false.
Proof.
  induction l as [|e l IH]; [done|]. simpl. intros [He Hl]%andb_true_iff.
  rewrite (IH Hl), orb_false_r. by destruct e.
Qed.

(** X2.  Who may stop a quiz.  Where the read of the registry is
    [undefined], [stopQuizCommand] returns nothing and does nothing; where it
    is a property that every object inherits, the command throws and does
    nothing.  For a session: an administrator, the owner, and anyone when
    the game mode does not restrict stopping, end the quiz.  The session is
    closed as by [closeSession] with [gameOver = true] after the notification
    of the cancellation, and the command settles as the completion of the
    session does.  Anyone else is refused: the registry keeps the session
    and its current action, one notification (of the refusal) is sent and the
    session is not finalized. *)
Theorem stopQuizCommand_authorisation env recorded locationId cancelingUserId
    cancelingUserIsAdmin w :
  let r := stopQuizCommand env recorded locationId cancelingUserId cancelingUserIsAdmin w in
  match get (sessionForLocationId w) locationId with
  | Undefined => r = (Fulfilled StopUndefined, w)
  | Inherited => ∃ e, r = (Thrown e, w)
  | Own session =>
      let sender := SenderOf (sid session) in
      if negb (onlyOwnerOrAdminCanStop (getGameMode session)) || cancelingUserIsAdmin
         || String.eqb cancelingUserId (getOwnerId session)
      then
        closes session true w (snd r) ∧
        EvSend sender (recorded (notifyQuizEndedUserCanceled cancelingUserId))
          ∈ news w (snd r) ∧
        ∃ o, completes env session true w (snd r) o ∧
             fst r = match o with
                     | Fulfilled _ => Fulfilled StopEnded
                     | Rejected e => Rejected e
                     | Thrown e => Thrown e
                     | Unsettled => Unsettled
                     end
      else
        sessionForLocationId (snd r) = sessionForLocationId w ∧
        currentActionForLocationId (snd r) = currentActionForLocationId w ∧
        sent w (snd r) = [EvSend sender (recorded notifyStopFailedUserNotAuthorized)] ∧
        existsb is_finalize (news w (snd r)) = false
  end.
Proof.
  intros r. subst r. unfold stopQuizCommand.
  destruct (get (sessionForLocationId w) locationId) as [session| |]; [|by eexists|done].
  cbv zeta. rewrite (String.eqb_sym cancelingUserId).
  assert (∀ o w', endQuiz env true (Some session) (SenderOf (sid session))
                    (recorded (notifyQuizEndedUserCanceled cancelingUserId)) w = (o, w') →
            completes env session true w w' o ∧ closes session true w w' ∧
            EvSend (SenderOf (sid session))
              (recorded (notifyQuizEndedUserCanceled cancelingUserId)) ∈ news w w') as Hend.
  { intros o w' E. pose proof (endQuiz_notifies _ _ _ _ _ _ _ _ E) as (new & T & Hin).
    apply endQuiz_spec in E as (Hc & _ & Ho). by rewrite (news_app _ _ _ T). }
  destruct (onlyOwnerOrAdminCanStop (getGameMode session)), cancelingUserIsAdmin,
    (String.eqb (getOwnerId session) cancelingUserId); cbn [negb orb andb].
  all: try (destruct (endQuiz _ _ _ _ _ _) as [o w'];
            destruct (Hend o w' eq_refl) as (Ho & Hc & Hin);
            assert (∀ x : Outcome StopAnswer * World,
                      snd x = w' →
                      fst x = match o with
                              | Fulfilled _ => Fulfilled StopEnded
                              | Rejected e => Rejected e
                              | Thrown e => Thrown e
                              | Unsettled => Unsettled
                              end →
                      closes session true w (snd x) ∧
                      EvSend (SenderOf (sid session))
                        (recorded (notifyQuizEndedUserCanceled cancelingUserId))
                        ∈ news w (snd x) ∧
                      ∃ o, completes env session true w (snd x) o ∧
                           fst x = match o with
                                   | Fulfilled _ => Fulfilled StopEnded
                                   | Rejected e => Rejected e
                                   | Thrown e => Thrown e
                                   | Unsettled => Unsettled
                                   end) as Hx
              by (intros x -> Hfst; split; [done|]; split; [done|]; by exists o);
            by destruct o; apply Hx).
  clear Hend.
  destruct (send env _ _ w) as [reply w'] eqn:S.
  pose proof (send_keeps _ _ _ _ _ _ S) as (Hs & Hc & _).
  pose proof (send_awaited _ _ _ _ _ _ S) as Ha.
  pose proof (awaited_sent _ _ _ _ Ha) as Hsent.
  destruct Ha as (_ & _ & cmds & T & Hcmds).
  assert (existsb is_finalize (news w w') = false) as Hfin.
  { rewrite (news_app w w' (cmds ++ [EvSend (SenderOf (sid session))
                                      (recorded notifyStopFailedUserNotAuthorized)]))
      by (rewrite T; by rewrite <- app_assoc).
    rewrite existsb_app, (no_finalize_in_commands _ Hcmds). done. }
  by destruct reply.
Qed.

Lemma sessionsAt_spec ids w :
  (∀ l, l ∈ ids → is_Some (sessionForLocationId w !! l)) →
  ∃ sessions, sessionsAt ids w = inr sessions ∧ sessions.*1 = ids ∧
              ∀ l s, (l, s) ∈ sessions → sessionForLocationId w !! l = Some s.
Proof.
  induction ids as [|l ids IH]; intros Hids.
  - exists []. repeat split; try done. intros l s H. by apply elem_of_nil in H.
  - destruct (Hids l) as [s Hs]; [by left|].
    destruct IH as (sessions & E & Hfst & Hin); [intros; apply Hids; by right|].
    exists ((l, s) :: sessions). simpl. rewrite (get_own _ _ _ Hs), E.
    split; [done|]. split; [by f_equal|].
    intros l' s' [H|H]%elem_of_cons; [by injection H as -> ->|by apply Hin].
Qed.

Lemma stopAll_spec env recorded sessions w :
  (∀ l s, (l, s) ∈ sessions → getLocationId s = l) →
  let r := stopAll env recorded sessions w in
  fst r = Fulfilled tt ∧
  (∀ l, sessionForLocationId (snd r) !! l
        = if decide (l ∈ sessions.*1) then None else sessionForLocationId w !! l) ∧
  (∀ l, currentActionForLocationId (snd r) !! l
        = if decide (l ∈ sessions.*1) then None else currentActionForLocationId w !! l) ∧
  ∃ new, trace (snd r) = new ++ trace w ∧
         ∀ l s, (l, s) ∈ sessions →
                EvFinalize (sid s) true ∈ new ∧
                EvSend (SenderOf (sid s)) (recorded notifyStoppingAllQuizzes) ∈ new.
Proof.
  revert w. induction sessions as [|[l s] sessions IH]; intros w Hhome.
  - simpl. repeat split; try done.
    exists []. split; [done|]. intros l s H. by apply elem_of_nil in H.
  - cbn [stopAll]. cbv zeta.
    destruct (endQuiz env true (Some s) (SenderOf (sid s))
                (recorded notifyStoppingAllQuizzes) w) as [o w1] eqn:E.
    pose proof (endQuiz_notifies _ _ _ _ _ _ _ _ E) as (new0 & T0 & Hsend).
    apply endQuiz_spec in E as ((Hs1 & Hc1 & _ & new1 & T1 & _ & Hfin) & _ & Ho).
    assert (new0 = new1) as -> by (apply (app_inv_tail (trace w)); congruence).
    assert (getLocationId s = l) as Hl by (apply Hhome; by left).
    rewrite Hl in Hs1, Hc1.
    assert (∀ {A} (m1 m : gmap LocationId A) l',
              m1 = delete l m →
              (if decide (l' ∈ sessions.*1) then None else m1 !! l')
              = if decide (l' ∈ ((l, s) :: sessions).*1) then None else m !! l') as Hdel.
    { intros A m1 m l' ->. simpl.
      destruct (decide (l' = l)) as [->|Hne].
      - rewrite lookup_delete_eq. rewrite (decide_True _ _ (list_elem_of_here _ _)).
        by destruct (decide _).
      - rewrite lookup_delete_ne by done.
        destruct (decide (l' ∈ sessions.*1)) as [H|H].
        + by rewrite decide_True by (by right).
        + rewrite decide_False; [done|]. intros [?|?]%elem_of_cons; done. }
    assert (∀ wx extra,
              sessionForLocationId wx = sessionForLocationId w1 →
              currentActionForLocationId wx = currentActionForLocationId w1 →
              trace wx = extra ++ trace w1 →
              fst (stopAll env recorded sessions wx) = Fulfilled tt ∧
              (∀ l', sessionForLocationId (snd (stopAll env recorded sessions wx)) !! l'
                     = if decide (l' ∈ ((l, s) :: sessions).*1) then None
                       else sessionForLocationId w !! l') ∧
              (∀ l', currentActionForLocationId (snd (stopAll env recorded sessions wx)) !! l'
                     = if decide (l' ∈ ((l, s) :: sessions).*1) then None
                       else currentActionForLocationId w !! l') ∧
              ∃ new, trace (snd (stopAll env recorded sessions wx)) = new ++ trace w ∧
                     ∀ l' s', (l', s') ∈ (l, s) :: sessions →
                              EvFinalize (sid s') true ∈ new ∧
                              EvSend (SenderOf (sid s')) (recorded notifyStoppingAllQuizzes)
                                ∈ new) as Hrest.
    { intros wx extra Hsx Hcx Tx.
      destruct (IH wx) as (Hr & Hsess & Hcur & new & T & Hnew);
        [intros; apply Hhome; by right|].
      split; [done|]. split; [|split].
      + intros l'. rewrite Hsess, Hsx. by apply Hdel.
      + intros l'. rewrite Hcur, Hcx. by apply Hdel.
      + exists (new ++ extra ++ new1). split; [rewrite T, Tx, T1; by_assoc|].
        intros l' s' [H|H]%elem_of_cons.
        * injection H as -> ->. split; apply elem_of_app; right; apply elem_of_app; by right.
        * destruct (Hnew l' s' H). split; apply elem_of_app; by left. }
    destruct (completes_settles _ _ _ _ _ _ Ho) as [-> | [e ->]].
    + by apply (Hrest w1 []).
    + by eapply (Hrest _ [_]).
Qed.

(** X3.  [stopAllQuizzesCommand] ends every quiz.  When every session is
    registered at the location it names itself, then whatever the order in
    which the registry lists its keys and whatever the message sender does,
    the promise of the command is fulfilled, no location has a session
    afterwards, and every session that was registered has lost its current
    action, was sent the notification of the stop and was finalized with
    [gameOver = true]. *)
Theorem stopAllQuizzesCommand_ends_every_quiz env recorded allLocationIds w :
  Object_keys (sessionForLocationId w) allLocationIds →
  at_home w →
  let r := stopAllQuizzesCommand env recorded allLocationIds w in
  fst r = Fulfilled tt ∧
  sessionForLocationId (snd r) = ∅ ∧
  ∀ l s, sessionForLocationId w !! l = Some s →
         currentActionForLocationId (snd r) !! l = None ∧
         EvSend (SenderOf (sid s)) (recorded notifyStoppingAllQuizzes) ∈ news w (snd r) ∧
         EvFinalize (sid s) true ∈ news w (snd r).
Proof.
  intros [_ Hkeys] Hhome r. subst r. unfold stopAllQuizzesCommand.
  destruct (sessionsAt_spec allLocationIds w) as (sessions & -> & Hfst & Hin);
    [intros l; apply Hkeys|].
  destruct (stopAll_spec env recorded sessions w) as (Hr & Hsess & Hcur & new & T & Hnew).
  { intros l s H. apply Hhome. by apply Hin. }
  split; [done|]. split.
  - apply map_eq. intros l. rewrite Hsess, lookup_empty.
    destruct (decide (l ∈ sessions.*1)) as [H|H]; [done|].
    destruct (sessionForLocationId w !! l) eqn:E; [|done].
    exfalso. apply H. rewrite Hfst. apply Hkeys. by eexists.
  - intros l s Hl.
    assert (l ∈ sessions.*1) as Hmem by (rewrite Hfst; apply Hkeys; by eexists).
    assert ((l, s) ∈ sessions) as Hls.
    { apply list_elem_of_fmap in Hmem as ([l' s'] & -> & H). simpl in Hl.
      pose proof (Hin _ _ H) as Hl'. simpl.
      assert (s' = s) as -> by congruence. done. }
    rewrite (news_app _ _ _ T). destruct (Hnew l s Hls).
    split; [|done]. rewrite Hcur. by rewrite decide_True.
Qed.

Lemma Object_keys_two_quizzes :
  Object_keys (sessionForLocationId two_quizzes) ["lobby"; "channel"].
Proof.
  split.
  - apply NoDup_cons. split; [|apply NoDup_singleton].
    by intros H%list_elem_of_singleton.
  - intros l.
    change (sessionForLocationId two_quizzes)
      with (<["lobby" := otherSession]> ({[ "channel" := sampleSession ]}
              : gmap LocationId Session)).
    split.
    + intros [->|[->|H]%elem_of_cons]%elem_of_cons; [by eexists|by eexists|].
      by apply elem_of_nil in H.
    + intros [s Hs]. destruct (decide (l = "lobby")) as [->|H1]; [by left|].
      rewrite lookup_insert_ne in Hs by done.
      destruct (decide (l = "channel")) as [->|H2]; [right; by left|].
      by rewrite lookup_singleton_ne in Hs.
Qed.

Lemma at_home_two_quizzes : at_home two_quizzes.
Proof.
  intros l s.
  change (sessionForLocationId two_quizzes)
    with (<["lobby" := otherSession]> ({[ "channel" := sampleSession ]}
            : gmap LocationId Session)).
  destruct (decide (l = "lobby")) as [->|H1].
  - rewrite lookup_insert_eq. by intros [= <-].
  - rewrite lookup_insert_ne by done.
    destruct (decide (l = "channel")) as [->|H2].
    + rewrite lookup_singleton_eq. by intros [= <-].
    + by rewrite lookup_singleton_ne.
Qed.

Lemma stopAllQuizzesCommand_ends_every_quiz_witness :
  let r := stopAllQuizzesCommand (offline false) sampleRecorded ["lobby"; "channel"]
             two_quizzes in
  Object_keys (sessionForLocationId two_quizzes) ["lobby"; "channel"] ∧
  at_home two_quizzes ∧
  fst r = Fulfilled tt ∧
  sessionForLocationId (snd r) = ∅ ∧
  ∀ l s, sessionForLocationId two_quizzes !! l = Some s →
         currentActionForLocationId (snd r) !! l = None ∧
         EvSend (SenderOf (sid s)) (sampleRecorded notifyStoppingAllQuizzes)
           ∈ news two_quizzes (snd r) ∧
         EvFinalize (sid s) true ∈ news two_quizzes (snd r).
Proof.
  split; [exact Object_keys_two_quizzes|]. split; [exact at_home_two_quizzes|].
  exact (stopAllQuizzesCommand_ends_every_quiz (offline false) sampleRecorded
           ["lobby"; "channel"] two_quizzes Object_keys_two_quizzes at_home_two_quizzes).
Defined.

(** The two quizzes are stopped in the order of the keys; the message sender
    is offline, so each notification is tried three times and the failure is
    logged before the session is closed. *)
Example stop_all_two_quizzes :
  rev (trace (snd (stopAllQuizzesCommand (offline false) sampleRecorded
                     ["lobby"; "channel"] two_quizzes)))
  = [ EvSend (SenderOf 2) (sampleRecorded notifyStoppingAllQuizzes);
      EvSend (SenderOf 2) (sampleRecorded notifyStoppingAllQuizzes);
      EvSend (SenderOf 2) (sampleRecorded notifyStoppingAllQuizzes);
      EvLogFailure "Error ending quiz. Continuing and closing session.";
      EvFinalize 2 true;
      EvSend (SenderOf 1) (sampleRecorded notifyStoppingAllQuizzes);
      EvSend (SenderOf 1) (sampleRecorded notifyStoppingAllQuizzes);
      EvSend (SenderOf 1) (sampleRecorded notifyStoppingAllQuizzes);
      EvLogFailure "Error ending quiz. Continuing and closing session.";
      EvFinalize 1 true ].
Proof. vm_compute. reflexivity. Qed.

(** A session that is registered at a location other than its own outlives
    [stopAllQuizzesCommand]: [closeSession] removes the entry of the location
    that the session names. *)
Example stop_all_misses_a_foreign_key :
  let w := set_sessions {[ "lobby" := sampleSession ]} initial_world in
  let r := stopAllQuizzesCommand (calm false) sampleRecorded ["lobby"] w in
  fst r = Fulfilled tt ∧ sessionForLocationId (snd r) !! "lobby" = Some sampleSession.
Proof. vm_compute. split; reflexivity. Qed.

(** ** Commands and promises *)

Lemma reached_refl i w : reached i w w.
Proof. split; [done|]. split; [done | by left]. Qed.

Lemma reached_trans i w1 w2 w3 : reached i w1 w2 → reached i w2 w3 → reached i w1 w3.
Proof.
  intros (C12 & N12 & P12) (C23 & N23 & P23). split; [congruence|]. split; [lia|].
  destruct P12 as [E12 | (Hp & l & s & k & Hc & Hk & H12)].
  - destruct P23 as [E23 | (Hp & l & s & k & Hc & Hk & H23)].
    + left. congruence.
    + right. split; [congruence|]. exists l, s, k. rewrite <- C12. split; [done|].
      split; [lia | done].
  - right. split; [done|]. exists l, s, k. split; [done|]. split; [lia|].
    destruct P23 as [E23 | (Hp' & _)].
    + rewrite E23. done.
    + destruct H12; congruence.
Qed.

Lemma reached_same i w w' :
  currentActionForLocationId w' = currentActionForLocationId w →
  nextId w' = nextId w →
  fields w' = fields w → reached i w w'.
Proof.
  intros Hc Hn Hf. split; [done|]. split; [lia|]. left. unfold fields_of. by rewrite Hf.
Qed.

Lemma reached_settled i w w' :
  reached i w w' → fulfill_ (fields_of i w) ≠ Some Pending →
  fulfill_ (fields_of i w') = fulfill_ (fields_of i w).
Proof. intros (_ & _ & [E | (Hp & _)]) Hne; done. Qed.

Lemma pending_or_not (p : Promise) : p = Pending ∨ p ≠ Pending.
Proof. destruct p; [by left | by right | by right]. Qed.

Lemma fulfill_settle_pending i p w :
  fulfill_ (fields_of i w) = Some Pending → fulfill_ (fields_of i (settle i p w)) = Some p.
Proof. intros Hp. unfold settle. rewrite Hp. apply fulfill_set_promise. Qed.

Lemma fulfill_settle_settled i j p w :
  fulfill_ (fields_of i w) ≠ Some Pending →
  fulfill_ (fields_of i (settle j p w)) = fulfill_ (fields_of i w).
Proof.
  intros Hp. destruct (decide (j = i)) as [->|Hne]; [|by rewrite fields_of_settle_ne].
  unfold settle. destruct (fulfill_ (fields_of i w)) as [[]|] eqn:E; done.
Qed.

Section Promises.

Context (env : Env).

Lemma reached_run_command i w c : reached i w (run_command env w c).
Proof.
  split; [by destruct (preserves_run_command env w c) as (_ & ? & _)|].
  split; [apply run_command_nextId|].
  destruct c as [l | l u n input]; simpl.
  - unfold skipCommand, skipCommand_.
    destruct (currentActionForLocationId w !! l) as [a|] eqn:Hc; [|by left].
    destruct a as [| | | | | |j s| | | |]; simpl; try (by left).
    unfold AskQuestionAction_skip.
    destruct (fulfill_ (fields_of j w)) as [p|] eqn:Hj; [|by left].
    unfold new. cbv beta iota zeta.
    change (fields_of i (emit ?e ?x)) with (fields_of i x).
    set (w1 := set_nextId _ _).
    assert (fields_of i w1 = fields_of i w) as H1 by done.
    destruct (decide (j = i)) as [->|Hne]; [|left; by rewrite fields_of_settle_ne].
    destruct (pending_or_not p) as [->|Hp].
    + right. split; [done|]. exists l, s, (nextId (emit (EvMarkCurrentCardUnanswered (sid s)) w)).
      split; [done|]. split; [rewrite nextId_settle; simpl; lia|].
      left. apply fulfill_settle_pending. by rewrite H1.
    + left. rewrite fulfill_settle_settled; rewrite H1, Hj; congruence.
  - unfold processUserInput, processUserInput_.
    destruct (currentActionForLocationId w !! l) as [a|] eqn:Hc; [|by left].
    destruct a as [| | | |j s| |j s| | | |]; simpl; try (by left).
    unfold AskQuestionAction_tryAcceptUserInput.
    destruct (readyForAnswers_ (fields_of j w)); [|by left]. simpl.
    destruct (tryAcceptAnswer env (clock w)); [|by left]. unfold new. simpl.
    match goal with |- context [fulfill_ (fields_of j ?x)] => set (w1 := x) end.
    assert (fields_of i w1 = fields_of i w) as H1 by done.
    assert (fields_of j w1 = fields_of j w) as H2 by done.
    destruct (fulfill_ (fields_of j w1)) as [p|] eqn:Hj; simpl; [|by left].
    change (fields_of i (emit ?e ?x)) with (fields_of i x).
    destruct (decide (j = i)) as [->|Hne]; [|left; by rewrite fields_of_settle_ne].
    destruct (pending_or_not p) as [->|Hp].
    + right. split; [congruence|]. exists l, s, (nextId w). split; [done|].
      split; [rewrite nextId_settle; simpl; lia|].
      right. by apply fulfill_settle_pending.
    + left. rewrite fulfill_settle_settled; rewrite ?H1; congruence.
Qed.

Lemma reached_commands i cs w : reached i w (fold_left (run_command env) cs w).
Proof.
  revert w. induction cs as [|c cs IH]; intros w; simpl; [apply reached_refl|].
  eapply reached_trans; [apply reached_run_command | apply IH].
Qed.

Lemma reached_suspend i w : reached i w (suspend env w).
Proof. apply reached_commands. Qed.

Lemma reached_send i sender n w r w' : send env sender n w = (r, w') → reached i w w'.
Proof.
  unfold send, post. intros H.
  destruct (delivery env (clock w)); injection H as <- <-.
  1,2: apply (reached_trans _ _ (emit (EvSend sender n) w));
       [by apply reached_same | apply reached_suspend].
  by apply reached_same.
Qed.

Lemma reached_call {A} i (oracle : nat → Reply A) e w r w' :
  call env oracle e w = (r, w') → reached i w w'.
Proof.
  unfold call. intros H.
  destruct (oracle (clock w)); injection H as <- <-.
  1,2: apply (reached_trans _ _ (emit e w)); [by apply reached_same | apply reached_suspend].
  by apply reached_same.
Qed.

Lemma reached_retry {A} i (factory : World → Reply A * World) attempts first w o w' :
  (∀ w r w', factory w = (r, w') → reached i w w') →
  retry_from attempts first factory w = (o, w') → reached i w w'.
Proof.
  intros Hf. revert first w. induction attempts as [|attempts IH]; intros first w H.
  - injection H as <- <-. apply reached_refl.
  - rewrite retry_from_step in H. destruct (factory w) as [r w1] eqn:F.
    apply Hf in F. destruct r as [a|e|e].
    + by injection H as <- <-.
    + destruct attempts; [by injection H as <- <-|].
      eapply reached_trans; [exact F | by eapply IH].
    + destruct first; by injection H as <- <-.
Qed.

Lemma reached_finalize i session gameOver w :
  reached i w (snd (session_finalize env session gameOver w)).
Proof.
  rewrite finalize_world.
  apply (reached_trans _ _ (emit (EvFinalize (sid session) gameOver) w));
    [by apply reached_same | apply reached_suspend].
Qed.

End Promises.

(** X4.  [endQuiz] stops the current action of the location.  When that
    action has a [stop] method (a wait, a question that is asked, answers
    that are shown), a promise that it holds pending is fulfilled with
    [undefined], so that the chain that waits for it goes on with no action;
    a promise that was settled before, or that the action has not created
    yet, is as it was.  The action is no longer the current action. *)
Theorem endQuiz_stops_the_current_action env gameOver session notifier n a w :
  currentActionForLocationId w !! getLocationId session = Some a →
  has_stop a = true →
  let w' := snd (endQuiz env gameOver (Some session) notifier n w) in
  fulfill_ (fields_of (action_id a) w')
    = match fulfill_ (fields_of (action_id a) w) with
      | Some Pending => Some (FulfilledWith None)
      | settled => settled
      end ∧
  currentActionForLocationId w' !! getLocationId session = None.
Proof.
  intros Hc Hstop w'. subst w'. split.
  2:{ destruct (endQuiz env gameOver (Some session) notifier n w) as [o w'] eqn:E.
      apply endQuiz_spec in E as (Hcl & _). by apply closes_lookup in Hcl as [_ ?]. }
  unfold endQuiz. rewrite Hc. unfold Action_stop. rewrite Hstop.
  set (i := action_id a).
  set (w0 := set_currentActions _ _).
  assert (fulfill_ (fields_of i w0)
          = match fulfill_ (fields_of i w) with
            | Some Pending => Some (FulfilledWith None)
            | settled => settled
            end) as H0.
  { subst w0. change (fields_of i (set_currentActions ?m ?x)) with (fields_of i x).
    destruct (fulfill_ (fields_of i w)) as [p|] eqn:Hp.
    - destruct (pending_or_not p) as [->|Hne].
      + by apply fulfill_settle_pending.
      + rewrite fulfill_settle_settled; rewrite Hp; [by destruct p | congruence].
    - rewrite fulfill_settle_settled; by rewrite Hp. }
  assert (fulfill_ (fields_of i w0) ≠ Some Pending) as Hsettled.
  { rewrite H0. by destruct (fulfill_ (fields_of i w)) as [[]|]. }
  rewrite <- H0. clearbody w0. clear H0 Hc.
  destruct (retryPromise (send env notifier n) 3 w0) as [o w1] eqn:R.
  assert (fulfill_ (fields_of i w1) = fulfill_ (fields_of i w0)) as H1.
  { apply reached_settled; [|done]. unfold retryPromise in R.
    eapply reached_retry; [|exact R]. intros ? ? ?. apply reached_send. }
  assert (∀ wx, fields_of i wx = fields_of i w1 →
                fulfill_ (fields_of i (snd (closeSession env (Some session) true wx)))
                = fulfill_ (fields_of i w0)) as Hclose.
  { intros wx Hx. unfold closeSession. simpl snd.
    set (wy := set_currentActions _ _).
    assert (fields_of i wy = fields_of i wx) as Hy by done.
    rewrite (reached_settled i wy _ (reached_finalize env i session true wy));
      rewrite Hy, Hx; by rewrite ?H1. }
  destruct o; rewrite ?closeSession_in_callback; try (by apply Hclose). by simpl.
Qed.

Lemma endQuiz_stops_the_current_action_witness :
  let a := AskQuestionAction 0 sampleSession in
  let w' := snd (endQuiz (calm false) true (Some sampleSession) (SenderOf 1)
                   notifyQuizEndedError question_open) in
  currentActionForLocationId question_open !! getLocationId sampleSession = Some a ∧
  has_stop a = true ∧
  fulfill_ (fields_of 0 w') = Some (FulfilledWith None) ∧
  currentActionForLocationId w' !! "channel" = None.
Proof.
  split; [done|]. split; [done|].
  exact (endQuiz_stops_the_current_action (calm false) true sampleSession (SenderOf 1)
           notifyQuizEndedError (AskQuestionAction 0 sampleSession) question_open
           eq_refl eq_refl).
Defined.

(** ** The successors of an action *)

Lemma alone_out_of_reach a w :
  alone a w → (∀ j s, a ≠ AskQuestionAction j s) → out_of_reach (action_id a) w.
Proof. intros Ha Hne l j s Hc ->. apply (Hne (action_id a) s). symmetry. by apply (Ha l). Qed.

Lemma alone_same a w w' :
  currentActionForLocationId w' = currentActionForLocationId w → alone a w → alone a w'.
Proof. intros Hc Ha l j s. rewrite Hc. apply Ha. Qed.

Lemma alone_preserves p a w w' : preserves p w w' → alone a w → alone a w'.
Proof. intros (_ & Hc & _). by apply alone_same. Qed.

Lemma promise_follows_same a w w' :
  fulfill_ (fields_of (action_id a) w') = fulfill_ (fields_of (action_id a) w) →
  promise_follows a w → promise_follows a w'.
Proof. unfold promise_follows. by intros ->. Qed.

Lemma promise_follows_reached i s w w' :
  alone (AskQuestionAction i s) w → reached i w w' →
  promise_follows (AskQuestionAction i s) w → promise_follows (AskQuestionAction i s) w'.
Proof.
  unfold promise_follows. simpl. intros Ha (_ & _ & [E | (_ & l & s' & k & Hc & _ & H)]) Hf.
  - by rewrite E.
  - pose proof (Ha l i s' Hc eq_refl) as [= ->]. destruct H as [-> | ->]; constructor.
Qed.

Lemma promise_follows_rejected a e w :
  promise_follows a w → promise_follows a (settle (action_id a) (RejectedWith e) w).
Proof.
  unfold promise_follows. intros H.
  destruct (fulfill_ (fields_of (action_id a) w)) as [p|] eqn:Hp.
  - destruct (pending_or_not p) as [->|Hne].
    + by rewrite fulfill_settle_pending.
    + rewrite fulfill_settle_settled; rewrite Hp; [done | congruence].
  - rewrite fulfill_settle_settled; by rewrite Hp.
Qed.

Section Successors.

Context (env : Env).

Lemma revealTimerFires_follows i s more w :
  let a := AskQuestionAction i s in
  alone a w → promise_follows a w →
  alone a (revealTimerFires env i s more w) ∧
  promise_follows a (revealTimerFires env i s more w).
Proof.
  intros a Ha Hf.
  split; [exact (alone_preserves _ _ _ _ (revealTimerFires_keeps env i s more w) Ha)|].
  unfold revealTimerFires.
  destruct (call env _ _ w) as [r w1] eqn:C.
  pose proof (reached_call env i _ _ _ _ _ C) as R1.
  pose proof (promise_follows_reached _ _ _ _ Ha R1 Hf) as Hf1.
  pose proof (alone_same _ _ _ (proj1 R1) Ha) as Ha1.
  assert (∀ wx, promise_follows a wx → promise_follows a (scheduleReveal_ s more wx)) as Hs.
  { intros wx. apply promise_follows_same. by rewrite fields_of_scheduleReveal_. }
  destruct r as [[q|]|e|e]; try (by apply (promise_follows_rejected a)); [|by apply Hs].
  destruct (send env _ _ w1) as [r2 w2] eqn:S.
  pose proof (reached_send env i _ _ _ _ _ S) as R2.
  pose proof (promise_follows_reached _ _ _ _ Ha1 R2 Hf1) as Hf2.
  destruct r2; [by apply Hs | by apply Hs | by apply (promise_follows_rejected a)].
Qed.

Lemma questionOpen_follows happenings reveals i s w :
  let a := AskQuestionAction i s in
  alone a w → promise_follows a w →
  promise_follows a (questionOpen env happenings reveals i s w).
Proof.
  intros a. revert reveals w.
  induction happenings as [|h rest IH]; intros reveals w Ha Hf; [done|].
  cbn [questionOpen].
  destruct (fulfill_ (fields_of i w)) as [[]|] eqn:Hp; try done.
  destruct h as [c|].
  - apply IH.
    + exact (alone_same _ _ _ (proj1 (reached_run_command env i w c)) Ha).
    + exact (promise_follows_reached _ _ _ _ Ha (reached_run_command env i w c) Hf).
  - destruct reveals as [|more]; [by apply IH|].
    destruct (revealTimerFires_follows i s more w Ha Hf). by apply IH.
Qed.

Lemma settlement_follows a w next :
  promise_follows a w →
  fst (settlement (action_id a) w) = Fulfilled next →
  ∃ n, next = Some n ∧ follows a n.
Proof.
  unfold promise_follows, settlement.
  destruct (fulfill_ (fields_of (action_id a) w)) as [[|[n|]|]|]; try done.
  intros Hf [= <-]. by exists n.
Qed.

Lemma AskQuestionAction_open_follows i s card shown w next :
  alone (AskQuestionAction i s) w →
  fst (AskQuestionAction_open env i s card shown w) = Fulfilled next →
  ∃ n, next = Some n ∧ follows (AskQuestionAction i s) n.
Proof.
  intros Ha. unfold AskQuestionAction_open.
  set (w1 := scheduleReveal_ s (numberOfReveals card) _).
  assert (fulfill_ (fields_of i w1) = Some Pending) as Hp.
  { subst w1. rewrite fields_of_scheduleReveal_. apply fulfill_set_promise. }
  assert (alone (AskQuestionAction i s) w1) as Ha1.
  { subst w1. apply (alone_same _ w); [|done]. by rewrite currentAction_scheduleReveal_. }
  assert (promise_follows (AskQuestionAction i s) w1) as Hf1
    by (unfold promise_follows; simpl; by rewrite Hp).
  pose proof (questionOpen_follows (beforeDeadline env (clock w1)) (numberOfReveals card)
                i s w1 Ha1 Hf1) as Hf2.
  set (w2 := questionOpen env _ _ i s w1) in *.
  apply (settlement_follows (AskQuestionAction i s)).
  destruct (fulfill_ (fields_of i w2)) as [[]|] eqn:Hp2; try done.
  unfold answerTimerFires, new. cbv beta iota zeta.
  unfold promise_follows. simpl action_id.
  rewrite fulfill_settle_pending by done. constructor.
Qed.

Lemma AskQuestionAction_ask_follows i s card w next :
  alone (AskQuestionAction i s) w →
  fst (AskQuestionAction_ask env i s card w) = Fulfilled next →
  ∃ n, next = Some n ∧ follows (AskQuestionAction i s) n.
Proof.
  intros Ha. unfold AskQuestionAction_ask.
  destruct (call env _ _ _) as [r w1] eqn:C.
  pose proof (reached_call env i _ _ _ _ _ C) as (C1 & _).
  assert (alone (AskQuestionAction i s) w1) as Ha1 by (by apply (alone_same _ w)).
  destruct r as [q|e|e]; try done.
  destruct (retryPromise _ 3 w1) as [o w2] eqn:R.
  assert (reached i w1 w2) as (C2 & _).
  { unfold retryPromise in R. eapply reached_retry; [|exact R].
    intros ? ? ?. apply reached_send. }
  assert (alone (AskQuestionAction i s) w2) as Ha2 by (by apply (alone_same _ w1)).
  destruct o; try done; by apply AskQuestionAction_open_follows.
Qed.

Lemma AskQuestionAction_do_follows fuel i s w next :
  alone (AskQuestionAction i s) w →
  fst (AskQuestionAction_do env fuel i s w) = Fulfilled next →
  ∃ n, next = Some n ∧ follows (AskQuestionAction i s) n.
Proof.
  revert w. induction fuel as [|fuel IH]; intros w Ha; [done|].
  cbn [AskQuestionAction_do].
  destruct (getNextCard env (clock w)) as [nextCard|].
  2:{ unfold new. simpl. intros [= <-]. eexists. split; [done | constructor]. }
  set (w0 := emit (EvGetNextCard (sid s)) w).
  assert (alone (AskQuestionAction i s) w0) as Ha0 by done.
  destruct (wasPreprocessed nextCard).
  - by apply AskQuestionAction_ask_follows.
  - destruct (call env _ _ w0) as [r w1] eqn:C.
    pose proof (reached_call env i _ _ _ _ _ C) as (C1 & _).
    assert (alone (AskQuestionAction i s) w1) as Ha1 by (by apply (alone_same _ w0)).
    destruct r as [[card|]|e|e]; try done.
    + by apply AskQuestionAction_ask_follows.
    + specialize (IH w1 Ha1).
      destruct (AskQuestionAction_do env fuel i s w1) as [[] w2]; try done.
Qed.

Lemma Action_do_follows fuel a w next :
  alone a w →
  fst (Action_do env fuel a w) = Fulfilled next →
  match next with
  | Some n => follows a n
  | None => names_no_successor a = true
  end.
Proof.
  intros Ha.
  destruct a as [i s|i s|i s|i s|i s|i s skipped|i s|i s|i s|i s interval n|i s u];
    cbn [Action_do].
  - (* EndQuizForErrorAction *)
    intros H. destruct (EndQuizForErrorAction_do env s w) as [o w'] eqn:E.
    apply EndQuizForErrorAction_do_spec in E as (_ & _ & [-> | [e ->]] & _); [|done].
    by injection H as <-.
  - intros H.
    destruct (EndQuizScoreLimitReachedAction_do env s w) as [o w'] eqn:E.
    apply returning_endQuiz_spec in E as (_ & _ & [-> | [e ->]] & _); [|done].
    by injection H as <-.
  - intros H.
    destruct (EndQuizNoQuestionsLeftAction_do env s w) as [o w'] eqn:E.
    apply returning_endQuiz_spec in E as (_ & _ & [-> | [e ->]] & _); [|done].
    by injection H as <-.
  - intros H.
    destruct (EndQuizTooManyWrongAnswersAction_do env s w) as [o w'] eqn:E.
    apply returning_endQuiz_spec in E as (_ & _ & [-> | [e ->]] & _); [|done].
    by injection H as <-.
  - (* ShowAnswersAction *)
    unfold ShowAnswersAction_do.
    set (card := getCurrentCard env (clock w)).
    set (w1 := session_addTimer s _ (new_promise i w)).
    assert (fulfill_ (fields_of i w1) = Some Pending) as Hp by apply fulfill_set_promise.
    assert (out_of_reach i w1) as Hout.
    { apply (alone_out_of_reach (ShowAnswersAction i s)); [by apply (alone_same _ w)|done]. }
    destruct (suspend_out_of_reach env i w1 Hout) as [Hf _].
    rewrite Hf, Hp. unfold showAnswersTimerFires, post.
    set (w2 := emit (EvMarkCurrentCardAnswered (sid s)) (suspend env w1)).
    assert (fulfill_ (fields_of i w2) = Some Pending) as Hp2.
    { change (fields_of i w2) with (fields_of i (suspend env w1)). congruence. }
    intros H. apply (settlement_follows (ShowAnswersAction i s)) in H; [by destruct H as (n & -> & ?)|].
    unfold promise_follows. simpl action_id.
    destruct (delivery env (clock w2)) as [m|e|e].
    + destruct (checkForWin env _); unfold new_wait_then_ask, new; cbv beta iota zeta;
        rewrite fulfill_settle_pending by done; constructor.
    + destruct (checkForWin env _); unfold new_wait_then_ask, new; cbv beta iota zeta;
        rewrite fulfill_settle_pending by done; constructor.
    + by rewrite fulfill_settle_pending.
  - (* ShowWrongAnswerAction *)
    unfold ShowWrongAnswerAction_do.
    destruct (send env _ _ w) as [r w1].
    destruct r as [m|e|e]; [| |done].
    all: destruct (checkTooManyWrongAnswers env _); unfold new_wait_then_ask, new;
      cbv beta iota zeta; intros [= <-]; constructor.
  - (* AskQuestionAction *)
    intros H. by destruct (AskQuestionAction_do_follows fuel i s w next Ha H) as (n & -> & ?).
  - (* AskInitialQuestionAction *)
    unfold AskInitialQuestionAction_do. destruct (getRandomWord env (clock w)); [done|].
    by intros [= <-].
  - (* StartAction *)
    unfold StartAction_do.
    destruct (send env _ _ w) as [r w1].
    destruct r as [m|e|e]; [| |done].
    all: unfold new; cbv beta iota zeta; intros [= <-]; constructor.
  - (* WaitAction *)
    rewrite WaitAction_do_fulfils.
    + intros [= <-]. constructor.
    + by apply (alone_out_of_reach (WaitAction i s interval n)).
  - (* SaveAction *)
    unfold SaveAction_do.
    destruct (closeSession env (Some s) false w) as [[] w0]; try done.
    2:{ unfold new. cbv beta iota zeta. intros [= <-]. constructor. }
    destruct (call env _ _ _) as [r w1].
    destruct r as [[]|e|e].
    + destruct (send env _ _ w1) as [r2 w2]. destruct r2 as [m|e|e].
      * by intros [= <-].
      * by intros [= <-].
      * unfold new. cbv beta iota zeta. intros [= <-]. constructor.
    + unfold new. cbv beta iota zeta. intros [= <-]. constructor.
    + unfold new. cbv beta iota zeta. intros [= <-]. constructor.
Qed.

End Successors.

(** X5.  The transitions of the chain.  As long as the identity of an action
    is its own, the action that its [do] names next is one that its class
    provides for, with the same session: a start is followed by the wait for
    the initial question, a wait by the action it was given, a question by
    the answers, the wrong answer or the end for lack of questions, the
    answers by the end at the score limit or the wait for the next question,
    the wrong answer by the end for too many wrong answers or the wait for
    the next question, a failed save by the error ending.  [do] is fulfilled
    with no action only by the End-Quiz variants, the initial question and
    the save (commands that stop a quiz apart, which do not run inside a
    chain here). *)
Theorem successors_follow_the_chain env fuel a w next :
  alone a w →
  fst (Action_do env fuel a w) = Fulfilled next →
  match next with
  | Some n => follows a n
  | None => names_no_successor a = true
  end.
Proof. apply Action_do_follows. Qed.

Lemma alone_first_question :
  alone (AskQuestionAction 0 sampleSession)
        (started "channel" (AskQuestionAction 0 sampleSession) registered).
Proof.
  intros l j s. simpl. destruct (decide (l = "channel")) as [->|Hne].
  - rewrite lookup_insert_eq. by intros [= <- <-].
  - by rewrite lookup_insert_ne.
Qed.

Lemma successors_follow_the_chain_witness :
  let a := AskQuestionAction 0 sampleSession in
  let w := started "channel" a registered in
  alone a w ∧
  fst (Action_do (calm false) 1 a w)
    = Fulfilled (Some (ShowWrongAnswerAction 1 sampleSession false)) ∧
  follows a (ShowWrongAnswerAction 1 sampleSession false).
Proof.
  split; [exact alone_first_question|]. split; [by vm_compute|].
  exact (successors_follow_the_chain (calm false) 1 (AskQuestionAction 0 sampleSession)
           (started "channel" (AskQuestionAction 0 sampleSession) registered)
           (Some (ShowWrongAnswerAction 1 sampleSession false))
           alone_first_question eq_refl).
Defined.

(** ** A chain past its start ends with the session closed *)

Lemma of_session_getSession_ s a : of_session s a → getSession_ a = s.
Proof. destruct a; simpl; try done. by intros [? _]. Qed.

Lemma follows_past_the_start s a n :
  follows a n → of_session s a → past_the_start a = true →
  of_session s n ∧ past_the_start n = true.
Proof.
  destruct 1; simpl; try done; try (by intros <-); try (by intros [<- ?]).
Qed.

(** ** Identities along a chain *)

Lemma numbered_single base a :
  ids a = [action_id a] → (base ≤ action_id a)%nat → numbered base a.
Proof. intros E H k. rewrite E. intros Hk%list_elem_of_singleton. by subst. Qed.

Lemma numbered_action_id base a : numbered base a → (base ≤ action_id a)%nat.
Proof. intros H. apply H. destruct a; simpl; apply elem_of_cons; by left. Qed.

Lemma numbered_wait base i s d next :
  (base ≤ i)%nat → numbered base next → numbered base (WaitAction i s d next).
Proof. intros Hi Hn k [->|Hk]%elem_of_cons; [done | by apply Hn]. Qed.

Lemma numbered_next base i s d next : numbered base (WaitAction i s d next) → numbered base next.
Proof. intros H k Hk. apply H. simpl. apply elem_of_cons. by right. Qed.

Lemma promise_numbered_same base i w w' :
  fulfill_ (fields_of i w') = fulfill_ (fields_of i w) →
  promise_numbered base i w → promise_numbered base i w'.
Proof. unfold promise_numbered. by intros ->. Qed.

Lemma promise_numbered_reached base i w w' :
  (base ≤ nextId w)%nat → reached i w w' →
  promise_numbered base i w → promise_numbered base i w'.
Proof.
  unfold promise_numbered. intros Hb (_ & _ & [E | (_ & l & s & k & _ & Hk & H)]) Hf.
  - by rewrite E.
  - destruct H as [-> | ->]; apply numbered_single; simpl; try done; lia.
Qed.

Lemma promise_numbered_settle base i j p w :
  match p with FulfilledWith (Some n) => numbered base n | _ => True end →
  promise_numbered base i w → promise_numbered base i (settle j p w).
Proof.
  intros Hp H. destruct (decide (j = i)) as [->|Hne].
  - unfold promise_numbered in *.
    destruct (fulfill_ (fields_of i w)) as [q|] eqn:Hq.
    + destruct (pending_or_not q) as [->|Hne].
      * rewrite fulfill_settle_pending by done. by destruct p as [|[]|].
      * rewrite fulfill_settle_settled; rewrite Hq; [done | congruence].
    + rewrite fulfill_settle_settled; by rewrite Hq.
  - apply (promise_numbered_same base i w); [|done]. by rewrite fields_of_settle_ne.
Qed.

Lemma settlement_leaves base i w :
  (base ≤ nextId w)%nat → promise_numbered base i w → leaves base (settlement i w).
Proof.
  unfold promise_numbered, settlement, leaves. intros Hb Hf.
  destruct (fulfill_ (fields_of i w)) as [[|[n|]|]|]; simpl; split; try done.
  by intros ? [= <-].
Qed.

Section Fresh.

Context (env : Env).

Lemma call_nextId {A} (oracle : nat → Reply A) e w r w' :
  call env oracle e w = (r, w') → (nextId w ≤ nextId w')%nat.
Proof. intros H. by apply (reached_call env 0) in H as (_ & ? & _). Qed.

Lemma retry_send_nextId sender n attempts w o w' :
  retryPromise (send env sender n) attempts w = (o, w') → (nextId w ≤ nextId w')%nat.
Proof.
  unfold retryPromise. intros H.
  apply (reached_retry 0) in H as (_ & ? & _); [done|].
  intros ? ? ?. apply reached_send.
Qed.

Lemma finalize_nextId session gameOver w :
  (nextId w ≤ nextId (snd (session_finalize env session gameOver w)))%nat.
Proof.
  rewrite finalize_world.
  apply (suspend_nextId env (emit (EvFinalize (sid session) gameOver) w)).
Qed.

Lemma closeSession_nextId session gameOver w :
  (nextId w ≤ nextId (snd (closeSession env session gameOver w)))%nat.
Proof.
  destruct session as [s|]; [|done]. simpl.
  match goal with |- context [session_finalize env s gameOver ?x] =>
    apply (finalize_nextId s gameOver x)
  end.
Qed.

Lemma endQuiz_nextId gameOver session notifier n w :
  (nextId w ≤ nextId (snd (endQuiz env gameOver session notifier n w)))%nat.
Proof.
  destruct session as [s|]; [|done]. unfold endQuiz.
  set (w0 := match currentActionForLocationId w !! getLocationId s with
             | Some current => _
             | None => w
             end).
  assert (nextId w0 = nextId w) as H0.
  { subst w0. destruct (currentActionForLocationId w !! getLocationId s); [|done].
    simpl. unfold Action_stop. destruct (has_stop a); [|done]. apply nextId_settle. }
  destruct (retryPromise _ 3 w0) as [o w1] eqn:R.
  apply retry_send_nextId in R.
  destruct o; rewrite ?closeSession_in_callback.
  - pose proof (closeSession_nextId (Some s) true w1). lia.
  - pose proof (closeSession_nextId (Some s) true (logFailure END_QUIZ_FAILURE w1)).
    simpl in *. lia.
  - pose proof (closeSession_nextId (Some s) true (logFailure END_QUIZ_FAILURE w1)).
    simpl in *. lia.
  - simpl. lia.
Qed.

Lemma closeAndRethrow_nextId session err w :
  (nextId w ≤ nextId (snd (closeAndRethrow env session err w)))%nat.
Proof.
  unfold closeAndRethrow.
  pose proof (closeSession_nextId (Some session) true (logFailure ENDING_FOR_ERROR_FAILURE w)) as H.
  destruct (closeSession env _ _ _) as [[] w1]; exact H.
Qed.

Lemma returning_endQuiz_leaves base gameOver session notifier n w :
  (base ≤ nextId w)%nat →
  leaves base (returning_endQuiz (endQuiz env gameOver (Some session) notifier n w)).
Proof.
  intros Hb. pose proof (endQuiz_nextId gameOver (Some session) notifier n w) as H.
  destruct (endQuiz env _ _ _ _ _) as [[] w1]; simpl in *; split; simpl; try done; lia.
Qed.

Lemma revealTimerFires_numbered base i s more w :
  (base ≤ nextId w)%nat → promise_numbered base i w →
  (base ≤ nextId (revealTimerFires env i s more w))%nat ∧
  promise_numbered base i (revealTimerFires env i s more w).
Proof.
  intros Hb Hf. unfold revealTimerFires.
  destruct (call env _ _ w) as [r w1] eqn:C.
  pose proof (reached_call env i _ _ _ _ _ C) as R1.
  pose proof (promise_numbered_reached _ _ _ _ Hb R1 Hf) as Hf1.
  assert (base ≤ nextId w1)%nat as Hb1 by (destruct R1 as (_ & ? & _); lia).
  assert (∀ wx, (base ≤ nextId wx)%nat → promise_numbered base i wx →
                (base ≤ nextId (scheduleReveal_ s more wx))%nat ∧
                promise_numbered base i (scheduleReveal_ s more wx)) as Hs.
  { intros wx ? ?. rewrite nextId_scheduleReveal_. split; [done|].
    apply (promise_numbered_same base i wx); [|done]. by rewrite fields_of_scheduleReveal_. }
  assert (∀ e wx, (base ≤ nextId wx)%nat → promise_numbered base i wx →
                  (base ≤ nextId (settle i (RejectedWith e) wx))%nat ∧
                  promise_numbered base i (settle i (RejectedWith e) wx)) as Hr.
  { intros e wx ? ?. rewrite nextId_settle. split; [done|].
    by apply promise_numbered_settle. }
  destruct r as [[q|]|e|e]; [|by apply Hs|by apply Hr|by apply Hr].
  destruct (send env _ _ w1) as [r2 w2] eqn:S.
  pose proof (reached_send env i _ _ _ _ _ S) as R2.
  pose proof (promise_numbered_reached _ _ _ _ Hb1 R2 Hf1) as Hf2.
  assert (base ≤ nextId w2)%nat as Hb2 by (destruct R2 as (_ & ? & _); lia).
  destruct r2; [by apply Hs | by apply Hs | by apply Hr].
Qed.

Lemma questionOpen_numbered base happenings reveals i s w :
  (base ≤ nextId w)%nat → promise_numbered base i w →
  (base ≤ nextId (questionOpen env happenings reveals i s w))%nat ∧
  promise_numbered base i (questionOpen env happenings reveals i s w).
Proof.
  revert reveals w.
  induction happenings as [|h rest IH]; intros reveals w Hb Hf; [done|].
  cbn [questionOpen].
  destruct (fulfill_ (fields_of i w)) as [[]|] eqn:Hp; try done.
  destruct h as [c|].
  - pose proof (reached_run_command env i w c) as R. apply IH.
    + destruct R as (_ & ? & _). lia.
    + exact (promise_numbered_reached _ _ _ _ Hb R Hf).
  - destruct reveals as [|more]; [by apply IH|].
    destruct (revealTimerFires_numbered base i s more w Hb Hf). by apply IH.
Qed.

Lemma AskQuestionAction_open_leaves base i s card shown w :
  (base ≤ nextId w)%nat → leaves base (AskQuestionAction_open env i s card shown w).
Proof.
  intros Hb. unfold AskQuestionAction_open.
  set (w1 := scheduleReveal_ s (numberOfReveals card) _).
  assert (fulfill_ (fields_of i w1) = Some Pending) as Hp.
  { subst w1. rewrite fields_of_scheduleReveal_. apply fulfill_set_promise. }
  assert (base ≤ nextId w1)%nat as Hb1 by (subst w1; by rewrite nextId_scheduleReveal_).
  assert (promise_numbered base i w1) as Hf1 by (unfold promise_numbered; by rewrite Hp).
  destruct (questionOpen_numbered base (beforeDeadline env (clock w1)) (numberOfReveals card)
              i s w1 Hb1 Hf1) as [Hb2 Hf2].
  set (w2 := questionOpen env _ _ i s w1) in *.
  destruct (fulfill_ (fields_of i w2)) as [[]|] eqn:Hp2; try (by apply settlement_leaves).
  unfold answerTimerFires, new. cbv beta iota zeta. apply settlement_leaves.
  - rewrite nextId_settle. simpl. lia.
  - apply promise_numbered_settle.
    + apply numbered_single; [done|]. simpl. lia.
    + apply (promise_numbered_same base i w2); done.
Qed.

Lemma AskQuestionAction_ask_leaves base i s card w :
  (base ≤ nextId w)%nat → leaves base (AskQuestionAction_ask env i s card w).
Proof.
  intros Hb. unfold AskQuestionAction_ask.
  destruct (call env _ _ _) as [r w1] eqn:C.
  apply call_nextId in C. simpl in C.
  destruct r as [q|e|e]; try (split; simpl; [lia | done]).
  destruct (retryPromise _ 3 w1) as [o w2] eqn:R.
  apply retry_send_nextId in R.
  destruct o; try (split; simpl; [lia | done]).
  - apply AskQuestionAction_open_leaves. lia.
  - apply AskQuestionAction_open_leaves. simpl. lia.
Qed.

Lemma AskQuestionAction_do_leaves base fuel i s w :
  (base ≤ nextId w)%nat → leaves base (AskQuestionAction_do env fuel i s w).
Proof.
  revert w. induction fuel as [|fuel IH]; intros w Hb; [done|].
  cbn [AskQuestionAction_do].
  destruct (getNextCard env (clock w)) as [nextCard|].
  2:{ unfold new. simpl. split; simpl; [lia|]. intros ? [= <-].
      apply numbered_single; [done|]. simpl. lia. }
  destruct (wasPreprocessed nextCard).
  - by apply AskQuestionAction_ask_leaves.
  - destruct (call env _ _ _) as [r w1] eqn:C.
    apply call_nextId in C. simpl in C.
    destruct r as [[card|]|e|e]; try (split; simpl; [lia | done]).
    + apply AskQuestionAction_ask_leaves. lia.
    + assert (base ≤ nextId w1)%nat as Hb1 by lia. specialize (IH w1 Hb1).
      destruct (AskQuestionAction_do env fuel i s w1) as [[] w2]; try done.
      split; [apply IH | done].
Qed.

Lemma new_wait_then_ask_numbered base s delay w :
  (base ≤ nextId w)%nat →
  numbered base (fst (new_wait_then_ask s delay w)) ∧
  (base ≤ nextId (snd (new_wait_then_ask s delay w)))%nat.
Proof.
  intros Hb. unfold new_wait_then_ask, new. simpl. split; [|lia].
  apply numbered_wait; [lia|]. by apply numbered_single.
Qed.

Lemma Action_do_leaves base fuel a w :
  (base ≤ nextId w)%nat → numbered base a → leaves base (Action_do env fuel a w).
Proof.
  intros Hb Hn.
  destruct a as [i s|i s|i s|i s|i s|i s skipped|i s|i s|i s|i s interval n|i s u];
    cbn [Action_do].
  - (* EndQuizForErrorAction *)
    assert (∀ e wx, (base ≤ nextId wx)%nat →
                    leaves base (closeAndRethrow env s e wx) ∧
                    leaves base (in_callback (closeAndRethrow env s e wx))) as Hrethrow.
    { intros e wx Hx. pose proof (closeAndRethrow_nextId s e wx) as H1.
      destruct (closeAndRethrow_rejects env s e wx) as [e' He'].
      destruct (closeAndRethrow env s e wx) as [o2 w2]. simpl in *. subst o2.
      split; (split; simpl; [lia | done]). }
    unfold EndQuizForErrorAction_do, EndQuizForErrorAction_try.
    destruct (ambient_messageSender env).
    + pose proof (endQuiz_nextId true (Some s) AmbientSender notifyQuizEndedError
                    (logFailure "Stopping for error" w)) as H.
      destruct (endQuiz env _ _ _ _ _) as [[] w1]; simpl in H.
      * split; simpl; [lia | done].
      * apply Hrethrow. lia.
      * apply Hrethrow. lia.
      * split; simpl; [lia | done].
    + apply Hrethrow. simpl. lia.
  - by apply returning_endQuiz_leaves.
  - by apply returning_endQuiz_leaves.
  - by apply returning_endQuiz_leaves.
  - (* ShowAnswersAction *)
    unfold ShowAnswersAction_do.
    set (card := getCurrentCard env (clock w)).
    set (w1 := session_addTimer s _ (new_promise i w)).
    assert (fulfill_ (fields_of i w1) = Some Pending) as Hp by apply fulfill_set_promise.
    assert (promise_numbered base i w1) as Hf1 by (unfold promise_numbered; by rewrite Hp).
    assert (base ≤ nextId w1)%nat as Hb1 by done.
    pose proof (reached_suspend env i w1) as R.
    pose proof (promise_numbered_reached _ _ _ _ Hb1 R Hf1) as Hf2.
    assert (base ≤ nextId (suspend env w1))%nat as Hb2 by (destruct R as (_ & ? & _); lia).
    destruct (fulfill_ (fields_of i (suspend env w1))) as [[]|] eqn:Hp2;
      try (by apply settlement_leaves).
    unfold showAnswersTimerFires, post.
    set (w2 := emit (EvMarkCurrentCardAnswered (sid s)) (suspend env w1)).
    assert (promise_numbered base i w2) as Hf3 by done.
    assert (base ≤ nextId w2)%nat as Hb3 by done.
    destruct (delivery env (clock w2)) as [m|e|e].
    + destruct (checkForWin env _); unfold new_wait_then_ask, new; cbv beta iota zeta;
        apply settlement_leaves; rewrite ?nextId_settle; simpl; try lia;
        apply promise_numbered_settle; try done.
      * apply numbered_single; [done | simpl; lia].
      * apply numbered_wait; [simpl; lia|]. apply numbered_single; [done | simpl; lia].
    + destruct (checkForWin env _); unfold new_wait_then_ask, new; cbv beta iota zeta;
        apply settlement_leaves; rewrite ?nextId_settle; simpl; try lia;
        apply promise_numbered_settle; try done.
      * apply numbered_single; [done | simpl; lia].
      * apply numbered_wait; [simpl; lia|]. apply numbered_single; [done | simpl; lia].
    + apply settlement_leaves; rewrite ?nextId_settle; [done|].
      by apply promise_numbered_settle.
  - (* ShowWrongAnswerAction *)
    unfold ShowWrongAnswerAction_do.
    destruct (send env _ _ w) as [r w1] eqn:S.
    apply send_nextId in S.
    destruct r as [m|e|e]; [| |split; simpl; [lia | done]].
    all: destruct (checkTooManyWrongAnswers env _); unfold new_wait_then_ask, new;
      cbv beta iota zeta; (split; simpl; [lia|]); intros ? [= <-].
    all: try (apply numbered_single; [done | simpl; lia]).
    all: apply numbered_wait; [simpl; lia|]; apply numbered_single; [done | simpl; lia].
  - (* AskQuestionAction *)
    by apply AskQuestionAction_do_leaves.
  - (* AskInitialQuestionAction *)
    unfold AskInitialQuestionAction_do. destruct (getRandomWord env (clock w)); by split.
  - (* StartAction *)
    unfold StartAction_do.
    destruct (send env _ _ w) as [r w1] eqn:S.
    apply send_nextId in S.
    destruct r as [m|e|e]; [| |split; simpl; [lia | done]].
    all: unfold new; cbv beta iota zeta; (split; simpl; [lia|]); intros ? [= <-].
    all: apply numbered_wait; [simpl; lia|]; apply numbered_single; [done | simpl; lia].
  - (* WaitAction *)
    unfold WaitAction_do.
    set (w1 := session_addTimer s interval (new_promise i w)).
    assert (fulfill_ (fields_of i w1) = Some Pending) as Hp by apply fulfill_set_promise.
    assert (promise_numbered base i w1) as Hf1 by (unfold promise_numbered; by rewrite Hp).
    assert (base ≤ nextId w1)%nat as Hb1 by done.
    pose proof (reached_suspend env i w1) as R.
    pose proof (promise_numbered_reached _ _ _ _ Hb1 R Hf1) as Hf2.
    assert (base ≤ nextId (suspend env w1))%nat as Hb2 by (destruct R as (_ & ? & _); lia).
    apply settlement_leaves; rewrite ?nextId_settle; [done|].
    apply promise_numbered_settle; [|done]. by apply numbered_next in Hn.
  - (* SaveAction *)
    unfold SaveAction_do.
    pose proof (closeSession_nextId (Some s) false w) as H0.
    destruct (closeSession env _ _ _) as [o0 w0] eqn:C0. simpl in H0.
    destruct o0 as [[]|e|e|]; try (split; simpl; [lia | done]).
    2:{ unfold new. cbv beta iota zeta. split; simpl; [lia|]. intros ? [= <-].
        apply numbered_single; [done | simpl; lia]. }
    destruct (call env _ _ _) as [r w1] eqn:C. apply call_nextId in C. simpl in C.
    destruct r as [[]|e|e].
    + destruct (send env _ _ w1) as [r2 w2] eqn:S. apply send_nextId in S.
      destruct r2 as [m|e|e]; try (split; simpl; [lia | done]).
      unfold new. cbv beta iota zeta. split; simpl; [lia|]. intros ? [= <-].
      apply numbered_single; [done | simpl; lia].
    + unfold new. cbv beta iota zeta. split; simpl; [lia|]. intros ? [= <-].
      apply numbered_single; [done | simpl; lia].
    + unfold new. cbv beta iota zeta. split; simpl; [lia|]. intros ? [= <-].
      apply numbered_single; [done | simpl; lia].
Qed.

End Fresh.

(** ** A chain and the other locations *)

Lemma untouched_refl l w : untouched l w w.
Proof. by intros l' _. Qed.

Lemma untouched_trans l w1 w2 w3 : untouched l w1 w2 → untouched l w2 w3 → untouched l w1 w3.
Proof.
  intros H12 H23 l' Hne. destruct (H12 l' Hne) as [E1 E2], (H23 l' Hne) as [E3 E4].
  split; congruence.
Qed.

Lemma untouched_same l w w' :
  sessionForLocationId w' = sessionForLocationId w →
  currentActionForLocationId w' = currentActionForLocationId w → untouched l w w'.
Proof. intros Hs Hc l' _. by rewrite Hs, Hc. Qed.

Lemma untouched_started l a w : untouched l w (started l a w).
Proof. intros l' Hne. simpl. by rewrite lookup_insert_ne. Qed.

Lemma untouched_closes s g w w' : closes s g w w' → untouched (getLocationId s) w w'.
Proof.
  intros (Hs & Hc & _) l' Hne. rewrite Hs, Hc. by rewrite !lookup_delete_ne.
Qed.

Lemma untouched_preserves p l w w' : preserves p w w' → untouched l w w'.
Proof. intros (Hs & Hc & _). by apply untouched_same. Qed.

Lemma apart_untouched base l w w' :
  apart base l w → untouched l w w' → (base ≤ nextId w')%nat → apart base l w'.
Proof.
  intros [_ Ha] Hu Hb. split; [done|]. intros l' j s Hne Hc.
  destruct (Hu l' Hne) as [_ E]. rewrite E in Hc. by apply (Ha l' j s).
Qed.

Lemma apart_alone base l a w : apart base l w → numbered base a → alone a (started l a w).
Proof.
  intros [_ Ha] Hn l' j s. simpl. destruct (decide (l' = l)) as [->|Hne].
  - rewrite lookup_insert_eq. by intros [= <-].
  - rewrite lookup_insert_ne by done. intros Hc ->.
    apply Ha in Hc; [|done]. apply numbered_action_id in Hn. lia.
Qed.

Lemma follows_of_session s a n : follows a n → of_session s a → of_session s n.
Proof.
  destruct 1; simpl; try done; try (by intros <-); try (by intros [<- ?]).
Qed.

Section Apart.

Context (env : Env).

Lemma chain_apart base fuel s a w o w' :
  let l := getLocationId s in
  sessionForLocationId w !! l = Some s ∨
  (sessionForLocationId w !! l = None ∧ currentActionForLocationId w !! l = None) →
  of_session s a → numbered base a → apart base l w →
  chainActions env fuel l (Some a) w = (o, w') →
  untouched l w w' ∧
  (base ≤ nextId w')%nat ∧
  (sessionForLocationId w' !! l = Some s ∨
   (sessionForLocationId w' !! l = None ∧ currentActionForLocationId w' !! l = None)) ∧
  (past_the_start a = true → ∀ status, o = Fulfilled status →
   sessionForLocationId w' !! l = None ∧ currentActionForLocationId w' !! l = None).
Proof.
  intros l. revert a w o w'.
  induction fuel as [|fuel IH]; intros a w o w' Hreg Hs Hn Hap H.
  { injection H as <- <-. split; [apply untouched_refl|]. split; [apply Hap|]. by split. }
  destruct Hreg as [Hreg | [Hnone Hcur]].
  2:{ rewrite chainActions_unregistered in H by done. injection H as <- <-.
      split; [apply untouched_refl|]. split; [apply Hap|]. split; [by right | done]. }
  rewrite (chainActions_step env fuel l a s w Hreg) in H.
  pose proof (apart_alone base l a w Hap Hn) as Halone.
  destruct (Action_do env fuel a (started l a w)) as [o1 w1] eqn:D.
  pose proof (Action_do_effect env fuel a _ _ _ D) as Heffect.
  pose proof (Action_do_leaves env base fuel a (started l a w) (proj1 Hap) Hn) as [Hb1 Hn1].
  rewrite D in Hb1, Hn1. simpl in Hb1, Hn1.
  pose proof (Action_do_follows env fuel a (started l a w)) as Hfollows.
  rewrite D in Hfollows. simpl in Hfollows. specialize (λ next, Hfollows next Halone).
  assert (untouched l w w1) as Hu1.
  { apply (untouched_trans l w (started l a w)); [apply untouched_started|].
    destruct (closing a) as [g|].
    - rewrite (of_session_getSession_ s a Hs) in Heffect. exact (untouched_closes _ _ _ _ Heffect).
    - exact (untouched_preserves _ l _ _ Heffect). }
  assert (sessionForLocationId w1 !! l = Some s ∨
          (sessionForLocationId w1 !! l = None ∧ currentActionForLocationId w1 !! l = None))
    as Hreg1.
  { destruct (closing a) as [g|].
    - right. rewrite (of_session_getSession_ s a Hs) in Heffect.
      by apply closes_lookup in Heffect.
    - left. destruct Heffect as (-> & _). done. }
  assert (∀ wx,
            untouched l w wx → (base ≤ nextId wx)%nat →
            sessionForLocationId wx !! l = Some s ∨
            (sessionForLocationId wx !! l = None ∧ currentActionForLocationId wx !! l = None) →
            recovery env fuel l s wx = (o, w') →
            untouched l w w' ∧
            (base ≤ nextId w')%nat ∧
            (sessionForLocationId w' !! l = Some s ∨
             (sessionForLocationId w' !! l = None ∧ currentActionForLocationId w' !! l = None)) ∧
            (∀ status, o = Fulfilled status →
             sessionForLocationId w' !! l = None ∧ currentActionForLocationId w' !! l = None))
    as Hrecover.
  { intros wx Hux Hbx Hregx. unfold recovery, new. cbv beta iota zeta.
    pose proof (apart_untouched base l w wx Hap Hux Hbx) as Hapx.
    destruct (chainActions env fuel l _ _) as [o2 w2] eqn:C2.
    apply IH in C2 as (Hu2 & Hb2 & Hreg2 & Hcl2).
    - intros Hr.
      assert (w' = w2) as -> by (destruct o2; by injection Hr as _ <-).
      split; [|split; [done|split; [done|]]].
      + apply (untouched_trans l w wx); [done|].
        eapply untouched_trans; [|exact Hu2]. by apply untouched_same.
      + intros status ->. destruct o2 as [x| | |]; try done. by apply (Hcl2 eq_refl x).
    - exact Hregx.
    - done.
    - apply numbered_single; [done|]. simpl. lia.
    - destruct Hapx as [? Hx]. split; [simpl; lia | exact Hx]. }
  destruct o1 as [result|err|err|].
  - destruct (chainActions env fuel l result (session_clearTimers s w1)) as [o2 w2] eqn:C2.
    specialize (Hfollows result eq_refl).
    pose proof (apart_untouched base l w w1 Hap Hu1 Hb1) as Hap1.
    assert (untouched l w w2 ∧ (base ≤ nextId w2)%nat ∧
            (sessionForLocationId w2 !! l = Some s ∨
             (sessionForLocationId w2 !! l = None ∧
              currentActionForLocationId w2 !! l = None)) ∧
            (past_the_start a = true → ∀ status, o2 = Fulfilled status →
             sessionForLocationId w2 !! l = None ∧ currentActionForLocationId w2 !! l = None))
      as (Hu2 & Hb2 & Hreg2 & Hcl2).
    { destruct result as [n|].
      - apply IH in C2 as (Hu2 & Hb2 & Hreg2 & Hcl2).
        + split; [|split; [done|split; [done|]]].
          * apply (untouched_trans l w w1); [done|].
            eapply untouched_trans; [|exact Hu2]. by apply untouched_same.
          * intros Hpast. apply Hcl2.
            by destruct (follows_past_the_start s a n Hfollows Hs Hpast).
        + exact Hreg1.
        + by apply (follows_of_session s a n).
        + by apply Hn1.
        + exact Hap1.
      - assert (w2 = session_clearTimers s w1) as ->.
        { destruct fuel; [by injection C2 as _ <-|]. cbn [chainActions] in C2.
          destruct (sessionForLocationId _ !! l); by injection C2 as _ <-. }
        split; [apply (untouched_trans l w w1); [done | by apply untouched_same]|].
        split; [done|]. split; [done|].
        intros Hpast status _. simpl. destruct Hreg1 as [Hreg1|]; [|done].
        exfalso. subst l. destruct a; simpl in *; try done; subst.
        all: apply closes_lookup in Heffect as [Hx _]; congruence. }
    destruct o2 as [x|e|e|].
    + injection H as <- <-. done.
    + destruct (Hrecover w2 Hu2 Hb2 Hreg2 H) as (? & ? & ? & ?). done.
    + destruct (Hrecover w2 Hu2 Hb2 Hreg2 H) as (? & ? & ? & ?). done.
    + injection H as <- <-. done.
  - destruct (Hrecover w1 Hu1 Hb1 Hreg1 H) as (? & ? & ? & ?). done.
  - clear Hrecover.
    pose proof (endQuiz_nextId env true (Some s) (SenderOf (sid s)) notifyQuizEndedError
                  (logFailure "Error in chainActions. Closing the session." w1)) as Hb2.
    destruct (endQuiz env true (Some s) _ _ _) as [o2 w2] eqn:E.
    apply endQuiz_spec in E as (Hcl & _).
    assert (w' = w2) as -> by (destruct o2; by injection H as _ <-).
    simpl in Hb2. split; [|split; [lia|split]].
    + apply (untouched_trans l w w1); [done|].
      apply (untouched_trans l w1 (logFailure "Error in chainActions. Closing the session." w1));
        [by apply untouched_same | exact (untouched_closes _ _ _ _ Hcl)].
    + right. by apply closes_lookup in Hcl.
    + intros _ status _. by apply closes_lookup in Hcl.
  - injection H as <- <-. by split.
Qed.

End Apart.

(** X6.  A chain that is past its start can only end with the quiz closed.
    The session is registered at its own location; the action (and the
    action it waits for, if it is a wait) is of that session and is neither
    the start nor the initial question; the questions that are current at
    other locations were created before the actions of this chain, which
    [base] separates.  Then, whatever the collaborators answer and whatever
    commands arrive, here or at another location, a promise of
    [chainActions] that is fulfilled leaves the location with neither a
    session nor a current action. *)
Theorem settled_chain_has_closed_the_session env base fuel session a w status :
  let locationId := getLocationId session in
  let r := chainActions env fuel locationId (Some a) w in
  sessionForLocationId w !! locationId = Some session →
  of_session session a →
  past_the_start a = true →
  numbered base a →
  apart base locationId w →
  fst r = Fulfilled status →
  sessionForLocationId (snd r) !! locationId = None ∧
  currentActionForLocationId (snd r) !! locationId = None.
Proof.
  intros l r Hreg Hs Hpast Hn Hap Hr.
  destruct (chain_apart env base fuel session a w (fst r) (snd r) (or_introl Hreg) Hs Hn Hap)
    as (_ & _ & _ & Hcl); [subst r; by destruct (chainActions _ _ _ _ _)|].
  by apply (Hcl Hpast status).
Qed.

Lemma numbered_second_question : numbered 1 (AskQuestionAction 1 sampleSession).
Proof. by apply numbered_single. Qed.

Lemma apart_two_questions : apart 1 "channel" two_questions.
Proof.
  split; [simpl; lia|]. intros l' j s _.
  change (currentActionForLocationId two_questions)
    with ({[ "lobby" := AskQuestionAction 0 otherSession ]} : gmap LocationId Action).
  destruct (decide (l' = "lobby")) as [->|Hne].
  - rewrite lookup_singleton_eq. intros [= <- _]. lia.
  - by rewrite lookup_singleton_ne.
Qed.

Lemma settled_chain_has_closed_the_session_witness :
  let a := AskQuestionAction 1 sampleSession in
  let r := chainActions skip_next_door 9 "channel" (Some a) two_questions in
  sessionForLocationId two_questions !! "channel" = Some sampleSession ∧
  of_session sampleSession a ∧
  past_the_start a = true ∧
  numbered 1 a ∧
  apart 1 "channel" two_questions ∧
  fst r = Fulfilled None ∧
  sessionForLocationId (snd r) !! "channel" = None ∧
  currentActionForLocationId (snd r) !! "channel" = None.
Proof.
  split; [done|]. split; [done|]. split; [done|].
  split; [exact numbered_second_question|]. split; [exact apart_two_questions|].
  split; [by vm_compute|].
  exact (settled_chain_has_closed_the_session skip_next_door 1 9 sampleSession
           (AskQuestionAction 1 sampleSession) two_questions None
           eq_refl eq_refl eq_refl numbered_second_question apart_two_questions eq_refl).
Defined.



(** The quiz of the channel runs to its end while the question of the lobby
    is skipped: the lobby keeps its session and its question, whose promise
    the skip has fulfilled with the wrong answer. *)
Example quiz_beside_a_skipped_question :
  let r := chainActions skip_next_door 9 "channel" (Some (AskQuestionAction 1 sampleSession))
             two_questions in
  fst r = Fulfilled None ∧
  sessionForLocationId (snd r) !! "channel" = None ∧
  sessionForLocationId (snd r) !! "lobby" = Some otherSession ∧
  currentActionForLocationId (snd r) !! "lobby" = Some (AskQuestionAction 0 otherSession) ∧
  fulfill_ (fields_of 0 (snd r))
    = Some (FulfilledWith (Some (ShowWrongAnswerAction 3 otherSession true))).
Proof. by vm_compute. Qed.

(** A quiz of one card that nobody answers: the question, the wrong answer,
    the wait, the next question, which finds the deck empty, and the end. *)
Example quiz_of_one_card :
  rev (trace (snd (chainActions one_card 9 "channel"
                     (Some (AskQuestionAction 0 sampleSession)) registered)))
  = [ EvDo "channel" (AskQuestionAction 0 sampleSession);
      EvGetNextCard 1;
      EvPreprocess sampleCard;
      EvSetCurrentCard 1 (markPreprocessed sampleCard);
      EvCreateQuestion (markPreprocessed sampleCard);
      EvSend (SenderOf 1) (showQuestion "ri___" None);
      EvAddTimer 1 16000;
      EvAddTimer 1 8000;
      EvMarkCurrentCardUnanswered 1;
      EvClearTimers 1;
      EvDo "channel" (ShowWrongAnswerAction 1 sampleSession false);
      EvSend (SenderOf 1) (showWrongAnswer sampleCard false);
      EvClearTimers 1;
      EvDo "channel" (WaitAction 3 sampleSession 700 (AskQuestionAction 2 sampleSession));
      EvAddTimer 1 700;
      EvClearTimers 1;
      EvDo "channel" (AskQuestionAction 2 sampleSession);
      EvGetNextCard 1;
      EvClearTimers 1;
      EvDo "channel" (EndQuizNoQuestionsLeftAction 4 sampleSession);
      EvSend (SenderOf 1)
        (notifyQuizEndedNoQuestionsLeft (getGameMode sampleSession));
      EvFinalize 1 true;
      EvClearTimers 1 ].
Proof. vm_compute. reflexivity. Qed.

(** ** The hints of a question *)

Lemma count_hints_app l1 l2 : count_hints (l1 ++ l2) = (count_hints l1 + count_hints l2)%nat.
Proof. unfold count_hints. by rewrite filter_app, length_app. Qed.

Lemma count_hints_none l : forallb no_hint l = true → count_hints l = 0%nat.
Proof.
  unfold count_hints. induction l as [|e l IH]; [done|]. simpl.
  intros [He Hl]%andb_true_iff. rewrite filter_cons.
  destruct (decide (is_hint e = true)) as [H|H]; [|by apply IH].
  unfold no_hint in He. by rewrite H in He.
Qed.

Lemma hints_extends w w' :
  extends no_hint w w' → count_hints (trace w') = count_hints (trace w).
Proof. intros (new & -> & Hnew). by rewrite count_hints_app, count_hints_none. Qed.

Lemma command_event_no_hint e : is_command_event e = true → no_hint e = true.
Proof. by destruct e. Qed.

Lemma awaited_extends e w w' : awaited e w w' → no_hint e = true → extends no_hint w w'.
Proof.
  intros (_ & _ & cmds & T & Hcmds) He. exists (cmds ++ [e]). split.
  - by rewrite T, <- app_assoc.
  - rewrite forallb_app. simpl. rewrite He.
    rewrite (proj2 (forallb_forall _ _)); [done|].
    intros x Hx. apply command_event_no_hint.
    by apply (proj1 (forallb_forall _ _) Hcmds).
Qed.

Section Hints.

Context (env : Env).

Lemma suspend_no_hint w : extends no_hint w (suspend env w).
Proof.
  destruct (preserves_suspend env w) as (_ & _ & _ & H).
  eapply extends_weaken; [|exact H]. apply command_event_no_hint.
Qed.

Lemma run_command_no_hint w c : extends no_hint w (run_command env w c).
Proof.
  destruct (preserves_run_command env w c) as (_ & _ & _ & H).
  eapply extends_weaken; [|exact H]. apply command_event_no_hint.
Qed.

Lemma send_no_hint sender n w r w' : send env sender n w = (r, w') → extends no_hint w w'.
Proof.
  intros H. apply (awaited_extends (EvSend sender n)); [|done].
  exact (send_awaited env _ _ _ _ _ H).
Qed.

Lemma retry_no_hint {A} (factory : World → Reply A * World) attempts first w o w' :
  (∀ w r w', factory w = (r, w') → extends no_hint w w') →
  retry_from attempts first factory w = (o, w') → extends no_hint w w'.
Proof.
  intros Hf. revert first w. induction attempts as [|attempts IH]; intros first w H.
  - injection H as <- <-. apply extends_refl.
  - rewrite retry_from_step in H. destruct (factory w) as [r w1] eqn:F.
    apply Hf in F. destruct r as [a|e|e].
    + by injection H as <- <-.
    + destruct attempts; [by injection H as <- <-|].
      eapply extends_trans; [exact F | by eapply IH].
    + destruct first; by injection H as <- <-.
Qed.

Lemma scheduleReveal_no_hint session n w : extends no_hint w (scheduleReveal_ session n w).
Proof.
  destruct n; [apply extends_refl|]. apply extends_emit; [done | apply extends_refl].
Qed.

(** A firing of the reveal timer asks for one hint. *)
Lemma revealTimerFires_hints i session more w :
  count_hints (trace (revealTimerFires env i session more w)) = S (count_hints (trace w)).
Proof.
  unfold revealTimerFires.
  set (card := getCurrentCard env (clock w)).
  destruct (call env _ (EvCreateTextQuestionWithHint card) w) as [r w1] eqn:C.
  destruct (call_awaited env _ _ _ _ _ C) as (_ & _ & _ & cmds & T & Hcmds).
  assert (count_hints (trace w1) = S (count_hints (trace w))) as H1.
  { rewrite T, count_hints_app. rewrite count_hints_none; [done|].
    rewrite (proj2 (forallb_forall _ _)); [done|].
    intros x Hx. apply command_event_no_hint.
    by apply (proj1 (forallb_forall _ _) Hcmds). }
  assert (∀ wx, count_hints (trace (scheduleReveal_ session more wx)) = count_hints (trace wx))
    as Hs by (intros wx; apply hints_extends, scheduleReveal_no_hint).
  destruct r as [[q|]|e|e]; rewrite ?settle_trace, ?Hs; try done.
  destruct (send env _ _ w1) as [r2 w2] eqn:S.
  pose proof (hints_extends _ _ (send_no_hint _ _ _ _ _ S)) as H2.
  destruct r2; rewrite ?settle_trace, ?Hs;
    change (count_hints (trace (logFailure ?m ?x))) with (count_hints (trace x));
    congruence.
Qed.

Lemma questionOpen_hints happenings reveals i session w :
  (count_hints (trace (questionOpen env happenings reveals i session w))
   ≤ count_hints (trace w) + reveals)%nat.
Proof.
  revert reveals w. induction happenings as [|h rest IH]; intros reveals w; [simpl; lia|].
  cbn [questionOpen].
  destruct (fulfill_ (fields_of i w)) as [[]|]; try lia.
  destruct h as [c|].
  - specialize (IH reveals (run_command env w c)).
    rewrite (hints_extends _ _ (run_command_no_hint w c)) in IH. done.
  - destruct reveals as [|more]; [apply IH|].
    specialize (IH more (revealTimerFires env i session more w)).
    rewrite revealTimerFires_hints in IH. lia.
Qed.

Lemma AskQuestionAction_open_hints i session card shown w :
  (count_hints (trace (snd (AskQuestionAction_open env i session card shown w)))
   ≤ count_hints (trace w) + numberOfReveals card)%nat.
Proof.
  unfold AskQuestionAction_open.
  set (w1 := scheduleReveal_ session (numberOfReveals card) _).
  assert (count_hints (trace w1) = count_hints (trace w)) as H1.
  { subst w1. by rewrite (hints_extends _ _ (scheduleReveal_no_hint _ _ _)). }
  pose proof (questionOpen_hints (beforeDeadline env (clock w1)) (numberOfReveals card)
                i session w1) as H2.
  set (w2 := questionOpen env _ _ i session w1) in *.
  set (w3 := match fulfill_ (fields_of i w2) with
             | Some Pending => answerTimerFires i session w2
             | _ => w2
             end).
  assert (count_hints (trace w3) = count_hints (trace w2)) as H3.
  { subst w3. destruct (fulfill_ (fields_of i w2)) as [[]|]; try done.
    unfold answerTimerFires, new. cbv beta iota zeta. by rewrite settle_trace. }
  assert (snd (settlement i w3) = w3) as ->.
  { unfold settlement. by destruct (fulfill_ (fields_of i w3)) as [[]|]. }
  lia.
Qed.

End Hints.

(** X7.  A question gets at most as many hints as its card allows.  From the
    moment [AskQuestionAction.do] has a usable card until its promise is
    settled, whatever happens meanwhile, the content provider is asked for a
    hint at most [numberOfReveals] times. *)
Theorem hints_are_bounded env i session card w :
  (count_hints (trace (snd (AskQuestionAction_ask env i session card w)))
   ≤ count_hints (trace w) + numberOfReveals card)%nat.
Proof.
  unfold AskQuestionAction_ask.
  set (card' := markPreprocessed card).
  destruct (call env _ (EvCreateQuestion card') _) as [r w1] eqn:C.
  destruct (call_awaited env _ _ _ _ _ C) as [_ Ha].
  pose proof (hints_extends _ _ (awaited_extends _ _ _ Ha eq_refl)) as H1.
  change (count_hints (trace w1) = count_hints (trace w)) in H1.
  destruct r as [q|e|e]; simpl snd; try lia.
  destruct (retryPromise _ 3 w1) as [o w2] eqn:R.
  assert (count_hints (trace w2) = count_hints (trace w1)) as H2.
  { apply hints_extends. unfold retryPromise in R. eapply retry_no_hint; [|exact R].
    intros ? ? ?. apply send_no_hint. }
  destruct o as [shown|e|e|]; simpl snd; try lia.
  - pose proof (AskQuestionAction_open_hints env i session card' (Some shown) w2). simpl in *. lia.
  - pose proof (AskQuestionAction_open_hints env i session card' None
                  (logFailure "Error showing question" w2)).
    change (count_hints (trace (logFailure "Error showing question" w2)))
      with (count_hints (trace w2)) in *. simpl in *. lia.
Qed.

(** ** An answer, and no answer, to an open question *)

(** X8.  An accepted answer shows the answers.  The question of an
    [AskQuestionAction] that is the current action of its location and ready
    for answers has just been opened; the first thing to happen is an answer
    at the location, which the session accepts.  The answer reaches the
    session in lower case, [processUserInput] returns [true], and the action
    yields [ShowAnswersAction] of the session: the answer timer does not mark
    the card unanswered. *)
Theorem accepted_answer_shows_the_answers env i session card shown locationId
    userId userName input w :
  currentActionForLocationId w !! locationId = Some (AskQuestionAction i session) →
  readyForAnswers_ (fields_of i w) = true →
  (∀ t, head (beforeDeadline env t)
          = Some (Some (CmdInput locationId userId userName input))) →
  (∀ t, tryAcceptAnswer env t = true) →
  let r := AskQuestionAction_open env i session card shown w in
  fst r = Fulfilled (Some (ShowAnswersAction (nextId w) session)) ∧
  trace (snd r)
    = EvInput locationId (inr true)
      :: EvTryAcceptAnswer (sid session) userId userName (toLowerCase env input)
      :: trace (scheduleReveal_ session (numberOfReveals card)
                  (session_addTimer session (answerTimeLimitInMs card) w)).
Proof.
  intros Hc Hready Hinput Haccept. unfold AskQuestionAction_open.
  set (w1 := scheduleReveal_ session (numberOfReveals card)
               (session_addTimer session (answerTimeLimitInMs card)
                  (new_promise i (set_shownQuestionId i shown w)))).
  assert (fulfill_ (fields_of i w1) = Some Pending) as Hp.
  { subst w1. rewrite fields_of_scheduleReveal_. apply fulfill_set_promise. }
  assert (readyForAnswers_ (fields_of i w1) = true) as Hr1.
  { subst w1. rewrite fields_of_scheduleReveal_.
    unfold new_promise, set_promise, set_shownQuestionId, fields_of. simpl.
    rewrite lookup_insert_eq. simpl. rewrite lookup_insert_eq. simpl. exact Hready. }
  assert (currentActionForLocationId w1 !! locationId = Some (AskQuestionAction i session))
    as Hc1 by (subst w1; by rewrite currentAction_scheduleReveal_).
  assert (nextId w1 = nextId w) as Hn by (subst w1; by rewrite nextId_scheduleReveal_).
  assert (trace w1 = trace (scheduleReveal_ session (numberOfReveals card)
                              (session_addTimer session (answerTimeLimitInMs card) w)))
    as Ht by (subst w1; by destruct (numberOfReveals card)).
  specialize (Hinput (clock w1)).
  destruct (beforeDeadline env (clock w1)) as [|h rest]; [done|].
  injection Hinput as ->. cbn [questionOpen]. rewrite Hp.
  set (w2 := run_command env w1 (CmdInput locationId userId userName input)).
  assert (fulfill_ (fields_of i w2)
            = Some (FulfilledWith (Some (ShowAnswersAction (nextId w) session))) ∧
          trace w2 = EvInput locationId (inr true)
                     :: EvTryAcceptAnswer (sid session) userId userName (toLowerCase env input)
                     :: trace w1) as [Hp2 Ht2].
  { subst w2. simpl. unfold processUserInput, processUserInput_. rewrite Hc1. simpl.
    unfold AskQuestionAction_tryAcceptUserInput, session_tryAcceptAnswer, new.
    rewrite Hr1, Haccept. simpl.
    change (fields_of i (set_nextId ?n (emit ?e w1))) with (fields_of i w1).
    rewrite Hp. simpl. rewrite settle_trace. simpl. split; [|done].
    change (fields_of i (emit ?e ?x)) with (fields_of i x).
    rewrite fulfill_settle_pending by done. by rewrite Hn. }
  assert (questionOpen env rest (numberOfReveals card) i session w2 = w2) as ->.
  { destruct rest; simpl; [done|]. by rewrite Hp2. }
  rewrite Hp2. unfold settlement. rewrite Hp2. simpl. split; [done|]. by rewrite Ht2, Ht.
Qed.

Lemma accepted_answer_shows_the_answers_witness :
  let a := AskQuestionAction 0 sampleSession in
  let r := AskQuestionAction_open bob_answers 0 sampleSession sampleCard (Some 7%nat)
             question_ready in
  currentActionForLocationId question_ready !! "channel" = Some a ∧
  readyForAnswers_ (fields_of 0 question_ready) = true ∧
  (∀ t, head (beforeDeadline bob_answers t)
          = Some (Some (CmdInput "channel" "bob" "Bob" "ringo"))) ∧
  (∀ t, tryAcceptAnswer bob_answers t = true) ∧
  fst r = Fulfilled (Some (ShowAnswersAction 1 sampleSession)) ∧
  trace (snd r)
    = [ EvInput "channel" (inr true);
        EvTryAcceptAnswer 1 "bob" "Bob" "ringo";
        EvAddTimer 1 8000;
        EvAddTimer 1 16000;
        EvDo "channel" a ].
Proof.
  split; [done|]. split; [done|]. split; [done|]. split; [done|].
  exact (accepted_answer_shows_the_answers bob_answers 0 sampleSession sampleCard
           (Some 7%nat) "channel" "bob" "Bob" "ringo" question_ready
           eq_refl eq_refl (λ _, eq_refl) (λ _, eq_refl)).
Defined.

Section Quiet.

Context (env : Env).
Hypothesis Hquiet : quiet env.
Hypothesis Hhints : ∀ t, ∃ q, createTextQuestionWithHint env t = Ok q.
Hypothesis Hdelivery : ∀ t e, delivery env t ≠ Raise e.

Lemma quiet_suspend w : suspend env w = w.
Proof. unfold suspend. by rewrite (proj1 Hquiet). Qed.

Lemma quiet_revealTimerFires i session more w :
  fields_of i (revealTimerFires env i session more w) = fields_of i w ∧
  nextId (revealTimerFires env i session more w) = nextId w.
Proof.
  unfold revealTimerFires, call, send, post.
  destruct (Hhints (clock w)) as [q ->]. rewrite quiet_suspend.
  destruct q as [q|]; [|by rewrite fields_of_scheduleReveal_, nextId_scheduleReveal_].
  match goal with |- context [delivery env ?t] =>
    pose proof (Hdelivery t) as Hd; destruct (delivery env t) as [m|e|e]
  end.
  - by rewrite quiet_suspend, fields_of_scheduleReveal_, nextId_scheduleReveal_.
  - by rewrite quiet_suspend, fields_of_scheduleReveal_, nextId_scheduleReveal_.
  - by destruct (Hd e).
Qed.

Lemma quiet_questionOpen happenings reveals i session w :
  Forall (λ h, h = None) happenings →
  fields_of i (questionOpen env happenings reveals i session w) = fields_of i w ∧
  nextId (questionOpen env happenings reveals i session w) = nextId w.
Proof.
  intros Hh. revert reveals w. induction Hh as [|h rest -> _ IH]; intros reveals w; [done|].
  cbn [questionOpen]. destruct (fulfill_ (fields_of i w)) as [[]|]; try done.
  destruct reveals as [|more]; [apply IH|].
  destruct (IH more (revealTimerFires env i session more w)) as [-> ->].
  apply quiet_revealTimerFires.
Qed.

Lemma quiet_open i session card shown w :
  let r := AskQuestionAction_open env i session card shown w in
  fst r = Fulfilled (Some (ShowWrongAnswerAction (nextId w) session false)) ∧
  head (trace (snd r)) = Some (EvMarkCurrentCardUnanswered (sid session)).
Proof.
  unfold AskQuestionAction_open.
  set (w1 := scheduleReveal_ session (numberOfReveals card) _).
  assert (fulfill_ (fields_of i w1) = Some Pending) as Hp.
  { subst w1. rewrite fields_of_scheduleReveal_. apply fulfill_set_promise. }
  assert (nextId w1 = nextId w) as Hn by (subst w1; by rewrite nextId_scheduleReveal_).
  destruct (quiet_questionOpen (beforeDeadline env (clock w1)) (numberOfReveals card)
              i session w1 (proj2 Hquiet (clock w1))) as [Hf2 Hn2].
  set (w2 := questionOpen env _ _ i session w1) in *.
  rewrite Hf2, Hp. unfold answerTimerFires, new. cbv beta iota zeta.
  unfold settlement.
  rewrite fulfill_settle_pending
    by (change (fields_of i (set_nextId ?n (emit ?e w2))) with (fields_of i w2); congruence).
  simpl. rewrite settle_trace. simpl. split; [|done]. by rewrite Hn2, Hn.
Qed.

End Quiet.

(** X9.  A question that nobody reacts to times out.  No command arrives,
    the reveal timer may fire any number of times before the deadline, the
    content provider produces every hint and the message sender does not
    throw.  Then the answer timer marks the current card unanswered and the
    action yields [ShowWrongAnswerAction(session, false)]. *)
Theorem unanswered_question_times_out env i session card shown w :
  quiet env →
  (∀ t, ∃ q, createTextQuestionWithHint env t = Ok q) →
  (∀ t e, delivery env t ≠ Raise e) →
  let r := AskQuestionAction_open env i session card shown w in
  fst r = Fulfilled (Some (ShowWrongAnswerAction (nextId w) session false)) ∧
  head (trace (snd r)) = Some (EvMarkCurrentCardUnanswered (sid session)).
Proof. intros Hquiet Hhints Hdelivery. by apply quiet_open. Qed.

Lemma quiet_two_reveals : quiet two_reveals.
Proof. split; [done|]. intros t. by repeat constructor. Qed.

Lemma two_reveals_delivers t e : delivery two_reveals t ≠ Raise e.
Proof. done. Qed.

Lemma unanswered_question_times_out_witness :
  let r := AskQuestionAction_open two_reveals 0 sampleSession sampleCard (Some 7%nat)
             question_ready in
  quiet two_reveals ∧
  (∀ t, ∃ q, createTextQuestionWithHint two_reveals t = Ok q) ∧
  (∀ t e, delivery two_reveals t ≠ Raise e) ∧
  fst r = Fulfilled (Some (ShowWrongAnswerAction 1 sampleSession false)) ∧
  head (trace (snd r)) = Some (EvMarkCurrentCardUnanswered 1).
Proof.
  split; [exact quiet_two_reveals|].
  split; [intros t; by eexists|]. split; [done|].
  exact (unanswered_question_times_out two_reveals 0 sampleSession sampleCard (Some 7%nat)
           question_ready quiet_two_reveals (λ _, ex_intro _ _ eq_refl)
           two_reveals_delivers).
Defined.

(** The two hints of the sample card, each an edit of the question shown,
    and then the timeout. *)
Example question_with_two_reveals :
  rev (trace (snd (AskQuestionAction_open two_reveals 0 sampleSession sampleCard
                     (Some 7%nat) question_ready)))
  = [ EvDo "channel" (AskQuestionAction 0 sampleSession);
      EvAddTimer 1 16000;
      EvAddTimer 1 8000;
      EvCreateTextQuestionWithHint sampleCard;
      EvSend (SenderOf 1) (showQuestion "rin__" (Some 7%nat));
      EvAddTimer 1 8000;
      EvCreateTextQuestionWithHint sampleCard;
      EvSend (SenderOf 1) (showQuestion "rin__" (Some 7%nat));
      EvMarkCurrentCardUnanswered 1 ].
Proof. vm_compute. reflexivity. Qed.

(** ** Deliveries that fail *)

(** X10.  A delivery that fails does not fail the action.  A start, a wait,
    the answers and the wrong answer ask nothing but the message sender and
    the timers.  Unless the message sender throws while it is called, each of
    them is fulfilled with a next action of its class, whether its delivery
    is fulfilled or rejected, and whatever skips and answers arrive
    meanwhile.  (A stop command, which settles the promise of a wait or of
    the answers with no action, is not among the commands that arrive
    here.) *)
Theorem rejected_deliveries_do_not_fail_an_action env fuel a w :
  asks_only_the_sender a = true →
  alone a w →
  (∀ t e, delivery env t ≠ Raise e) →
  ∃ next, fst (Action_do env fuel a w) = Fulfilled (Some next) ∧ follows a next.
Proof.
  intros Hclass Ha Hdelivery.
  assert (∃ next, fst (Action_do env fuel a w) = Fulfilled (Some next)) as [next Hnext].
  2:{ exists next. split; [done|]. exact (Action_do_follows env fuel a w _ Ha Hnext). }
  destruct a as [| | | |i s|i s skipped| | |i s|i s interval n|]; try done; cbn [Action_do].
  - (* ShowAnswersAction *)
    unfold ShowAnswersAction_do.
    set (w1 := session_addTimer s _ (new_promise i w)).
    assert (fulfill_ (fields_of i w1) = Some Pending) as Hp by apply fulfill_set_promise.
    assert (out_of_reach i w1) as Hout.
    { apply (alone_out_of_reach (ShowAnswersAction i s)); [by apply (alone_same _ w)|done]. }
    destruct (suspend_out_of_reach env i w1 Hout) as [Hf _].
    rewrite Hf, Hp. unfold showAnswersTimerFires, post.
    set (w2 := emit (EvMarkCurrentCardAnswered (sid s)) (suspend env w1)).
    assert (fulfill_ (fields_of i w2) = Some Pending) as Hp2.
    { change (fields_of i w2) with (fields_of i (suspend env w1)). congruence. }
    pose proof (Hdelivery (clock w2)) as Hd. unfold settlement.
    destruct (delivery env (clock w2)) as [m|e|e]; [| |by destruct (Hd e)].
    all: destruct (checkForWin env _); unfold new_wait_then_ask, new; cbv beta iota zeta;
      rewrite fulfill_settle_pending by done; by eexists.
  - (* ShowWrongAnswerAction *)
    unfold ShowWrongAnswerAction_do, send, post.
    pose proof (Hdelivery (clock w)) as Hd.
    destruct (delivery env (clock w)) as [m|e|e]; [| |by destruct (Hd e)].
    all: destruct (checkTooManyWrongAnswers env _); unfold new_wait_then_ask, new;
      cbv beta iota zeta; by eexists.
  - (* StartAction *)
    unfold StartAction_do, send, post.
    pose proof (Hdelivery (clock w)) as Hd.
    destruct (delivery env (clock w)) as [m|e|e]; [| |by destruct (Hd e)].
    all: unfold new; cbv beta iota zeta; by eexists.
  - (* WaitAction *)
    exists n. apply WaitAction_do_fulfils.
    by apply (alone_out_of_reach (WaitAction i s interval n)).
Qed.

Lemma alone_registered a : alone a registered.
Proof.
  intros l j s. change (currentActionForLocationId registered) with (∅ : gmap LocationId Action).
  by rewrite lookup_empty.
Qed.

Lemma offline_never_throws ambient t e : delivery (offline ambient) t ≠ Raise e.
Proof. done. Qed.

Lemma rejected_deliveries_do_not_fail_an_action_witness :
  let a := ShowWrongAnswerAction 0 sampleSession true in
  asks_only_the_sender a = true ∧
  alone a registered ∧
  (∀ t e, delivery (offline false) t ≠ Raise e) ∧
  ∃ next, fst (Action_do (offline false) 0 a registered) = Fulfilled (Some next) ∧
          follows a next.
Proof.
  split; [done|]. split; [apply alone_registered|]. split; [apply offline_never_throws|].
  exact (rejected_deliveries_do_not_fail_an_action (offline false) 0
           (ShowWrongAnswerAction 0 sampleSession true) registered eq_refl
           (alone_registered _) (offline_never_throws false)).
Defined.

(** ** Saving *)

(** X11.  A save ends the chain, and nobody hears of a save that failed.
    [SaveAction.do] closes the session, with [gameOver = false], before it
    saves.  When the driver runs it for a session that is registered at its
    own location, the chain ends there with [undefined] and the location is
    free, whether the save succeeded or not: the [EndQuizForErrorAction] that
    [do] returns for a failure finds no session at the location, so that no
    End-Quiz action runs. *)
Theorem save_ends_the_chain env fuel i session savingUserId w :
  let locationId := getLocationId session in
  let r := chainActions env (S (S fuel)) locationId
             (Some (SaveAction i session savingUserId)) w in
  sessionForLocationId w !! locationId = Some session →
  fst r = Fulfilled None ∧
  sessionForLocationId (snd r) !! locationId = None ∧
  currentActionForLocationId (snd r) !! locationId = None ∧
  EvFinalize (sid session) false ∈ news w (snd r) ∧
  ran_end_quiz (news w (snd r)) = false.
Proof.
  intros l r Hreg. subst r.
  rewrite (chainActions_step env (S fuel) l _ session w Hreg). cbn [Action_do].
  destruct (SaveAction_do env session savingUserId _) as [o w1] eqn:D.
  apply SaveAction_do_spec in D as ([next ->] & Hcl).
  pose proof (closes_lookup _ _ _ _ Hcl) as [Hs Hc].
  destruct Hcl as (_ & _ & _ & new & T & Hnew & Hfin).
  rewrite chainActions_unregistered by done. simpl.
  split; [done|]. split; [done|]. split; [done|].
  rewrite (news_app w _ (EvClearTimers (sid session) :: new
                           ++ [EvDo l (SaveAction i session savingUserId)]))
    by (simpl; rewrite T; simpl; by rewrite <- app_assoc).
  split.
  - right. apply elem_of_app. by left.
  - simpl. rewrite ran_end_quiz_app. by rewrite ran_end_quiz_actions.
Qed.

Lemma save_ends_the_chain_witness :
  let r := chainActions disk_full 2 "channel" (Some (SaveAction 0 sampleSession "ann"))
             registered in
  sessionForLocationId registered !! "channel" = Some sampleSession ∧
  fst r = Fulfilled None ∧
  sessionForLocationId (snd r) !! "channel" = None ∧
  currentActionForLocationId (snd r) !! "channel" = None ∧
  EvFinalize 1 false ∈ news registered (snd r) ∧
  ran_end_quiz (news registered (snd r)) = false.
Proof.
  split; [done|].
  exact (save_ends_the_chain disk_full 0 0 sampleSession "ann" registered eq_refl).
Defined.

(** The save fails: the failure is logged, and the chain ends. *)
Example failed_save :
  rev (trace (snd (chainActions disk_full 5 "channel"
                     (Some (SaveAction 0 sampleSession "ann")) registered)))
  = [ EvDo "channel" (SaveAction 0 sampleSession "ann");
      EvFinalize 1 false;
      EvCreateSaveData 1;
      EvSave "ann";
      EvLogFailure "Error saving";
      EvClearTimers 1 ].
Proof. vm_compute. reflexivity. Qed.

(** ** The promise of a chain *)

(** X12.  The faults of a chain are those of the completion of its session.
    [startSession] throws only the assertion, on a location that is in
    progress, before it has changed anything.  The driver does not throw, and
    the promise of a chain, so also the promise that [startSession] returns,
    is rejected only with a fault with which [finalize] has rejected: every
    other failure of an action or of a collaborator is reported through the
    status of the chain. *)
Theorem chain_faults_are_faults_of_finalize env fuel session locationId action w :
  match fst (startSession env fuel session locationId w) with
  | Fulfilled _ | Unsettled => True
  | Thrown e =>
      e = AssertionError "Already a session in progress there." ∧
      isSessionInProgressAtLocation locationId w = true ∧
      snd (startSession env fuel session locationId w) = w
  | Rejected e => ∃ t, finalize env t = Some e
  end ∧
  match fst (chainActions env fuel locationId action w) with
  | Fulfilled _ | Unsettled => True
  | Rejected e => ∃ t, finalize env t = Some e
  | Thrown _ => False
  end.
Proof.
  split; [|apply chainActions_faults].
  unfold startSession, verifySessionNotInProgress, setSessionForLocationId, assert.
  destruct (isSessionInProgressAtLocation locationId w); [done|].
  simpl negb. cbv iota. unfold new. cbv beta iota zeta.
  match goal with |- context [chainActions env fuel locationId ?a ?x] =>
    pose proof (chainActions_faults env fuel locationId a x) as H;
    by destruct (chainActions env fuel locationId a x) as [[] ?]
  end.
Qed.

(** A chain that is rejected: the message sender throws when the start
    notifies, the driver ends the quiz, and the completion of the session is
    rejected. *)
Example rejected_chain :
  let env := with_delivery (λ _, Raise (Fault "socket")) (unreliable false) in
  fst (startSession env 3 sampleSession "channel" initial_world) = Rejected (Fault "storage") ∧
  finalize env 5 = Some (Fault "storage").
Proof. by vm_compute. Qed.

(** ** Between ready and open *)

(** X13.  An answer that is accepted before the question is open is lost.
    Once an [AskQuestionAction] is ready for answers and until it has
    created its promise, an answer reaches the session, in lower case; when
    the session accepts it, [processUserInput] throws the TypeError of
    calling [undefined] to its caller, and the action is left as it was,
    with no promise to fulfil. *)
Theorem accepted_answer_before_the_question_is_open env locationId i session
    userId userName input w :
  currentActionForLocationId w !! locationId = Some (AskQuestionAction i session) →
  readyForAnswers_ (fields_of i w) = true →
  fulfill_ (fields_of i w) = None →
  tryAcceptAnswer env (clock w) = true →
  let r := processUserInput env locationId userId userName input w in
  let thrown := TypeError "this.fulfill_ is not a function" in
  fst r = inl thrown ∧
  trace (snd r)
    = EvInput locationId (inl thrown)
      :: EvTryAcceptAnswer (sid session) userId userName (toLowerCase env input)
      :: trace w ∧
  fields (snd r) = fields w.
Proof.
  intros Hc Hr Hf Ha. unfold processUserInput, processUserInput_. rewrite Hc. simpl.
  unfold AskQuestionAction_tryAcceptUserInput, session_tryAcceptAnswer, new.
  rewrite Hr, Ha. simpl.
  change (fields_of i (set_nextId ?n (emit ?e w))) with (fields_of i w).
  by rewrite Hf.
Qed.

Lemma accepted_answer_before_the_question_is_open_witness :
  let a := AskQuestionAction 0 sampleSession in
  let r := processUserInput bob_answers "channel" "bob" "Bob" "ringo" question_ready in
  currentActionForLocationId question_ready !! "channel" = Some a ∧
  readyForAnswers_ (fields_of 0 question_ready) = true ∧
  fulfill_ (fields_of 0 question_ready) = None ∧
  tryAcceptAnswer bob_answers (clock question_ready) = true ∧
  fst r = inl (TypeError "this.fulfill_ is not a function") ∧
  trace (snd r)
    = [ EvInput "channel" (inl (TypeError "this.fulfill_ is not a function"));
        EvTryAcceptAnswer 1 "bob" "Bob" "ringo";
        EvDo "channel" a ] ∧
  fields (snd r) = fields question_ready.
Proof.
  split; [done|]. split; [done|]. split; [done|]. split; [done|].
  exact (accepted_answer_before_the_question_is_open bob_answers "channel" 0 sampleSession
           "bob" "Bob" "ringo" question_ready eq_refl eq_refl eq_refl eq_refl).
Defined.

(** In a chain: the answer arrives while the question is being created.  The
    session has accepted it, the command has thrown, and the question times
    out as if nobody had answered. *)
Example answer_while_the_question_is_created :
  let a := AskQuestionAction 0 sampleSession in
  let r := Action_do answer_too_early 1 a (started "channel" a registered) in
  fst r = Fulfilled (Some (ShowWrongAnswerAction 2 sampleSession false)) ∧
  EvInput "channel" (inl (TypeError "this.fulfill_ is not a function")) ∈ trace (snd r) ∧
  fulfill_ (fields_of 0 (snd r))
    = Some (FulfilledWith (Some (ShowWrongAnswerAction 2 sampleSession false))).
Proof. vm_compute. split; [done|]. split; [|done]. set_solver. Qed.

(** ** Answers *)

(** X14.  What [processUserInput] does with an answer.  It never changes the
    registry.  Either it returns [false] and leaves nothing but the record of
    that, or the current action of the location takes answers (a question
    that is ready, or answers that are shown) and its session was asked once,
    with the input in lower case: then the command returns the verdict of the
    session, or throws when the session accepted and the action is a question
    that is not open yet. *)
Theorem processUserInput_asks_the_session env locationId userId userName input w :
  let r := processUserInput env locationId userId userName input w in
  sessionForLocationId (snd r) = sessionForLocationId w ∧
  currentActionForLocationId (snd r) = currentActionForLocationId w ∧
  (r = (inr false, emit (EvInput locationId (inr false)) w) ∨
   ∃ a, currentActionForLocationId w !! locationId = Some a ∧
        has_tryAcceptUserInput a = true ∧
        news w (snd r)
          = [ EvInput locationId (fst r);
              EvTryAcceptAnswer (sid (getSession_ a)) userId userName
                (toLowerCase env input) ] ∧
        match fst r with
        | inr accepted => accepted = tryAcceptAnswer env (clock w)
        | inl _ => tryAcceptAnswer env (clock w) = true
        end).
Proof.
  intros r.
  destruct (preserves_run_command env w (CmdInput locationId userId userName input))
    as (Hs & Hc & _).
  split; [exact Hs|]. split; [exact Hc|]. clear Hs Hc. subst r.
  unfold processUserInput, processUserInput_.
  destruct (currentActionForLocationId w !! locationId) as [a|] eqn:Hc; [|by left].
  destruct a as [| | | |i s| |i s| | | |]; simpl; try (by left).
  - right. exists (ShowAnswersAction i s). split; [done|]. split; [done|].
    split; [|done]. by apply news_app.
  - unfold AskQuestionAction_tryAcceptUserInput.
    destruct (readyForAnswers_ (fields_of i w)); [|by left]. simpl.
    right. exists (AskQuestionAction i s). split; [done|]. split; [done|].
    destruct (tryAcceptAnswer env (clock w)); unfold new; simpl.
    + match goal with |- context [fulfill_ ?f] => destruct (fulfill_ f) end; simpl.
      * split; [|done]. apply news_app. simpl. by rewrite settle_trace.
      * split; [|done]. by apply news_app.
    + split; [|done]. by apply news_app.
Qed.

(** ** The chain of [startSession] *)

(** X15.  Every started chain stalls.  [startSession] at a location that is
    not in progress, in any environment in which the message sender does not
    throw and the word source answers, whatever skips and answers arrive
    meanwhile (no stop command does) and whatever the fuel beyond four
    steps: the promise is fulfilled with [undefined] after
    [AskInitialQuestionAction], no End-Quiz action has run, the location keeps
    the session and that action, and every later [startSession] at the
    location throws the assertion. *)
Theorem every_started_chain_stalls env fuel session locationId w :
  isSessionInProgressAtLocation locationId w = false →
  ids_below w →
  (∀ t e, delivery env t ≠ Raise e) →
  (∀ t, getRandomWord env t = None) →
  let r := startSession env (4 + fuel) session locationId w in
  fst r = Fulfilled None ∧
  sessionForLocationId (snd r) !! locationId = Some session ∧
  (∃ i, currentActionForLocationId (snd r) !! locationId
          = Some (AskInitialQuestionAction i session)) ∧
  ran_end_quiz (news w (snd r)) = false ∧
  ∀ fuel' session',
    startSession env fuel' session' locationId (snd r)
      = (Thrown (AssertionError "Already a session in progress there."), snd r).
Proof.
  intros Hfree Hids Hdelivery Hword r.
  destruct (started_chain_always_stalls env fuel session locationId w Hfree Hids
              Hdelivery Hword) as (H1 & H2 & H3 & H4).
  fold r in H1, H2, H3, H4. repeat (split; [done|]).
  intros fuel' session'.
  unfold startSession, verifySessionNotInProgress, assert, isSessionInProgressAtLocation, get.
  by rewrite H2.
Qed.

Lemma ids_below_initial_world : ids_below initial_world.
Proof.
  intros l a.
  change (currentActionForLocationId initial_world) with (∅ : gmap LocationId Action).
  by rewrite lookup_empty.
Qed.

Lemma calm_never_throws ambient t e : delivery (calm ambient) t ≠ Raise e.
Proof. done. Qed.

Lemma every_started_chain_stalls_witness :
  let r := startSession (calm false) 4 sampleSession "channel" initial_world in
  isSessionInProgressAtLocation "channel" initial_world = false ∧
  ids_below initial_world ∧
  (∀ t e, delivery (calm false) t ≠ Raise e) ∧
  (∀ t, getRandomWord (calm false) t = None) ∧
  fst r = Fulfilled None ∧
  sessionForLocationId (snd r) !! "channel" = Some sampleSession ∧
  (∃ i, currentActionForLocationId (snd r) !! "channel"
          = Some (AskInitialQuestionAction i sampleSession)) ∧
  ran_end_quiz (news initial_world (snd r)) = false ∧
  ∀ fuel' session',
    startSession (calm false) fuel' session' "channel" (snd r)
      = (Thrown (AssertionError "Already a session in progress there."), snd r).
Proof.
  split; [done|]. split; [exact ids_below_initial_world|].
  split; [apply calm_never_throws|]. split; [done|].
  exact (every_started_chain_stalls (calm false) 0 sampleSession "channel" initial_world
           eq_refl ids_below_initial_world (calm_never_throws false) (λ _, eq_refl)).
Defined.

(** * The help command *)

Section HelpLookup.

Context {CodeUnit : Type} `{EqDecision CodeUnit}.
Context {Command : Type} (aliases : Command → list (list CodeUnit)).

Lemma Array_indexOf_from_spec index array (element : list CodeUnit) :
  (Help.Array_indexOf_from index array element = -1 ∧ element ∉ array) ∨
  ∃ i, Help.Array_indexOf_from index array element = index + Z.of_nat i ∧
       array !! i = Some element ∧
       ∀ j, (j < i)%nat → array !! j ≠ Some element.
Proof.
  revert index. induction array as [|x rest IH]; intros index; simpl.
  - left. split; [done|]. apply not_elem_of_nil.
  - destruct (decide (x = element)) as [->|Hne].
    + right. exists 0%nat. split; [lia|]. split; [done|]. lia.
    + destruct (IH (index + 1)) as [[E Hnot] | (i & E & Hi & Hfirst)].
      * left. split; [done|]. by apply not_elem_of_cons.
      * right. exists (S i). split; [lia|]. split; [done|].
        intros [|j] Hj; simpl; [congruence|]. apply Hfirst. lia.
Qed.

Lemma indexOfAliasInList__spec remaining (list : list (list CodeUnit)) :
  let index := Help.indexOfAliasInList_ remaining list in
  if decide (index = -1) then ∀ alias, alias ∈ remaining → alias ∉ list
  else
    ∃ before alias after i,
      remaining = before ++ alias :: after ∧
      (∀ earlier, earlier ∈ before → earlier ∉ list) ∧
      index = Z.of_nat i ∧
      list !! i = Some alias ∧
      ∀ j, (j < i)%nat → list !! j ≠ Some alias.
Proof.
  induction remaining as [|alias rest IH]; simpl.
  - intros alias H. by apply elem_of_nil in H.
  - cbv zeta in IH. unfold Help.Array_indexOf.
    destruct (Array_indexOf_from_spec 0 list alias) as [[-> Hnot] | (i & -> & Hi & Hfirst)].
    + simpl. destruct (decide (Help.indexOfAliasInList_ rest list = -1)) as [E|E].
      * intros a [->|Ha]%elem_of_cons; [done | by apply IH].
      * destruct IH as (before & a & after & i & -> & Hbefore & Hi & Hl & Hfirst).
        exists (alias :: before), a, after, i. repeat split; try done.
        intros earlier [->|?]%elem_of_cons; [done | by apply Hbefore].
    + destruct (Z.eqb_spec (0 + Z.of_nat i) (-1)) as [?|_]; [lia|]. simpl.
      rewrite decide_False by lia.
      exists [], alias, rest, i. split; [done|]. split.
      { intros earlier H. by apply elem_of_nil in H. }
      split; [lia|]. by split.
Qed.

(** X16.  [indexOfAliasInList] finds the first alias that is listed.  It
    returns -1 exactly when no alias of the command is in the list.
    Otherwise it returns the first position in the list of the first alias,
    in the order of the aliases, that the list holds: the aliases before that
    one are not in the list, whatever the positions of the aliases after
    it. *)
Theorem indexOfAliasInList_finds_the_first_listed_alias command
    (list : list (list CodeUnit)) :
  let index := Help.indexOfAliasInList aliases command list in
  if decide (index = -1) then ∀ alias, alias ∈ aliases command → alias ∉ list
  else
    ∃ before alias after i,
      aliases command = before ++ alias :: after ∧
      (∀ earlier, earlier ∈ before → earlier ∉ list) ∧
      index = Z.of_nat i ∧
      list !! i = Some alias ∧
      ∀ j, (j < i)%nat → list !! j ≠ Some alias.
Proof. apply indexOfAliasInList__spec. Qed.

Lemma occurs_in_nil (t : list CodeUnit) : Help.occurs_in t [] → t = [].
Proof.
  intros (before & after & H). symmetry in H.
  apply app_eq_nil in H as [_ H]. by apply app_eq_nil in H as [? _].
Qed.

Lemma occurs_in_cons (t : list CodeUnit) x s :
  Help.occurs_in t (x :: s) ↔ t `prefix_of` (x :: s) ∨ Help.occurs_in t s.
Proof.
  split.
  - intros ([|y before] & after & H).
    + left. by exists after.
    + right. injection H as -> ->. by exists before, after.
  - intros [[after ->] | (before & after & ->)].
    + by exists [], after.
    + by exists (x :: before), after.
Qed.

Lemma String_indexOf_from_spec position (s t : list CodeUnit) :
  0 ≤ position →
  (Help.String_indexOf_from position s t = -1 ∧ ¬ Help.occurs_in t s) ∨
  (position ≤ Help.String_indexOf_from position s t ∧ Help.occurs_in t s).
Proof.
  revert position. induction s as [|x s IH]; intros position Hp; simpl.
  - destruct (decide (t `prefix_of` [])) as [H|H].
    + rewrite bool_decide_eq_true_2 by done. right. split; [lia|].
      destruct H as [after H]. by exists [], after.
    + rewrite bool_decide_eq_false_2 by done. left. split; [done|].
      intros ->%occurs_in_nil. apply H. by exists [].
  - destruct (decide (t `prefix_of` (x :: s))) as [H|H].
    + rewrite bool_decide_eq_true_2 by done. right. split; [lia|].
      apply occurs_in_cons. by left.
    + rewrite bool_decide_eq_false_2 by done.
      destruct (IH (position + 1)) as [[E Hnot] | [Hle Hocc]]; [lia| |].
      * left. split; [done|]. intros [?|?]%occurs_in_cons; done.
      * right. split; [lia|]. apply occurs_in_cons. by right.
Qed.

Lemma String_indexOf_occurs (s t : list CodeUnit) :
  negb (Help.String_indexOf s t =? -1) = true ↔ Help.occurs_in t s.
Proof.
  unfold Help.String_indexOf.
  destruct (String_indexOf_from_spec 0 s t) as [[-> Hnot] | [Hle Hocc]]; [lia| |].
  - simpl. split; [done|]. intros H. by destruct Hnot.
  - split; [done|]. intros _. apply negb_true_iff, Z.eqb_neq. lia.
Qed.

End HelpLookup.

Section HelpCloseMatch.

Context {CodeUnit : Type} `{EqDecision CodeUnit}.
Context {Command : Type} (aliases : Command → list (list CodeUnit)).

Variable text : list CodeUnit.
Hypothesis Htext : text ≠ [].

Lemma occurs_in_truthy (a : list CodeUnit) : Help.occurs_in text a → Help.truthy a = true.
Proof. destruct a; [|done]. by intros ?%occurs_in_nil. Qed.

Lemma considerAlias_shortest seen current (c : Command) a :
  Help.shortest_match text seen current →
  Help.shortest_match text (seen ++ [(c, a)]) (Help.considerAlias text c current a).
Proof.
  intros Hcur. unfold Help.considerAlias.
  destruct (negb (Help.String_indexOf a text =? -1)) eqn:Hocc.
  - apply String_indexOf_occurs in Hocc.
    destruct current as [[c0 a0]|]; simpl in Hcur.
    + destruct Hcur as (Hocc0 & before & after & -> & Hbefore & Hafter).
      rewrite (occurs_in_truthy a0 Hocc0). simpl.
      destruct (length a <? length a0)%nat eqn:Hlt.
      * apply Nat.ltb_lt in Hlt. split; [done|].
        exists (before ++ (c0, a0) :: after), []. split; [done|]. split.
        -- intros p [Hp|[->|Hp]%elem_of_cons]%elem_of_app Hm; simpl.
           ++ specialize (Hbefore p Hp Hm). lia.
           ++ done.
           ++ specialize (Hafter p Hp Hm). lia.
        -- intros p Hp. by apply elem_of_nil in Hp.
      * apply Nat.ltb_ge in Hlt. split; [done|].
        exists before, (after ++ [(c, a)]). split; [by rewrite <- app_assoc|]. split; [done|].
        intros p [Hp|Hp%list_elem_of_singleton]%elem_of_app Hm; [by apply Hafter | by subst].
    + split; [done|]. exists seen, []. split; [done|]. split.
      * intros p Hp Hm. by destruct (Hcur p Hp).
      * intros p Hp. by apply elem_of_nil in Hp.
  - assert (¬ Help.occurs_in text a) as Hnot.
    { intros H. apply String_indexOf_occurs in H. congruence. }
    destruct current as [[c0 a0]|]; simpl in *.
    + destruct Hcur as (Hocc0 & before & after & -> & Hbefore & Hafter).
      split; [done|]. exists before, (after ++ [(c, a)]).
      split; [by rewrite <- app_assoc|]. split; [done|].
      intros p [Hp|Hp%list_elem_of_singleton]%elem_of_app Hm; [by apply Hafter | by subst].
    + intros p [Hp|Hp%list_elem_of_singleton]%elem_of_app; [by apply Hcur | by subst].
Qed.

Lemma considerAliases_shortest seen current (c : Command) remaining :
  Help.shortest_match text seen current →
  Help.shortest_match text (seen ++ map (pair c) remaining)
    (fold_left (Help.considerAlias text c) remaining current).
Proof.
  revert seen current. induction remaining as [|a rest IH]; intros seen current Hcur; simpl.
  - by rewrite app_nil_r.
  - rewrite (cons_middle (c, a)), app_assoc. apply IH. by apply considerAlias_shortest.
Qed.

Lemma considerCommands_shortest seen current commands :
  Help.shortest_match text seen current →
  Help.shortest_match text (seen ++ Help.candidates aliases commands)
    (fold_left (Help.considerCommand aliases text) commands current).
Proof.
  revert seen current. induction commands as [|c rest IH]; intros seen current Hcur; simpl.
  - by rewrite app_nil_r.
  - rewrite app_assoc. apply IH. by apply considerAliases_shortest.
Qed.

Lemma elem_of_candidates (c : Command) a commands :
  (c, a) ∈ Help.candidates aliases commands ↔ c ∈ commands ∧ a ∈ aliases c.
Proof.
  unfold Help.candidates. rewrite list_elem_of_In, in_flat_map. split.
  - intros (c' & Hc' & Ha). apply in_map_iff in Ha as (a' & [= -> ->] & Ha').
    split; by apply list_elem_of_In.
  - intros [Hc Ha]. exists c. split; [by apply list_elem_of_In|].
    apply in_map_iff. exists a. split; [done | by apply list_elem_of_In].
Qed.

Lemma findCloseMatchCommandForAlias_spec commands :
  match Help.findCloseMatchCommandForAlias aliases commands text with
  | None => ∀ c a, c ∈ commands → a ∈ aliases c → ¬ Help.occurs_in text a
  | Some c =>
      c ∈ commands ∧
      ∃ a, a ∈ aliases c ∧ Help.occurs_in text a ∧
           ∀ c' a', c' ∈ commands → a' ∈ aliases c' → Help.occurs_in text a' →
                    (length a ≤ length a')%nat
  end.
Proof.
  unfold Help.findCloseMatchCommandForAlias.
  assert (Help.shortest_match text ([] : list (Command * list CodeUnit)) None) as Hnil
    by (intros p Hp; by apply elem_of_nil in Hp).
  pose proof (considerCommands_shortest [] None commands Hnil) as H. simpl in H.
  destruct (fold_left (Help.considerCommand aliases text) commands None) as [[c a]|]; simpl.
  - destruct H as (Hocc & before & after & Hsplit & Hbefore & Hafter).
    assert ((c, a) ∈ Help.candidates aliases commands) as Hin.
    { rewrite Hsplit. apply elem_of_app. right. by left. }
    apply elem_of_candidates in Hin as [Hc Ha].
    split; [done|]. exists a. split; [done|]. split; [done|].
    intros c' a' Hc' Ha' Hocc'.
    assert ((c', a') ∈ Help.candidates aliases commands) as Hin'
      by (by apply elem_of_candidates).
    rewrite Hsplit in Hin'.
    apply elem_of_app in Hin' as [Hp|[[= -> ->]|Hp]%elem_of_cons].
    + specialize (Hbefore _ Hp Hocc'). simpl in Hbefore. lia.
    + done.
    + exact (Hafter _ Hp Hocc').
  - intros c a Hc Ha. apply (H (c, a)). by apply elem_of_candidates.
Qed.

End HelpCloseMatch.

(** X17.  [findCloseMatchCommandForAlias] finds a shortest match.  For a
    text that is not empty, it returns nothing exactly when the text occurs
    in no alias of any command; otherwise it returns a command that has an
    alias in which the text occurs and that is no longer than any alias, of
    any of the commands, in which the text occurs. *)
Theorem findCloseMatchCommandForAlias_finds_a_shortest_match {CodeUnit : Type}
    `{EqDecision CodeUnit} {Command : Type} (aliases : Command → list (list CodeUnit))
    (commands : list Command) (text : list CodeUnit) :
  text ≠ [] →
  match Help.findCloseMatchCommandForAlias aliases commands text with
  | None => ∀ c a, c ∈ commands → a ∈ aliases c → ¬ Help.occurs_in text a
  | Some c =>
      c ∈ commands ∧
      ∃ a, a ∈ aliases c ∧ Help.occurs_in text a ∧
           ∀ c' a', c' ∈ commands → a' ∈ aliases c' → Help.occurs_in text a' →
                    (length a ≤ length a')%nat
  end.
Proof. intros Htext. by apply findCloseMatchCommandForAlias_spec. Qed.

Lemma findCloseMatchCommandForAlias_finds_a_shortest_match_witness :
  code_units "k!k" ≠ [] ∧
  match Help.findCloseMatchCommandForAlias id sampleCommands (code_units "k!k") with
  | None => ∀ c a, c ∈ sampleCommands → a ∈ id c → ¬ Help.occurs_in (code_units "k!k") a
  | Some c =>
      c ∈ sampleCommands ∧
      ∃ a, a ∈ id c ∧ Help.occurs_in (code_units "k!k") a ∧
           ∀ c' a', c' ∈ sampleCommands → a' ∈ id c' →
                    Help.occurs_in (code_units "k!k") a' → (length a ≤ length a')%nat
  end.
Proof.
  split; [done|].
  exact (findCloseMatchCommandForAlias_finds_a_shortest_match id sampleCommands
           (code_units "k!k") (λ H, eq_ind (code_units "k!k")
              (λ l, match l with [] => False | _ => True end) I [] H)).
Defined.

(** The text occurs in both aliases of the second command; the shorter one
    decides, and the command is found. *)
Example close_match_of_sample_commands :
  Help.findCloseMatchCommandForAlias id sampleCommands (code_units "k!k")
    = Some [code_units "k!kanji"; code_units "k!k"] ∧
  Help.findCloseMatchCommandForAlias id sampleCommands (code_units "order")
    = Some [code_units "k!strokeorder"; code_units "k!so"] ∧
  Help.findCloseMatchCommandForAlias id sampleCommands (code_units "jisho") = None.
Proof. vm_compute. repeat split. Qed.

(** The empty text occurs in every alias, and an empty alias is falsy: the
    command of the longer alias replaces that of the empty one. *)
Example close_match_of_the_empty_text :
  Help.findCloseMatchCommandForAlias id [[code_units ""]; [code_units "abc"]] (code_units "")
    = Some [code_units "abc"].
Proof. vm_compute. reflexivity. Qed.

(** The position is that of the first alias that is listed, here the second
    entry of the list, though the other alias is its first entry. *)
Example index_of_the_first_listed_alias :
  Help.indexOfAliasInList id [code_units "k!r"; code_units "k!random"]
    [code_units "k!random"; code_units "k!r"] = 1 ∧
  Help.compareCommandOrder id [code_units "k!r"] [code_units "k!random"]
    [code_units "k!random"; code_units "k!r"] = 1 ∧
  Help.indexOfAliasInList id [code_units "k!j"] [code_units "k!random"] = -1.
Proof. vm_compute. repeat split. Qed.

(** ** The exact match and the close match *)

Section HelpExact.

Context {CodeUnit : Type} `{EqDecision CodeUnit}.
Context {Command : Type} (aliases : Command → list (list CodeUnit)).

Variable text : list CodeUnit.
Hypothesis Htext : text ≠ [].

Lemma Array_indexOf_elem_of array (element : list CodeUnit) :
  negb (Help.Array_indexOf array element =? -1) = true ↔ element ∈ array.
Proof.
  unfold Help.Array_indexOf.
  destruct (Array_indexOf_from_spec 0 array element) as [[-> Hnot] | (i & -> & Hi & _)].
  - simpl. split; [done | by intros ?].
  - split.
    + intros _. by eapply list_elem_of_lookup_2.
    + intros _. apply negb_true_iff, Z.eqb_neq. lia.
Qed.

Lemma occurs_in_refl : Help.occurs_in text text.
Proof. exists [], []. by rewrite app_nil_r. Qed.

Lemma occurs_in_length (s : list CodeUnit) :
  Help.occurs_in text s → (length text ≤ length s)%nat.
Proof. intros (b & a & ->). rewrite !length_app. lia. Qed.

Lemma occurs_in_same_length (s : list CodeUnit) :
  Help.occurs_in text s → (length s ≤ length text)%nat → s = text.
Proof.
  intros (b & a & ->). rewrite !length_app. intros H.
  destruct b; [|simpl in H; lia]. destruct a; [|simpl in H; lia]. simpl. by rewrite app_nil_r.
Qed.

Lemma truthy_text : Help.truthy text = true.
Proof. by destruct text. Qed.

(** Once the text itself is the alias that is kept, it stays. *)
Lemma considerAlias_exact (c0 c : Command) a :
  Help.considerAlias text c (Some (c0, text)) a = Some (c0, text).
Proof.
  unfold Help.considerAlias.
  destruct (negb (Help.String_indexOf a text =? -1)) eqn:Hocc; [|done].
  apply String_indexOf_occurs, occurs_in_length in Hocc.
  rewrite truthy_text. simpl.
  by destruct (Nat.ltb_spec (length a) (length text)); [lia|].
Qed.

Lemma considerAliases_exact (c0 c : Command) remaining :
  fold_left (Help.considerAlias text c) remaining (Some (c0, text)) = Some (c0, text).
Proof. induction remaining as [|a rest IH]; simpl; [done|]. by rewrite considerAlias_exact. Qed.

Lemma considerCommands_exact (c0 : Command) commands :
  fold_left (Help.considerCommand aliases text) commands (Some (c0, text)) = Some (c0, text).
Proof.
  induction commands as [|c rest IH]; simpl; [done|].
  unfold Help.considerCommand at 2. by rewrite considerAliases_exact.
Qed.

Lemma considerAlias_longer current (c : Command) a :
  a ≠ text → Help.longer_match text current →
  Help.longer_match text (Help.considerAlias text c current a).
Proof.
  intros Hne Hcur. unfold Help.considerAlias.
  destruct (negb (Help.String_indexOf a text =? -1)) eqn:Hocc; [|done].
  apply String_indexOf_occurs in Hocc.
  destruct current as [[c1 a1]|]; [|done].
  by destruct (negb (Help.truthy a1) || (length a <? length a1)%nat).
Qed.

Lemma considerAliases_longer current (c : Command) remaining :
  text ∉ remaining → Help.longer_match text current →
  Help.longer_match text (fold_left (Help.considerAlias text c) remaining current).
Proof.
  revert current. induction remaining as [|a rest IH]; intros current Hnot Hcur; [done|].
  apply not_elem_of_cons in Hnot as [Hne Hnot]. simpl. apply IH; [done|].
  apply considerAlias_longer; [congruence | done].
Qed.

Lemma considerCommands_longer current commands :
  (∀ c, c ∈ commands → text ∉ aliases c) → Help.longer_match text current →
  Help.longer_match text (fold_left (Help.considerCommand aliases text) commands current).
Proof.
  revert current. induction commands as [|c rest IH]; intros current Hnot Hcur; [done|].
  simpl. apply IH.
  - intros c' Hc'. apply Hnot. by right.
  - apply considerAliases_longer; [|done]. apply Hnot. by left.
Qed.

(** The text itself replaces a longer alias. *)
Lemma considerAlias_text current (c : Command) :
  Help.longer_match text current →
  Help.considerAlias text c current text = Some (c, text).
Proof.
  intros Hcur. unfold Help.considerAlias.
  rewrite (proj2 (String_indexOf_occurs text text) occurs_in_refl).
  destruct current as [[c1 a1]|]; [|done]. destruct Hcur as [Hocc Hne].
  destruct (Nat.ltb_spec (length text) (length a1)) as [_|Hle].
  - by rewrite orb_true_r.
  - by apply (occurs_in_same_length a1 Hocc) in Hle.
Qed.

Lemma considerCommand_lists current (c : Command) :
  text ∈ aliases c → Help.longer_match text current →
  Help.considerCommand aliases text current c = Some (c, text).
Proof.
  intros Hin Hcur. unfold Help.considerCommand.
  apply list_elem_of_split_l in Hin as (l1 & l2 & -> & Hnot).
  rewrite fold_left_app. cbn [fold_left].
  match goal with |- fold_left _ _ ?x = _ => assert (x = Some (c, text)) as -> end.
  { apply considerAlias_text. by apply considerAliases_longer. }
  apply considerAliases_exact.
Qed.

Lemma findCommandWithAlias_first commands (c : Command) :
  Help.findCommandWithAlias aliases commands text = Some c →
  ∃ before after, commands = before ++ c :: after ∧ text ∈ aliases c ∧
                  ∀ c', c' ∈ before → text ∉ aliases c'.
Proof.
  unfold Help.findCommandWithAlias.
  induction commands as [|c1 rest IH]; simpl; [done|].
  destruct (negb (Help.Array_indexOf (aliases c1) text =? -1)) eqn:E.
  - intros [= ->]. exists [], rest. split; [done|].
    split; [by apply Array_indexOf_elem_of|]. intros c' Hc'. by apply elem_of_nil in Hc'.
  - intros H. destruct (IH H) as (before & after & -> & Hin & Hnot).
    exists (c1 :: before), after. split; [done|]. split; [done|].
    intros c' [->|Hc']%elem_of_cons; [|by apply Hnot].
    intros Hin1%Array_indexOf_elem_of. congruence.
Qed.

Lemma close_match_of_an_exact_match commands (c : Command) :
  Help.findCommandWithAlias aliases commands text = Some c →
  Help.findCloseMatchCommandForAlias aliases commands text = Some c.
Proof.
  intros (before & after & -> & Hin & Hnot)%findCommandWithAlias_first.
  unfold Help.findCloseMatchCommandForAlias.
  rewrite fold_left_app. cbn [fold_left].
  match goal with |- _ <$> fold_left _ _ ?x = _ => assert (x = Some (c, text)) as -> end.
  { apply considerCommand_lists; [done|]. by apply considerCommands_longer. }
  by rewrite considerCommands_exact.
Qed.

End HelpExact.

(** X21.  The two searches of the help command agree.  [findCommandWithAlias]
    returns the first of the commands that lists the alias, and nothing when
    no command lists it; and when it finds a command for a text that is not
    empty, [findCloseMatchCommandForAlias] finds the same command: a close
    match is only ever another command when no command has the alias. *)
Theorem close_match_agrees_with_the_exact_match {CodeUnit : Type}
    `{EqDecision CodeUnit} {Command : Type} (aliases : Command → list (list CodeUnit))
    (commands : list Command) (text : list CodeUnit) :
  text ≠ [] →
  match Help.findCommandWithAlias aliases commands text with
  | None => ∀ c, c ∈ commands → text ∉ aliases c
  | Some c =>
      (∃ before after, commands = before ++ c :: after ∧ text ∈ aliases c ∧
                       ∀ c', c' ∈ before → text ∉ aliases c') ∧
      Help.findCloseMatchCommandForAlias aliases commands text = Some c
  end.
Proof.
  intros Htext.
  destruct (Help.findCommandWithAlias aliases commands text) as [c|] eqn:E.
  - split; [by apply findCommandWithAlias_first | by apply close_match_of_an_exact_match].
  - intros c Hc Hin. unfold Help.findCommandWithAlias in E.
    apply list_elem_of_In in Hc. apply (find_none _ _ E c) in Hc.
    apply Array_indexOf_elem_of in Hin. congruence.
Qed.

Lemma close_match_agrees_with_the_exact_match_witness :
  code_units "k!so" ≠ [] ∧
  match Help.findCommandWithAlias id sampleCommands (code_units "k!so") with
  | None => ∀ c, c ∈ sampleCommands → code_units "k!so" ∉ id c
  | Some c =>
      (∃ before after, sampleCommands = before ++ c :: after ∧ code_units "k!so" ∈ id c ∧
                       ∀ c', c' ∈ before → code_units "k!so" ∉ id c') ∧
      Help.findCloseMatchCommandForAlias id sampleCommands (code_units "k!so") = Some c
  end.
Proof.
  split; [done|].
  exact (close_match_agrees_with_the_exact_match id sampleCommands
           (code_units "k!so") (λ H, eq_ind (code_units "k!so")
              (λ l, match l with [] => False | _ => True end) I [] H)).
Defined.

(** The alias of the third command is found by both searches; a text that is
    no alias is found by the second search alone. *)
Example exact_and_close_match_of_sample_commands :
  Help.findCommandWithAlias id sampleCommands (code_units "k!so")
    = Some [code_units "k!strokeorder"; code_units "k!so"] ∧
  Help.findCloseMatchCommandForAlias id sampleCommands (code_units "k!so")
    = Some [code_units "k!strokeorder"; code_units "k!so"] ∧
  Help.findCommandWithAlias id sampleCommands (code_units "k!s") = None ∧
  Help.findCloseMatchCommandForAlias id sampleCommands (code_units "k!s")
    = Some [code_units "k!strokeorder"; code_units "k!so"].
Proof. vm_compute. repeat split. Qed.

(** * The random-word command *)

Lemma random_count_app p l1 l2 :
  Random.count p (l1 ++ l2) = (Random.count p l1 + Random.count p l2)%nat.
Proof. unfold Random.count. by rewrite filter_app, length_app. Qed.

Lemma random_count_cons p e l :
  Random.count p (e :: l) = ((if p e then 1 else 0) + Random.count p l)%nat.
Proof.
  unfold Random.count. rewrite filter_cons.
  destruct (p e); [by rewrite decide_True | by rewrite decide_False].
Qed.

Section RandomWord.

Context (env : Random.Env).

Ltac count_events :=
  rewrite ?random_count_cons in *; cbn [Random.is_search Random.is_message Random.is_register] in *.

(** The searches and the messages of a call are bounded by a power of two. *)
Lemma getRandomWordRecusive_bounds suffix retriesRemaining events :
  let r := Random.getRandomWordRecusive env suffix retriesRemaining events in
  (Random.count Random.is_search (snd r) + 1
   ≤ Random.count Random.is_search events + 2 ^ retriesRemaining)%nat ∧
  (Random.count Random.is_message (snd r)
   ≤ Random.count Random.is_message events + 2 ^ retriesRemaining)%nat.
Proof.
  revert events. induction retriesRemaining as [|n IH]; intros events.
  - cbn [Random.getRandomWordRecusive]. cbv zeta.
    destruct (Random.createMessage env _); simpl snd; count_events; simpl; lia.
  - cbn [Random.getRandomWordRecusive]. cbv zeta in *.
    assert (2 ^ S n = 2 ^ n + 2 ^ n)%nat as Hpow by (simpl; lia).
    assert (1 ≤ 2 ^ n)%nat as Hone by (clear; induction n; simpl; lia).
    destruct (Random.getRandomWord env (length events)) as [word|e];
      [|simpl snd; count_events; lia].
    assert (∀ evs,
              let r := match Random.getRandomWordRecusive env suffix n
                               (Random.EvLogFailure ("Failed to find " +:+ word) :: evs) with
                       | (Thrown e, events) => (Rejected e, events)
                       | r => r
                       end in
              Random.count Random.is_search (snd r) + 1
                ≤ Random.count Random.is_search evs + 2 ^ n ∧
              Random.count Random.is_message (snd r)
                ≤ Random.count Random.is_message evs + 2 ^ n)%nat as Hfailed.
    { intros evs. cbv zeta.
      pose proof (IH (Random.EvLogFailure ("Failed to find " +:+ word) :: evs)) as H.
      destruct (Random.getRandomWordRecusive env suffix n _) as [[] evs'];
        simpl snd in *; count_events; lia. }
    destruct (Random.jishoWordSearch env _) as [hasResults|e|e].
    + destruct hasResults; cbn [negb].
      * destruct (Random.createNavigationForJishoResults env _).
        -- match goal with |- context [Random.EvLogFailure _ :: ?evs] =>
             pose proof (Hfailed evs) as H end.
           cbv zeta in H. count_events. lia.
        -- destruct (Random.register env _).
           ++ match goal with |- context [Random.EvLogFailure _ :: ?evs] =>
                pose proof (Hfailed evs) as H end.
              cbv zeta in H. count_events. lia.
           ++ simpl snd. count_events. lia.
      * match goal with |- context [Random.getRandomWordRecusive env suffix n ?evs] =>
          pose proof (IH evs) as H1;
          destruct (Random.getRandomWordRecusive env suffix n evs) as [[] evs1]
        end; simpl snd in H1; count_events.
        -- simpl snd. lia.
        -- pose proof (Hfailed evs1) as H. cbv zeta in H. lia.
        -- pose proof (Hfailed evs1) as H. cbv zeta in H. lia.
        -- simpl snd. lia.
    + match goal with |- context [Random.EvLogFailure _ :: ?evs] =>
        pose proof (Hfailed evs) as H end.
      cbv zeta in H. count_events. lia.
    + simpl snd. count_events. lia.
Qed.

(** The command with collaborators that behave. *)
Lemma getRandomWordRecusive_behaves suffix retriesRemaining events :
  Random.behaves env →
  let r := Random.getRandomWordRecusive env suffix retriesRemaining events in
  fst r = Fulfilled tt ∧
  (Random.count Random.is_search (snd r)
   ≤ Random.count Random.is_search events + retriesRemaining)%nat ∧
  (head (snd r) = Some Random.EvRegister ∧
   Random.count Random.is_register (snd r) = S (Random.count Random.is_register events) ∧
   Random.count Random.is_message (snd r) = Random.count Random.is_message events
   ∨
   head (snd r) = Some Random.EvCreateMessage ∧
   Random.count Random.is_search (snd r)
     = (Random.count Random.is_search events + retriesRemaining)%nat ∧
   Random.count Random.is_register (snd r) = Random.count Random.is_register events ∧
   Random.count Random.is_message (snd r) = S (Random.count Random.is_message events)).
Proof.
  intros (Hword & Hsearch & Hnavigation & Hregister & Hmessage).
  revert events. induction retriesRemaining as [|n IH]; intros events.
  - cbn [Random.getRandomWordRecusive]. cbv zeta. rewrite Hmessage. simpl fst. simpl snd.
    split; [done|]. count_events. split; [lia|]. right. repeat split; lia.
  - cbn [Random.getRandomWordRecusive]. cbv zeta in *.
    pose proof (Hword (length events)) as Hw.
    destruct (Random.getRandomWord env (length events)) as [word|e]; [clear Hw|by destruct (Hw e)].
    assert (∀ evs,
              Random.count Random.is_search evs = S (Random.count Random.is_search events) →
              Random.count Random.is_register evs = Random.count Random.is_register events →
              Random.count Random.is_message evs = Random.count Random.is_message events →
              let r := Random.getRandomWordRecusive env suffix n evs in
              fst r = Fulfilled tt ∧
              (Random.count Random.is_search (snd r)
               ≤ Random.count Random.is_search events + S n)%nat ∧
              (head (snd r) = Some Random.EvRegister ∧
               Random.count Random.is_register (snd r)
                 = S (Random.count Random.is_register events) ∧
               Random.count Random.is_message (snd r) = Random.count Random.is_message events
               ∨
               head (snd r) = Some Random.EvCreateMessage ∧
               Random.count Random.is_search (snd r)
                 = (Random.count Random.is_search events + S n)%nat ∧
               Random.count Random.is_register (snd r)
                 = Random.count Random.is_register events ∧
               Random.count Random.is_message (snd r)
                 = S (Random.count Random.is_message events))) as Hnext.
    { intros evs Hs Hr Hm. destruct (IH evs) as (H1 & H2 & H3).
      split; [done|]. split; [lia|].
      destruct H3 as [(? & ? & ?)|(? & ? & ? & ?)]; [left | right]; repeat split; try done; lia. }
    pose proof (Hsearch (S (length events))) as Hs.
    destruct (Random.jishoWordSearch env _) as [hasResults|e|e]; [| |by destruct (Hs e)].
    + destruct hasResults; cbn [negb].
      * rewrite Hnavigation, Hregister. simpl fst. simpl snd.
        split; [done|]. count_events. split; [lia|]. left. repeat split; lia.
      * match goal with |- context [Random.getRandomWordRecusive env suffix n ?evs] =>
          destruct (Hnext evs) as (H1 & H2 & H3); [by count_events..|];
          destruct (Random.getRandomWordRecusive env suffix n evs) as [o evs1]
        end.
        simpl in H1. subst o. done.
    + match goal with |- context [Random.getRandomWordRecusive env suffix n ?evs] =>
        destruct (Hnext evs) as (H1 & H2 & H3); [by count_events..|];
        destruct (Random.getRandomWordRecusive env suffix n evs) as [o evs1]
      end.
      simpl in H1. subst o. done.
Qed.

End RandomWord.

(** X18.  The random-word command gives up after five words.  When the word
    source and the search do not throw, navigations are created and
    registered and the message is sent, [getRandomWordRecusive] looks up at
    most [retriesRemaining] words and its promise is fulfilled.  It ends
    either by registering one navigation, for the first word with results,
    and sends no message; or, after [retriesRemaining] lookups that were
    rejected or had no results, by sending the message that Jisho is not
    responding, once, and registers nothing. *)
Theorem random_word_gives_up_after_the_retries env suffix retriesRemaining events :
  Random.behaves env →
  let r := Random.getRandomWordRecusive env suffix retriesRemaining events in
  fst r = Fulfilled tt ∧
  (Random.count Random.is_search (snd r)
   ≤ Random.count Random.is_search events + retriesRemaining)%nat ∧
  (head (snd r) = Some Random.EvRegister ∧
   Random.count Random.is_register (snd r) = S (Random.count Random.is_register events) ∧
   Random.count Random.is_message (snd r) = Random.count Random.is_message events
   ∨
   head (snd r) = Some Random.EvCreateMessage ∧
   Random.count Random.is_search (snd r)
     = (Random.count Random.is_search events + retriesRemaining)%nat ∧
   Random.count Random.is_register (snd r) = Random.count Random.is_register events ∧
   Random.count Random.is_message (snd r) = S (Random.count Random.is_message events)).
Proof. apply getRandomWordRecusive_behaves. Qed.

Lemma third_time_lucky_behaves : Random.behaves Random.third_time_lucky.
Proof.
  repeat split; try done. intros t e. simpl. by destruct (Nat.eqb t 5).
Qed.

Lemma random_word_gives_up_after_the_retries_witness :
  let r := Random.action Random.third_time_lucky "N3" [] in
  Random.behaves Random.third_time_lucky ∧
  fst r = Fulfilled tt ∧
  (Random.count Random.is_search (snd r) ≤ 0 + 5)%nat ∧
  (head (snd r) = Some Random.EvRegister ∧
   Random.count Random.is_register (snd r) = 1%nat ∧
   Random.count Random.is_message (snd r) = 0%nat
   ∨
   head (snd r) = Some Random.EvCreateMessage ∧
   Random.count Random.is_search (snd r) = (0 + 5)%nat ∧
   Random.count Random.is_register (snd r) = 0%nat ∧
   Random.count Random.is_message (snd r) = 1%nat).
Proof.
  split; [exact third_time_lucky_behaves|].
  exact (random_word_gives_up_after_the_retries Random.third_time_lucky "N3" 5 []
           third_time_lucky_behaves).
Defined.

(** Three words are looked up; the third has results. *)
Example third_time_lucky_events :
  rev (snd (Random.action Random.third_time_lucky "N3" []))
  = [ Random.EvGetRandomWord "N3"; Random.EvJishoWordSearch "neko";
      Random.EvGetRandomWord "N3"; Random.EvJishoWordSearch "neko";
      Random.EvGetRandomWord "N3"; Random.EvJishoWordSearch "neko";
      Random.EvCreateNavigation; Random.EvRegister ].
Proof. vm_compute. reflexivity. Qed.

(** X19.  The retries of the random-word command multiply when the message
    cannot be sent.  Whatever the collaborators do, a call with
    [retriesRemaining] retries makes fewer than [2 ^ retriesRemaining]
    lookups and sends the message at most [2 ^ retriesRemaining] times; the
    command itself, which starts with five retries, reaches both bounds, 31
    lookups and 32 messages, when no word has results and the channel
    rejects the message: a call that fails in the callback of [then] is made
    again by the handler of [catch]. *)
Theorem random_word_retries_multiply env suffix retriesRemaining events :
  let r := Random.getRandomWordRecusive env suffix retriesRemaining events in
  (Random.count Random.is_search (snd r)
   < Random.count Random.is_search events + 2 ^ retriesRemaining)%nat ∧
  (Random.count Random.is_message (snd r)
   ≤ Random.count Random.is_message events + 2 ^ retriesRemaining)%nat ∧
  let worst := Random.action Random.nothing_works suffix [] in
  Random.count Random.is_search (snd worst) = 31%nat ∧
  Random.count Random.is_message (snd worst) = 32%nat ∧
  fst worst = Rejected (Fault "missing permissions").
Proof.
  destruct (getRandomWordRecusive_bounds env suffix retriesRemaining events) as [Hs Hm].
  cbv zeta in *. split; [lia|]. split; [done|]. by vm_compute.
Qed.
